(** * kerncraft: access-pattern extraction and cache-access simulation (ECM)

    A shallow embedding of [ecm.py] (classes [Kernel] and [ECM], the function
    [blocking] and the result comparison of the driver), of
    [models/ecm.py] ([ECMData.calculate_cache_access]) and of the comparison
    loop of [kerncraft/kerncraft.py].

    Python integers are [Z]; the [/] of Python 2 on integers is floor
    division, which is [Z.div]; [%] is [Z.modulo].  Python exceptions are the
    [Raise] results of a small error monad.  Dictionaries are association
    lists in insertion order: every quantity proved about below is either a
    lookup or a sum over the entries, and so does not depend on the order in
    which a Python 2 dictionary enumerates its keys. *)

From stdpp Require Import base decidable list sorting pretty.
From Stdlib Require Import ZArith QArith Qabs String Ascii Lia.

Open Scope string_scope.
Open Scope list_scope.
Open Scope Z_scope.

Set Warnings "-register-all".

(** ** Python exceptions and the error monad *)

Inductive pyerr : Type :=
  | AssertionError (msg : string)
  | ValueError
  | TypeError
  | IndexError
  | KeyError
  | AttributeError
  | ZeroDivisionError.

Inductive res (A : Type) : Type :=
  | Ok (a : A)
  | Raise (e : pyerr).
Arguments Ok {A} a.
Arguments Raise {A} e.

Definition bind {A B : Type} (m : res A) (k : A -> res B) : res B :=
  match m with
  | Ok a => k a
  | Raise e => Raise e
  end.

Notation "'let*' x ':=' m 'in' k" := (bind m (fun x => k))
  (at level 10, x pattern, m at level 100, k at level 200).

Definition py_assert (b : bool) (msg : string) : res unit :=
  if b then Ok tt else Raise (AssertionError msg).

(** [for x in l: acc = f(acc, x)] where the body may raise. *)
Fixpoint foldM {A B : Type} (f : B -> A -> res B) (l : list A) (b : B) : res B :=
  match l with
  | [] => Ok b
  | x :: l' => let* b' := f b x in foldM f l' b'
  end.

(** [map(f, l)] of Python 2 (eager), where [f] may raise. *)
Fixpoint mapM {A B : Type} (f : A -> res B) (l : list A) : res (list B) :=
  match l with
  | [] => Ok []
  | x :: l' => let* y := f x in let* ys := mapM f l' in Ok (y :: ys)
  end.

(** [filter(f, l)] of Python 2 (eager), where [f] may raise. *)
Fixpoint filterM {A : Type} (f : A -> res bool) (l : list A) : res (list A) :=
  match l with
  | [] => Ok []
  | x :: l' =>
      let* b := f x in
      let* ys := filterM f l' in
      Ok (if b then x :: ys else ys)
  end.

(** ** Dictionaries *)

Section Dict.
Context {K V : Type} (keq : K -> K -> bool).

Definition dict : Type := list (K * V).

Fixpoint dget (d : dict) (k : K) : option V :=
  match d with
  | [] => None
  | (k', v) :: d' => if keq k k' then Some v else dget d' k
  end.

(** [d[k] = v] *)
Fixpoint dset (d : dict) (k : K) (v : V) : dict :=
  match d with
  | [] => [(k, v)]
  | (k', v') :: d' => if keq k k' then (k', v) :: d' else (k', v') :: dset d' k v
  end.

Definition dhas (d : dict) (k : K) : bool :=
  match dget d k with Some _ => true | None => false end.

(** [d.setdefault(k, v)] *)
Definition setdefault (d : dict) (k : K) (v : V) : dict :=
  if dhas d k then d else dset d k v.

Definition dkeys (d : dict) : list K := map fst d.

(** [d[k]], raising [KeyError] on a missing key. *)
Definition dindex (d : dict) (k : K) : res V :=
  match dget d k with Some v => Ok v | None => Raise KeyError end.
End Dict.

Arguments dict K V : clear implicits.

(** ** Lists of integers *)

Definition zmem (x : Z) (l : list Z) : bool := existsb (Z.eqb x) l.

(** [l] without the first occurrence of [x]. *)
Fixpoint list_remove (x : Z) (l : list Z) : list Z :=
  match l with
  | [] => []
  | y :: l' => if Z.eqb x y then l' else y :: list_remove x l'
  end.

(** [l.remove(x)]: [ValueError] when [x] is not in [l]. *)
Definition py_remove (x : Z) (l : list Z) : res (list Z) :=
  if zmem x l then Ok (list_remove x l) else Raise ValueError.

(** [l.sort()] and [sorted(l)] *)
Definition py_sorted (l : list Z) : list Z := merge_sort Z.le l.

(** [sorted(l, reverse=True)] *)
Definition py_sorted_rev (l : list Z) : list Z := merge_sort Z.ge l.

(** The elements of [l] without repetition, first occurrences kept in order. *)
Definition dedup_append (acc : list Z) (x : Z) : list Z :=
  if zmem x acc then acc else acc ++ [x].

(** [sorted(list(set(l)), reverse=True)] *)
Definition set_sorted_rev (l : list Z) : list Z :=
  py_sorted_rev (fold_left dedup_append l []).

Definition zsum (l : list Z) : Z := fold_right Z.add 0 l.

Definition zprod (l : list Z) : Z := fold_right Z.mul 1 l.

Definition zlen {A : Type} (l : list A) : Z := Z.of_nat (List.length l).

(** ** [blocking] *)

(** [bl_idx = (idx-initial_boundary)/block_size]; a zero [block_size] raises
    [ZeroDivisionError] at the first index. *)
Definition block_index (block_size initial_boundary idx : Z) : res Z :=
  if Z.eqb block_size 0 then Raise ZeroDivisionError
  else Ok ((idx - initial_boundary) / block_size).

Definition blocking (indices : list Z) (block_size initial_boundary : Z)
  : res (list Z) :=
  let* blocks :=
    foldM (fun blocks idx =>
             let* bl_idx := block_index block_size initial_boundary idx in
             Ok (dedup_append blocks bl_idx))
          indices [] in
  Ok (py_sorted blocks).

(** The cache lines covered by a list of block indices: block [b] covers the
    offsets [b*block_size + initial_boundary .. + block_size - 1]. *)
Definition covers_line (blocks : list Z) (block_size initial_boundary x : Z)
  : bool :=
  zmem ((x - initial_boundary) / block_size) blocks.

(** ** The [intervals] module *)

(** Modelled from the spec: the class [intervals.Intervals], which
    [ecm.py] imports and which is not among the sources.  It is a set of
    half-open integer ranges [(lower, upper)], stored sorted and disjoint, with
    a membership test, the total covered size, and the union that
    [cache &= Intervals(...)] computes (the simulator passes no cap). *)
Module Intervals.

Definition t : Type := list (Z * Z).

(** [Intervals()] *)
Definition empty : t := [].

(** One non-empty range added to a sorted, disjoint list: ranges that
    overlap or touch the new one are fused with it. *)
Fixpoint insert (r : Z * Z) (s : t) : t :=
  match s with
  | [] => [r]
  | c :: s' =>
      if snd r <? fst c then r :: c :: s'
      else if snd c <? fst r then c :: insert r s'
      else insert (Z.min (fst r) (fst c), Z.max (snd r) (snd c)) s'
  end.

Definition add (s : t) (r : Z * Z) : t :=
  if fst r <? snd r then insert r s else s.

(** [s & other], where [other] was built from [ranges] with [sane=True] *)
Definition merge (s : t) (ranges : list (Z * Z)) : t :=
  fold_left add ranges s.

(** [x in s] *)
Definition contains (s : t) (x : Z) : bool :=
  existsb (fun r => (fst r <=? x) && (x <? snd r)) s.

(** [len(s)] *)
Definition size (s : t) : Z := zsum (map (fun r => snd r - fst r) s).

(** [len(s._data)] *)
Definition count (s : t) : Z := zlen s.

End Intervals.

(** ** The syntax tree of pycparser ([c_ast]) *)

(** The text of a [Constant]: [int(value)] succeeds on an integer literal and
    raises [ValueError] on any other. *)
Inductive literal : Type :=
  | IntLit (z : Z)
  | OtherLit (text : string).

Definition py_int (v : literal) : res Z :=
  match v with
  | IntLit z => Ok z
  | OtherLit _ => Raise ValueError
  end.

Inductive ctype : Type :=
  | ArrayDecl (type : ctype) (dim : node)
  | TypeDecl (names : list string)
  | OtherType
with node : Type :=
  | ID (name : string)
  | Constant (value : literal)
  | BinaryOp (op : string) (left right : node)
  | UnaryOp (op : string) (expr : node)
  | ArrayRef (name : node) (subscript : node)
  | Assignment (op : string) (lvalue rvalue : node)
  | For (init cond next stmt : node)
  | Compound (block_items : option (list node))
  | Decl (name : string) (type : ctype)
  | NoneNode
  | OtherNode.

(** The operators pycparser produces in a [BinaryOp]. *)
Definition binary_operators : list string :=
  ["+"; "-"; "*"; "/"; "%"; "<"; ">"; "<="; ">="; "=="; "!="; "&&"; "||";
   "&"; "|"; "^"; "<<"; ">>"].

Definition str_in (s : string) (l : list string) : bool :=
  existsb (String.eqb s) l.

(** [s in t] for strings: [s] is a substring of [t]. *)
Fixpoint substring_of (s t : string) : bool :=
  String.prefix s t ||
  match t with
  | EmptyString => false
  | String _ t' => substring_of s t'
  end.

(** ** [Kernel] *)

Definition offset_info_loop : Type := (string * literal * Z * Z)%type.

(** One entry of an access: [('rel', idx, offset)], [('abs', value)] or
    [('dir',)]. *)
Inductive offset_info : Type :=
  | Rel (idx_name : string) (dim_offset : Z)
  | Abs (value : Z)
  | Dir.

Definition access : Type := list offset_info.

Record Kernel : Type := mkKernel {
  _loop_stack : list offset_info_loop;
  _sources : dict string (list access);
  _destinations : dict string (list access);
  _constants : dict string Z;
  _variables : dict string (string * option (list Z))
}.

(** [Kernel(kernel_code)] after parsing: every table is empty. *)
Definition new_kernel : Kernel := mkKernel [] [] [] [] [].

Definition set_loop_stack (k : Kernel) (v : list offset_info_loop) : Kernel :=
  mkKernel v (_sources k) (_destinations k) (_constants k) (_variables k).
Definition set_sources (k : Kernel) (v : dict string (list access)) : Kernel :=
  mkKernel (_loop_stack k) v (_destinations k) (_constants k) (_variables k).
Definition set_destinations (k : Kernel) (v : dict string (list access)) : Kernel :=
  mkKernel (_loop_stack k) (_sources k) v (_constants k) (_variables k).

(** A Python object given to [set_constant], as far as the two assertions of
    the method tell objects apart: [type(x) is str] holds of a [str] only, not
    of a [unicode], and [type(x) is int] of an [int] only: not of a [long],
    which is what an integer beyond [sys.maxint] is, nor of a [bool] or a
    [float]. *)
Inductive pyvalue : Type :=
  | VStr (s : string)
  | VInt (z : Z)
  | VLong (z : Z)
  | VOther.

Definition is_str (v : pyvalue) : bool :=
  match v with VStr _ => true | _ => false end.

Definition is_int (v : pyvalue) : bool :=
  match v with VInt _ => true | _ => false end.

(** [set_constant] *)
Definition set_constant (k : Kernel) (name value : pyvalue) : res Kernel :=
  let* _ := py_assert (is_str name) "constant name needs to be of type str" in
  let* _ := py_assert (is_int value) "constant value needs to be of type int" in
  match name, value with
  | VStr n, VInt v =>
      Ok (mkKernel (_loop_stack k) (_sources k) (_destinations k)
                   (dset String.eqb (_constants k) n v) (_variables k))
  | _, _ => Raise TypeError
  end.

(** [set_variable] *)
Definition set_variable (k : Kernel) (name type_ : string) (size : option (list Z))
  : res Kernel :=
  let* _ := py_assert (str_in type_ ["double"; "float"])
                      "only float and double variables are supported" in
  Ok (mkKernel (_loop_stack k) (_sources k) (_destinations k) (_constants k)
               (dset String.eqb (_variables k) name (type_, size))).

Definition loop_names (k : Kernel) : list string :=
  map (fun l => fst (fst (fst l))) (_loop_stack k).

(** Attribute access on a node; a missing attribute raises [AttributeError]. *)
Definition attr_op (n : node) : res string :=
  match n with
  | BinaryOp op _ _ | UnaryOp op _ | Assignment op _ _ => Ok op
  | _ => Raise AttributeError
  end.

Definition attr_left (n : node) : res node :=
  match n with BinaryOp _ l _ => Ok l | _ => Raise AttributeError end.

Definition attr_right (n : node) : res node :=
  match n with BinaryOp _ _ r => Ok r | _ => Raise AttributeError end.

Definition attr_value (n : node) : res literal :=
  match n with Constant v => Ok v | _ => Raise AttributeError end.

(** [n.name] is a string on an [ID] and a node on an [ArrayRef]. *)
Inductive name_attr : Type :=
  | NameStr (s : string)
  | NameNode (n : node).

Definition attr_name (n : node) : res name_attr :=
  match n with
  | ID s => Ok (NameStr s)
  | ArrayRef a _ => Ok (NameNode a)
  | _ => Raise AttributeError
  end.

(** [a == b] on [name] attributes: two strings are compared by value, a node
    is equal to itself only. *)
Definition name_eqb (a b : name_attr) : bool :=
  match a, b with
  | NameStr x, NameStr y => String.eqb x y
  | _, _ => false
  end.

Definition is_ID (n : node) : bool := match n with ID _ => true | _ => false end.
Definition is_Constant (n : node) : bool :=
  match n with Constant _ => true | _ => false end.
Definition is_BinaryOp (n : node) : bool :=
  match n with BinaryOp _ _ _ => true | _ => false end.
Definition is_UnaryOp (n : node) : bool :=
  match n with UnaryOp _ _ => true | _ => false end.
Definition is_ArrayRef (n : node) : bool :=
  match n with ArrayRef _ _ => true | _ => false end.
Definition is_Assignment (n : node) : bool :=
  match n with Assignment _ _ _ => true | _ => false end.
Definition is_For (n : node) : bool :=
  match n with For _ _ _ _ => true | _ => false end.
Definition is_Compound (n : node) : bool :=
  match n with Compound _ => true | _ => false end.
Definition is_Decl (n : node) : bool :=
  match n with Decl _ _ => true | _ => false end.

(** *** [conv_ast_to_sympy] and the evaluation of a dimension *)

Inductive sympy_expr : Type :=
  | Symbol (name : string)
  | SInteger (z : Z)
  | SMul (l r : sympy_expr)
  | SAdd (l r : sympy_expr).

(** The function returns a Python [int] on a [Constant] and a SymPy
    expression otherwise. *)
Inductive conv_value : Type :=
  | PyInt (z : Z)
  | Sym (e : sympy_expr).

Definition sympify (v : conv_value) : sympy_expr :=
  match v with PyInt z => SInteger z | Sym e => e end.

Fixpoint conv_ast_to_sympy (math_ast : node) : res conv_value :=
  match math_ast with
  | ID name => Ok (Sym (Symbol name))
  | Constant value => let* z := py_int value in Ok (PyInt z)
  | BinaryOp op l r =>
      if str_in op ["*"; "+"; "-"] then
        let* lv := conv_ast_to_sympy l in
        let* rv := conv_ast_to_sympy r in
        if String.eqb op "*" then Ok (Sym (SMul (sympify lv) (sympify rv)))
        else if String.eqb op "+" then Ok (Sym (SAdd (sympify lv) (sympify rv)))
        else Ok (Sym (SAdd (sympify lv) (SMul (SInteger (-1)) (sympify rv))))
      else Raise KeyError
  | UnaryOp op _ | Assignment op _ _ =>
      if str_in op ["*"; "+"; "-"] then Raise AttributeError else Raise KeyError
  | _ => Raise AttributeError
  end.

(** The value of an expression every symbol of which is a key of
    [constants]. *)
Fixpoint sym_value (constants : dict string Z) (e : sympy_expr) : option Z :=
  match e with
  | Symbol name => dget String.eqb constants name
  | SInteger z => Some z
  | SMul l r =>
      match sym_value constants l, sym_value constants r with
      | Some a, Some b => Some (a * b)
      | _, _ => None
      end
  | SAdd l r =>
      match sym_value constants l, sym_value constants r with
      | Some a, Some b => Some (a + b)
      | _, _ => None
      end
  end.

(** SymPy is not part of the repository.  When every symbol of [e] is a key
    of [constants], [int(e.subs(constants))] is the value of [e].  When some
    symbol is not, the outcome depends on how SymPy simplifies the expression
    after the substitution: [N - N + M] with only [M] bound may be left as an
    integer, while [int] raises [TypeError] on an expression that keeps a
    symbol.  The model does not fix this outcome: it is a parameter, and what
    is proved below holds for every choice of it. *)
Class SymPy : Type := {
  int_subs_unbound : dict string Z -> sympy_expr -> res Z
}.

(** [int(e.subs(constants))] *)
Definition subs_int {sp : SymPy} (constants : dict string Z) (e : sympy_expr)
  : res Z :=
  match sym_value constants e with
  | Some v => Ok v
  | None => int_subs_unbound constants e
  end.

(** [int(conv_ast_to_sympy(t.dim).subs(self._constants))]: a Python [int]
    has no [subs]. *)
Definition eval_dim {sp : SymPy} (constants : dict string Z) (dim : node) : res Z :=
  let* v := conv_ast_to_sympy dim in
  match v with
  | PyInt _ => Raise AttributeError
  | Sym e => subs_int constants e
  end.

(** The [while type(t) is c_ast.ArrayDecl] loop of [process], followed by
    [t.type.names]. *)
Fixpoint decl_dims {sp : SymPy} (constants : dict string Z) (t : ctype)
  : res (list Z * list string) :=
  match t with
  | ArrayDecl t' dim =>
      let* d := eval_dim constants dim in
      let* rest := decl_dims constants t' in
      Ok (d :: fst rest, snd rest)
  | TypeDecl names => Ok ([], names)
  | OtherType => Raise AttributeError
  end.

(** *** [Kernel._get_offsets] and [Kernel._get_basename] *)

(** The entry of one subscript. *)
Definition subscript_offset (k : Kernel) (subscript : node) : res offset_info :=
  match subscript with
  | BinaryOp op l r =>
      let* _ := py_assert (substring_of op "+-")
                  "binary operations in array subscript must by + or -" in
      let* _ := py_assert (is_ID l && is_Constant r)
                  "binary operation in array subscript may only have form variable +- constant" in
      match l, r with
      | ID lname, Constant rvalue =>
          let* _ := py_assert (str_in lname (loop_names k))
                      "varialbes used in array indices has to be a loop counter" in
          let sign := if String.eqb op "+" then 1 else -1 in
          let* v := py_int rvalue in
          Ok (Rel lname (sign * v))
      | _, _ => Raise AttributeError
      end
  | ID name =>
      let* _ := py_assert (str_in name (loop_names k))
                  "varialbes used in array indices has to be a loop counter" in
      Ok (Rel name 0)
  | Constant value =>
      let* v := py_int value in Ok (Abs v)
  | _ => Raise AttributeError
  end.

(** [_get_offsets(aref, dim)] for [dim > 0]: innermost subscript first. *)
Fixpoint _get_offsets_rec (k : Kernel) (aref : node) : res (list offset_info) :=
  match aref with
  | ArrayRef name subscript =>
      let* _ := py_assert (is_ArrayRef name || is_ID name)
                  "array references must only be used with variables or other array references" in
      let* _ := py_assert (is_ID subscript || is_Constant subscript || is_BinaryOp subscript)
                  "array subscript must only contain variables or binary operations" in
      let* idx := subscript_offset k subscript in
      if is_ArrayRef name then
        let* more := _get_offsets_rec k name in
        Ok (idx :: more)
      else Ok [idx]
  | _ => Raise AttributeError
  end.

(** [_get_offsets(aref)]: at [dim == 0] the list is reversed. *)
Definition _get_offsets (k : Kernel) (aref : node) : res access :=
  let* idxs := _get_offsets_rec k aref in Ok (rev idxs).

Fixpoint _get_basename (aref : node) : res string :=
  match aref with
  | ArrayRef name _ =>
      match name with
      | ArrayRef _ _ => _get_basename name
      | ID s => Ok s
      | _ => Raise AttributeError
      end
  | _ => Raise AttributeError
  end.

(** *** Methods that update the kernel

    A method is a function from the kernel before the call to its outcome and
    the kernel after it; an exception leaves the updates made before it. *)

Definition kst (A : Type) : Type := Kernel -> res A * Kernel.

Definition kret {A : Type} (a : A) : kst A := fun k => (Ok a, k).

Definition kbind {A B : Type} (m : kst A) (f : A -> kst B) : kst B :=
  fun k =>
    match m k with
    | (Ok a, k') => f a k'
    | (Raise e, k') => (Raise e, k')
    end.

(** A computation that reads the kernel and may raise. *)
Definition kread {A : Type} (f : Kernel -> res A) : kst A := fun k => (f k, k).

Definition kmodify (f : Kernel -> Kernel) : kst unit := fun k => (Ok tt, f k).

Notation "'do' x '<-' m ';' f" := (kbind m (fun x => f))
  (at level 10, x pattern, m at level 100, f at level 200).

Fixpoint kiter {A : Type} (f : A -> kst unit) (l : list A) : kst unit :=
  match l with
  | [] => kret tt
  | x :: l' => do _ <- f x; kiter f l'
  end.

(** [table.setdefault(name, [])] followed by [table[name].append(acs)]. *)
Definition record_access (table : dict string (list access)) (name : string)
    (acs : access) : dict string (list access) :=
  let t := setdefault String.eqb table name [] in
  match dget String.eqb t name with
  | Some l => dset String.eqb t name (l ++ [acs])
  | None => t
  end.

Definition touch (table : dict string (list access)) (name : string)
  : dict string (list access) :=
  setdefault String.eqb table name [].

(** *** [Kernel._p_sources] *)
Fixpoint _p_sources (stmt : node) : kst unit :=
  match stmt with
  | ArrayRef _ _ =>
      do bname <- kread (fun _ => _get_basename stmt);
      do _ <- kmodify (fun k => set_sources k (touch (_sources k) bname));
      do offs <- kread (fun k => _get_offsets k stmt);
      kmodify (fun k => set_sources k (record_access (_sources k) bname offs))
  | ID name =>
      kmodify (fun k => set_sources k (record_access (_sources k) name [Dir]))
  | BinaryOp _ l r =>
      do _ <- _p_sources l; _p_sources r
  | Constant _ => kret tt
  | _ => kread (fun _ => Raise (AssertionError
           "only references to arrays, constants and variables as well as binary operations are supported"))
  end.

(** *** [Kernel._p_assignment] *)
Definition _p_assignment (stmt : node) : kst unit :=
  match stmt with
  | Assignment _ lvalue rvalue =>
      match lvalue with
      | ArrayRef _ _ =>
          do bname <- kread (fun _ => _get_basename lvalue);
          do _ <- kmodify (fun k => set_destinations k (touch (_destinations k) bname));
          do _ <- kread (fun _ => _get_basename lvalue);
          do offs <- kread (fun k => _get_offsets k lvalue);
          do _ <- kmodify (fun k =>
                    set_destinations k (record_access (_destinations k) bname offs));
          _p_sources rvalue
      | ID name =>
          do _ <- kmodify (fun k =>
                    set_destinations k (record_access (_destinations k) name [Dir]));
          _p_sources rvalue
      | _ => kread (fun _ => Raise (AssertionError
               "Only assignment to array element or varialbe is allowed."))
      end
  | _ => kread (fun _ => Raise (AssertionError
           "Only assignment statements are allowed in loops."))
  end.

(** *** [Kernel._p_for] *)

Definition name_str (a : name_attr) : res string :=
  match a with NameStr s => Ok s | NameNode _ => Raise TypeError end.

(** [a.name == b.name == c.name]: [c.name] is evaluated only when the first
    comparison holds. *)
Definition same_counter (a b : name_attr) (c : res name_attr) : res bool :=
  if name_eqb a b then let* cn := c in Ok (name_eqb b cn) else Ok false.

(** The restrictions on the head of a loop, and its entry of the loop stack. *)
Definition for_header (k : Kernel) (init cond next stmt : node)
  : res offset_info_loop :=
  let* _ := py_assert (is_Assignment init)
              "Initialization of loops need to be assignments" in
  let* cop := attr_op cond in
  let* _ := py_assert (substring_of cop "<")
              "only lt (<) is allowed as loop condition" in
  let* cl := attr_left cond in
  let* _ := py_assert (is_ID cl) "left of cond. operand has to be a variable" in
  let* cr := attr_right cond in
  let* _ := py_assert (is_Constant cr || is_ID cr || is_BinaryOp cr)
              "right of cond. operand has to be a constant, a variable or a binary operation" in
  let* _ := py_assert (is_UnaryOp next || is_Assignment next)
              "next statement has to be a unary or assignment operation" in
  let* nop := attr_op next in
  let* _ := py_assert (str_in nop ["++"; "p++"; "+="])
              "only ++ and += next operations are allowed" in
  let* _ := py_assert (is_Compound stmt || is_Assignment stmt || is_For stmt)
              "the inner loop may contain only assignments or compounds of assignments" in
  let* iter_max :=
    match cr with
    | ID const_name =>
        let* _ := py_assert (dhas String.eqb (_constants k) const_name)
                    "loop right operand has to be defined as a constant in ECM object" in
        dindex String.eqb (_constants k) const_name
    | Constant value => py_int value
    | BinaryOp bop bl br =>
        let* _ := py_assert (is_ID bl) "left of operator has to be a variable" in
        let* _ := py_assert (is_Constant br) "right of operator has to be a constant" in
        let* _ := py_assert (substring_of bop "+-")
                    "only plus (+) and minus (-) are accepted operators" in
        let sign := if String.eqb bop "+" then 1 else -1 in
        let* bn := attr_name bl in
        let* bname := name_str bn in
        let* c := dindex String.eqb (_constants k) bname in
        let* bv := attr_value br in
        let* v := py_int bv in
        Ok (c + sign * v)
    | _ => Raise AttributeError
    end in
  let init_lvalue_name :=
    match init with
    | Assignment _ il _ => attr_name il
    | _ => Raise AttributeError
    end in
  let* cn := attr_name cl in
  let* step_size :=
    match next with
    | Assignment _ nl nr =>
        let* _ := py_assert (is_ID nl) "next operation may only act on loop counter" in
        let* _ := py_assert (is_Constant nr) "only constant increments are allowed" in
        let* nn := attr_name nl in
        let* same := same_counter nn cn init_lvalue_name in
        let* _ := py_assert same
                    "initial, condition and next statement of for loop must act on same loop counter variable" in
        let* nv := attr_value nr in
        py_int nv
    | UnaryOp _ e =>
        let* _ := py_assert (is_ID e) "next operation may only act on loop counter" in
        let* nn := attr_name e in
        let* same := same_counter nn cn init_lvalue_name in
        let* _ := py_assert same
                    "initial, condition and next statement of for loop must act on same loop counter variable" in
        Ok 1
    | _ => Raise AttributeError
    end in
  let* iname := init_lvalue_name in
  let* idx := name_str iname in
  let* start :=
    match init with
    | Assignment _ _ ir => attr_value ir
    | _ => Raise AttributeError
    end in
  Ok (idx, start, iter_max, step_size).

Fixpoint _p_for (floop : node) : kst unit :=
  match floop with
  | For init cond next stmt =>
      do entry <- kread (fun k => for_header k init cond next stmt);
      do _ <- kmodify (fun k => set_loop_stack k (_loop_stack k ++ [entry]));
      match stmt with
      | For _ _ _ _ => _p_for stmt
      | Compound None => kread (fun _ => Raise TypeError)
      | Compound (Some (item :: nil)) =>
          match item with
          | For _ _ _ _ => _p_for item
          | _ => _p_assignment item
          end
      | Compound (Some items) => kiter _p_assignment items
      | Assignment _ _ _ => _p_assignment stmt
      | _ => kread (fun _ => Raise AttributeError)
      end
  | _ => kread (fun _ => Raise (AssertionError "May only be a for loop"))
  end.

(** *** [Kernel.process] *)

(** The body of the loop over the declarations. *)
Definition process_decl {sp : SymPy} (item : node) : kst unit :=
  match item with
  | Decl name type =>
      match type with
      | ArrayDecl _ _ =>
          do dn <- kread (fun k => decl_dims (_constants k) type);
          do _ <- kread (fun _ => py_assert (Nat.eqb (List.length (snd dn)) 1)
                                    "only single types are supported");
          fun k =>
            match set_variable k name (hd "" (snd dn)) (Some (fst dn)) with
            | Ok k' => (Ok tt, k')
            | Raise e => (Raise e, k)
            end
      | TypeDecl names =>
          do _ <- kread (fun _ => py_assert (Nat.eqb (List.length names) 1)
                                    "only single types are supported");
          fun k =>
            match set_variable k name (hd "" names) None with
            | Ok k' => (Ok tt, k')
            | Raise e => (Raise e, k)
            end
      | OtherType => kread (fun _ => Raise AttributeError)
      end
  | _ => kread (fun _ => Raise AttributeError)
  end.

Definition process {sp : SymPy} (kernel_ast : node) : kst unit :=
  match kernel_ast with
  | Compound block_items =>
      match block_items with
      | None => kread (fun _ => Raise TypeError)
      | Some items =>
          do _ <- kread (fun _ => py_assert (forallb is_Decl (List.removelast items))
                     "all statments befor the for loop need to be declarations");
          match List.last items NoneNode, items with
          | _, [] => kread (fun _ => Raise IndexError)
          | floop, _ =>
              do _ <- kread (fun _ => py_assert (is_For floop)
                         "last statment in kernel code must be a loop");
              do _ <- kiter process_decl (List.removelast items);
              _p_for floop
          end
      end
  | _ => kread (fun _ => Raise (AssertionError "Kernel has to be a compound statement"))
  end.

(** ** Python numbers

    The cycle counts are Python floats.  Their arithmetic is kept abstract:
    the simulator is parameterised by the operations of the float type, and
    the statements about costs hold for every implementation of them. *)

Record FloatOps : Type := mkFloatOps {
  F : Type;
  of_Z : Z -> F;
  fmul : F -> F -> F;
  fdiv : F -> F -> F;
  fsub : F -> F -> F;
  fabs : F -> F;
  fgt : F -> F -> bool;
  fis_zero : F -> bool;
  fround1 : F -> F;       (* round(x, 1) *)
  ftenth : F              (* the literal 0.1 *)
}.

Section Numbers.
Context (fl : FloatOps).

Inductive num : Type :=
  | NInt (z : Z)
  | NFloat (f : F fl).

Definition to_float (x : num) : F fl :=
  match x with NInt z => of_Z fl z | NFloat f => f end.

Definition num_is_zero (x : num) : bool :=
  match x with NInt z => Z.eqb z 0 | NFloat f => fis_zero fl f end.

(** [bool(x)] *)
Definition num_truthy (x : num) : bool := negb (num_is_zero x).

(** [x * y] *)
Definition num_mul (x y : num) : num :=
  match x, y with
  | NInt a, NInt b => NInt (a * b)
  | _, _ => NFloat (fmul fl (to_float x) (to_float y))
  end.

(** [x / y] of Python 2: floor division on two integers. *)
Definition num_div (x y : num) : res num :=
  if num_is_zero y then Raise ZeroDivisionError
  else match x, y with
       | NInt a, NInt b => Ok (NInt (a / b))
       | _, _ => Ok (NFloat (fdiv fl (to_float x) (to_float y)))
       end.

(** [x - y] *)
Definition num_sub (x y : num) : num :=
  match x, y with
  | NInt a, NInt b => NInt (a - b)
  | _, _ => NFloat (fsub fl (to_float x) (to_float y))
  end.

(** [abs(x)] *)
Definition num_abs (x : num) : num :=
  match x with
  | NInt a => NInt (Z.abs a)
  | NFloat f => NFloat (fabs fl f)
  end.

(** [x > y] *)
Definition num_gt (x y : num) : bool :=
  match x, y with
  | NInt a, NInt b => Z.ltb b a
  | _, _ => fgt fl (to_float x) (to_float y)
  end.

(** [round(x, 1)]: always a float in Python 2. *)
Definition py_round1 (x : num) : num := NFloat (fround1 fl (to_float x)).

(** [bool(c)] for a value that is [None] or a number. *)
Definition opt_truthy (c : option num) : bool :=
  match c with None => false | Some x => num_truthy x end.
End Numbers.

Arguments NInt {fl} z.
Arguments NFloat {fl} f.

(** ** [MachineModel] *)

(** [(level, size, type, cycles)] *)
Record cache_level_info (fl : FloatOps) : Type := mkLevel {
  lv_level : Z;
  lv_size : Z;
  lv_type : string;
  lv_cycles : option (num fl)
}.
Arguments mkLevel {fl}.
Arguments lv_level {fl}.
Arguments lv_size {fl}.
Arguments lv_type {fl}.
Arguments lv_cycles {fl}.

Record MachineModel (fl : FloatOps) : Type := mkMachine {
  clock : num fl;
  cl_size : Z;
  mem_bw : num fl;
  cache_stack : list (cache_level_info fl)
}.
Arguments mkMachine {fl}.
Arguments clock {fl}.
Arguments cl_size {fl}.
Arguments mem_bw {fl}.
Arguments cache_stack {fl}.

(** [datatype_size['double']] *)
Definition element_size : Z := 8.

(** [range(a, b)] *)
Definition py_range (a b : Z) : list Z :=
  map (fun i => a + Z.of_nat i) (seq 0 (Z.to_nat (b - a))).

(** [range(a, b, step)]; a zero step raises [ValueError]. *)
Definition py_range_step (a b step : Z) : res (list Z) :=
  if Z.eqb step 0 then Raise ValueError
  else if 0 <? step then
    Ok (map (fun i => a + Z.of_nat i * step)
            (seq 0 (Z.to_nat ((b - a + step - 1) / step))))
  else
    Ok (map (fun i => a + Z.of_nat i * step)
            (seq 0 (Z.to_nat ((a - b - step - 1) / (- step))))).

(** [x % y] and [x / y] on integers. *)
Definition py_mod (x y : Z) : res Z :=
  if Z.eqb y 0 then Raise ZeroDivisionError else Ok (x mod y).

Definition py_div (x y : Z) : res Z :=
  if Z.eqb y 0 then Raise ZeroDivisionError else Ok (x / y).

(** ** [ECM] *)

(** [read_offsets], [write_offsets], and each level of [misses], [hits] and
    [evicts]: variable name, then index order, then a list of offsets. *)
Definition offsets_table : Type := dict string (dict string (list Z)).

(** [t[name][idx_order]] *)
Definition table_index (t : offsets_table) (name idx_order : string)
  : res (list Z) :=
  let* d := dindex String.eqb t name in dindex String.eqb d idx_order.

(** [t.get(name, {}).get(idx_order, [])] *)
Definition table_get (t : offsets_table) (name idx_order : string) : list Z :=
  match dget String.eqb t name with
  | Some d => match dget String.eqb d idx_order with Some l => l | None => [] end
  | None => []
  end.

(** [t[name][idx_order] = l] *)
Definition table_set (t : offsets_table) (name idx_order : string) (l : list Z)
  : res offsets_table :=
  let* d := dindex String.eqb t name in
  Ok (dset String.eqb t name (dset String.eqb d idx_order l)).

(** [s[-1]] on a string *)
Fixpoint last_char (s : string) : res string :=
  match s with
  | EmptyString => Raise IndexError
  | String c EmptyString => Ok (String c EmptyString)
  | String _ s' => last_char s'
  end.

Definition chars (s : string) : list string :=
  map (fun c => String c EmptyString) (list_ascii_of_string s).

(** [a[1]] on an entry of an access: a string, an integer, or no such item. *)
Inductive item1 : Type :=
  | ItemStr (s : string)
  | ItemInt (z : Z).

Definition offset_item1 (a : offset_info) : res item1 :=
  match a with
  | Rel idx _ => Ok (ItemStr idx)
  | Abs v => Ok (ItemInt v)
  | Dir => Raise IndexError
  end.

Definition item1_is (s : string) (i : item1) : bool :=
  match i with ItemStr t => String.eqb s t | ItemInt _ => false end.

(** [''.join(l)] *)
Fixpoint join_items (l : list item1) : res string :=
  match l with
  | [] => Ok EmptyString
  | ItemStr s :: l' => let* r := join_items l' in Ok (s ++ r)%string
  | ItemInt _ :: _ => Raise TypeError
  end.

Section ECM.
Context {fl : FloatOps} (kernel : Kernel) (machine : MachineModel fl).

(** [self.kernel._variables[name][1]] *)
Definition base_dims (name : string) : res (option (list Z)) :=
  let* v := dindex String.eqb (_variables kernel) name in Ok (snd v).

(** [reduce(operator.mul, base_dims[dim+1:], 1)]; a scalar ([None]) cannot
    be sliced. *)
Definition stride (dims : option (list Z)) (dim : nat) : res Z :=
  match dims with
  | Some ds => Ok (zprod (drop (S dim) ds))
  | None => Raise TypeError
  end.

(** The loop of [_calculate_relative_offset] from dimension [dim] on. *)
Fixpoint relative_offset_from (dims : option (list Z)) (dim : nat)
    (access_dimensions : access) (offset : Z) : res Z :=
  match access_dimensions with
  | [] => Ok offset
  | Rel _ dim_offset :: rest =>
      let* s := stride dims dim in
      relative_offset_from dims (S dim) rest (offset + dim_offset * s)
  | Abs _ :: _ => Raise ValueError
  | Dir :: _ => Raise ValueError
  end.

Definition _calculate_relative_offset (name : string) (access_dimensions : access)
  : res Z :=
  let* dims := base_dims name in
  relative_offset_from dims 0 access_dimensions 0.

(** The loop of [_calculate_iteration_offset] over the characters of
    [index_order]. *)
Fixpoint iteration_offset_from (dims : option (list Z)) (dim : nat)
    (index_order : list string) (loop_index : string) (offset : Z) : res Z :=
  match index_order with
  | [] => Ok offset
  | index_name :: rest =>
      if String.eqb loop_index index_name then
        let* s := stride dims dim in
        iteration_offset_from dims (S dim) rest loop_index (offset + s)
      else iteration_offset_from dims (S dim) rest loop_index offset
  end.

Definition _calculate_iteration_offset (name index_order loop_index : string)
  : res Z :=
  let* dims := base_dims name in
  iteration_offset_from dims 0 (chars index_order) loop_index 0.

Definition _get_index_order (access_dimensions : access) : res string :=
  let* items := mapM offset_item1 access_dimensions in
  join_items items.

Definition elements_per_cacheline : Z := cl_size machine / element_size.

Definition _expand_to_cacheline_blocks (first last : Z) : res (Z * Z) :=
  let* fm := py_mod first elements_per_cacheline in
  let* lm := py_mod last elements_per_cacheline in
  Ok (first - fm, last - lm + elements_per_cacheline - 1).

(** [''.join(map(lambda l: l[0], self.kernel._loop_stack))] *)
Definition loop_order : string :=
  fold_right String.append EmptyString (loop_names kernel).

(** [loop_order[-1] in map(lambda a: a[1], acs)] *)
Definition uses_inner_index (acs : access) : res bool :=
  let* inner := last_char loop_order in
  let* items := mapM offset_item1 acs in
  Ok (existsb (item1_is inner) items).

(** The first loop over the accesses of one variable:
    [t[var_name].setdefault(idx_order, [])] and the append of the offset. *)
Definition compile_access (var_name : string) (t : offsets_table) (acs : access)
  : res offsets_table :=
  let* offset := _calculate_relative_offset var_name acs in
  let* idx_order := _get_index_order acs in
  let* d := dindex String.eqb t var_name in
  let l := match dget String.eqb d idx_order with Some l => l | None => [] end in
  Ok (dset String.eqb t var_name (dset String.eqb d idx_order (l ++ [offset]))).

(** The body of the unrolling loop for one access and one [i]. *)
Definition unroll_access (var_name : string) (i : Z) (t : offsets_table)
    (acs : access) : res offsets_table :=
  let* idx_order := _get_index_order acs in
  let* offset := _calculate_relative_offset var_name acs in
  let* inner := last_char loop_order in
  let* io := _calculate_iteration_offset var_name idx_order inner in
  let offset := offset + i * io in
  let* l := table_index t var_name idx_order in
  table_set t var_name idx_order (set_sorted_rev (l ++ [offset])).

(** The body of the loop over the variables that fills [read_offsets] and
    [write_offsets]. *)
Definition compile_variable (rw : offsets_table * offsets_table)
    (var : string * (string * option (list Z)))
  : res (offsets_table * offsets_table) :=
  let var_name := fst var in
  let* info := dindex String.eqb (_variables kernel) var_name in
  match snd info with
  | None => Ok rw
  | Some _ =>
      let get (t : dict string (list access)) :=
        match dget String.eqb t var_name with Some l => l | None => [] end in
      let* writes := filterM uses_inner_index (get (_destinations kernel)) in
      let* reads := filterM uses_inner_index (get (_sources kernel)) in
      let* r := foldM (compile_access var_name) reads (fst rw) in
      let* w := foldM (compile_access var_name) writes (snd rw) in
      foldM (fun rw i =>
               let* r := foldM (unroll_access var_name i) reads (fst rw) in
               let* w := foldM (unroll_access var_name i) writes (snd rw) in
               Ok (r, w))
            (py_range 1 elements_per_cacheline) (r, w)
  end.

(** [{var_name: dict() for var_name in self.kernel._variables.keys()}] *)
Definition empty_table : offsets_table :=
  fold_left (fun t name => dset String.eqb t name [])
            (dkeys (_variables kernel)) [].

(** The first part of [calculate_cache_access]: the read and write offsets. *)
Definition compile_offsets : res (offsets_table * offsets_table) :=
  foldM compile_variable (_variables kernel) (empty_table, empty_table).
End ECM.

Section Simulation.
Context {fl : FloatOps} (kernel : Kernel) (machine : MachineModel fl).

Abbreviation epc := (elements_per_cacheline machine).

(** The state of the backward trace of one (variable, index order) pair:
    the remaining misses, the hits and the cached ranges. *)
Definition trace_state : Type := (list Z * list Z * Intervals.t)%type.

(** The ranges added to the cache for one offset. *)
Definition cached_ranges (iter_offset trace_length offset : Z)
  : res (list (Z * Z)) :=
  if iter_offset <=? epc then
    let* fl_ := _expand_to_cacheline_blocks machine
                  (offset - iter_offset * trace_length) (offset + 1) in
    Ok [(fst fl_, snd fl_ + 1)]
  else
    let* os := py_range_step (offset - iter_offset * trace_length) (offset + 1)
                             iter_offset in
    mapM (fun o => _expand_to_cacheline_blocks machine o o) os.

(** The body of [for offset in list(misses[cache_level][var_name][idx_order])]. *)
Definition trace_step (iter_offset trace_length : Z) (st : trace_state)
    (offset : Z) : res trace_state :=
  let '(misses, hits, cache) := st in
  let* mh :=
    if Intervals.contains cache offset then
      let* misses' := py_remove offset misses in
      Ok (misses', if zmem offset hits then hits else hits ++ [offset])
    else Ok (misses, hits) in
  let* ranges := cached_ranges iter_offset trace_length offset in
  Ok (fst mh, snd mh, Intervals.merge cache ranges).

(** The backward trace of one pair, from its candidate offsets. *)
Definition trace_offsets (iter_offset trace_length : Z) (candidates : list Z)
  : res trace_state :=
  foldM (trace_step iter_offset trace_length) candidates
        (candidates, [], Intervals.empty).

Definition trace_pair (var_name idx_order : string) (trace_length : Z)
    (candidates : list Z) : res trace_state :=
  let* inner := last_char (loop_order kernel) in
  let* iter_offset := _calculate_iteration_offset kernel var_name idx_order inner in
  trace_offsets iter_offset trace_length candidates.

(** The miss candidates of one pair at [cache_level]. *)
Definition candidates (misses : dict Z offsets_table) (cache_level : Z)
    (read_offsets write_offsets : offsets_table) (name idx_order : string)
  : res (list Z) :=
  match dget Z.eqb misses (cache_level - 1) with
  | None =>
      Ok (py_sorted_rev (table_get read_offsets name idx_order ++
                         table_get write_offsets name idx_order))
  | Some prev => table_index prev name idx_order
  end.

(** "We consider everything a miss in the beginning": the table of
    candidates of [cache_level]. *)
Definition init_misses (misses : dict Z offsets_table) (cache_level : Z)
    (read_offsets write_offsets : offsets_table) : res offsets_table :=
  foldM (fun t name =>
           let t := dset String.eqb t name [] in
           let* r := dindex String.eqb read_offsets name in
           let* w := dindex String.eqb write_offsets name in
           foldM (fun t idx_order =>
                    let* c := candidates misses cache_level read_offsets
                                write_offsets name idx_order in
                    table_set t name idx_order c)
                 (dkeys r ++ dkeys w) t)
        (dkeys read_offsets ++ dkeys write_offsets) [].

(** [hits[cache_level][name][idx_order] = []] for every pair *)
Definition init_hits (init : offsets_table) : offsets_table :=
  map (fun e => (fst e, map (fun p => (fst p, @nil Z)) (snd e))) init.

(** What one pass over the pairs of a level yields. *)
Record pass_result : Type := mkPass {
  p_candidates : offsets_table;   (* the misses "in the beginning" *)
  p_misses : offsets_table;
  p_hits : offsets_table;
  p_trace_count : Z;
  p_cache_used_size : Z
}.

(** The trace of every pair of one variable. *)
Definition trace_variable (trace_length : Z) (acc : pass_result)
    (entry : string * dict string (list Z)) : res pass_result :=
  let var_name := fst entry in
  foldM (fun acc (pair : string * list Z) =>
           let idx_order := fst pair in
           let* st := trace_pair var_name idx_order trace_length (snd pair) in
           let '(m, h, cache) := st in
           let* ms := table_set (p_misses acc) var_name idx_order m in
           let* hs := table_set (p_hits acc) var_name idx_order h in
           Ok (mkPass (p_candidates acc) ms hs
                 (p_trace_count acc + Intervals.count cache)
                 (p_cache_used_size acc + Intervals.size cache * element_size)))
        (snd entry) acc.

(** One pass of the body of [while updated_length], up to the statistics
    [trace_count] and [cache_used_size]. *)
Definition level_pass (misses : dict Z offsets_table) (cache_level : Z)
    (read_offsets write_offsets : offsets_table) (trace_length : Z)
  : res pass_result :=
  let* init := init_misses misses cache_level read_offsets write_offsets in
  foldM (trace_variable trace_length) init (mkPass init init (init_hits init) 0 0).

(** [trace_length + ((cache_size/2 - cache_used_size)/trace_count)/element_size] *)
Definition new_trace_length (cache_size trace_length : Z) (p : pass_result)
  : res Z :=
  let* q := py_div (cache_size / 2 - p_cache_used_size p) (p_trace_count p) in
  Ok (trace_length + q / element_size).

(** The loop [while updated_length].  The fuel bounds the number of passes;
    [None] means that the fuel ran out.  Besides the last pass and the final
    trace length, the result lists the trace length of every pass, first
    pass first. *)
Fixpoint level_loop (fuel : nat) (misses : dict Z offsets_table)
    (cache_level cache_size : Z) (read_offsets write_offsets : offsets_table)
    (trace_length : Z) : option (res (pass_result * Z * list Z)) :=
  match fuel with
  | O => None
  | S fuel' =>
      match level_pass misses cache_level read_offsets write_offsets
                       trace_length with
      | Raise e => Some (Raise e)
      | Ok p =>
          match new_trace_length cache_size trace_length p with
          | Raise e => Some (Raise e)
          | Ok new_length =>
              if trace_length <? new_length then
                match level_loop fuel' misses cache_level cache_size
                                 read_offsets write_offsets new_length with
                | Some (Ok (p', t, history)) =>
                    Some (Ok (p', t, trace_length :: history))
                | r => r
                end
              else Some (Ok (p, trace_length, [trace_length]))
          end
      end
  end.

(** [evicts[cache_level]]: a copy of every list of write offsets. *)
Definition level_evicts (write_offsets : offsets_table) : res offsets_table :=
  foldM (fun t (e : string * dict string (list Z)) =>
           foldM (fun t (p : string * list Z) => table_set t (fst e) (fst p) (snd p))
                 (snd e) t)
        write_offsets (empty_table kernel).

(** [sum(map(lambda l: sum(map(len, l.values())), t.values()))] *)
Definition total_count (t : offsets_table) : Z :=
  zsum (map (fun e => zsum (map (fun p => zlen (snd p)) (snd e))) t).

(** The same sum over [len(blocking(n, elements_per_cacheline))]. *)
Definition total_lines (t : offsets_table) : res Z :=
  let* per_var :=
    mapM (fun (e : string * dict string (list Z)) =>
            let* ls := mapM (fun (p : string * list Z) =>
                               let* b := blocking (snd p) epc 0 in Ok (zlen b))
                            (snd e) in
            Ok (zsum ls))
         t in
  Ok (zsum per_var).

(** ['L{}-L{}'.format(cache_level, cache_level+1)] and
    ['L{}-MEM'.format(cache_level)] *)
Definition label_next (cache_level : Z) : string :=
  ("L" ++ pretty cache_level ++ "-L" ++ pretty (cache_level + 1))%string.

Definition label_mem (cache_level : Z) : string :=
  ("L" ++ pretty cache_level ++ "-MEM")%string.

(** The cycles of one level from its line misses and line evicts, with the
    key they are stored under. *)
Definition level_cost (cache_level : Z) (cache_cycles : option (num fl))
    (lines_misses lines_evicts : Z) : res (string * num fl) :=
  match cache_cycles with
  | Some c =>
      if num_truthy fl c then
        Ok (label_next cache_level,
            py_round1 fl (num_mul fl (NInt (lines_misses + lines_evicts)) c))
      else
        let* q := num_div fl (NInt ((lines_misses + lines_evicts) * epc * element_size))
                             (mem_bw machine) in
        Ok (label_mem cache_level, py_round1 fl (num_mul fl q (clock machine)))
  | None =>
      let* q := num_div fl (NInt ((lines_misses + lines_evicts) * epc * element_size))
                           (mem_bw machine) in
      Ok (label_mem cache_level, py_round1 fl (num_mul fl q (clock machine)))
  end.

(** The statistics of one level, as far as the result depends on them. *)
Record level_stats : Type := mkStats {
  s_candidates : offsets_table;
  s_misses : offsets_table;
  s_hits : offsets_table;
  s_evicts : offsets_table;
  s_trace_length : Z;
  s_lines_misses : Z;
  s_lines_hits : Z;
  s_lines_evicts : Z
}.

(** The body of the loop over the cache levels after the fixed point. *)
Definition level_finish (write_offsets : offsets_table) (p : pass_result)
    (trace_length : Z) : res level_stats :=
  let* ev := level_evicts write_offsets in
  let* lm := total_lines (p_misses p) in
  let* lh := total_lines (p_hits p) in
  let* le := total_lines ev in
  Ok (mkStats (p_candidates p) (p_misses p) (p_hits p) ev trace_length lm lh le).

(** One cache level: the fixed point, the statistics and the result. *)
Definition level_step (fuel : nat) (read_offsets write_offsets : offsets_table)
    (st : dict Z offsets_table * dict string (num fl))
    (lv : cache_level_info fl)
  : option (res (dict Z offsets_table * dict string (num fl) * level_stats)) :=
  let '(misses, results) := st in
  match level_loop fuel misses (lv_level lv) (lv_size lv)
                   read_offsets write_offsets 0 with
  | None => None
  | Some (Raise e) => Some (Raise e)
  | Some (Ok (p, t, _)) =>
      Some (let* stats := level_finish write_offsets p t in
            let* kv := level_cost (lv_level lv) (lv_cycles lv)
                         (s_lines_misses stats) (s_lines_evicts stats) in
            Ok (dset Z.eqb misses (lv_level lv) (p_misses p),
                dset String.eqb results (fst kv) (snd kv), stats))
  end.

(** The loop over [self.machine.cache_stack]. *)
Fixpoint levels_loop (fuel : nat) (read_offsets write_offsets : offsets_table)
    (st : dict Z offsets_table * dict string (num fl))
    (stack : list (cache_level_info fl))
  : option (res (dict string (num fl) * list level_stats)) :=
  match stack with
  | [] => Some (Ok (snd st, []))
  | lv :: rest =>
      match level_step fuel read_offsets write_offsets st lv with
      | None => None
      | Some (Raise e) => Some (Raise e)
      | Some (Ok (misses, results, stats)) =>
          match levels_loop fuel read_offsets write_offsets (misses, results) rest with
          | Some (Ok (r, ss)) => Some (Ok (r, stats :: ss))
          | other => other
          end
      end
  end.

(** [calculate_cache_access], with the statistics of every level next to
    the returned results. *)
Definition calculate_cache_access_stats (fuel : nat)
  : option (res (dict string (num fl) * list level_stats)) :=
  match compile_offsets kernel machine with
  | Raise e => Some (Raise e)
  | Ok (read_offsets, write_offsets) =>
      levels_loop fuel read_offsets write_offsets ([], []) (cache_stack machine)
  end.

Definition calculate_cache_access (fuel : nat)
  : option (res (dict string (num fl))) :=
  match calculate_cache_access_stats fuel with
  | Some (Ok (r, _)) => Some (Ok r)
  | Some (Raise e) => Some (Raise e)
  | None => None
  end.
End Simulation.

(** ** [ECMData] of [models/ecm.py]

    [ECMData.calculate_cache_access] runs the same computation over
    [list(enumerate(self.machine['memory hierarchy']))[:-1]]: the number of a
    level is its index in the hierarchy, from [0]; the last entry, the main
    memory, is not simulated; the memory bandwidth is
    [float(self.machine['memory hierarchy'][-2]['bandwidth'])], that of the
    entry before the last, and the clock is [float(self.machine['clock'])]. *)
Record hierarchy_entry (fl : FloatOps) : Type := mkEntry {
  h_size : Z;                      (* 'size per group' *)
  h_cycles : option (num fl);      (* 'cycles per cacheline transfer' *)
  h_bandwidth : num fl             (* 'bandwidth' *)
}.
Arguments mkEntry {fl}.
Arguments h_size {fl}.
Arguments h_cycles {fl}.
Arguments h_bandwidth {fl}.

Definition ecmdata_stack {fl : FloatOps} (hierarchy : list (hierarchy_entry fl))
  : list (cache_level_info fl) :=
  imap (fun i e => mkLevel (Z.of_nat i) (h_size e) "" (h_cycles e))
       (List.removelast hierarchy).

Definition ecmdata_machine {fl : FloatOps} (clock_ : num fl) (cacheline_size : Z)
    (hierarchy : list (hierarchy_entry fl)) : MachineModel fl :=
  mkMachine (NFloat (to_float fl clock_)) cacheline_size
            (match last (List.removelast hierarchy) with
             | Some e => NFloat (to_float fl (h_bandwidth e))
             | None => NInt 0
             end)
            (ecmdata_stack hierarchy).

(** ** The comparison with reference results in the drivers *)

Section Driver.
Context {fl : FloatOps}.

Inductive message : Type :=
  | TestMismatch (key : string) (correct_value value : num fl)
  | SmallDifference (key : string) (correct_value value : num fl).

(** [diff = abs(value - correct_value)] *)
Definition difference (value correct_value : num fl) : num fl :=
  num_abs fl (num_sub fl value correct_value).

(** [diff > correct_value*0.1] *)
Definition exceeds_tolerance (value correct_value : num fl) : bool :=
  num_gt fl (difference value correct_value)
            (num_mul fl correct_value (NFloat (ftenth fl))).

(** The loop of [ecm.py]: [sys.exit(1)] at the first key out of tolerance.
    The result is the list of printed messages and the exit status ([0] when
    the loop runs to its end). *)
Fixpoint ecm_compare (reference : dict string (num fl))
    (items : list (string * num fl)) : list message * Z :=
  match items with
  | [] => ([], 0)
  | (key, value) :: rest =>
      match dget String.eqb reference key with
      | None => ecm_compare reference rest
      | Some correct_value =>
          if exceeds_tolerance value correct_value then
            ([TestMismatch key correct_value value], 1)
          else
            let '(msgs, status) := ecm_compare reference rest in
            if num_truthy fl (difference value correct_value) then
              (SmallDifference key correct_value value :: msgs, status)
            else (msgs, status)
      end
  end.

(** The loop of [kerncraft.py]: every key is compared, with
    [correct_value = float(...)], and [sys.exit(1)] follows the loop when
    some key was out of tolerance. *)
Fixpoint kerncraft_compare_loop (reference : dict string (num fl))
    (items : list (string * num fl)) (failed : bool) : list message * bool :=
  match items with
  | [] => ([], failed)
  | (key, value) :: rest =>
      match dget String.eqb reference key with
      | None => kerncraft_compare_loop reference rest failed
      | Some c =>
          let correct_value := NFloat (to_float fl c) in
          if exceeds_tolerance value correct_value then
            let '(msgs, f) := kerncraft_compare_loop reference rest true in
            (TestMismatch key correct_value value :: msgs, f)
          else if num_truthy fl (difference value correct_value) then
            let '(msgs, f) := kerncraft_compare_loop reference rest failed in
            (SmallDifference key correct_value value :: msgs, f)
          else kerncraft_compare_loop reference rest failed
      end
  end.

Definition kerncraft_compare (reference : dict string (num fl))
    (items : list (string * num fl)) : list message * Z :=
  let '(msgs, failed) := kerncraft_compare_loop reference items false in
  (msgs, if failed then 1 else 0).

(** [if 'results-to-compare' in test: ...] *)
Definition driver_check (compare : dict string (num fl) ->
                                   list (string * num fl) -> list message * Z)
    (reference : option (dict string (num fl)))
    (results : dict string (num fl)) : list message * Z :=
  match reference with
  | None => ([], 0)
  | Some r => compare r results
  end.
End Driver.

(** ** An idealised float type and the kernels of the examples *)


(** In the kernels of the examples every symbol of a dimension is a
    constant of the kernel, so the parameter of the model that stands for
    SymPy on unbound symbols is never consulted; the concrete runs take the
    one that raises [TypeError]. *)
Definition sympy_strict : SymPy :=
  {| int_subs_unbound := fun _ _ => Raise TypeError |}.

(** The kernel object after [set_constant('N', n)]. *)
Definition kernel_N (n : Z) : Kernel := mkKernel [] [] [] [("N", n)] [].

(** Exact rationals in place of floats, for the concrete runs below.
    [round(x, 1)] rounds half away from zero. *)
Definition q_round1 (x : Q) : Q :=
  let n := Qnum x * 10 * 2 + Z.sgn (Qnum x) * Z.pos (Qden x) in
  let d := Z.pos (Qden x) * 2 in
  Qred (Qmake (Z.quot n d) 10).

Definition QFloat : FloatOps :=
  mkFloatOps Q inject_Z
    (fun a b => Qred (Qmult a b))
    (fun a b => Qred (Qdiv a b))
    (fun a b => Qred (Qminus a b))
    (fun a => Qred (Qabs a))
    (fun a b => match Qcompare a b with Gt => true | _ => false end)
    (fun a => Z.eqb (Qnum a) 0)
    q_round1
    (Qmake 1 10).

(** The machine of the driver: Xeon E5-2680. *)
Definition snb : MachineModel QFloat :=
  mkMachine (NFloat (inject_Z 2700000000 : F QFloat)) 64
            (NFloat (inject_Z 40000000000 : F QFloat))
            [mkLevel 1 (32 * 1024) "per core" (Some (NInt 2));
             mkLevel 2 (256 * 1024) "per core" (Some (NInt 2));
             mkLevel 3 (20 * 1024 * 1024) "per socket" None].

Definition arr_decl (name : string) (dims : list node) : node :=
  Decl name (fold_right (fun d t => ArrayDecl t d) (TypeDecl ["double"]) dims).

Definition loop_head (i : string) (start : Z) (bound : node) (body : node) : node :=
  For (Assignment "=" (ID i) (Constant (IntLit start)))
      (BinaryOp "<" (ID i) bound)
      (UnaryOp "++" (ID i))
      body.

(** DAXPY: [double a[N], b[N]; double s; for(i=0; i<N; ++i) a[i] = a[i] + s * b[i];] *)
Definition daxpy_ast : node :=
  Compound (Some
    [arr_decl "a" [BinaryOp "*" (ID "N") (Constant (IntLit 1))];
     arr_decl "b" [ID "N"];
     Decl "s" (TypeDecl ["double"]);
     loop_head "i" 0 (ID "N")
       (Assignment "=" (ArrayRef (ID "a") (ID "i"))
          (BinaryOp "+" (ArrayRef (ID "a") (ID "i"))
             (BinaryOp "*" (ID "s") (ArrayRef (ID "b") (ID "i")))))]).

Definition daxpy_kernel : Kernel :=
  snd (process (sp := sympy_strict) daxpy_ast (kernel_N 50)).

(** A kernel whose only array access does not depend on the innermost index:
    [double a[N]; double s;
     for(j=0; j<N; ++j) for(i=0; i<N; ++i) s = s + a[j];] *)
Definition rowsum_ast : node :=
  Compound (Some
    [arr_decl "a" [ID "N"];
     Decl "s" (TypeDecl ["double"]);
     loop_head "j" 0 (ID "N")
       (loop_head "i" 0 (ID "N")
          (Assignment "=" (ID "s")
             (BinaryOp "+" (ID "s") (ArrayRef (ID "a") (ID "j")))))]).

Definition rowsum_kernel : Kernel :=
  snd (process (sp := sympy_strict) rowsum_ast (kernel_N 50)).

(** [double a[N], b[N]; for(i=0; i<N; ++i) b[i] = a[i] + a[i*i];] *)
Definition square_ast : node :=
  Compound (Some
    [arr_decl "a" [ID "N"];
     arr_decl "b" [ID "N"];
     loop_head "i" 0 (ID "N")
       (Assignment "=" (ArrayRef (ID "b") (ID "i"))
          (BinaryOp "+" (ArrayRef (ID "a") (ID "i"))
             (ArrayRef (ID "a") (BinaryOp "*" (ID "i") (ID "i")))))]).

(** [double b[N]; for(i=0; i<N; ++i) b[i] = a[5][i];] with [a] not declared,
    and the same kernel after [double a[N][N];]. *)
Definition row5_loop : node :=
  loop_head "i" 0 (ID "N")
    (Assignment "=" (ArrayRef (ID "b") (ID "i"))
       (ArrayRef (ArrayRef (ID "a") (Constant (IntLit 5))) (ID "i"))).

Definition row5_undeclared_ast : node :=
  Compound (Some [arr_decl "b" [ID "N"]; row5_loop]).

Definition row5_declared_ast : node :=
  Compound (Some [arr_decl "a" [ID "N"; ID "N"]; arr_decl "b" [ID "N"]; row5_loop]).

Definition row5_undeclared_kernel : Kernel :=
  snd (process (sp := sympy_strict) row5_undeclared_ast (kernel_N 50)).

Definition row5_declared_kernel : Kernel :=
  snd (process (sp := sympy_strict) row5_declared_ast (kernel_N 50)).

(** [double a[N][N], b[N]; for(i=0; i<N; ++i) for(ji=0; ji<N; ++ji)
    b[i] = a[5][ji];]: the innermost loop index is [ji], and the last
    character of the loop order [iji] is the name of the outer index. *)
Definition long_index_ast : node :=
  Compound (Some
    [arr_decl "a" [ID "N"; ID "N"];
     arr_decl "b" [ID "N"];
     loop_head "i" 0 (ID "N")
       (loop_head "ji" 0 (ID "N")
          (Assignment "=" (ArrayRef (ID "b") (ID "i"))
             (ArrayRef (ArrayRef (ID "a") (Constant (IntLit 5))) (ID "ji"))))]).

Definition long_index_kernel : Kernel :=
  snd (process (sp := sympy_strict) long_index_ast (kernel_N 50)).

(** An array whose rows have no element, with the innermost index on the
    rows: [double a[N][M]; for(j=0; j<N; ++j) for(i=0; i<N; ++i) a[i][j] = 0;]
    and [M = 0]. *)
Definition empty_rows_ast : node :=
  Compound (Some
    [arr_decl "a" [ID "N"; ID "M"];
     loop_head "j" 0 (ID "N")
       (loop_head "i" 0 (ID "N")
          (Assignment "=" (ArrayRef (ArrayRef (ID "a") (ID "i")) (ID "j"))
             (Constant (IntLit 0))))]).

(** The kernel object after [set_constant('N', n)] and [set_constant('M', m)]. *)
Definition kernel_N_M (n m : Z) : Kernel :=
  mkKernel [] [] [] [("N", n); ("M", m)] [].

Definition empty_rows_kernel : Kernel :=
  snd (process (sp := sympy_strict) empty_rows_ast (kernel_N_M 50 0)).

(** A machine with one small cache level connected to memory. *)
Definition tiny : MachineModel QFloat :=
  mkMachine (NFloat (inject_Z 2700000000 : F QFloat)) 64
            (NFloat (inject_Z 40000000000 : F QFloat))
            [mkLevel 1 1024 "per core" None].

(** ** The vocabulary of the properties *)

Definition in_range (r : Z * Z) (x : Z) : bool := (fst r <=? x) && (x <? snd r).

(** What holds of the state of the trace once the offsets [done_] of the
    candidate list have been visited. *)
Definition trace_inv (cands done_ : list Z) (st : trace_state) : Prop :=
  let '(m, h, c) := st in
  (forall x, x ∈ m -> x ∈ cands) /\
  (forall x, x ∈ h -> x ∈ done_) /\
  NoDup h /\
  (forall x, x ∈ h -> Intervals.contains c x = true) /\
  (forall x, x ∈ cands -> x ∈ m \/ x ∈ h) /\
  (List.length m + List.length h <= List.length cands)%nat /\
  (NoDup cands -> (List.length m + List.length h = List.length cands)%nat).

Definition wf_table (t : offsets_table) : Prop :=
  NoDup (dkeys t) /\ forall n d, (n, d) ∈ t -> NoDup (dkeys d).

(** What the trace of one pair establishes, from its candidates [c] to the
    remaining misses [m] and the hits [h]. *)
Definition pair_ok (c m h : list Z) : Prop :=
  (List.length m + List.length h <= List.length c)%nat /\
  (NoDup c -> (List.length m + List.length h = List.length c)%nat) /\
  (forall x, x ∈ h -> x ∈ c) /\
  (forall x, x ∈ m -> x ∈ c) /\
  NoDup h.

Definition candidates_table (misses : dict Z offsets_table) (cache_level : Z)
    (read_offsets write_offsets : offsets_table) (t : offsets_table) : Prop :=
  forall name d idx l,
    dget String.eqb t name = Some d -> dget String.eqb d idx = Some l ->
    candidates misses cache_level read_offsets write_offsets name idx = Ok l.

Definition pass_inv (init : offsets_table) (acc : pass_result) : Prop :=
  init = p_candidates acc /\
  forall name idx,
    pair_ok (table_get (p_candidates acc) name idx)
            (table_get (p_misses acc) name idx)
            (table_get (p_hits acc) name idx).

(** The read and write offsets of DAXPY on the machine of the driver. *)
Definition daxpy_reads : offsets_table :=
  [("a", [("i", [7; 6; 5; 4; 3; 2; 1; 0])]);
   ("b", [("i", [7; 6; 5; 4; 3; 2; 1; 0])]); ("s", [])].

Definition daxpy_writes : offsets_table :=
  [("a", [("i", [7; 6; 5; 4; 3; 2; 1; 0])]); ("b", []); ("s", [])].

(** The first pass of level 1 on DAXPY. *)
Definition daxpy_level1_candidates : offsets_table :=
  [("a", [("i", [7; 7; 6; 6; 5; 5; 4; 4; 3; 3; 2; 2; 1; 1; 0; 0])]);
   ("b", [("i", [7; 6; 5; 4; 3; 2; 1; 0])]); ("s", [])].

Definition daxpy_level1_misses : offsets_table :=
  [("a", [("i", [7])]); ("b", [("i", [7])]); ("s", [])].

Definition daxpy_level1_hits : offsets_table :=
  [("a", [("i", [7; 6; 5; 4; 3; 2; 1; 0])]);
   ("b", [("i", [6; 5; 4; 3; 2; 1; 0])]); ("s", [])].

(** The candidates of each level come from the misses left by the levels
    before it. *)
Fixpoint chain {fl : FloatOps} (read_offsets write_offsets : offsets_table)
    (misses : dict Z offsets_table)
    (stack : list (cache_level_info fl)) (stats : list level_stats) : Prop :=
  match stack, stats with
  | [], [] => True
  | lv :: stack', st :: stats' =>
      init_misses misses (lv_level lv) read_offsets write_offsets
        = Ok (s_candidates st) /\
      chain read_offsets write_offsets
          (dset Z.eqb misses (lv_level lv) (s_misses st)) stack' stats'
  | _, _ => False
  end.

(** [idx] is an index order of the variable [name] in the read or in the
    write offsets: the pairs that a level visits. *)
Definition pair_key (reads writes : offsets_table) (name idx : string) : bool :=
  match dget String.eqb reads name, dget String.eqb writes name with
  | Some r, Some w => str_in idx (dkeys r ++ dkeys w)
  | _, _ => false
  end.

(** The candidates of a pair, and no offset when they cannot be looked up. *)
Definition candidate_list (misses : dict Z offsets_table) (cache_level : Z)
    (read_offsets write_offsets : offsets_table) (name idx : string) : list Z :=
  match candidates misses cache_level read_offsets write_offsets name idx with
  | Ok l => l
  | Raise _ => []
  end.

(** The table has no offset outside the pairs of the read and write
    offsets. *)
Definition supported (reads writes t : offsets_table) : Prop :=
  forall name idx, pair_key reads writes name idx = false ->
    table_get t name idx = [].

(** The dictionary [misses] after the levels of [stack] have stored their
    misses, a later level replacing an earlier one with the same number. *)
Fixpoint misses_after {fl : FloatOps} (misses : dict Z offsets_table)
    (stack : list (cache_level_info fl)) (stats : list level_stats)
  : dict Z offsets_table :=
  match stack, stats with
  | lv :: stack', st :: stats' =>
      misses_after (dset Z.eqb misses (lv_level lv) (s_misses st)) stack' stats'
  | _, _ => misses
  end.

(** Passes allowed to the fixed point of a level in the concrete runs: more
    than the largest cache of the driver's machine can need. *)
Definition driver_fuel : nat := Z.to_nat (20 * 1024 * 1024 / 16).

(** The run of DAXPY on the machine of the driver. *)
Definition daxpy_run : dict string (num QFloat) * list level_stats :=
  Eval vm_compute in
    match calculate_cache_access_stats daxpy_kernel snb driver_fuel with
    | Some (Ok r) => r
    | _ => ([], [])
    end.

Fixpoint no_L (s : string) : bool :=
  match s with
  | EmptyString => true
  | String c s' => negb (Ascii.eqb c "L") && no_L s'
  end.

(** The part of a string before its first [L]. *)
Fixpoint before_L (s : string) : string :=
  match s with
  | EmptyString => EmptyString
  | String c s' => if Ascii.eqb c "L" then EmptyString else String c (before_L s')
  end.

(** The key under which the cycles of a level are stored. *)
Definition cost_label {fl : FloatOps} (lv : cache_level_info fl) : string :=
  if opt_truthy fl (lv_cycles lv) then label_next (lv_level lv)
  else label_mem (lv_level lv).

(** The cycles of a level that has a non-zero transfer cost [c], and of a
    level that is bound by the memory bandwidth. *)
Definition transfer_cycles {fl : FloatOps} (lines : Z) (c : num fl) : num fl :=
  py_round1 fl (num_mul fl (NInt lines) c).

Definition memory_cycles {fl : FloatOps} (machine : MachineModel fl) (lines : Z)
    (cycles : num fl) : Prop :=
  exists q,
    num_div fl (NInt (lines * elements_per_cacheline machine * element_size))
               (mem_bw machine) = Ok q /\
    cycles = py_round1 fl (num_mul fl q (clock machine)).

Definition level_cycles {fl : FloatOps} (machine : MachineModel fl)
    (lv : cache_level_info fl) (lines : Z) (cycles : num fl)
  : Prop :=
  match lv_cycles lv with
  | Some c =>
      if num_truthy fl c then cycles = transfer_cycles lines c
      else memory_cycles machine lines cycles
  | None => memory_cycles machine lines cycles
  end.

(** How the loop over the levels fills the results. *)
Fixpoint results_chain {fl : FloatOps} (machine : MachineModel fl)
    (results : dict string (num fl))
    (stack : list (cache_level_info fl)) (stats : list level_stats)
    (final : dict string (num fl)) : Prop :=
  match stack, stats with
  | [], [] => final = results
  | lv :: stack', st :: stats' =>
      exists kv,
        level_cost machine (lv_level lv) (lv_cycles lv)
                   (s_lines_misses st) (s_lines_evicts st) = Ok kv /\
        total_lines machine (s_misses st) = Ok (s_lines_misses st) /\
        total_lines machine (s_evicts st) = Ok (s_lines_evicts st) /\
        results_chain machine (dset String.eqb results (fst kv) (snd kv))
                        stack' stats' final
  | _, _ => False
  end.

(** No later level of the stack has the number of the level [lv] at
    position [i]: the result of [lv] is not overwritten. *)
Definition last_numbered {fl : FloatOps} (stack : list (cache_level_info fl))
    (i : nat) (lv : cache_level_info fl) : Prop :=
  forall (j : nat) lv', (i < j)%nat -> stack !! j = Some lv' ->
    lv_level lv' <> lv_level lv.

(** The mapping holds under [key] cycles computed from the memory bandwidth
    and the clock, for [lines] cache lines. *)
Definition memory_bound {fl : FloatOps} (machine : MachineModel fl)
    (d : dict string (num fl)) (key : string) (lines : Z) : Prop :=
  exists cycles,
    dget String.eqb d key = Some cycles /\ memory_cycles machine lines cycles.

(** A machine whose cache levels are numbered [1] and [3]. *)
Definition gap_machine : MachineModel QFloat :=
  mkMachine (NFloat (inject_Z 2700000000 : F QFloat)) 64
            (NFloat (inject_Z 40000000000 : F QFloat))
            [mkLevel 1 (32 * 1024) "per core" (Some (NInt 2));
             mkLevel 3 (20 * 1024 * 1024) "per socket" None].

Definition gap_run : dict string (num QFloat) * list level_stats :=
  Eval vm_compute in
    match calculate_cache_access_stats daxpy_kernel gap_machine driver_fuel with
    | Some (Ok r) => r
    | _ => ([], [])
    end.

(** A machine whose only cache level has a transfer cost of [0] cycles. *)
Definition zero_cost_machine : MachineModel QFloat :=
  mkMachine (NFloat (inject_Z 2700000000 : F QFloat)) 64
            (NFloat (inject_Z 40000000000 : F QFloat))
            [mkLevel 1 1024 "per core" (Some (NInt 0))].

Definition zero_cost_run : dict string (num QFloat) * list level_stats :=
  Eval vm_compute in
    match calculate_cache_access_stats daxpy_kernel zero_cost_machine driver_fuel with
    | Some (Ok r) => r
    | _ => ([], [])
    end.

(** The test of the comparison loops holds of some key of the results that
    is in the reference. *)
Definition exceeds_somewhere {fl : FloatOps} (reference : dict string (num fl))
    (correct_of : num fl -> num fl)
    (items : list (string * num fl)) : Prop :=
  exists key value c,
    (key, value) ∈ items /\ dget String.eqb reference key = Some c /\
    exceeds_tolerance value (correct_of c) = true.

(** Some key of the results is in the reference, and the absolute value of
    the difference of the two values is greater than the reference value
    times [0.1], with the operations of the float type. *)
Definition out_of_tolerance {fl : FloatOps} (reference : dict string (num fl))
    (correct_of : num fl -> num fl)
    (items : list (string * num fl)) : Prop :=
  exists key value c,
    (key, value) ∈ items /\ dget String.eqb reference key = Some c /\
    num_gt fl (num_abs fl (num_sub fl value (correct_of c)))
              (num_mul fl (correct_of c) (NFloat (ftenth fl))) = true.

(** The two values differ, with the operations of the float type. *)
Definition differs {fl : FloatOps} (value correct_value : num fl) : Prop :=
  num_is_zero fl (num_abs fl (num_sub fl value correct_value)) = false.

(** A float type whose operations are exact: every float stands for a
    rational number, the operations are those of the rationals and the
    literal [0.1] is one tenth. *)
Record exact_floats (fl : FloatOps) (val : F fl -> Q) : Prop := {
  val_of_Z : forall z, (val (of_Z fl z) == inject_Z z)%Q;
  val_fmul : forall a b, (val (fmul fl a b) == val a * val b)%Q;
  val_fsub : forall a b, (val (fsub fl a b) == val a - val b)%Q;
  val_fabs : forall a, (val (fabs fl a) == Qabs (val a))%Q;
  val_fgt : forall a b, fgt fl a b = true <-> (val b < val a)%Q;
  val_fis_zero : forall a, fis_zero fl a = true <-> (val a == 0)%Q;
  val_ftenth : (val (ftenth fl) == 1 # 10)%Q
}.

(** The rational number that a Python number stands for. *)
Definition num_val {fl : FloatOps} (val : F fl -> Q) (x : num fl) : Q :=
  match x with
  | NInt z => inject_Z z
  | NFloat f => val f
  end.

(** The absolute difference of the two values exceeds 10% of the reference
    value. *)
Definition beyond_ten_percent (value correct_value : Q) : Prop :=
  (correct_value * (10 # 100) < Qabs (value - correct_value))%Q.

(** For some key in both the results and the reference, the absolute
    difference of the computed value and the reference value exceeds 10% of
    the reference value. *)
Definition some_key_beyond {fl : FloatOps} (val : F fl -> Q)
    (reference : dict string (num fl)) (items : list (string * num fl)) : Prop :=
  exists key value c,
    (key, value) ∈ items /\ dget String.eqb reference key = Some c /\
    beyond_ten_percent (num_val val value) (num_val val c).

(** Reference values for the results of DAXPY: [6] cycles between the first
    two levels, as computed, and [10] cycles to memory, where the simulator
    finds [13]; and reference values that the results are close to. *)
Definition far_reference : dict string (num QFloat) :=
  [("L1-L2", NInt 6); ("L3-MEM", NInt 10)].

Definition near_reference : dict string (num QFloat) :=
  [("L1-L2", NInt 6); ("L3-MEM", NFloat (Qmake 125 10 : F QFloat))].

(** The four supported shapes of a subscript: a loop index, a loop index
    plus or minus an integer constant, or an integer constant. *)
Definition good_subscript (names : list string) (sub : node) : bool :=
  match sub with
  | ID n => str_in n names
  | BinaryOp op (ID n) (Constant (IntLit _)) =>
      (String.eqb op "+" || String.eqb op "-") && str_in n names
  | Constant (IntLit _) => true
  | _ => false
  end.

(** Every array reference below [n] has subscripts of a supported shape. *)
Fixpoint subscripts_ok (names : list string) (n : node) : bool :=
  match n with
  | ArrayRef name sub => good_subscript names sub && subscripts_ok names name
  | BinaryOp _ l r => subscripts_ok names l && subscripts_ok names r
  | UnaryOp _ e => subscripts_ok names e
  | Assignment _ l r => subscripts_ok names l && subscripts_ok names r
  | For i c nx s =>
      subscripts_ok names i && subscripts_ok names c &&
      subscripts_ok names nx && subscripts_ok names s
  | Compound (Some items) => forallb (subscripts_ok names) items
  | _ => true
  end.

(** Every binary operator below [n] is one that the parser produces. *)
Fixpoint ops_parsed (n : node) : bool :=
  match n with
  | ArrayRef name sub => ops_parsed name && ops_parsed sub
  | BinaryOp op l r => str_in op binary_operators && ops_parsed l && ops_parsed r
  | UnaryOp _ e => ops_parsed e
  | Assignment _ l r => ops_parsed l && ops_parsed r
  | For i c nx s => ops_parsed i && ops_parsed c && ops_parsed nx && ops_parsed s
  | Compound (Some items) => forallb ops_parsed items
  | _ => true
  end.

(** The loop indices of a loop nest, outermost first. *)
Fixpoint nest_indices (floop : node) : list string :=
  match floop with
  | For init _ _ stmt =>
      match init with Assignment _ (ID n) _ => [n] | _ => [] end ++
      match stmt with
      | For _ _ _ _ => nest_indices stmt
      | Compound (Some (item :: nil)) =>
          match item with For _ _ _ _ => nest_indices item | _ => [] end
      | _ => []
      end
  | _ => []
  end.

Fixpoint for_depth (floop : node) : nat :=
  match floop with
  | For _ _ _ stmt =>
      S match stmt with
        | For _ _ _ _ => for_depth stmt
        | Compound (Some (item :: nil)) =>
            match item with For _ _ _ _ => for_depth item | _ => 0 end
        | _ => 0
        end
  | _ => 0
  end.

(** The outcome of a method, with the loop stack it leaves. *)
Definition keeps_loops (m : kst unit) (ok : list string -> bool) : Prop :=
  forall k k', m k = (Ok tt, k') ->
    _loop_stack k' = _loop_stack k /\ ok (loop_names k) = true.

Definition wf_ranges (s : Intervals.t) : Prop :=
  Forall (fun r => fst r < snd r) s.

(** Every pair of the candidates of a level advances by at least one element
    per iteration of the innermost loop. *)
Definition pair_stride_positive (kernel : Kernel) (var_name idx_order : string)
  : bool :=
  match last_char (loop_order kernel) with
  | Ok inner =>
      match _calculate_iteration_offset kernel var_name idx_order inner with
      | Ok iter_offset => 1 <=? iter_offset
      | Raise _ => true
      end
  | Raise _ => true
  end.

Definition level_strides_positive (kernel : Kernel)
    (misses : dict Z offsets_table) (cache_level : Z)
    (read_offsets write_offsets : offsets_table) : bool :=
  match init_misses misses cache_level read_offsets write_offsets with
  | Ok init =>
      forallb (fun e : string * dict string (list Z) =>
                 forallb (fun p : string * list Z =>
                            pair_stride_positive kernel (fst e) (fst p))
                         (snd e))
              init
  | Raise _ => true
  end.

(** The statistics of a pass: either no range is cached at all, or the
    cached ranges hold at least [trace_length + 1] elements. *)
Definition pass_used (trace_length : Z) (acc : pass_result) : Prop :=
  0 <= p_trace_count acc /\ 0 <= p_cache_used_size acc /\
  (p_trace_count acc = 0 \/
   element_size * (trace_length + 1) <= p_cache_used_size acc).

(** The trace lengths of the passes: they start at [first], strictly
    increase, and end at [final]. *)
Definition history_from (first final : Z) (history : list Z) : Prop :=
  head history = Some first /\ last history = Some final /\
  StronglySorted Z.lt history.

(** Every pair of the read and write offsets advances by at least one
    element per iteration of the innermost loop. *)
Definition strides_positive (kernel : Kernel)
    (read_offsets write_offsets : offsets_table) : bool :=
  forallb (fun e : string * dict string (list Z) =>
             forallb (fun p : string * list Z =>
                        pair_stride_positive kernel (fst e) (fst p))
                     (snd e))
          (read_offsets ++ write_offsets).

Definition kernel_strides_positive {fl : FloatOps} (kernel : Kernel)
    (machine : MachineModel fl) : bool :=
  match compile_offsets kernel machine with
  | Ok (read_offsets, write_offsets) =>
      strides_positive kernel read_offsets write_offsets
  | Raise _ => true
  end.

(** The passes allowed to the fixed point of every level suffice. *)
Definition enough_fuel {fl : FloatOps} (machine : MachineModel fl) (fuel : nat)
  : bool :=
  (1 <=? Z.of_nat fuel) &&
  forallb (fun lv => lv_size lv / 16 <=? Z.of_nat fuel) (cache_stack machine).

(** ** Further functions of [ecm.py] *)

(** [find(f, seq)]: the first item of [seq] on which [f] is true, and [None]
    when the loop ends without one.  [none] is the object [None], a value of
    the type of the items: the function returns it as well when it is the
    first item on which [f] is true.  The test [f] may raise. *)
Fixpoint find {A : Type} (none : A) (f : A -> res bool) (seq : list A) : res A :=
  match seq with
  | [] => Ok none
  | item :: rest =>
      let* b := f item in
      if b then Ok item else find none f rest
  end.

(** [flatten_dict(d)]: [e[(k,l)] = d[k][l]] for every key [k] of [d] and
    every key [l] of [d[k]]. *)
Definition pair_eqb {K L : Type} (keq : K -> K -> bool) (leq : L -> L -> bool)
    (a b : K * L) : bool :=
  keq (fst a) (fst b) && leq (snd a) (snd b).

Definition flatten_dict {K L V : Type} (keq : K -> K -> bool)
    (leq : L -> L -> bool) (d : dict K (dict L V)) : res (dict (K * L) V) :=
  foldM (fun e k =>
           let* dk := dindex keq d k in
           foldM (fun e l =>
                    let* dk' := dindex keq d k in
                    let* v := dindex leq dk' l in
                    Ok (dset (pair_eqb keq leq) e (k, l) v))
                 (dkeys dk) e)
        (dkeys d) [].

(** The loop of the driver of [ecm.py] over the constants of a test case:
    [for const_name, const_value in test['constants']:
         kernel.set_constant(const_name, const_value)] *)
Definition set_constants (k : Kernel) (constants : list (pyvalue * pyvalue))
  : res Kernel :=
  foldM (fun k c => set_constant k (fst c) (snd c)) constants k.

(** The arguments of the loop when every name is a [str] and every value an
    [int]. *)
Definition constant_args (pairs : list (string * Z)) : list (pyvalue * pyvalue) :=
  map (fun p => (VStr (fst p), VInt (snd p))) pairs.

(** [prefix_indent] *)

Definition newline : ascii := Ascii.ascii_of_nat 10.

(** ['\n'] *)
Definition nl : string := String newline EmptyString.

(** [s.split('\n')]: the result is never empty. *)
Fixpoint split_lines (s : string) : list string :=
  match s with
  | EmptyString => [EmptyString]
  | String c s' =>
      if Ascii.eqb c newline then EmptyString :: split_lines s'
      else match split_lines s' with
           | [] => [String c EmptyString]
           | l :: ls => String c l :: ls
           end
  end.

(** ['\n'.join(l)] *)
Fixpoint join_lines (l : list string) : string :=
  match l with
  | [] => EmptyString
  | [x] => x
  | x :: rest => (x ++ nl ++ join_lines rest)%string
  end.

(** [' '*n] *)
Fixpoint spaces (n : nat) : string :=
  match n with
  | O => EmptyString
  | S n' => String " " (spaces n')
  end.

Definition prefix_indent (prefix textblock later_prefix : string) : res string :=
  match split_lines textblock with
  | [] => Raise IndexError
  | first :: rest =>
      let s := (prefix ++ first ++ nl)%string in
      let later_prefix :=
        if Nat.eqb (String.length later_prefix) 1 then spaces (String.length prefix)
        else later_prefix in
      let s := (s ++ join_lines (map (fun x => later_prefix ++ x)%string rest))%string in
      let* last := last_char s in
      if negb (String.eqb last nl) then Ok (s ++ nl)%string else Ok s
  end.

(** [MachineModel.parse_dict]: the argument is replaced by a fixed
    description before it is read; the object built from it is not
    returned. *)
Inductive machine_value : Type :=
  | MText (text : string)
  | MStack (levels : list (dict string string)).

Definition parse_dict_input : dict string machine_value :=
  [("name", MText "Intel Xeon 2660v2");
   ("clock", MText "2.2 GHz");
   ("IACA architecture", MText "IVB");
   ("caheline", MText "64 B");
   ("memory bandwidth", MText "60 GB/s");
   ("cores", MText "10");
   ("cache stack",
    MStack [[("size", "32 KB"); ("type", "per core"); ("bw", "1 CL/cy")];
            [("size", "256 KB"); ("type", "per core"); ("bw", "1 CL/cy")];
            [("size", "25 MB"); ("type", "per socket")]])].

Definition parse_dict (input : dict string machine_value) : res unit :=
  let input := parse_dict_input in
  let* name := dindex String.eqb input "name" in
  let* arch := dindex String.eqb input "IACA architecture" in
  let* clock_ := dindex String.eqb input "clock" in
  let* cores := dindex String.eqb input "cores" in
  let* cl_size_ := dindex String.eqb input "cacheline" in
  let* mem_bw_ := dindex String.eqb input "memory bandwidth" in
  let* cache_stack_ := dindex String.eqb input "cache stack" in
  Ok tt.

(** ** [AppendStringInteger] of [kerncraft/kerncraft.py] *)

(** An item of [values]: the text of an argument, or the integer that
    replaces the second one. *)
Inductive arg_value : Type :=
  | ArgText (text : literal)
  | ArgInt (z : Z).

(** The outcome of the action: the namespace after it, or
    [argparse.ArgumentError] with its message. *)
Inductive arg_result : Type :=
  | ArgOk (namespace : dict string (list (list arg_value)))
  | ArgumentError (message : string).

(** [AppendStringInteger.__call__]; [dest] is [self.dest]. *)
Definition append_string_integer (dest : string)
    (namespace : dict string (list (list arg_value))) (values : list literal)
  : arg_result :=
  let '(message, values') :=
    match values with
    | [key; value] =>
        match py_int value with
        | Ok z => ("", [ArgText key; ArgInt z])
        | Raise _ => ("second argument requires an integer", map ArgText values)
        end
    | _ => ("requires 2 arguments", map ArgText values)
    end in
  if negb (String.eqb message "") then ArgumentError message
  else
    match dget String.eqb namespace dest with
    | Some l => ArgOk (dset String.eqb namespace dest (l ++ [values']))
    | None => ArgOk (dset String.eqb namespace dest [values'])
    end.

(** ** The vocabulary of the further properties *)

(** The reference [name[s1][s2]...[sn]] as the parser builds it: the last
    subscript is the outermost node. *)
Definition array_ref (name : string) (subscripts : list node) : node :=
  fold_left ArrayRef subscripts (ID name).

(** Every entry of an access is relative to an index with a name of one
    character. *)
Definition single_char_indices (acs : access) : bool :=
  forallb (fun a => match a with
                    | Rel idx _ => Nat.eqb (String.length idx) 1
                    | _ => false
                    end) acs.

(** The access [acs] after [i] more iterations of the loop over
    [loop_index]. *)
Definition shift_access (loop_index : string) (i : Z) (acs : access) : access :=
  map (fun a => match a with
                | Rel idx off =>
                    if String.eqb loop_index idx then Rel idx (off + i) else a
                | _ => a
                end) acs.

(** Some dimension of an array declaration is a literal, as in
    [double a[100]]. *)
Fixpoint has_literal_dim (t : ctype) : bool :=
  match t with
  | ArrayDecl t' dim => is_Constant dim || has_literal_dim t'
  | _ => false
  end.

(** The string has no line break. *)
Fixpoint no_newline (s : string) : bool :=
  match s with
  | EmptyString => true
  | String c s' => negb (Ascii.eqb c newline) && no_newline s'
  end.

(** A method that leaves the constants and the variables of the kernel as
    they are, whatever its outcome. *)
Definition keeps_declarations {A : Type} (m : kst A) : Prop :=
  forall k r k', m k = (r, k') ->
    _constants k' = _constants k /\ _variables k' = _variables k.

(** No access of a declared array depends on the index that
    [calculate_cache_access] takes for the innermost one: the filters
    [writes] and [reads] of every variable are empty. *)
Definition no_inner_access (kernel : Kernel) : bool :=
  forallb (fun var : string * (string * option (list Z)) =>
             match dget String.eqb (_variables kernel) (fst var) with
             | Some (_, Some _) =>
                 forallb (fun acs => match uses_inner_index kernel acs with
                                     | Ok false => true
                                     | _ => false
                                     end)
                   (match dget String.eqb (_destinations kernel) (fst var) with
                    | Some l => l | None => [] end ++
                    match dget String.eqb (_sources kernel) (fst var) with
                    | Some l => l | None => [] end)
             | _ => true
             end)
          (_variables kernel).

(** Every variable of the table has no (index order, offsets) pair. *)
Definition no_pairs (t : offsets_table) : Prop :=
  forall n d, (n, d) ∈ t -> d = [].

(** Every list of offsets of the table is in strictly descending order,
    except, for the variable [var_name], the lists of the index orders of the
    accesses [pending]. *)
Definition descending_but (var_name : string) (pending : list access)
    (t : offsets_table) : Prop :=
  forall n i,
    StronglySorted Z.gt (table_get t n i) \/
    (n = var_name /\ exists acs, acs ∈ pending /\ _get_index_order acs = Ok i).

(** [table.get(name, [])] on the tables of sources and of destinations *)
Definition accesses_of (table : dict string (list access)) (name : string)
  : list access :=
  match dget String.eqb table name with Some l => l | None => [] end.

(** The table [t'] lists, for every name, the accesses that [t] lists for
    it, in the same order and before any other. *)
Definition table_grows (t t' : dict string (list access)) : Prop :=
  forall name, exists more, accesses_of t' name = accesses_of t name ++ more.

(** Every access recorded in the kernel [k] is recorded in [k']. *)
Definition keeps_accesses (k k' : Kernel) : Prop :=
  table_grows (_sources k) (_sources k') /\
  table_grows (_destinations k) (_destinations k').

(** A method that withdraws no access from the tables of the kernel,
    whatever its outcome. *)
Definition grows {A : Type} (m : kst A) : Prop :=
  forall k r k', m k = (r, k') -> keeps_accesses k k'.

(** The errors of [_get_offsets] on a subscript: a failed assertion, and the
    [ValueError] of [int] on a constant that is not an integer literal. *)
Definition subscript_error (e : pyerr) : bool :=
  match e with
  | AssertionError _ | ValueError => true
  | _ => false
  end.

(** The references to variables and to array elements in an expression,
    from left to right. *)
Fixpoint references (stmt : node) : list node :=
  match stmt with
  | ArrayRef _ _ | ID _ => [stmt]
  | BinaryOp _ l r => references l ++ references r
  | _ => []
  end.

(** The access that a reference stands for in the list of [name]: its
    offsets when its base name is [name], and nothing otherwise. *)
Definition reference_access (k : Kernel) (name : string) (ref : node)
  : list access :=
  match ref with
  | ID n => if String.eqb n name then [[Dir]] else []
  | ArrayRef _ _ =>
      match _get_basename ref, _get_offsets k ref with
      | Ok b, Ok offs => if String.eqb b name then [offs] else []
      | _, _ => []
      end
  | _ => []
  end.

(** The statement of DAXPY, [a[i] = a[i] + s * b[i]], and the kernel when
    [_p_for] reaches it. *)
Definition daxpy_statement : node :=
  Assignment "=" (ArrayRef (ID "a") (ID "i"))
    (BinaryOp "+" (ArrayRef (ID "a") (ID "i"))
       (BinaryOp "*" (ID "s") (ArrayRef (ID "b") (ID "i")))).

Definition daxpy_loop_kernel : Kernel :=
  set_loop_stack (kernel_N 50) [("i", IntLit 0, 50, 1)].

(** * Properties *)

(** The kernels of the examples start from the kernel objects that the
    driver builds with [set_constant]. *)
Example kernel_N_set_constant (n m : Z) :
  set_constant new_kernel (VStr "N") (VInt n) = Ok (kernel_N n) /\
  set_constants new_kernel (constant_args [("N", n); ("M", m)])
  = Ok (kernel_N_M n m).
Proof. split; reflexivity. Qed.

(** ** Lists, sorting and [blocking] (C8) *)

Lemma zmem_elem_of (x : Z) (l : list Z) : zmem x l = true <-> x ∈ l.
Proof.
  unfold zmem. rewrite existsb_exists. split.
  - intros (y & Hy & Heq). apply Z.eqb_eq in Heq. subst y.
    by apply list_elem_of_In.
  - intros H. exists x. split; [by apply list_elem_of_In | apply Z.eqb_refl].
Qed.

Lemma zmem_false (x : Z) (l : list Z) : zmem x l = false <-> x ∉ l.
Proof.
  rewrite <- zmem_elem_of. destruct (zmem x l); split; intros H; done.
Qed.

Lemma dedup_fold_elem_of (l acc : list Z) (x : Z) :
  x ∈ fold_left dedup_append l acc <-> x ∈ acc \/ x ∈ l.
Proof.
  revert acc. induction l as [|y l IH]; intros acc; simpl.
  - rewrite elem_of_nil. tauto.
  - rewrite IH. unfold dedup_append. rewrite elem_of_cons.
    destruct (zmem y acc) eqn:E.
    + apply zmem_elem_of in E. split; [tauto|].
      intros [H|[->|H]]; tauto.
    + rewrite elem_of_app, list_elem_of_singleton. tauto.
Qed.

Lemma dedup_fold_NoDup (l acc : list Z) :
  NoDup acc -> NoDup (fold_left dedup_append l acc).
Proof.
  revert acc. induction l as [|y l IH]; intros acc Hnd; simpl; [done|].
  apply IH. unfold dedup_append. destruct (zmem y acc) eqn:E; [done|].
  apply zmem_false in E. apply NoDup_app. split; [done|]. split.
  - intros x Hx Hx'. apply list_elem_of_singleton in Hx'. by subst.
  - apply NoDup_singleton.
Qed.

Lemma py_sorted_perm_eq (l k : list Z) : l ≡ₚ k -> py_sorted l = py_sorted k.
Proof.
  intros H. unfold py_sorted.
  apply (Sorted_unique Z.le); try apply Sorted_merge_sort; try apply _.
  by rewrite !merge_sort_Permutation.
Qed.

Lemma py_sorted_rev_perm_eq (l k : list Z) :
  l ≡ₚ k -> py_sorted_rev l = py_sorted_rev k.
Proof.
  intros H. unfold py_sorted_rev.
  assert (Total Z.ge) by (intros x y; lia).
  assert (Transitive Z.ge) by (intros x y z; lia).
  assert (AntiSymm (=) Z.ge) by (intros x y; lia).
  apply (Sorted_unique Z.ge); try apply Sorted_merge_sort; try apply _.
  by rewrite !merge_sort_Permutation.
Qed.

Lemma py_sorted_elem_of (l : list Z) (x : Z) : x ∈ py_sorted l <-> x ∈ l.
Proof. unfold py_sorted. by rewrite merge_sort_Permutation. Qed.

Lemma sorted_le_NoDup_lt (l : list Z) :
  StronglySorted Z.le l -> NoDup l -> StronglySorted Z.lt l.
Proof.
  induction 1 as [|x l Hs IH Hall]; intros Hnd; constructor.
  - apply IH. by apply NoDup_cons in Hnd as [_ ?].
  - apply NoDup_cons in Hnd as [Hx _].
    rewrite Forall_forall in *. intros y Hy.
    assert (x <> y) by (intros ->; done).
    specialize (Hall y Hy). lia.
Qed.

Lemma py_sorted_distinct (l : list Z) :
  NoDup l -> StronglySorted Z.lt (py_sorted l).
Proof.
  intros Hnd. apply sorted_le_NoDup_lt.
  - apply StronglySorted_merge_sort; apply _.
  - unfold py_sorted. by rewrite merge_sort_Permutation.
Qed.

(** With a non-zero block size the loop of [blocking] never raises. *)
Lemma blocking_fold (indices acc : list Z) (block_size initial_boundary : Z) :
  block_size <> 0 ->
  foldM (fun blocks idx =>
           let* bl_idx := block_index block_size initial_boundary idx in
           Ok (dedup_append blocks bl_idx)) indices acc
  = Ok (fold_left dedup_append
          (map (fun idx => (idx - initial_boundary) / block_size) indices) acc).
Proof.
  intros Hbs. revert acc. induction indices as [|i l IH]; intros acc; simpl; [done|].
  unfold block_index at 1. apply Z.eqb_neq in Hbs. rewrite Hbs. simpl.
  apply IH.
Qed.

Lemma blocking_value (indices : list Z) (block_size initial_boundary : Z) :
  block_size <> 0 ->
  blocking indices block_size initial_boundary
  = Ok (py_sorted (fold_left dedup_append
          (map (fun idx => (idx - initial_boundary) / block_size) indices) [])).
Proof. intros H. unfold blocking. by rewrite blocking_fold. Qed.

(** C8: with a positive block size, [blocking] returns the same list for
    every permutation of its input: the strictly increasing list of the block
    indices [(idx - initial_boundary) / block_size] (floor division) of the
    input, so that the cache lines covered by the output do not depend on the
    order of the input. *)
Theorem blocking_permutation_invariant
    (indices indices' : list Z) (block_size initial_boundary : Z) :
  0 < block_size ->
  indices ≡ₚ indices' ->
  exists blocks,
    blocking indices block_size initial_boundary = Ok blocks /\
    blocking indices' block_size initial_boundary = Ok blocks /\
    StronglySorted Z.lt blocks /\
    (forall b, b ∈ blocks <->
       exists idx, idx ∈ indices /\ b = (idx - initial_boundary) / block_size) /\
    (forall x, covers_line blocks block_size initial_boundary x = true <->
       exists idx, idx ∈ indices /\
         (x - initial_boundary) / block_size
         = (idx - initial_boundary) / block_size).
Proof.
  intros Hpos Hperm.
  assert (Hne : block_size <> 0) by lia.
  set (f := fun idx => (idx - initial_boundary) / block_size).
  set (d := fold_left dedup_append (map f indices) []).
  assert (Hin : forall b, b ∈ py_sorted d <-> exists idx, idx ∈ indices /\ b = f idx).
  { intros b. rewrite py_sorted_elem_of. unfold d. rewrite dedup_fold_elem_of.
    rewrite elem_of_nil, list_elem_of_fmap. split.
    - intros [[]|(i & -> & Hi)]. by exists i.
    - intros (i & Hi & ->). right. by exists i. }
  exists (py_sorted d). split_and!.
  - by apply blocking_value.
  - rewrite blocking_value by done. f_equal. apply py_sorted_perm_eq.
    apply NoDup_Permutation; try (apply dedup_fold_NoDup; apply NoDup_nil_2).
    intros x. unfold d. rewrite !dedup_fold_elem_of, !list_elem_of_fmap.
    split; (intros [H|(i & -> & Hi)]; [by left|]); right; exists i; split; auto;
      first [by rewrite Hperm | by rewrite <- Hperm].
  - apply py_sorted_distinct, dedup_fold_NoDup, NoDup_nil_2.
  - apply Hin.
  - intros x. unfold covers_line. rewrite zmem_elem_of. apply Hin.
Qed.

Lemma blocking_permutation_invariant_witness :
  exists blocks,
    blocking [0; -9; 7; 15] 8 0 = Ok blocks /\
    blocking [15; 7; -9; 0] 8 0 = Ok blocks /\
    StronglySorted Z.lt blocks /\
    (forall b, b ∈ blocks <->
       exists idx, idx ∈ [0; -9; 7; 15] /\ b = (idx - 0) / 8) /\
    (forall x, covers_line blocks 8 0 x = true <->
       exists idx, idx ∈ [0; -9; 7; 15] /\ (x - 0) / 8 = (idx - 0) / 8).
Proof.
  apply (blocking_permutation_invariant [0; -9; 7; 15] [15; 7; -9; 0] 8 0).
  - lia.
  - exact (Permutation_rev [0; -9; 7; 15]).
Defined.

(** ** The interval set *)

Lemma contains_cons (r : Z * Z) (s : Intervals.t) (x : Z) :
  Intervals.contains (r :: s) x = in_range r x || Intervals.contains s x.
Proof. reflexivity. Qed.

Lemma contains_insert (s : Intervals.t) (r : Z * Z) (x : Z) :
  in_range r x || Intervals.contains s x = true ->
  Intervals.contains (Intervals.insert r s) x = true.
Proof.
  revert r. induction s as [|c s IH]; intros r H; simpl.
  - by rewrite orb_false_r in *.
  - rewrite contains_cons in H.
    destruct (snd r <? fst c) eqn:E1; [by rewrite !contains_cons|].
    destruct (snd c <? fst r) eqn:E2.
    + rewrite contains_cons. destruct (in_range c x) eqn:Ec; [done|].
      simpl. apply IH. by rewrite orb_false_l in H.
    + apply IH. apply orb_true_iff in H as [H|H].
      * apply orb_true_iff. left. unfold in_range in *. simpl. lia.
      * apply orb_true_iff in H as [H|H]; apply orb_true_iff; [left|by right].
        unfold in_range in *. simpl. lia.
Qed.

Lemma contains_add (s : Intervals.t) (r : Z * Z) (x : Z) :
  in_range r x || Intervals.contains s x = true ->
  Intervals.contains (Intervals.add s r) x = true.
Proof.
  intros H. unfold Intervals.add. destruct (fst r <? snd r) eqn:E.
  - by apply contains_insert.
  - apply orb_true_iff in H as [H|H]; [|done]. unfold in_range in H. lia.
Qed.

Lemma contains_merge_mono (ranges : list (Z * Z)) (s : Intervals.t) (x : Z) :
  Intervals.contains s x = true ->
  Intervals.contains (Intervals.merge s ranges) x = true.
Proof.
  revert s. induction ranges as [|r rs IH]; intros s H; simpl; [done|].
  apply IH. apply contains_add. rewrite H. apply orb_true_r.
Qed.

Lemma contains_merge_new (ranges : list (Z * Z)) (s : Intervals.t) (r : Z * Z)
    (x : Z) :
  r ∈ ranges -> in_range r x = true ->
  Intervals.contains (Intervals.merge s ranges) x = true.
Proof.
  revert s. induction ranges as [|r' rs IH]; intros s Hin Hx; simpl.
  - by apply elem_of_nil in Hin.
  - apply elem_of_cons in Hin as [->|Hin].
    + apply contains_merge_mono, contains_add. by rewrite Hx.
    + by apply IH.
Qed.

(** ** The backward trace of one pair *)

Lemma list_remove_length_le (x : Z) (l : list Z) :
  (List.length (list_remove x l) <= List.length l)%nat.
Proof.
  induction l as [|y l IH]; simpl; [lia|].
  destruct (x =? y); simpl; lia.
Qed.

Lemma list_remove_length (x : Z) (l : list Z) :
  x ∈ l -> S (List.length (list_remove x l)) = List.length l.
Proof.
  induction l as [|y l IH]; intros H; simpl.
  - by apply elem_of_nil in H.
  - destruct (x =? y) eqn:E; [done|]. simpl. f_equal. apply IH.
    apply elem_of_cons in H as [->|H]; [|done]. rewrite Z.eqb_refl in E. done.
Qed.

Lemma list_remove_subset (x y : Z) (l : list Z) :
  y ∈ list_remove x l -> y ∈ l.
Proof.
  induction l as [|z l IH]; simpl; [done|].
  destruct (x =? z); rewrite ?elem_of_cons; intuition.
Qed.

Lemma list_remove_other (x y : Z) (l : list Z) :
  y <> x -> y ∈ l -> y ∈ list_remove x l.
Proof.
  intros Hne. induction l as [|z l IH]; simpl; [done|].
  destruct (x =? z) eqn:E; rewrite ?elem_of_cons.
  - apply Z.eqb_eq in E. subst z. intros [->|H]; done.
  - intros [->|H]; [by left | right; auto].
Qed.

Section TraceInvariant.
Context {fl : FloatOps} (machine : MachineModel fl).
Context (iter_offset trace_length : Z) (cands : list Z).

Lemma trace_step_ok (m h : list Z) (c : Intervals.t) (o : Z) (st' : trace_state) :
  trace_step machine iter_offset trace_length (m, h, c) o = Ok st' ->
  exists rs,
    cached_ranges machine iter_offset trace_length o = Ok rs /\
    (Intervals.contains c o = true /\ o ∈ m /\
     st' = (list_remove o m, if zmem o h then h else h ++ [o],
            Intervals.merge c rs) \/
     Intervals.contains c o = false /\ st' = (m, h, Intervals.merge c rs)).
Proof.
  unfold trace_step, py_remove. intros H.
  destruct (Intervals.contains c o) eqn:Hhit.
  - destruct (zmem o m) eqn:Hom; [|done]. simpl in H.
    destruct (cached_ranges machine iter_offset trace_length o) as [rs|];
      [|done]. simpl in H. injection H as <-.
    exists rs. split; [done|]. left. by apply zmem_elem_of in Hom.
  - simpl in H.
    destruct (cached_ranges machine iter_offset trace_length o) as [rs|];
      [|done]. simpl in H. injection H as <-.
    exists rs. split; [done|]. by right.
Qed.

Lemma trace_inv_init : trace_inv cands [] (cands, [], Intervals.empty).
Proof.
  unfold trace_inv.
  split_and!; try done.
  - apply NoDup_nil_2.
  - intros x H. by apply elem_of_nil in H.
  - intros x H. by left.
  - simpl. lia.
Qed.

Lemma trace_step_inv (done_ rest : list Z) (o : Z) (st st' : trace_state) :
  cands = done_ ++ o :: rest ->
  trace_inv cands done_ st ->
  trace_step machine iter_offset trace_length st o = Ok st' ->
  trace_inv cands (done_ ++ [o]) st'.
Proof.
  intros Hc Hinv Hstep. destruct st as [[m h] c].
  apply trace_step_ok in Hstep as (rs & Hr & [(Hhit & Hpresent & ->)|(Hhit & ->)]);
    destruct Hinv as (Hm & Hh & Hnd & Hcov & Hall & Hle & Heq).
  - (* the offset is in the cache *)
    assert (Ho : o ∈ cands) by (rewrite Hc, elem_of_app, elem_of_cons; auto).
    unfold trace_inv. destruct (zmem o h) eqn:Hoh.
    + apply zmem_elem_of in Hoh. split_and!.
      * intros x Hx. apply Hm. by eapply list_remove_subset.
      * intros x Hx. apply elem_of_app. left. auto.
      * done.
      * intros x Hx. apply contains_merge_mono. auto.
      * intros x Hx. destruct (decide (x = o)) as [->|Hne]; [by right|].
        destruct (Hall x Hx); [left|by right]. by apply list_remove_other.
      * pose proof (list_remove_length_le o m). lia.
      * intros Hnc. exfalso.
        specialize (Hh o Hoh). rewrite Hc in Hnc.
        apply NoDup_app in Hnc as (_ & Hdis & _).
        apply (Hdis o Hh). by left.
    + apply zmem_false in Hoh.
      assert (Hom : o ∈ m) by (destruct (Hall o Ho); done).
      pose proof (list_remove_length o m Hom) as Hlen. split_and!.
      * intros x Hx. apply Hm. by eapply list_remove_subset.
      * intros x Hx. apply elem_of_app.
        apply elem_of_app in Hx as [Hx|Hx]; [left; auto | by right].
      * apply NoDup_app. split_and!; [done| |apply NoDup_singleton].
        intros x Hx Hx'. apply list_elem_of_singleton in Hx'. by subst.
      * intros x Hx. apply contains_merge_mono.
        apply elem_of_app in Hx as [Hx|Hx]; [auto|].
        apply list_elem_of_singleton in Hx. by subst.
      * intros x Hx. rewrite elem_of_app, list_elem_of_singleton.
        destruct (decide (x = o)) as [->|Hne]; [by right; right|].
        destruct (Hall x Hx); [left|by right; left].
        by apply list_remove_other.
      * rewrite length_app. simpl. lia.
      * intros Hnc. specialize (Heq Hnc). rewrite length_app. simpl. lia.
  - (* the offset is not in the cache *)
    unfold trace_inv. split_and!; try done.
    + intros x Hx. apply elem_of_app. left. auto.
    + intros x Hx. apply contains_merge_mono. auto.
Qed.

Lemma trace_fold_inv (rest done_ : list Z) (st st' : trace_state) :
  cands = done_ ++ rest ->
  trace_inv cands done_ st ->
  foldM (trace_step machine iter_offset trace_length) rest st = Ok st' ->
  trace_inv cands cands st'.
Proof.
  revert done_ st. induction rest as [|o rest IH]; intros done_ st Hc Hinv Hf.
  - simpl in Hf. injection Hf as <-. rewrite app_nil_r in Hc. by subst.
  - simpl in Hf.
    destruct (trace_step machine iter_offset trace_length st o) as [st1|e] eqn:Hs;
      simpl in Hf; [|discriminate].
    apply (IH (done_ ++ [o]) st1).
    + by rewrite <- app_assoc.
    + by eapply trace_step_inv.
    + done.
Qed.

Lemma trace_offsets_inv (st : trace_state) :
  trace_offsets machine iter_offset trace_length cands = Ok st ->
  trace_inv cands cands st.
Proof.
  intros H. apply (trace_fold_inv cands [] (cands, [], Intervals.empty)); try done.
  apply trace_inv_init.
Qed.
End TraceInvariant.

(** ** Dictionaries and tables *)

Lemma foldM_inv {A B : Type} (P : B -> Prop) (f : B -> A -> res B) (l : list A)
    (b b' : B) :
  (forall x y y', x ∈ l -> P y -> f y x = Ok y' -> P y') ->
  P b -> foldM f l b = Ok b' -> P b'.
Proof.
  revert b. induction l as [|x l IH]; intros b Hstep Hb Hf; simpl in Hf.
  - by injection Hf as <-.
  - destruct (f b x) as [b1|e] eqn:E; simpl in Hf; [|discriminate].
    apply (IH b1); try done.
    + intros x' y y' Hx'. apply Hstep. by right.
    + eapply Hstep; [by left|exact Hb|exact E].
Qed.

Section DictFacts.
Context {K V : Type} (keq : K -> K -> bool).
Hypothesis keq_spec : forall a b, keq a b = true <-> a = b.

Lemma keq_refl (a : K) : keq a a = true.
Proof. by apply keq_spec. Qed.

Lemma keq_ne (a b : K) : a <> b -> keq a b = false.
Proof.
  intros H. destruct (keq a b) eqn:E; [|done]. by apply keq_spec in E.
Qed.

Lemma dget_dset_eq (d : dict K V) (k : K) (v : V) :
  dget keq (dset keq d k v) k = Some v.
Proof.
  induction d as [|[k' v'] d IH]; simpl.
  - by rewrite keq_refl.
  - destruct (keq k k') eqn:E; simpl; rewrite E; [done|apply IH].
Qed.

Lemma dget_dset_ne (d : dict K V) (k k' : K) (v : V) :
  k <> k' -> dget keq (dset keq d k v) k' = dget keq d k'.
Proof.
  intros Hne. induction d as [|[k0 v0] d IH]; simpl.
  - rewrite keq_ne; [done|]. by intros ->.
  - destruct (keq k k0) eqn:E; simpl.
    + apply keq_spec in E. subst k0.
      rewrite keq_ne; [done|]. by intros ->.
    + by rewrite IH.
Qed.

Lemma dkeys_dset (d : dict K V) (k k' : K) (v : V) :
  k' ∈ dkeys (dset keq d k v) <-> k' = k \/ k' ∈ dkeys d.
Proof.
  unfold dkeys. induction d as [|[k0 v0] d IH]; simpl.
  - rewrite list_elem_of_singleton, elem_of_nil. tauto.
  - destruct (keq k k0) eqn:E; simpl; rewrite !elem_of_cons.
    + apply keq_spec in E. subst k0. tauto.
    + rewrite IH. tauto.
Qed.

Lemma dkeys_dset_NoDup (d : dict K V) (k : K) (v : V) :
  NoDup (dkeys d) -> NoDup (dkeys (dset keq d k v)).
Proof.
  unfold dkeys. induction d as [|[k0 v0] d IH]; simpl; intros Hnd.
  - apply NoDup_singleton.
  - destruct (keq k k0) eqn:E; simpl; [done|].
    apply NoDup_cons in Hnd as [Hk0 Hnd]. apply NoDup_cons. split; [|auto].
    intros Hin. apply (dkeys_dset d k k0 v) in Hin as [->|Hin]; [|done].
    by rewrite keq_refl in E.
Qed.

Lemma dget_of_elem (d : dict K V) (k : K) (v : V) :
  NoDup (dkeys d) -> (k, v) ∈ d -> dget keq d k = Some v.
Proof.
  unfold dkeys. induction d as [|[k0 v0] d IH]; simpl; intros Hnd Hin.
  - by apply elem_of_nil in Hin.
  - apply NoDup_cons in Hnd as [Hk0 Hnd].
    apply elem_of_cons in Hin as [Heq|Hin].
    + injection Heq as -> ->. by rewrite keq_refl.
    + rewrite keq_ne; [by apply IH|].
      intros ->. apply Hk0. apply list_elem_of_fmap. by exists (k0, v).
Qed.

Lemma dget_elem (d : dict K V) (k : K) (v : V) :
  dget keq d k = Some v -> exists k', keq k k' = true /\ (k', v) ∈ d.
Proof.
  induction d as [|[k0 v0] d IH]; simpl; [done|].
  destruct (keq k k0) eqn:E.
  - intros [= ->]. exists k0. split; [done|by left].
  - intros H. destruct (IH H) as (k' & ? & ?). exists k'. split; [done|by right].
Qed.
End DictFacts.

Lemma dget_str_elem {V : Type} (d : dict string V) (k : string) (v : V) :
  dget String.eqb d k = Some v -> (k, v) ∈ d.
Proof.
  intros H. apply dget_elem in H as (k' & E & Hin).
  apply String.eqb_eq in E. by subst.
Qed.

Lemma elem_of_dkeys {K V : Type} (d : dict K V) (k : K) :
  k ∈ dkeys d <-> exists v, (k, v) ∈ d.
Proof.
  unfold dkeys. rewrite list_elem_of_fmap. split.
  - intros ([k' v] & -> & Hin). by exists v.
  - intros (v & Hin). by exists (k, v).
Qed.

Lemma dget_not_key {V : Type} (d : dict string V) (k : string) :
  k ∉ dkeys d -> dget String.eqb d k = None.
Proof.
  intros Hk. destruct (dget String.eqb d k) as [v|] eqn:E; [|done].
  exfalso. apply Hk, elem_of_dkeys. exists v. by apply dget_str_elem.
Qed.

Lemma existsb_dkeys {A W : Type} (aeq : A -> A -> bool) (d : dict A W) (k : A) :
  existsb (aeq k) (dkeys d)
  = match dget aeq d k with Some _ => true | None => false end.
Proof.
  unfold dkeys. induction d as [|[k0 v0] d IH]; simpl; [done|].
  by destruct (aeq k k0).
Qed.

Lemma table_get_set (t t' : offsets_table) (n i n' i' : string) (l : list Z) :
  table_set t n i l = Ok t' ->
  table_get t' n' i' = if decide (n = n' /\ i = i') then l else table_get t n' i'.
Proof.
  unfold table_set, dindex. destruct (dget String.eqb t n) as [d|] eqn:E;
    simpl; [|done]. intros [= <-]. unfold table_get.
  destruct (decide (n = n')) as [<-|Hn].
  - rewrite (dget_dset_eq _ String.eqb_eq), E.
    destruct (decide (i = i')) as [<-|Hi].
    + rewrite (dget_dset_eq _ String.eqb_eq).
      destruct (decide _) as [?|Hno]; [done|]. by destruct Hno.
    + rewrite (dget_dset_ne _ String.eqb_eq) by done.
      destruct (decide _) as [[_ ?]|?]; done.
  - rewrite (dget_dset_ne _ String.eqb_eq) by done.
    destruct (decide _) as [[? _]|?]; done.
Qed.

Lemma table_set_wf (t t' : offsets_table) (n i : string) (l : list Z) :
  wf_table t -> table_set t n i l = Ok t' -> wf_table t'.
Proof.
  intros [Hk Hd]. unfold table_set, dindex.
  destruct (dget String.eqb t n) as [d|] eqn:E; simpl; [|done]. intros [= <-].
  split.
  - by apply (dkeys_dset_NoDup _ String.eqb_eq).
  - intros n' d' Hin.
    apply (dget_of_elem _ String.eqb_eq) in Hin;
      [|by apply (dkeys_dset_NoDup _ String.eqb_eq)].
    destruct (decide (n = n')) as [<-|Hn].
    + rewrite (dget_dset_eq _ String.eqb_eq) in Hin. injection Hin as <-.
      apply (dkeys_dset_NoDup _ String.eqb_eq).
      apply (Hd n). by apply dget_str_elem.
    + rewrite (dget_dset_ne _ String.eqb_eq) in Hin by done.
      apply (Hd n'). by apply dget_str_elem.
Qed.

Lemma table_get_elem (t : offsets_table) (n i : string) (d : dict string (list Z))
    (l : list Z) :
  wf_table t -> (n, d) ∈ t -> (i, l) ∈ d -> table_get t n i = l.
Proof.
  intros [Hk Hd] Hn Hi. unfold table_get.
  rewrite (dget_of_elem _ String.eqb_eq t n d) by done.
  rewrite (dget_of_elem _ String.eqb_eq d i l); [done| |done]. by apply (Hd n).
Qed.

Lemma dset_wf (t : offsets_table) (n : string) (d : dict string (list Z)) :
  wf_table t -> NoDup (dkeys d) -> wf_table (dset String.eqb t n d).
Proof.
  intros [Hk Hd] Hnd. split.
  - by apply (dkeys_dset_NoDup _ String.eqb_eq).
  - intros n' d' Hin.
    apply (dget_of_elem _ String.eqb_eq) in Hin;
      [|by apply (dkeys_dset_NoDup _ String.eqb_eq)].
    destruct (decide (n = n')) as [<-|Hn].
    + rewrite (dget_dset_eq _ String.eqb_eq) in Hin. by injection Hin as <-.
    + rewrite (dget_dset_ne _ String.eqb_eq) in Hin by done.
      apply (Hd n'). by apply dget_str_elem.
Qed.

Lemma wf_table_nil : wf_table [].
Proof.
  split; [apply NoDup_nil_2|]. intros n d H. by apply elem_of_nil in H.
Qed.

Lemma table_get_init_hits (init : offsets_table) (n i : string) :
  table_get (init_hits init) n i = [].
Proof.
  unfold table_get, init_hits.
  induction init as [|[n0 d0] init IH]; simpl; [done|].
  destruct (n =? n0)%string; [|apply IH].
  clear IH. induction d0 as [|[i0 l0] d0 IH]; simpl; [done|].
  destruct (i =? i0)%string; [done|apply IH].
Qed.

Section LevelPass.
Context {fl : FloatOps} (kernel : Kernel) (machine : MachineModel fl).
Context (misses : dict Z offsets_table) (cache_level : Z).
Context (read_offsets write_offsets : offsets_table).

Lemma init_misses_wf (init : offsets_table) :
  init_misses misses cache_level read_offsets write_offsets = Ok init ->
  wf_table init.
Proof.
  unfold init_misses. apply foldM_inv; [|apply wf_table_nil].
  intros name t t' _ Hwf Hstep.
  destruct (dindex String.eqb read_offsets name) as [r|] eqn:Er; [|done].
  destruct (dindex String.eqb write_offsets name) as [w|] eqn:Ew; [|done].
  simpl in Hstep. revert Hstep. apply foldM_inv.
  - intros idx y y' _ Hy Hs.
    destruct (candidates _ _ _ _ _ _) as [c|]; [|done]. simpl in Hs.
    by eapply table_set_wf.
  - apply dset_wf; [done|apply NoDup_nil_2].
Qed.

Lemma init_misses_candidates (init : offsets_table) :
  init_misses misses cache_level read_offsets write_offsets = Ok init ->
  candidates_table misses cache_level read_offsets write_offsets init.
Proof.
  unfold init_misses. apply foldM_inv; [|by intros ? ? ? ? ?].
  intros name t t' _ Hq Hstep.
  destruct (dindex String.eqb read_offsets name) as [r|] eqn:Er; [|done].
  destruct (dindex String.eqb write_offsets name) as [w|] eqn:Ew; [|done].
  simpl in Hstep. revert Hstep. apply foldM_inv.
  - intros idx y y' _ Hy Hs.
    destruct (candidates _ _ _ _ _ _) as [c|] eqn:Ec; [|done]. simpl in Hs.
    unfold table_set, dindex in Hs.
    destruct (dget String.eqb y name) as [d0|] eqn:Ed; [|done].
    simpl in Hs. injection Hs as <-.
    intros n d i l Hn Hi.
    destruct (decide (name = n)) as [<-|Hne].
    + rewrite (dget_dset_eq _ String.eqb_eq) in Hn. injection Hn as <-.
      destruct (decide (idx = i)) as [<-|Hni].
      * rewrite (dget_dset_eq _ String.eqb_eq) in Hi. by injection Hi as <-.
      * rewrite (dget_dset_ne _ String.eqb_eq) in Hi by done. by eapply Hy.
    + rewrite (dget_dset_ne _ String.eqb_eq) in Hn by done. by eapply Hy.
  - intros n d i l Hn Hi.
    destruct (decide (name = n)) as [<-|Hne].
    + rewrite (dget_dset_eq _ String.eqb_eq) in Hn. by injection Hn as <-.
    + rewrite (dget_dset_ne _ String.eqb_eq) in Hn by done. by eapply Hq.
Qed.

Lemma trace_pair_ok (var_name idx_order : string) (trace_length : Z)
    (cands m h : list Z) (c : Intervals.t) :
  trace_pair kernel machine var_name idx_order trace_length cands = Ok (m, h, c) ->
  pair_ok cands m h /\ forall x, x ∈ h -> Intervals.contains c x = true.
Proof.
  unfold trace_pair. intros H.
  destruct (last_char _) as [inner|]; [|done]. simpl in H.
  destruct (_calculate_iteration_offset _ _ _ _) as [io|]; [|done]. simpl in H.
  apply trace_offsets_inv in H.
  destruct H as (Hm & Hh & Hnd & Hcov & _ & Hle & Heq).
  unfold pair_ok. split_and!; done.
Qed.

Lemma level_pass_pairs (trace_length : Z) (p : pass_result) :
  level_pass kernel machine misses cache_level read_offsets write_offsets
             trace_length = Ok p ->
  init_misses misses cache_level read_offsets write_offsets = Ok (p_candidates p) /\
  forall name idx,
    pair_ok (table_get (p_candidates p) name idx)
            (table_get (p_misses p) name idx)
            (table_get (p_hits p) name idx).
Proof.
  unfold level_pass. intros H.
  destruct (init_misses _ _ _ _) as [init|] eqn:Ei; [|done]. simpl in H.
  pose proof (init_misses_wf init Ei) as Hwf.
  enough (pass_inv init p) as [-> ?] by done.
  revert H. apply (foldM_inv (pass_inv init)).
  - intros [var d] acc acc' Hin Hacc. unfold trace_variable. simpl.
    apply (foldM_inv (pass_inv init)); [|done].
    intros [idx cands] y y' Hpair [Hc Hy] Hs. simpl in Hs.
    destruct (trace_pair _ _ _ _ _ _) as [[[m h] c]|] eqn:Et; [|done].
    simpl in Hs.
    destruct (table_set (p_misses y) var idx m) as [ms|] eqn:Ems; [|done].
    simpl in Hs.
    destruct (table_set (p_hits y) var idx h) as [hs|] eqn:Ehs; [|done].
    simpl in Hs. injection Hs as <-. unfold pass_inv. simpl. split; [done|].
    intros name i.
    rewrite (table_get_set _ _ _ _ name i _ Ems).
    rewrite (table_get_set _ _ _ _ name i _ Ehs).
    destruct (decide _) as [[<- <-]|_]; [|apply Hy].
    rewrite <- Hc.
    rewrite (table_get_elem init var idx d cands) by done.
    by apply trace_pair_ok in Et as [? _].
  - unfold pass_inv. simpl. split; [done|].
    intros name idx. rewrite table_get_init_hits.
    unfold pair_ok. simpl. split_and!; try done; try lia.
    * intros x Hx. by apply elem_of_nil in Hx.
    * apply NoDup_nil_2.
Qed.
End LevelPass.

(** ** Misses, hits and candidates of a level (C1) *)

Lemma daxpy_offsets :
  process (sp := sympy_strict) daxpy_ast (kernel_N 50) = (Ok tt, daxpy_kernel) /\
  compile_offsets daxpy_kernel snb = Ok (daxpy_reads, daxpy_writes).
Proof. split; vm_compute; reflexivity. Qed.

(** C1, as stated, fails on DAXPY: [a[i]] is read and written, so each of
    its eight offsets enters level 1 twice; all sixteen candidates but the
    first are found in the cache, and the hits are recorded once per offset.
    One miss and eight hits remain of sixteen candidates, in the first pass
    and in the statistics of level 1 at the end of the run. *)
Lemma misses_plus_hits_counterexample :
  (exists p,
     level_pass daxpy_kernel snb [] 1 daxpy_reads daxpy_writes 0 = Ok p /\
     table_get (p_candidates p) "a" "i"
       = [7; 7; 6; 6; 5; 5; 4; 4; 3; 3; 2; 2; 1; 1; 0; 0] /\
     table_get (p_misses p) "a" "i" = [7] /\
     table_get (p_hits p) "a" "i" = [7; 6; 5; 4; 3; 2; 1; 0] /\
     (List.length (table_get (p_misses p) "a" "i")
      + List.length (table_get (p_hits p) "a" "i")
      <> List.length (table_get (p_candidates p) "a" "i"))%nat) /\
  (exists st,
     calculate_cache_access_stats daxpy_kernel snb driver_fuel
       = Some (Ok daxpy_run) /\
     snd daxpy_run !! 0%nat = Some st /\
     s_trace_length st = 1008 /\
     List.length (table_get (s_candidates st) "a" "i") = 16%nat /\
     List.length (table_get (s_misses st) "a" "i") = 1%nat /\
     List.length (table_get (s_hits st) "a" "i") = 8%nat).
Proof.
  split.
  - eexists. split; [vm_compute; reflexivity|].
    vm_compute. split_and!; try reflexivity. discriminate.
  - eexists. split; [vm_compute; reflexivity|].
    split; [reflexivity|]. vm_compute. by split_and!.
Qed.

(** C1 (amended): after the backward trace of a level, for every (variable,
    index order) pair the remaining misses and the hits are offsets of the
    candidates of the pair, no hit is listed twice, and the number of misses
    plus the number of hits is at most the number of candidates, with equality
    when no offset occurs twice among the candidates; every hit of a pair is
    covered by the interval set of the pair. *)
Theorem misses_plus_hits_bounded {fl : FloatOps} (kernel : Kernel)
    (machine : MachineModel fl) (misses : dict Z offsets_table) (cache_level : Z)
    (read_offsets write_offsets : offsets_table) (trace_length : Z)
    (p : pass_result) :
  level_pass kernel machine misses cache_level read_offsets write_offsets
             trace_length = Ok p ->
  (forall name idx,
     let c := table_get (p_candidates p) name idx in
     let m := table_get (p_misses p) name idx in
     let h := table_get (p_hits p) name idx in
     (List.length m + List.length h <= List.length c)%nat /\
     (NoDup c -> (List.length m + List.length h = List.length c)%nat) /\
     (forall x, x ∈ h -> x ∈ c) /\ (forall x, x ∈ m -> x ∈ c) /\ NoDup h) /\
  (forall name idx t cands m h cache,
     trace_pair kernel machine name idx t cands = Ok (m, h, cache) ->
     forall x, x ∈ h -> x ∈ cands /\ Intervals.contains cache x = true).
Proof.
  intros Hp. split.
  - intros name idx.
    apply level_pass_pairs in Hp as [_ Hp]. apply (Hp name idx).
  - intros name idx t cands m h cache Ht x Hx.
    apply trace_pair_ok in Ht as [(_ & _ & Hh & _) Hcov]. auto.
Qed.

Lemma misses_plus_hits_bounded_witness :
  (forall name idx,
     let c := table_get daxpy_level1_candidates name idx in
     let m := table_get daxpy_level1_misses name idx in
     let h := table_get daxpy_level1_hits name idx in
     (List.length m + List.length h <= List.length c)%nat /\
     (NoDup c -> (List.length m + List.length h = List.length c)%nat) /\
     (forall x, x ∈ h -> x ∈ c) /\ (forall x, x ∈ m -> x ∈ c) /\ NoDup h) /\
  (forall name idx t cands m h cache,
     trace_pair daxpy_kernel snb name idx t cands = Ok (m, h, cache) ->
     forall x, x ∈ h -> x ∈ cands /\ Intervals.contains cache x = true).
Proof.
  apply (misses_plus_hits_bounded daxpy_kernel snb [] 1 daxpy_reads daxpy_writes 0
           (mkPass daxpy_level1_candidates daxpy_level1_misses daxpy_level1_hits
                   2 256)).
  vm_compute. reflexivity.
Defined.

(** ** The loop over the cache levels *)

Section Levels.
Context {fl : FloatOps} (kernel : Kernel) (machine : MachineModel fl).
Context (read_offsets write_offsets : offsets_table).

Lemma level_loop_pass (fuel : nat) (misses : dict Z offsets_table)
    (cache_level cache_size trace_length t : Z) (p : pass_result)
    (history : list Z) :
  level_loop kernel machine fuel misses cache_level cache_size read_offsets
             write_offsets trace_length = Some (Ok (p, t, history)) ->
  level_pass kernel machine misses cache_level read_offsets write_offsets t
    = Ok p.
Proof.
  revert trace_length history. induction fuel as [|fuel IH];
    intros trace_length history H; simpl in H; [done|].
  destruct (level_pass _ _ _ _ _ _ trace_length) as [p0|] eqn:Ep; [|done].
  destruct (new_trace_length _ _ _) as [n|]; [|done].
  destruct (trace_length <? n).
  - destruct (level_loop _ _ fuel _ _ _ _ _ n) as [[[[p' t'] h']|]|] eqn:El;
      try done.
    injection H as -> -> _. by eapply IH.
  - by injection H as -> -> _.
Qed.

Lemma level_finish_fields (p : pass_result) (t : Z) (st : level_stats) :
  level_finish kernel machine write_offsets p t = Ok st ->
  s_candidates st = p_candidates p /\ s_misses st = p_misses p /\
  s_hits st = p_hits p /\ s_trace_length st = t /\
  total_lines machine (p_misses p) = Ok (s_lines_misses st) /\
  (exists ev, level_evicts kernel write_offsets = Ok ev /\ s_evicts st = ev /\
              total_lines machine ev = Ok (s_lines_evicts st)).
Proof.
  unfold level_finish. intros H.
  destruct (level_evicts _ _) as [ev|]; [|done]. simpl in H.
  destruct (total_lines _ (p_misses p)) as [lm|]; [|done]. simpl in H.
  destruct (total_lines _ (p_hits p)) as [lh|]; [|done]. simpl in H.
  destruct (total_lines _ ev) as [le|] eqn:Ele; [|done]. simpl in H.
  injection H as <-. simpl. split_and!; try done. by exists ev.
Qed.

Lemma level_step_ok (fuel : nat) (misses misses' : dict Z offsets_table)
    (results results' : dict string (num fl)) (lv : cache_level_info fl)
    (st : level_stats) :
  level_step kernel machine fuel read_offsets write_offsets (misses, results) lv
    = Some (Ok (misses', results', st)) ->
  exists p t history kv,
    level_loop kernel machine fuel misses (lv_level lv) (lv_size lv)
               read_offsets write_offsets 0 = Some (Ok (p, t, history)) /\
    level_finish kernel machine write_offsets p t = Ok st /\
    level_cost machine (lv_level lv) (lv_cycles lv)
               (s_lines_misses st) (s_lines_evicts st) = Ok kv /\
    misses' = dset Z.eqb misses (lv_level lv) (s_misses st) /\
    results' = dset String.eqb results (fst kv) (snd kv).
Proof.
  unfold level_step. intros H.
  destruct (level_loop _ _ _ _ _ _ _ _ _) as [[[[p t] h]|]|] eqn:El; try done.
  injection H as H.
  destruct (level_finish _ _ _ p t) as [st0|] eqn:Ef; [|done]. simpl in H.
  destruct (level_cost _ _ _ _ _) as [kv|] eqn:Ec; [|done]. simpl in H.
  injection H as <- <- <-. exists p, t, h, kv.
  apply level_finish_fields in Ef as Hf. destruct Hf as (_ & -> & _).
  by split_and!.
Qed.

Lemma levels_loop_cons (fuel : nat) (st : dict Z offsets_table * dict string (num fl))
    (lv : cache_level_info fl) (rest : list (cache_level_info fl)) :
  levels_loop kernel machine fuel read_offsets write_offsets st (lv :: rest)
  = match level_step kernel machine fuel read_offsets write_offsets st lv with
    | None => None
    | Some (Raise e) => Some (Raise e)
    | Some (Ok (misses, results, stats)) =>
        match levels_loop kernel machine fuel read_offsets write_offsets
                          (misses, results) rest with
        | Some (Ok (r, ss)) => Some (Ok (r, stats :: ss))
        | other => other
        end
    end.
Proof. reflexivity. Qed.

Lemma levels_loop_chain (fuel : nat) (stack : list (cache_level_info fl))
    (misses : dict Z offsets_table) (results res : dict string (num fl))
    (stats : list level_stats) :
  levels_loop kernel machine fuel read_offsets write_offsets (misses, results)
              stack = Some (Ok (res, stats)) ->
  chain read_offsets write_offsets misses stack stats.
Proof.
  revert misses results stats. induction stack as [|lv stack IH];
    intros misses results stats H.
  - simpl in H. by injection H as <- <-.
  - rewrite levels_loop_cons in H.
    destruct (level_step _ _ _ _ _ _ lv) as [[[[m1 r1] st]|]|] eqn:Es; try done.
    destruct (levels_loop _ _ _ _ _ _ stack) as [[[r2 ss]|]|] eqn:El; try done.
    injection H as <- <-.
    apply level_step_ok in Es as (p & t & h & kv & Hl & Hf & _ & -> & _).
    simpl. split; [|by eapply IH].
    apply level_loop_pass, level_pass_pairs in Hl as [Hi _].
    apply level_finish_fields in Hf as (-> & _). done.
Qed.

Lemma chain_length (misses : dict Z offsets_table)
    (stack : list (cache_level_info fl)) (stats : list level_stats) :
  chain read_offsets write_offsets misses stack stats -> List.length stats = List.length stack.
Proof.
  revert misses stats. induction stack as [|lv stack IH];
    intros misses [|st stats] H; simpl in *; try done.
  destruct H as [_ H]. f_equal. by eapply IH.
Qed.

Lemma candidates_of_entry (misses : dict Z offsets_table) (cache_level : Z)
    (init : offsets_table) (name idx : string) (d : dict string (list Z))
    (l : list Z) :
  init_misses misses cache_level read_offsets write_offsets = Ok init ->
  (name, d) ∈ init -> (idx, l) ∈ d ->
  candidates misses cache_level read_offsets write_offsets name idx = Ok l.
Proof.
  intros Hi Hn Hd.
  pose proof (init_misses_wf _ _ _ _ _ Hi) as [Hk Hw].
  apply (init_misses_candidates _ _ _ _ _ Hi name d idx l).
  - by apply (dget_of_elem _ String.eqb_eq).
  - apply (dget_of_elem _ String.eqb_eq); [by apply (Hw name)|done].
Qed.

Lemma chain_next (first : Z) (stack : list (cache_level_info fl))
    (stats : list level_stats) (misses : dict Z offsets_table) :
  chain read_offsets write_offsets misses stack stats ->
  (forall (i : nat) lv, stack !! i = Some lv -> lv_level lv = first + Z.of_nat i) ->
  forall (i : nat) prev st name d idx l,
    stats !! i = Some prev -> stats !! S i = Some st ->
    (name, d) ∈ s_candidates st -> (idx, l) ∈ d ->
    table_index (s_misses prev) name idx = Ok l.
Proof.
  revert first stats misses. induction stack as [|lv stack IH];
    intros first [|s0 stats] misses Hc Hlv i prev st name d idx l Hp Hs Hn Hd;
    simpl in *; try done.
  destruct Hc as [_ Hc]. destruct i as [|i]; simpl in *.
  - injection Hp as ->.
    destruct stack as [|lv1 stack], stats as [|s1 stats]; simpl in *; try done.
    injection Hs as ->. destruct Hc as [Hi _].
    pose proof (candidates_of_entry _ _ _ _ _ _ _ Hi Hn Hd) as Hcand.
    unfold candidates in Hcand.
    rewrite (Hlv 0%nat lv eq_refl), (Hlv 1%nat lv1 eq_refl) in Hcand.
    replace (first + Z.of_nat 1 - 1) with (first + Z.of_nat 0) in Hcand by lia.
    by rewrite (dget_dset_eq _ Z.eqb_eq) in Hcand.
  - apply (IH (first + 1) stats _ Hc) with (i := i) (st := st) (d := d); try done.
    intros j lvj Hj. rewrite (Hlv (S j) lvj Hj). lia.
Qed.
End Levels.

Lemma py_range_lookup (a b : Z) (i : nat) (x : Z) :
  py_range a b !! i = Some x -> x = a + Z.of_nat i.
Proof.
  unfold py_range. rewrite list_lookup_fmap.
  destruct (seq 0 (Z.to_nat (b - a)) !! i) as [j|] eqn:E; simpl; [|done].
  apply lookup_seq in E as [-> _]. by intros [= <-].
Qed.

Lemma table_index_get (t : offsets_table) (name idx : string) (l : list Z) :
  table_index t name idx = Ok l -> table_get t name idx = l.
Proof.
  unfold table_index, table_get, dindex.
  destruct (dget String.eqb t name) as [d|]; simpl; [|done].
  destruct (dget String.eqb d idx); [|done]. by intros [= <-].
Qed.

(** ** The candidates of each level (C4) *)

Lemma str_in_elem (x : string) (l : list string) : str_in x l = true <-> x ∈ l.
Proof.
  unfold str_in. rewrite existsb_exists. split.
  - intros (y & Hin & Heq). apply String.eqb_eq in Heq. subst y.
    by apply list_elem_of_In.
  - intros Hin. exists x. split; [by apply list_elem_of_In|apply String.eqb_refl].
Qed.

Lemma foldM_ok_elem {A B : Type} (f : B -> A -> res B) (l : list A) (b b' : B) (x : A) :
  foldM f l b = Ok b' -> x ∈ l -> exists y y', f y x = Ok y'.
Proof.
  revert b. induction l as [|a l IH]; intros b H Hin; simpl in H.
  - by apply elem_of_nil in Hin.
  - destruct (f b a) as [b1|] eqn:E; [|done]. simpl in H.
    apply elem_of_cons in Hin as [->|Hin]; [by exists b, b1|by eapply IH].
Qed.

Lemma table_get_dset_nil (t : offsets_table) (x n i : string) :
  table_get (dset String.eqb t x []) n i
  = if decide (n = x) then [] else table_get t n i.
Proof.
  unfold table_get. destruct (decide (n = x)) as [->|Hne].
  - by rewrite (dget_dset_eq _ String.eqb_eq).
  - by rewrite (dget_dset_ne _ String.eqb_eq).
Qed.

Section Candidates.
Context (misses : dict Z offsets_table) (cache_level : Z).
Context (reads writes : offsets_table).

Lemma init_inner (name : string) (idxs : list string) (t0 t1 : offsets_table) :
  foldM (fun t idx_order =>
           let* c := candidates misses cache_level reads writes name idx_order in
           table_set t name idx_order c) idxs t0 = Ok t1 ->
  forall n i,
    table_get t1 n i
    = if decide (n = name /\ i ∈ idxs)
      then candidate_list misses cache_level reads writes n i
      else table_get t0 n i.
Proof.
  revert t0. induction idxs as [|x idxs IH]; intros t0 H n i; simpl in H.
  - injection H as <-.
    destruct (decide _) as [[_ Hin]|_]; [by apply elem_of_nil in Hin|done].
  - destruct (candidates misses cache_level reads writes name x) as [c|] eqn:Ec;
      [|done]. simpl in H.
    destruct (table_set t0 name x c) as [t'|] eqn:Et; [|done]. simpl in H.
    rewrite (IH t' H n i), (table_get_set _ _ _ _ n i _ Et).
    destruct (decide (n = name /\ i ∈ idxs)) as [[-> Hin]|Hno].
    + destruct (decide (name = name /\ i ∈ x :: idxs)) as [_|Hno']; [done|].
      exfalso. apply Hno'. split; [done|by right].
    + destruct (decide (name = n /\ x = i)) as [[<- <-]|Hno2].
      * destruct (decide (name = name /\ x ∈ x :: idxs)) as [_|Hno'];
          [|exfalso; apply Hno'; split; [done|by left]].
        unfold candidate_list. by rewrite Ec.
      * destruct (decide (n = name /\ i ∈ x :: idxs)) as [[-> Hin]|_]; [|done].
        exfalso. apply elem_of_cons in Hin as [->|Hin]; [by apply Hno2|by apply Hno].
Qed.

Lemma init_outer (names : list string) (t init : offsets_table) :
  foldM (fun t name =>
           let t := dset String.eqb t name [] in
           let* r := dindex String.eqb reads name in
           let* w := dindex String.eqb writes name in
           foldM (fun t idx_order =>
                    let* c := candidates misses cache_level reads writes name
                                idx_order in
                    table_set t name idx_order c)
                 (dkeys r ++ dkeys w) t)
        names t = Ok init ->
  forall n i,
    table_get init n i
    = if decide (n ∈ names)
      then (if pair_key reads writes n i
            then candidate_list misses cache_level reads writes n i else [])
      else table_get t n i.
Proof.
  revert t. induction names as [|x names IH]; intros t H n i; cbn [foldM] in H.
  - injection H as <-.
    destruct (decide _) as [Hin|_]; [by apply elem_of_nil in Hin|done].
  - unfold dindex in H at 1 2.
    destruct (dget String.eqb reads x) as [r|] eqn:Er; [|done].
    destruct (dget String.eqb writes x) as [w|] eqn:Ew; [|done].
    cbn [bind] in H.
    match type of H with
    | bind ?m _ = _ => destruct m as [t'|] eqn:Ei; [|done]
    end. cbn [bind] in H.
    rewrite (IH t' H n i).
    destruct (decide (n ∈ names)) as [Hin|Hnin].
    + destruct (decide (n ∈ x :: names)) as [_|Hno]; [done|].
      exfalso. apply Hno. by right.
    + rewrite (init_inner x _ _ _ Ei n i), table_get_dset_nil.
      destruct (decide (n = x)) as [->|Hne].
      * destruct (decide (x ∈ x :: names)) as [_|Hno];
          [|exfalso; apply Hno; by left].
        unfold pair_key. rewrite Er, Ew.
        destruct (decide (x = x /\ i ∈ dkeys r ++ dkeys w)) as [[_ Hi]|Hno].
        -- by rewrite (proj2 (str_in_elem _ _) Hi).
        -- destruct (str_in i (dkeys r ++ dkeys w)) eqn:Es; [|done].
           exfalso. apply Hno. split; [done|by apply str_in_elem].
      * destruct (decide (n = x /\ i ∈ dkeys r ++ dkeys w)) as [[? _]|_]; [done|].
        destruct (decide (n ∈ x :: names)) as [Hin|_]; [|done].
        by apply elem_of_cons in Hin as [?|?].
Qed.

(** The table of candidates of a level holds the candidates of every pair
    of the read and write offsets, and nothing else. *)
Lemma init_misses_get (init : offsets_table) :
  init_misses misses cache_level reads writes = Ok init ->
  forall n i,
    table_get init n i
    = if pair_key reads writes n i
      then candidate_list misses cache_level reads writes n i else [].
Proof.
  unfold init_misses. intros H n i. rewrite (init_outer _ _ _ H n i).
  destruct (decide (n ∈ dkeys reads ++ dkeys writes)) as [|Hno]; [done|].
  unfold pair_key. rewrite (dget_not_key reads n); [done|].
  intros Hin. apply Hno, elem_of_app. by left.
Qed.

Lemma init_misses_names (init : offsets_table) (n : string) :
  init_misses misses cache_level reads writes = Ok init ->
  n ∈ dkeys reads ++ dkeys writes ->
  (exists r, dget String.eqb reads n = Some r) /\
  (exists w, dget String.eqb writes n = Some w).
Proof.
  unfold init_misses. intros H Hin.
  destruct (foldM_ok_elem _ _ _ _ n H Hin) as (y & y' & Hstep).
  unfold dindex in Hstep.
  destruct (dget String.eqb reads n) as [r|]; [|done].
  destruct (dget String.eqb writes n) as [w|]; [|done]. split; by eexists.
Qed.

Lemma unpaired_offsets (init : offsets_table) (n i : string) :
  init_misses misses cache_level reads writes = Ok init ->
  pair_key reads writes n i = false ->
  table_get reads n i = [] /\ table_get writes n i = [].
Proof.
  intros Hinit E. unfold pair_key in E. unfold table_get.
  destruct (dget String.eqb reads n) as [r|] eqn:Er,
           (dget String.eqb writes n) as [w|] eqn:Ew; try done.
  - assert (Hni : i ∉ dkeys r ++ dkeys w).
    { intros Hin. apply str_in_elem in Hin. congruence. }
    rewrite !dget_not_key; [done|..]; intros Hin; apply Hni, elem_of_app; auto.
  - exfalso. destruct (init_misses_names init n Hinit) as [_ [w Hw]]; [|congruence].
    apply elem_of_app. left. apply elem_of_dkeys. exists r. by apply dget_str_elem.
  - exfalso. destruct (init_misses_names init n Hinit) as [[r Hr] _]; [|congruence].
    apply elem_of_app. right. apply elem_of_dkeys. exists w. by apply dget_str_elem.
Qed.

(** No level numbered [cache_level - 1] has stored its misses: the
    candidates are all the offsets, latest first. *)
Lemma init_misses_first (init : offsets_table) :
  init_misses misses cache_level reads writes = Ok init ->
  dget Z.eqb misses (cache_level - 1) = None ->
  forall n i,
    table_get init n i
    = py_sorted_rev (table_get reads n i ++ table_get writes n i).
Proof.
  intros Hinit Hnone n i. rewrite (init_misses_get init Hinit).
  unfold candidate_list, candidates. rewrite Hnone.
  destruct (pair_key reads writes n i) eqn:E; [done|].
  by destruct (unpaired_offsets init n i Hinit E) as [-> ->].
Qed.

(** A level numbered [cache_level - 1] has stored its misses: they are the
    candidates. *)
Lemma init_misses_prev (init prev : offsets_table) :
  init_misses misses cache_level reads writes = Ok init ->
  dget Z.eqb misses (cache_level - 1) = Some prev ->
  supported reads writes prev ->
  forall n i, table_get init n i = table_get prev n i.
Proof.
  intros Hinit Hprev Hsup n i. rewrite (init_misses_get init Hinit).
  destruct (pair_key reads writes n i) eqn:E; [|by rewrite Hsup].
  unfold candidate_list, candidates. rewrite Hprev.
  destruct (table_index prev n i) as [l|] eqn:Et.
  - by rewrite (table_index_get _ _ _ _ Et).
  - unfold table_index, dindex in Et. unfold table_get.
    destruct (dget String.eqb prev n) as [d|]; [|done]. simpl in Et.
    by destruct (dget String.eqb d i).
Qed.
End Candidates.

Lemma pass_misses_supported {fl : FloatOps} (kernel : Kernel)
    (machine : MachineModel fl) (misses : dict Z offsets_table) (cache_level : Z)
    (reads writes : offsets_table) (trace_length : Z) (p : pass_result) :
  level_pass kernel machine misses cache_level reads writes trace_length = Ok p ->
  supported reads writes (p_misses p).
Proof.
  intros H n i E. apply level_pass_pairs in H as [Hinit Hp].
  destruct (Hp n i) as (_ & _ & _ & Hm & _).
  rewrite (init_misses_get _ _ _ _ _ Hinit), E in Hm.
  destruct (table_get (p_misses p) n i) as [|x m]; [done|].
  specialize (Hm x (list_elem_of_here _ _)). by apply elem_of_nil in Hm.
Qed.

(** Every level starts from the dictionary of misses that the levels before
    it have left. *)
Lemma levels_loop_init {fl : FloatOps} (kernel : Kernel) (machine : MachineModel fl)
    (reads writes : offsets_table) (fuel : nat)
    (stack : list (cache_level_info fl)) (misses : dict Z offsets_table)
    (results res : dict string (num fl)) (stats : list level_stats) :
  levels_loop kernel machine fuel reads writes (misses, results) stack
    = Some (Ok (res, stats)) ->
  (forall k t, dget Z.eqb misses k = Some t -> supported reads writes t) ->
  forall (i : nat) lv st, stack !! i = Some lv -> stats !! i = Some st ->
    init_misses (misses_after misses (take i stack) (take i stats)) (lv_level lv)
                reads writes = Ok (s_candidates st) /\
    (forall k t,
       dget Z.eqb (misses_after misses (take i stack) (take i stats)) k = Some t ->
       supported reads writes t).
Proof.
  revert misses results stats. induction stack as [|lv0 stack IH];
    intros misses results stats H Hsup i lv st Hlv Hst; [done|].
  rewrite levels_loop_cons in H.
  destruct (level_step _ _ _ _ _ _ lv0) as [[[[m1 r1] st0]|]|] eqn:Es; try done.
  destruct (levels_loop _ _ _ _ _ _ stack) as [[[r2 ss]|]|] eqn:El; try done.
  injection H as <- <-.
  apply level_step_ok in Es as (p & t & h & kv & Hl & Hf & _ & -> & _).
  apply level_loop_pass in Hl.
  apply level_finish_fields in Hf as (Hc & Hm & _).
  destruct i as [|i]; simpl in Hlv, Hst.
  - injection Hlv as <-. injection Hst as <-. simpl. split; [|done].
    apply level_pass_pairs in Hl as [Hi _]. by rewrite Hc.
  - cbn [take misses_after]. apply (IH _ _ _ El); [|done..].
    intros k t0 Hget. destruct (decide (k = lv_level lv0)) as [->|Hne].
    + rewrite (dget_dset_eq _ Z.eqb_eq) in Hget. injection Hget as <-.
      rewrite Hm. by eapply pass_misses_supported.
    + rewrite (dget_dset_ne _ Z.eqb_eq) in Hget by done. by eapply Hsup.
Qed.

Lemma misses_after_none {fl : FloatOps} (misses : dict Z offsets_table)
    (stack : list (cache_level_info fl)) (stats : list level_stats) (k : Z) :
  (forall lv, lv ∈ stack -> lv_level lv <> k) ->
  dget Z.eqb (misses_after misses stack stats) k = dget Z.eqb misses k.
Proof.
  revert misses stats. induction stack as [|lv stack IH];
    intros misses [|st stats] H; simpl; try done.
  rewrite IH by (intros lv' Hin; apply H; by right).
  apply (dget_dset_ne _ Z.eqb_eq). intros Heq. apply (H lv); [by left|congruence].
Qed.

Lemma misses_after_last {fl : FloatOps} (misses : dict Z offsets_table)
    (stack : list (cache_level_info fl)) (stats : list level_stats)
    (j : nat) (lvj : cache_level_info fl) (stj : level_stats) :
  stack !! j = Some lvj -> stats !! j = Some stj ->
  (forall (m : nat) lv', (j < m)%nat -> stack !! m = Some lv' ->
     lv_level lv' <> lv_level lvj) ->
  dget Z.eqb (misses_after misses stack stats) (lv_level lvj) = Some (s_misses stj).
Proof.
  revert misses stats j. induction stack as [|lv stack IH];
    intros misses [|st stats] j Hj Hs Hlater; simpl in *; try done.
  destruct j as [|j]; simpl in *.
  - injection Hj as ->. injection Hs as ->.
    rewrite misses_after_none; [apply (dget_dset_eq _ Z.eqb_eq)|].
    intros lv' Hin. apply list_elem_of_lookup in Hin as [m Hm].
    apply (Hlater (S m) lv'); [lia|done].
  - apply (IH _ _ j); [done..|]. intros m lv' Hm Hlv'.
    apply (Hlater (S m) lv'); [lia|done].
Qed.

(** C4, as stated, fails on a cache stack whose levels are numbered [1] and
    [3]: the second level finds no misses stored under [2] and starts again
    from all sixteen offsets of [a], not from the one offset that missed at
    the level above. *)
Lemma candidates_restart_counterexample :
  map lv_level (cache_stack gap_machine) = [1; 3] /\
  calculate_cache_access_stats daxpy_kernel gap_machine driver_fuel
    = Some (Ok gap_run) /\
  exists st1 st3,
    snd gap_run = [st1; st3] /\
    table_get (s_misses st1) "a" "i" = [7] /\
    table_get (s_candidates st3) "a" "i"
      = [7; 7; 6; 6; 5; 5; 4; 4; 3; 3; 2; 2; 1; 1; 0; 0].
Proof.
  split; [reflexivity|]. split; [vm_compute; reflexivity|].
  eexists _, _. split; [reflexivity|]. split; vm_compute; reflexivity.
Qed.

(** C4 (amended): whenever [calculate_cache_access] returns, every level of
    the stack has its statistics.  At a level numbered [k] such that no
    earlier level of the stack is numbered [k - 1], as at the first level,
    the candidates of every pair are the read and the write offsets together,
    sorted in descending order.  At a level numbered [k] after a level
    numbered [k - 1], the candidates of every pair are the misses that the
    last such level before it has left for that pair.  With levels numbered
    consecutively, this is the level before it. *)
Theorem candidates_per_level {fl : FloatOps} (kernel : Kernel)
    (machine : MachineModel fl) (fuel : nat)
    (read_offsets write_offsets : offsets_table)
    (results : dict string (num fl)) (stats : list level_stats) :
  compile_offsets kernel machine = Ok (read_offsets, write_offsets) ->
  calculate_cache_access_stats kernel machine fuel = Some (Ok (results, stats)) ->
  List.length stats = List.length (cache_stack machine) /\
  (forall (i : nat) lv st,
     cache_stack machine !! i = Some lv -> stats !! i = Some st ->
     (forall (j : nat) lv', (j < i)%nat -> cache_stack machine !! j = Some lv' ->
        lv_level lv' <> lv_level lv - 1) ->
     forall name idx,
       table_get (s_candidates st) name idx
       = py_sorted_rev (table_get read_offsets name idx ++
                        table_get write_offsets name idx) /\
       Sorted Z.ge (table_get (s_candidates st) name idx) /\
       table_get (s_candidates st) name idx
       ≡ₚ table_get read_offsets name idx ++ table_get write_offsets name idx) /\
  (forall (i j : nat) lv prev_lv st prev,
     (j < i)%nat ->
     cache_stack machine !! i = Some lv -> stats !! i = Some st ->
     cache_stack machine !! j = Some prev_lv -> stats !! j = Some prev ->
     lv_level prev_lv = lv_level lv - 1 ->
     (forall (m : nat) lv', (j < m < i)%nat -> cache_stack machine !! m = Some lv' ->
        lv_level lv' <> lv_level lv - 1) ->
     forall name idx,
       table_get (s_candidates st) name idx = table_get (s_misses prev) name idx) /\
  (forall first (i : nat) prev st,
     map lv_level (cache_stack machine)
       = py_range first (first + zlen (cache_stack machine)) ->
     stats !! i = Some prev -> stats !! S i = Some st ->
     forall name idx,
       table_get (s_candidates st) name idx = table_get (s_misses prev) name idx).
Proof.
  intros Hc Hrun. unfold calculate_cache_access_stats in Hrun. rewrite Hc in Hrun.
  assert (Hlen : List.length stats = List.length (cache_stack machine)).
  { apply levels_loop_chain in Hrun. by eapply chain_length. }
  assert (Hinit := levels_loop_init kernel machine read_offsets write_offsets
                     fuel _ _ _ _ _ Hrun ltac:(done)).
  assert (Hprev : forall (i j : nat) lv prev_lv st prev,
     (j < i)%nat ->
     cache_stack machine !! i = Some lv -> stats !! i = Some st ->
     cache_stack machine !! j = Some prev_lv -> stats !! j = Some prev ->
     lv_level prev_lv = lv_level lv - 1 ->
     (forall (m : nat) lv', (j < m < i)%nat -> cache_stack machine !! m = Some lv' ->
        lv_level lv' <> lv_level lv - 1) ->
     forall name idx,
       table_get (s_candidates st) name idx = table_get (s_misses prev) name idx).
  { intros i j lv prev_lv st prev Hji Hlv Hst Hpl Hps Hnum Hbetween name idx.
    destruct (Hinit i lv st Hlv Hst) as [Hi Hsup].
    assert (Hget : dget Z.eqb (misses_after [] (take i (cache_stack machine))
                                 (take i stats)) (lv_level lv - 1)
                   = Some (s_misses prev)).
    { rewrite <- Hnum. apply (misses_after_last _ _ _ j).
      - by rewrite lookup_take_lt.
      - by rewrite lookup_take_lt.
      - intros m lv' Hm Hlv'. apply lookup_take_Some in Hlv' as [Hlv' Hmi].
        rewrite Hnum. apply (Hbetween m lv'); [lia|done]. }
    apply (init_misses_prev _ _ _ _ _ _ Hi Hget). by eapply Hsup. }
  split_and!; [done| |done|].
  - intros i lv st Hlv Hst Hnone name idx.
    destruct (Hinit i lv st Hlv Hst) as [Hi _].
    rewrite (init_misses_first _ _ _ _ _ Hi).
    + split_and!; [done| |apply merge_sort_Permutation].
      apply Sorted_merge_sort. intros x y. lia.
    + rewrite misses_after_none; [done|].
      intros lv' Hin. apply elem_of_take in Hin as (j & Hj & Hji).
      by apply (Hnone j lv').
  - intros first i prev st Hnum Hp Hs name idx.
    assert (Hlv' : forall (j : nat) lv,
              cache_stack machine !! j = Some lv -> lv_level lv = first + Z.of_nat j).
    { intros j lv Hj.
      apply (py_range_lookup first (first + zlen (cache_stack machine))).
      rewrite <- Hnum, list_lookup_fmap, Hj. done. }
    destruct (lookup_lt_is_Some_2 (cache_stack machine) i) as [plv Hplv].
    { apply lookup_lt_Some in Hp. lia. }
    destruct (lookup_lt_is_Some_2 (cache_stack machine) (S i)) as [lv Hlv].
    { apply lookup_lt_Some in Hs. lia. }
    apply (Hprev (S i) i lv plv st prev); try done; [lia| |lia].
    rewrite (Hlv' _ _ Hplv), (Hlv' _ _ Hlv). lia.
Qed.

(** On DAXPY and the three levels of the driver's machine: the candidates
    of [a] at the first level are its sixteen read and write offsets, and the
    candidates of the second level are the one miss of the first. *)
Lemma candidates_per_level_witness :
  exists st1 st2,
    snd daxpy_run !! 0%nat = Some st1 /\ snd daxpy_run !! 1%nat = Some st2 /\
    List.length (snd daxpy_run) = List.length (cache_stack snb) /\
    table_get (s_candidates st1) "a" "i"
      = py_sorted_rev (table_get daxpy_reads "a" "i" ++
                       table_get daxpy_writes "a" "i") /\
    table_get (s_candidates st2) "a" "i" = table_get (s_misses st1) "a" "i" /\
    table_get (s_candidates st1) "a" "i"
      = [7; 7; 6; 6; 5; 5; 4; 4; 3; 3; 2; 2; 1; 1; 0; 0] /\
    table_get (s_misses st1) "a" "i" = [7].
Proof.
  destruct (candidates_per_level daxpy_kernel snb driver_fuel daxpy_reads
              daxpy_writes (fst daxpy_run) (snd daxpy_run))
    as (Hlen & Hfirst & Hprev & _); [vm_compute; reflexivity..|].
  eexists _, _. split; [reflexivity|]. split; [reflexivity|].
  split; [exact Hlen|]. split_and!.
  - apply (Hfirst 0%nat (mkLevel 1 (32 * 1024) "per core" (Some (NInt 2))));
      [reflexivity|reflexivity|intros; lia].
  - apply (Hprev 1%nat 0%nat
             (mkLevel 2 (256 * 1024) "per core" (Some (NInt 2)))
             (mkLevel 1 (32 * 1024) "per core" (Some (NInt 2))));
      [lia|reflexivity|reflexivity|reflexivity|reflexivity|reflexivity|
       intros; lia].
  - vm_compute. reflexivity.
  - vm_compute. reflexivity.
Defined.

(** ** The labels of the results *)

Lemma no_L_pretty_N_go (x : N) (s : string) :
  no_L s = true -> no_L (pretty_N_go x s) = true.
Proof.
  revert s. induction (N.lt_wf_0 x) as [x _ IH]. intros s Hs.
  destruct (decide (0 < x)%N) as [Hx|Hx].
  - rewrite pretty_N_go_step by done. apply IH.
    + by apply N.div_lt.
    + simpl. rewrite Hs, andb_true_r. unfold pretty_N_char.
      by repeat case_match.
  - assert (x = 0%N) as -> by lia. by rewrite pretty_N_go_0.
Qed.

Lemma no_L_pretty_Z (z : Z) : no_L (pretty z) = true.
Proof.
  assert (HN : forall n : N, no_L (pretty n) = true).
  { intros n. unfold pretty, pretty_N. destruct (decide (n = 0%N)); [done|].
    by apply no_L_pretty_N_go. }
  destruct z as [|p|p]; [done|apply (HN (N.pos p))|].
  change (pretty (Z.neg p)) with (String "-" (pretty (N.pos p))).
  simpl. apply HN.
Qed.

Lemma before_L_app (a b : string) :
  no_L a = true -> before_L (a ++ b) = (a ++ before_L b)%string.
Proof.
  induction a as [|c a IH]; simpl; [done|].
  intros H. apply andb_true_iff in H as [Hc Ha].
  destruct (Ascii.eqb c "L"); [done|]. by rewrite IH.
Qed.

Lemma string_app_chars (a b : string) :
  list_ascii_of_string (a ++ b)
  = list_ascii_of_string a ++ list_ascii_of_string b.
Proof. induction a as [|c a IH]; simpl; [done|by rewrite IH]. Qed.

Lemma string_app_inv_tail (a a' t : string) :
  (a ++ t = a' ++ t)%string -> a = a'.
Proof.
  intros H. apply (f_equal list_ascii_of_string) in H.
  rewrite !string_app_chars in H. apply app_inv_tail in H.
  apply (f_equal string_of_list_ascii) in H.
  by rewrite !string_of_list_ascii_of_string in H.
Qed.

Lemma last_char_app (a : string) (c : ascii) (b : string) :
  last_char (a ++ String c b) = last_char (String c b).
Proof.
  induction a as [|x a IH]; [done|].
  change (String x a ++ String c b)%string with (String x (a ++ String c b)).
  cbn [last_char]. rewrite IH.
  destruct (a ++ String c b)%string eqn:E; [|done].
  by destruct a.
Qed.

Lemma label_next_before (k : Z) :
  before_L (pretty k ++ "-L" ++ pretty (k + 1)) = (pretty k ++ "-")%string.
Proof. by rewrite before_L_app by apply no_L_pretty_Z. Qed.

Lemma label_mem_before (k : Z) :
  before_L (pretty k ++ "-MEM") = (pretty k ++ "-MEM")%string.
Proof. by rewrite before_L_app by apply no_L_pretty_Z. Qed.

Lemma label_next_unfold (k : Z) :
  label_next k = String "L" (pretty k ++ "-L" ++ pretty (k + 1)).
Proof. reflexivity. Qed.

Lemma label_mem_unfold (k : Z) : label_mem k = String "L" (pretty k ++ "-MEM").
Proof. reflexivity. Qed.

Lemma label_next_inj (k k' : Z) : label_next k = label_next k' -> k = k'.
Proof.
  rewrite !label_next_unfold. intros H. injection H as H.
  apply (f_equal before_L) in H. rewrite !label_next_before in H.
  apply string_app_inv_tail in H. by apply (inj pretty).
Qed.

Lemma label_mem_inj (k k' : Z) : label_mem k = label_mem k' -> k = k'.
Proof.
  rewrite !label_mem_unfold. intros H. injection H as H.
  apply string_app_inv_tail in H. by apply (inj pretty).
Qed.

Lemma label_next_mem (k k' : Z) : label_next k <> label_mem k'.
Proof.
  rewrite label_next_unfold, label_mem_unfold. intros H. injection H as H.
  apply (f_equal before_L) in H.
  rewrite label_next_before, label_mem_before in H.
  apply (f_equal last_char) in H. rewrite !last_char_app in H. done.
Qed.

(** ** The cost of a level (C5, C10) *)

Section Costs.
Context {fl : FloatOps} (kernel : Kernel) (machine : MachineModel fl).

Lemma level_cost_inv (lv : cache_level_info fl) (lm le : Z)
    (kv : string * num fl) :
  level_cost machine (lv_level lv) (lv_cycles lv) lm le = Ok kv ->
  fst kv = cost_label lv /\ level_cycles machine lv (lm + le) (snd kv).
Proof.
  unfold level_cost, cost_label, level_cycles, opt_truthy, memory_cycles.
  destruct (lv_cycles lv) as [c|]; [destruct (num_truthy fl c)|].
  - by intros [= <-].
  - destruct (num_div _ _ _) as [q|] eqn:E; [|done]. simpl.
    intros [= <-]. split; [done|]. by exists q.
  - destruct (num_div _ _ _) as [q|] eqn:E; [|done]. simpl.
    intros [= <-]. split; [done|]. by exists q.
Qed.

Lemma cost_label_inj (lv lv' : cache_level_info fl) :
  cost_label lv = cost_label lv' -> lv_level lv = lv_level lv'.
Proof.
  unfold cost_label.
  destruct (opt_truthy fl (lv_cycles lv)), (opt_truthy fl (lv_cycles lv'));
    intros H.
  - by apply label_next_inj.
  - by apply label_next_mem in H.
  - symmetry in H. by apply label_next_mem in H.
  - by apply label_mem_inj.
Qed.

Lemma levels_loop_results (fuel : nat) (r w : offsets_table)
    (stack : list (cache_level_info fl)) (misses : dict Z offsets_table)
    (results final : dict string (num fl)) (stats : list level_stats) :
  levels_loop kernel machine fuel r w (misses, results) stack
    = Some (Ok (final, stats)) ->
  results_chain machine results stack stats final.
Proof.
  revert misses results stats. induction stack as [|lv stack IH];
    intros misses results stats H.
  - simpl in H. by injection H as <- <-.
  - rewrite levels_loop_cons in H.
    destruct (level_step _ _ _ _ _ _ lv) as [[[[m1 r1] st]|]|] eqn:Es; try done.
    destruct (levels_loop _ _ _ _ _ _ stack) as [[[r2 ss]|]|] eqn:El; try done.
    injection H as <- <-.
    apply level_step_ok in Es as (p & t & h & kv & _ & Hf & Hc & _ & ->).
    apply level_finish_fields in Hf as (_ & Hm & _ & _ & Hlm & ev & _ & Hev & Hle).
    simpl. exists kv. rewrite Hm, Hev. split_and!; try done. by eapply IH.
Qed.

Lemma results_chain_other (stack : list (cache_level_info fl))
    (stats : list level_stats) (results final : dict string (num fl))
    (key : string) :
  results_chain machine results stack stats final ->
  (forall lv, lv ∈ stack -> cost_label lv <> key) ->
  dget String.eqb final key = dget String.eqb results key.
Proof.
  revert results stats. induction stack as [|lv stack IH];
    intros results [|st stats] H Hk; simpl in H; try done.
  - by subst.
  - destruct H as (kv & Hc & _ & _ & H).
    rewrite (IH _ _ H) by (intros lv' Hin; apply Hk; by right).
    apply (dget_dset_ne _ String.eqb_eq).
    apply level_cost_inv in Hc as [-> _]. apply Hk. by left.
Qed.

Lemma results_chain_keys (stack : list (cache_level_info fl))
    (stats : list level_stats) (results final : dict string (num fl))
    (key : string) :
  results_chain machine results stack stats final ->
  key ∈ dkeys final ->
  key ∈ dkeys results \/ exists lv, lv ∈ stack /\ key = cost_label lv.
Proof.
  revert results stats. induction stack as [|lv stack IH];
    intros results [|st stats] H Hk; simpl in H; try done.
  - subst. by left.
  - destruct H as (kv & Hc & _ & _ & H).
    destruct (IH _ _ H Hk) as [Hin|(lv' & Hin & ->)].
    + apply (dkeys_dset _ String.eqb_eq) in Hin as [->|Hin]; [|by left].
      right. exists lv. split; [by left|].
      by apply level_cost_inv in Hc as [-> _].
    + right. exists lv'. split; [by right|done].
Qed.

Lemma results_chain_length (stack : list (cache_level_info fl))
    (stats : list level_stats) (results final : dict string (num fl)) :
  results_chain machine results stack stats final ->
  List.length stats = List.length stack.
Proof.
  revert results stats. induction stack as [|lv stack IH];
    intros results [|st stats] H; simpl in H; try done.
  destruct H as (kv & _ & _ & _ & H). simpl. f_equal. by eapply IH.
Qed.

(** Every level of the stack has its statistics and its cycles, and the
    cycles are in the results unless a later level has the same number. *)
Lemma results_chain_level (stack : list (cache_level_info fl))
    (stats : list level_stats) (results final : dict string (num fl))
    (i : nat) (lv : cache_level_info fl) :
  results_chain machine results stack stats final ->
  stack !! i = Some lv ->
  exists st cycles,
    stats !! i = Some st /\
    total_lines machine (s_misses st) = Ok (s_lines_misses st) /\
    total_lines machine (s_evicts st) = Ok (s_lines_evicts st) /\
    level_cycles machine lv (s_lines_misses st + s_lines_evicts st) cycles /\
    (last_numbered stack i lv ->
     dget String.eqb final (cost_label lv) = Some cycles).
Proof.
  revert results stats i. induction stack as [|lv0 stack IH];
    intros results [|st0 stats] i H Hlv; simpl in H; try done.
  destruct H as (kv & Hc & Hlm & Hle & H).
  destruct i as [|i]; simpl in *.
  - injection Hlv as <-. exists st0, (snd kv).
    apply level_cost_inv in Hc as [Hkey Hcy]. split_and!; try done.
    intros Hlast. rewrite (results_chain_other _ _ _ _ _ H).
    + rewrite <- Hkey. apply (dget_dset_eq _ String.eqb_eq).
    + intros lv' Hin Heq. apply cost_label_inj in Heq.
      apply list_elem_of_lookup in Hin as [j Hj].
      by apply (Hlast (S j) lv' ltac:(lia) Hj).
  - destruct (IH _ _ i H Hlv) as (st & cycles & Hst & H1 & H2 & H3 & H4).
    exists st, cycles. split_and!; try done. intros Hlast. apply H4.
    intros j lv' Hj Hlv'. apply (Hlast (S j) lv'); [lia|done].
Qed.

Lemma level_cost_memory (lv : cache_level_info fl) (lm le k : Z)
    (kv : string * num fl) :
  level_cost machine (lv_level lv) (lv_cycles lv) lm le = Ok kv ->
  fst kv = label_mem k ->
  memory_cycles machine (lm + le) (snd kv).
Proof.
  intros Hc Hk. apply level_cost_inv in Hc as [Hkey Hcy].
  unfold level_cycles in Hcy. unfold cost_label, opt_truthy in Hkey.
  rewrite Hk in Hkey.
  destruct (lv_cycles lv) as [c|]; [|done].
  destruct (num_truthy fl c); [|done].
  symmetry in Hkey. by apply label_next_mem in Hkey.
Qed.

(** What is stored under a key ['L{k}-MEM'] is computed from the memory
    bandwidth and the clock, whichever level stored it last. *)
Lemma results_chain_memory (stack : list (cache_level_info fl))
    (stats : list level_stats) (results final : dict string (num fl)) (k : Z) :
  results_chain machine results stack stats final ->
  (exists lines, memory_bound machine results (label_mem k) lines) \/
  (exists lv, lv ∈ stack /\ cost_label lv = label_mem k) ->
  exists lines, memory_bound machine final (label_mem k) lines.
Proof.
  revert results stats. induction stack as [|lv0 stack IH];
    intros results [|st0 stats] H Hcase; simpl in H; try done.
  - subst. destruct Hcase as [?|(lv & Hin & _)]; [done|].
    by apply elem_of_nil in Hin.
  - destruct H as (kv & Hc & _ & _ & H). apply (IH _ _ H).
    destruct (decide (fst kv = label_mem k)) as [Hk|Hk].
    + left. exists (s_lines_misses st0 + s_lines_evicts st0), (snd kv). split.
      * rewrite <- Hk. apply (dget_dset_eq _ String.eqb_eq).
      * by eapply level_cost_memory.
    + destruct Hcase as [(lines & cycles & Hget & Hcy)|(lv & Hin & Hlabel)].
      * left. exists lines, cycles. split; [|done].
        by rewrite (dget_dset_ne _ String.eqb_eq).
      * apply elem_of_cons in Hin as [->|Hin].
        -- apply level_cost_inv in Hc as [Hkey _]. congruence.
        -- right. by exists lv.
Qed.
End Costs.


(** ** No cached range at all (C2) *)

Lemma zero_trace_count_raises (cache_size trace_length : Z)
    (p : pass_result) :
  p_trace_count p = 0 ->
  new_trace_length cache_size trace_length p = Raise ZeroDivisionError.
Proof. unfold new_trace_length, py_div. by intros ->. Qed.

(** C2: the kernel [for(j..) for(i..) s = s + a[j]] is accepted by
    [process]; none of its accesses depends on the innermost index, so the
    backward trace of the first level yields no cached range
    ([trace_count] is [0]), and the update of the trace length divides by it:
    [calculate_cache_access] raises [ZeroDivisionError], whatever the number of
    passes allowed, instead of ending the growth of the trace length. *)
Theorem zero_ranges_division_by_zero :
  process (sp := sympy_strict) rowsum_ast (kernel_N 50) = (Ok tt, rowsum_kernel) /\
  (exists r w p,
     compile_offsets rowsum_kernel snb = Ok (r, w) /\
     level_pass rowsum_kernel snb [] 1 r w 0 = Ok p /\
     p_trace_count p = 0 /\
     new_trace_length (32 * 1024) 0 p = Raise ZeroDivisionError) /\
  forall fuel,
    calculate_cache_access rowsum_kernel snb (S fuel) = Some (Raise ZeroDivisionError).
Proof.
  split_and!.
  - vm_compute. reflexivity.
  - eexists _, _, _. split_and!; [vm_compute; reflexivity..|].
    by apply zero_trace_count_raises.
  - intros fuel. vm_compute. reflexivity.
Qed.

(** ** Absolute subscripts in the simulator (C9) *)

Lemma foldM_raises {A B : Type} (f : B -> A -> res B) (l : list A) (x : A) :
  x ∈ l -> (forall b, exists e, f b x = Raise e) ->
  forall b, exists e, foldM f l b = Raise e.
Proof.
  intros Hin Hx. induction l as [|y l IH]; intros b.
  - by apply elem_of_nil in Hin.
  - simpl. apply elem_of_cons in Hin as [<-|Hin].
    + destruct (Hx b) as [e ->]. by exists e.
    + destruct (f b y) as [b'|e]; simpl; [by apply IH|by exists e].
Qed.

Lemma filterM_keeps {A : Type} (f : A -> res bool) (l l' : list A) (x : A) :
  filterM f l = Ok l' -> x ∈ l -> f x = Ok true -> x ∈ l'.
Proof.
  revert l'. induction l as [|y l IH]; intros l' Hf Hin Hx.
  - by apply elem_of_nil in Hin.
  - simpl in Hf. destruct (f y) as [b|] eqn:Ey; [|done]. simpl in Hf.
    destruct (filterM f l) as [ys|]; [|done]. simpl in Hf. injection Hf as <-.
    apply elem_of_cons in Hin as [->|Hin].
    + rewrite Hx in Ey. injection Ey as <-. by left.
    + destruct b; [right|]; by apply IH.
Qed.

Lemma filterM_raises {A : Type} (f : A -> res bool) (l l' : list A) (x : A)
    (e : pyerr) :
  x ∈ l -> f x = Raise e -> filterM f l = Ok l' -> False.
Proof.
  revert l'. induction l as [|y l IH]; intros l' Hin Hx Hf.
  - by apply elem_of_nil in Hin.
  - simpl in Hf. apply elem_of_cons in Hin as [<-|Hin].
    + by rewrite Hx in Hf.
    + destruct (f y); [|done]. simpl in Hf.
      destruct (filterM f l) as [ys|]; [|done]. by eapply IH.
Qed.

Lemma relative_offset_abs (ds : list Z) (acs : access) (v : Z) :
  Abs v ∈ acs ->
  forall dim offset, exists e,
    relative_offset_from (Some ds) dim acs offset = Raise e.
Proof.
  induction acs as [|a acs IH]; intros Hin dim offset.
  - by apply elem_of_nil in Hin.
  - apply elem_of_cons in Hin as [<-|Hin]; [by exists ValueError|].
    destruct a; simpl; [by apply IH|by exists ValueError..].
Qed.

Lemma uses_inner_index_true (kernel : Kernel) (acs : access) (inner : string)
    (off : Z) (b : bool) :
  last_char (loop_order kernel) = Ok inner ->
  Rel inner off ∈ acs ->
  uses_inner_index kernel acs = Ok b -> b = true.
Proof.
  unfold uses_inner_index. intros -> Hin. simpl.
  destruct (mapM offset_item1 acs) as [items|] eqn:Em; [|done]. simpl.
  intros [= <-]. apply existsb_exists.
  exists (ItemStr inner). split; [|apply String.eqb_refl].
  apply list_elem_of_In. revert items Em.
  induction acs as [|a acs IH]; intros items Em.
  - by apply elem_of_nil in Hin.
  - simpl in Em. destruct (offset_item1 a) as [it|] eqn:Ea; [|done].
    simpl in Em. destruct (mapM offset_item1 acs) as [its|]; [|done].
    simpl in Em. injection Em as <-.
    apply elem_of_cons in Hin as [<-|Hin].
    + simpl in Ea. injection Ea as <-. by left.
    + right. by apply IH.
Qed.

Lemma compile_access_abs (kernel : Kernel) (name ty : string)
    (ds : list Z) (acs : access) (v : Z) (t : offsets_table) :
  dget String.eqb (_variables kernel) name = Some (ty, Some ds) ->
  Abs v ∈ acs ->
  exists e, compile_access kernel name t acs = Raise e.
Proof.
  intros Hv Hin. unfold compile_access, _calculate_relative_offset, base_dims, dindex.
  rewrite Hv. simpl.
  destruct (relative_offset_abs ds acs v Hin 0%nat 0) as [e ->]. by exists e.
Qed.

Lemma compile_variable_abs {fl : FloatOps} (kernel : Kernel)
    (machine : MachineModel fl) (name ty inner : string) (ds : list Z)
    (acs : access) (v off : Z) (info : string * option (list Z))
    (rw : offsets_table * offsets_table) :
  dget String.eqb (_variables kernel) name = Some (ty, Some ds) ->
  (exists l, (dget String.eqb (_sources kernel) name = Some l \/
              dget String.eqb (_destinations kernel) name = Some l) /\ acs ∈ l) ->
  last_char (loop_order kernel) = Ok inner ->
  Rel inner off ∈ acs -> Abs v ∈ acs ->
  exists e, compile_variable kernel machine rw (name, info) = Raise e.
Proof.
  intros Hv (l & Hl & Hin) Hlast Hrel Habs. unfold compile_variable, dindex.
  simpl. rewrite Hv. simpl.
  destruct (filterM _ match dget String.eqb (_destinations kernel) name with
                      | Some l0 => l0 | None => [] end) as [writes|e] eqn:Ew;
    [|by exists e]. simpl.
  destruct (filterM _ match dget String.eqb (_sources kernel) name with
                      | Some l0 => l0 | None => [] end) as [reads|e] eqn:Er;
    [|by exists e]. simpl.
  assert (Hkeep : uses_inner_index kernel acs = Ok true).
  { destruct (uses_inner_index kernel acs) as [b|e] eqn:Eu.
    - by rewrite (uses_inner_index_true kernel acs inner off b).
    - exfalso. destruct Hl as [Hl|Hl]; rewrite Hl in *.
      + by eapply (filterM_raises (uses_inner_index kernel) l reads acs).
      + by eapply (filterM_raises (uses_inner_index kernel) l writes acs). }
  destruct Hl as [Hl|Hl]; rewrite Hl in *.
  - destruct (foldM_raises (compile_access kernel name) reads acs) with (b := fst rw)
      as [e ->]; [by eapply filterM_keeps| |by exists e].
    intros t. by eapply compile_access_abs.
  - destruct (foldM (compile_access kernel name) reads (fst rw)) as [r|e];
      [|by exists e]. simpl.
    destruct (foldM_raises (compile_access kernel name) writes acs) with (b := snd rw)
      as [e ->]; [by eapply filterM_keeps| |by exists e].
    intros t. by eapply compile_access_abs.
Qed.

Lemma compile_variable_tables {fl : FloatOps} (machine : MachineModel fl)
    (ls : list offset_info_loop) (s1 d1 s2 d2 : dict string (list access))
    (c1 c2 : dict string Z) (vs : dict string (string * option (list Z)))
    (rw : offsets_table * offsets_table)
    (var : string * (string * option (list Z))) :
  (forall ty ds, dget String.eqb vs (fst var) = Some (ty, Some ds) ->
     accesses_of s1 (fst var) = accesses_of s2 (fst var) /\
     accesses_of d1 (fst var) = accesses_of d2 (fst var)) ->
  compile_variable (mkKernel ls s1 d1 c1 vs) machine rw var
  = compile_variable (mkKernel ls s2 d2 c2 vs) machine rw var.
Proof.
  intros H. unfold compile_variable, dindex. cbn [_variables].
  destruct (dget String.eqb vs (fst var)) as [[ty [ds|]]|] eqn:E; try done.
  destruct (H ty ds eq_refl) as [Hs Hd]. cbn [bind snd _sources _destinations].
  change (match dget String.eqb d1 (fst var) with Some l => l | None => [] end)
    with (accesses_of d1 (fst var)).
  change (match dget String.eqb s1 (fst var) with Some l => l | None => [] end)
    with (accesses_of s1 (fst var)).
  rewrite Hs, Hd. reflexivity.
Qed.

Lemma foldM_ext_elem {A B : Type} (f g : B -> A -> res B) (l : list A) (b : B) :
  (forall x y, x ∈ l -> f y x = g y x) -> foldM f l b = foldM g l b.
Proof.
  revert b. induction l as [|a l IH]; intros b H; simpl; [done|].
  rewrite (H a b) by by left. destruct (g b a) as [b'|]; [|done]. simpl.
  apply IH. intros x y Hin. apply H. by right.
Qed.

(** The simulation reads the tables of sources and of destinations only at
    the variables that are declared with a shape. *)
Lemma simulation_reads_shaped {fl : FloatOps} (machine : MachineModel fl)
    (fuel : nat) (kernel kernel' : Kernel) :
  _loop_stack kernel' = _loop_stack kernel ->
  _variables kernel' = _variables kernel ->
  (forall name ty ds,
     dget String.eqb (_variables kernel) name = Some (ty, Some ds) ->
     accesses_of (_sources kernel') name = accesses_of (_sources kernel) name /\
     accesses_of (_destinations kernel') name
     = accesses_of (_destinations kernel) name) ->
  calculate_cache_access_stats kernel' machine fuel
  = calculate_cache_access_stats kernel machine fuel.
Proof.
  destruct kernel as [ls s d c vs], kernel' as [ls' s' d' c' vs'].
  cbn [_loop_stack _variables _sources _destinations].
  intros -> -> H. unfold calculate_cache_access_stats.
  assert (Hc : compile_offsets (mkKernel ls s' d' c' vs) machine
               = compile_offsets (mkKernel ls s d c vs) machine).
  { unfold compile_offsets. cbn [_variables].
    change (empty_table (mkKernel ls s' d' c' vs))
      with (empty_table (mkKernel ls s d c vs)).
    apply foldM_ext_elem. intros var rw Hin.
    apply compile_variable_tables. intros ty ds E. by apply (H _ ty ds). }
  rewrite Hc. destruct (compile_offsets _ machine) as [[r w]|]; reflexivity.
Qed.

(** C9, as stated, fails in two ways.  When the array of the access is not
    declared, [process] accepts [double b[N]; for(i..) b[i] = a[5][i];], the
    simulator only visits declared variables, and [calculate_cache_access]
    returns.  And when the name of the innermost loop index has more than one
    character, as in [for(i..) for(ji..) b[i] = a[5][ji];] with [a] and [b]
    declared, the simulator takes the last character [i] of the loop order
    [iji] for the index of the innermost loop; the access [a[5][ji]] is not
    on it, and [calculate_cache_access] returns. *)
Lemma absolute_subscript_counterexample :
  (process (sp := sympy_strict) row5_undeclared_ast (kernel_N 50)
     = (Ok tt, row5_undeclared_kernel) /\
   dget String.eqb (_sources row5_undeclared_kernel) "a"
     = Some [[Abs 5; Rel "i" 0]] /\
   dget String.eqb (_variables row5_undeclared_kernel) "a" = None /\
   last_char (loop_order row5_undeclared_kernel) = Ok "i" /\
   exists results,
     calculate_cache_access row5_undeclared_kernel tiny 50 = Some (Ok results) /\
     dkeys results = ["L1-MEM"]) /\
  (process (sp := sympy_strict) long_index_ast (kernel_N 50)
     = (Ok tt, long_index_kernel) /\
   map (fun l => fst (fst (fst l))) (_loop_stack long_index_kernel) = ["i"; "ji"] /\
   dget String.eqb (_sources long_index_kernel) "a"
     = Some [[Abs 5; Rel "ji" 0]] /\
   dget String.eqb (_variables long_index_kernel) "a"
     = Some ("double", Some [50; 50]) /\
   last_char (loop_order long_index_kernel) = Ok "i" /\
   exists results,
     calculate_cache_access long_index_kernel tiny 50 = Some (Ok results) /\
     dkeys results = ["L1-MEM"]).
Proof.
  split; split_and!; try (vm_compute; reflexivity);
    eexists; split; vm_compute; reflexivity.
Qed.

(** C9 (amended): when a variable declared with a shape has a read or write
    access with a bare-integer-constant subscript in one dimension and, in
    another, a subscript on the index named by the last character of the loop
    order (the innermost loop index, when the loop indices are single
    characters), [calculate_cache_access] raises an error and returns no
    result, whatever the number of passes allowed.  The accesses of the
    other variables, those that are not declared and those declared as
    scalars, are skipped: the outcome of [calculate_cache_access] does not
    depend on them. *)
Theorem absolute_subscript_raises {fl : FloatOps} (kernel : Kernel)
    (machine : MachineModel fl) (fuel : nat) :
  (forall (name ty inner : string) (ds : list Z) (accesses : list access)
          (acs : access) (v off : Z),
     dget String.eqb (_variables kernel) name = Some (ty, Some ds) ->
     dget String.eqb (_sources kernel) name = Some accesses \/
     dget String.eqb (_destinations kernel) name = Some accesses ->
     acs ∈ accesses ->
     last_char (loop_order kernel) = Ok inner ->
     Rel inner off ∈ acs -> Abs v ∈ acs ->
     exists e, calculate_cache_access kernel machine fuel = Some (Raise e)) /\
  (forall kernel',
     _loop_stack kernel' = _loop_stack kernel ->
     _variables kernel' = _variables kernel ->
     (forall name ty ds,
        dget String.eqb (_variables kernel) name = Some (ty, Some ds) ->
        accesses_of (_sources kernel') name = accesses_of (_sources kernel) name /\
        accesses_of (_destinations kernel') name
        = accesses_of (_destinations kernel) name) ->
     calculate_cache_access kernel' machine fuel
     = calculate_cache_access kernel machine fuel).
Proof.
  split.
  - intros name ty inner ds accesses acs v off Hv Hl Hin Hlast Hrel Habs.
    unfold calculate_cache_access, calculate_cache_access_stats, compile_offsets.
    apply dget_str_elem in Hv as Hentry.
    destruct (foldM_raises (compile_variable kernel machine) (_variables kernel)
                (name, (ty, Some ds)) Hentry)
      with (b := (empty_table kernel, empty_table kernel))
      as [e ->]; [|by exists e].
    intros rw. eapply compile_variable_abs; eauto.
  - intros kernel' Hl Hv H. unfold calculate_cache_access.
    by rewrite (simulation_reads_shaped machine fuel kernel kernel' Hl Hv H).
Qed.

(** With [a] declared, the kernel [b[i] = a[5][i]] makes the simulator raise;
    with [a] not declared, the outcome is that of the kernel without the
    access to [a]. *)
Lemma absolute_subscript_raises_witness :
  (exists e, calculate_cache_access row5_declared_kernel tiny 50 = Some (Raise e)) /\
  calculate_cache_access
    (set_sources row5_undeclared_kernel []) tiny 50
  = calculate_cache_access row5_undeclared_kernel tiny 50.
Proof.
  split.
  - apply (proj1 (absolute_subscript_raises row5_declared_kernel tiny 50)
             "a" "double" "i" [50; 50] [[Abs 5; Rel "i" 0]] [Abs 5; Rel "i" 0] 5 0).
    + vm_compute. reflexivity.
    + left. vm_compute. reflexivity.
    + by left.
    + vm_compute. reflexivity.
    + right. by left.
    + by left.
  - apply (proj2 (absolute_subscript_raises row5_undeclared_kernel tiny 50)).
    + reflexivity.
    + reflexivity.
    + intros name ty ds Hv. split; [|reflexivity].
      assert (Hb : name = "b").
      { change (_variables row5_undeclared_kernel)
          with [("b", ("double", Some [50]))] in Hv.
        simpl in Hv. destruct (String.eqb name "b") eqn:E; [|done].
        by apply String.eqb_eq. }
      subst name. vm_compute. reflexivity.
Defined.

(** ** The comparison with reference results (C7) *)

Section Comparison.
Context {fl : FloatOps} (reference : dict string (num fl)).

Lemma ecm_compare_status (items : list (string * num fl)) :
  snd (ecm_compare reference items) = 0 \/ snd (ecm_compare reference items) = 1.
Proof.
  induction items as [|[key value] items IH]; simpl; [by left|].
  destruct (dget String.eqb reference key) as [c|]; [|done].
  destruct (exceeds_tolerance value c); [by right|].
  destruct (ecm_compare reference items) as [msgs status].
  by destruct (num_truthy fl (difference value c)).
Qed.

Lemma ecm_compare_fails (items : list (string * num fl)) :
  snd (ecm_compare reference items) <> 0 <-> exceeds_somewhere reference id items.
Proof.
  induction items as [|[key value] items IH]; simpl.
  - split; [done|]. intros (k & v & c & Hin & _). by apply elem_of_nil in Hin.
  - destruct (dget String.eqb reference key) as [c|] eqn:Ek.
    + destruct (exceeds_tolerance value c) eqn:Ex.
      * split; [|done]. intros _. exists key, value, c. split_and!; try done.
        by left.
      * assert (Hs : snd (let '(msgs, status) := ecm_compare reference items in
                          if num_truthy fl (difference value c)
                          then (SmallDifference key c value :: msgs, status)
                          else (msgs, status))
                     = snd (ecm_compare reference items)).
        { destruct (ecm_compare reference items).
          by destruct (num_truthy fl (difference value c)). }
        rewrite Hs, IH. split.
        -- intros (k & v & c' & Hin & Hg & He). exists k, v, c'.
           split_and!; try done. by right.
        -- intros (k & v & c' & Hin & Hg & He).
           apply elem_of_cons in Hin as [[= -> ->]|Hin].
           ++ rewrite Ek in Hg. injection Hg as <-. unfold id in He. congruence.
           ++ by exists k, v, c'.
    + rewrite IH. split.
      * intros (k & v & c' & Hin & Hg & He). exists k, v, c'.
        split_and!; try done. by right.
      * intros (k & v & c' & Hin & Hg & He).
        apply elem_of_cons in Hin as [[= -> ->]|Hin]; [congruence|].
        by exists k, v, c'.
Qed.

Lemma ecm_compare_warnings (items : list (string * num fl)) :
  snd (ecm_compare reference items) = 0 ->
  forall m, m ∈ fst (ecm_compare reference items) <->
    exists key value c,
      m = SmallDifference key c value /\
      (key, value) ∈ items /\ dget String.eqb reference key = Some c /\
      num_truthy fl (difference value c) = true.
Proof.
  induction items as [|[key value] items IH]; simpl; intros Hs m.
  - split; [intros H; by apply elem_of_nil in H|].
    intros (k & v & c & _ & Hin & _). by apply elem_of_nil in Hin.
  - destruct (dget String.eqb reference key) as [c|] eqn:Ek.
    + destruct (exceeds_tolerance value c) eqn:Ex; [done|].
      destruct (ecm_compare reference items) as [msgs status] eqn:Ec.
      simpl in IH.
      destruct (num_truthy fl (difference value c)) eqn:Et; simpl in *.
      * rewrite elem_of_cons, (IH Hs m). split.
        -- intros [->|(k & v & c' & -> & Hin & Hr)].
           ++ exists key, value, c. split_and!; try done. by left.
           ++ exists k, v, c'. split_and!; try done; [by right|apply Hr..].
        -- intros (k & v & c' & -> & Hin & Hg & Hn).
           apply elem_of_cons in Hin as [[= -> ->]|Hin].
           ++ left. congruence.
           ++ right. by exists k, v, c'.
      * rewrite (IH Hs m). split.
        -- intros (k & v & c' & -> & Hin & Hr).
           exists k, v, c'. split_and!; try done; [by right|apply Hr..].
        -- intros (k & v & c' & -> & Hin & Hg & Hn).
           apply elem_of_cons in Hin as [[= -> ->]|Hin]; [congruence|].
           by exists k, v, c'.
    + rewrite (IH Hs m). split.
      * intros (k & v & c' & -> & Hin & Hr).
        exists k, v, c'. split_and!; try done; [by right|apply Hr..].
      * intros (k & v & c' & -> & Hin & Hg & Hn).
        apply elem_of_cons in Hin as [[= -> ->]|Hin]; [congruence|].
        by exists k, v, c'.
Qed.

Lemma exceeds_somewhere_cons (correct_of : num fl -> num fl) (key : string)
    (value : num fl) (items : list (string * num fl)) :
  exceeds_somewhere reference correct_of ((key, value) :: items) <->
  (exists c, dget String.eqb reference key = Some c /\
             exceeds_tolerance value (correct_of c) = true) \/
  exceeds_somewhere reference correct_of items.
Proof.
  split.
  - intros (k & v & c & Hin & Hg & He).
    apply elem_of_cons in Hin as [[= -> ->]|Hin]; [left; by exists c|].
    right. by exists k, v, c.
  - intros [(c & Hg & He)|(k & v & c & Hin & Hr)].
    + exists key, value, c. split_and!; try done. by left.
    + exists k, v, c. split; [by right|done].
Qed.

Lemma kerncraft_loop_failed (items : list (string * num fl)) (failed : bool) :
  snd (kerncraft_compare_loop reference items failed) = true <->
  failed = true \/ exceeds_somewhere reference (fun c => NFloat (to_float fl c)) items.
Proof.
  revert failed. induction items as [|[key value] items IH]; intros failed.
  - simpl. split; [by left|]. intros [H|(k & v & c & Hin & _)]; [done|].
    by apply elem_of_nil in Hin.
  - rewrite exceeds_somewhere_cons. simpl.
    destruct (dget String.eqb reference key) as [c|] eqn:Ek.
    + destruct (exceeds_tolerance value (NFloat (to_float fl c))) eqn:Ex.
      * destruct (kerncraft_compare_loop reference items true) as [msgs f] eqn:Ec.
        simpl. specialize (IH true). rewrite Ec in IH. simpl in IH.
        split; [|intros _; apply IH; by left].
        intros _. right. left. by exists c.
      * assert (Hno : ~ exists c0, Some c = Some c0 /\
                  exceeds_tolerance value (NFloat (to_float fl c0)) = true).
        { intros (c0 & [= <-] & He). congruence. }
        destruct (num_truthy fl (difference value (NFloat (to_float fl c)))).
        -- destruct (kerncraft_compare_loop reference items failed) as [msgs f] eqn:Ec.
           simpl. specialize (IH failed). rewrite Ec in IH. simpl in IH.
           rewrite IH. tauto.
        -- rewrite IH. tauto.
    + rewrite IH. split; [tauto|]. intros [?|[(c & ? & _)|?]]; [tauto|done|tauto].
Qed.

Lemma kerncraft_compare_fails (items : list (string * num fl)) :
  snd (kerncraft_compare reference items) <> 0 <->
  exceeds_somewhere reference (fun c => NFloat (to_float fl c)) items.
Proof.
  unfold kerncraft_compare.
  pose proof (kerncraft_loop_failed items false) as H.
  destruct (kerncraft_compare_loop reference items false) as [msgs failed].
  simpl in *. destruct failed.
  - split; [|done]. intros _. destruct H as [[H|H] _]; done.
  - split; [done|]. intros Ho. destruct H as [_ H]. by specialize (H (or_intror Ho)).
Qed.
End Comparison.

Lemma exceeds_somewhere_spelled {fl : FloatOps} (reference : dict string (num fl))
    (correct_of : num fl -> num fl) (items : list (string * num fl)) :
  exceeds_somewhere reference correct_of items <->
  out_of_tolerance reference correct_of items.
Proof. reflexivity. Qed.

Section Exact.
Context {fl : FloatOps} (val : F fl -> Q) (Hexact : exact_floats fl val).

Lemma to_float_val (x : num fl) : (val (to_float fl x) == num_val val x)%Q.
Proof. destruct x as [z|f]; simpl; [apply (val_of_Z _ _ Hexact)|reflexivity]. Qed.

Lemma num_sub_val (x y : num fl) :
  (num_val val (num_sub fl x y) == num_val val x - num_val val y)%Q.
Proof.
  destruct x as [a|f], y as [b|g]; cbn [num_sub num_val to_float];
    rewrite ?(val_fsub _ _ Hexact), ?(val_of_Z _ _ Hexact); try reflexivity.
  unfold Qeq. simpl. lia.
Qed.

Lemma num_abs_val (x : num fl) :
  (num_val val (num_abs fl x) == Qabs (num_val val x))%Q.
Proof.
  destruct x as [a|f]; cbn [num_abs num_val]; [reflexivity|].
  apply (val_fabs _ _ Hexact).
Qed.

Lemma difference_val (value c : num fl) :
  (num_val val (difference value c)
   == Qabs (num_val val value - num_val val c))%Q.
Proof. unfold difference. by rewrite num_abs_val, num_sub_val. Qed.

Lemma num_is_zero_val (x : num fl) :
  num_is_zero fl x = true <-> (num_val val x == 0)%Q.
Proof.
  destruct x as [a|f]; cbn [num_is_zero num_val];
    [|apply (val_fis_zero _ _ Hexact)].
  rewrite Z.eqb_eq. unfold Qeq. simpl. lia.
Qed.

(** The test [diff > correct_value*0.1] of the loops is the comparison of the
    absolute difference with 10% of the reference value. *)
Lemma exceeds_tolerance_val (value c : num fl) :
  exceeds_tolerance value c = true <->
  beyond_ten_percent (num_val val value) (num_val val c).
Proof.
  unfold exceeds_tolerance, beyond_ten_percent.
  assert (Hm : num_mul fl c (NFloat (ftenth fl))
               = NFloat (fmul fl (to_float fl c) (ftenth fl))) by by destruct c.
  rewrite Hm.
  assert (Hg : num_gt fl (difference value c)
                 (NFloat (fmul fl (to_float fl c) (ftenth fl)))
               = fgt fl (to_float fl (difference value c))
                        (fmul fl (to_float fl c) (ftenth fl)))
    by by destruct (difference value c).
  rewrite Hg, (val_fgt _ _ Hexact), (val_fmul _ _ Hexact), !to_float_val,
    (val_ftenth _ _ Hexact), difference_val.
  assert (Ht : (1 # 10 == 10 # 100)%Q) by reflexivity.
  by rewrite Ht.
Qed.

(** [elif diff:] tests that the two values differ. *)
Lemma difference_truthy_val (value c : num fl) :
  num_truthy fl (difference value c) = true <->
  ~ (num_val val value == num_val val c)%Q.
Proof.
  unfold num_truthy. rewrite negb_true_iff, <- not_true_iff_false,
    num_is_zero_val, difference_val.
  assert (H0 : forall x : Q, (Qabs x == 0)%Q -> (x == 0)%Q).
  { intros [n d]. unfold Qeq. simpl. lia. }
  split; intros H E; apply H.
  - rewrite E. assert (Hz : (num_val val c - num_val val c == 0)%Q) by ring.
    rewrite Hz. reflexivity.
  - apply H0 in E.
    assert (Hs : (num_val val value
                  == (num_val val value - num_val val c) + num_val val c)%Q)
      by ring.
    rewrite Hs, E. ring.
Qed.

(** [float(c)] stands for the same number as [c]. *)
Lemma float_val (c : num fl) :
  (num_val val (NFloat (to_float fl c)) == num_val val c)%Q.
Proof. apply to_float_val. Qed.

Lemma exceeds_somewhere_val (reference : dict string (num fl))
    (items : list (string * num fl)) :
  (exceeds_somewhere reference id items <-> some_key_beyond val reference items) /\
  (exceeds_somewhere reference (fun c => NFloat (to_float fl c)) items <->
   some_key_beyond val reference items).
Proof.
  split; split; intros (key & value & c & Hin & Hg & He); exists key, value, c;
    (split; [done|split; [done|]]).
  - by apply exceeds_tolerance_val.
  - by apply exceeds_tolerance_val.
  - apply exceeds_tolerance_val in He. unfold beyond_ten_percent in *.
    by rewrite float_val in He.
  - apply exceeds_tolerance_val. unfold beyond_ten_percent in *.
    by rewrite float_val.
Qed.
End Exact.

Lemma kerncraft_loop_messages {fl : FloatOps} (reference : dict string (num fl))
    (items : list (string * num fl)) (failed : bool) (m : message) :
  m ∈ fst (kerncraft_compare_loop reference items failed) <->
  exists key value c,
    (key, value) ∈ items /\ dget String.eqb reference key = Some c /\
    ((exceeds_tolerance value (NFloat (to_float fl c)) = true /\
      m = TestMismatch key (NFloat (to_float fl c)) value) \/
     (exceeds_tolerance value (NFloat (to_float fl c)) = false /\
      num_truthy fl (difference value (NFloat (to_float fl c))) = true /\
      m = SmallDifference key (NFloat (to_float fl c)) value)).
Proof.
  revert failed. induction items as [|[key value] items IH]; intros failed.
  - simpl. split; [intros H; by apply elem_of_nil in H|].
    intros (k & v & c & Hin & _). by apply elem_of_nil in Hin.
  - assert (Hrest : forall f,
      (exists key0 value0 c,
         (key0, value0) ∈ (key, value) :: items /\
         dget String.eqb reference key0 = Some c /\
         ((exceeds_tolerance value0 (NFloat (to_float fl c)) = true /\
           m = TestMismatch key0 (NFloat (to_float fl c)) value0) \/
          (exceeds_tolerance value0 (NFloat (to_float fl c)) = false /\
           num_truthy fl (difference value0 (NFloat (to_float fl c))) = true /\
           m = SmallDifference key0 (NFloat (to_float fl c)) value0))) <->
      (exists c, dget String.eqb reference key = Some c /\
         ((exceeds_tolerance value (NFloat (to_float fl c)) = true /\
           m = TestMismatch key (NFloat (to_float fl c)) value) \/
          (exceeds_tolerance value (NFloat (to_float fl c)) = false /\
           num_truthy fl (difference value (NFloat (to_float fl c))) = true /\
           m = SmallDifference key (NFloat (to_float fl c)) value))) \/
      m ∈ fst (kerncraft_compare_loop reference items f)).
    { intros f. rewrite (IH f). split.
      - intros (k & v & c & Hin & Hr).
        apply elem_of_cons in Hin as [[= -> ->]|Hin]; [left; by exists c|].
        right. by exists k, v, c.
      - intros [(c & Hr)|(k & v & c & Hin & Hr)].
        + exists key, value, c. split; [by left|done].
        + exists k, v, c. split; [by right|done]. }
    simpl. destruct (dget String.eqb reference key) as [c|] eqn:Ek.
    + destruct (exceeds_tolerance value (NFloat (to_float fl c))) eqn:Ex.
      * rewrite (Hrest true).
        destruct (kerncraft_compare_loop reference items true) as [msgs f].
        simpl. rewrite elem_of_cons. split.
        -- intros [->|H]; [left; exists c; split; [done|by left]|by right].
        -- intros [(c0 & [= <-] & [[_ ->]|[E _]])|H];
             [by left|congruence|by right].
      * destruct (num_truthy fl (difference value (NFloat (to_float fl c)))) eqn:Et.
        -- rewrite (Hrest failed).
           destruct (kerncraft_compare_loop reference items failed) as [msgs f].
           simpl. rewrite elem_of_cons. split.
           ++ intros [->|H]; [left; exists c; split; [done|by right]|by right].
           ++ intros [(c0 & [= <-] & [[E _]|(_ & _ & ->)])|H];
                [congruence|by left|by right].
        -- rewrite (Hrest failed). split; [by right|].
           intros [(c0 & [= <-] & [[E _]|(_ & E & _)])|H]; [congruence..|done].
    + rewrite (Hrest failed). split; [by right|].
      by intros [(c0 & ? & _)|H].
Qed.

Lemma kerncraft_messages {fl : FloatOps} (reference : dict string (num fl))
    (items : list (string * num fl)) :
  fst (kerncraft_compare reference items)
  = fst (kerncraft_compare_loop reference items false).
Proof.
  unfold kerncraft_compare.
  by destruct (kerncraft_compare_loop reference items false).
Qed.

Lemma QFloat_exact : exact_floats QFloat (fun q => q).
Proof.
  split; simpl.
  - reflexivity.
  - intros a b. apply Qred_correct.
  - intros a b. apply Qred_correct.
  - intros a. apply Qred_correct.
  - intros a b. rewrite (Qgt_alt a b).
    destruct (a ?= b)%Q; split; congruence.
  - intros a. rewrite Z.eqb_eq. unfold Qeq. simpl. lia.
  - reflexivity.
Qed.

(** C7: with a reference mapping, each driver exits with a non-zero status
    (namely [1]) exactly when, for some key of the computed results that is in
    the reference, [abs(value - correct_value) > correct_value*0.1]; a
    difference that is non-zero and within this tolerance prints a warning and
    does not make the driver fail; without a reference nothing is compared.
    Where the operations of the float type are exact, the test is that the
    absolute difference of the two values exceeds 10% of the reference
    value. *)
Theorem reference_comparison {fl : FloatOps} (reference : dict string (num fl))
    (results : dict string (num fl)) :
  (snd (driver_check ecm_compare (Some reference) results) <> 0 <->
   out_of_tolerance reference id results) /\
  (snd (driver_check kerncraft_compare (Some reference) results) <> 0 <->
   out_of_tolerance reference (fun c => NFloat (to_float fl c)) results) /\
  (snd (driver_check ecm_compare (Some reference) results) = 0 \/
   snd (driver_check ecm_compare (Some reference) results) = 1) /\
  (snd (driver_check kerncraft_compare (Some reference) results) = 0 \/
   snd (driver_check kerncraft_compare (Some reference) results) = 1) /\
  (snd (driver_check ecm_compare (Some reference) results) = 0 ->
   forall m, m ∈ fst (driver_check ecm_compare (Some reference) results) <->
     exists key value c,
       m = SmallDifference key c value /\
       (key, value) ∈ results /\ dget String.eqb reference key = Some c /\
       differs value c) /\
  (forall key value c,
     (key, value) ∈ results -> dget String.eqb reference key = Some c ->
     differs value (NFloat (to_float fl c)) ->
     SmallDifference key (NFloat (to_float fl c)) value
       ∈ fst (driver_check kerncraft_compare (Some reference) results) \/
     out_of_tolerance reference (fun c => NFloat (to_float fl c)) [(key, value)]) /\
  driver_check ecm_compare None results = ([], 0) /\
  driver_check kerncraft_compare None results = ([], 0) /\
  (forall val : F fl -> Q, exact_floats fl val ->
     (snd (driver_check ecm_compare (Some reference) results) <> 0 <->
      some_key_beyond val reference results) /\
     (snd (driver_check kerncraft_compare (Some reference) results) <> 0 <->
      some_key_beyond val reference results) /\
     (forall key value c,
        (key, value) ∈ results -> dget String.eqb reference key = Some c ->
        ~ (num_val val value == num_val val c)%Q ->
        ~ beyond_ten_percent (num_val val value) (num_val val c) ->
        (snd (driver_check ecm_compare (Some reference) results) = 0 ->
         SmallDifference key c value
           ∈ fst (driver_check ecm_compare (Some reference) results)) /\
        SmallDifference key (NFloat (to_float fl c)) value
          ∈ fst (driver_check kerncraft_compare (Some reference) results))).
Proof.
  assert (Hdiff : forall value c,
            differs value c <-> num_truthy fl (difference value c) = true).
  { intros value c. unfold differs, num_truthy, difference.
    by rewrite negb_true_iff. }
  split_and!; cbn [driver_check].
  - rewrite <- exceeds_somewhere_spelled. apply ecm_compare_fails.
  - rewrite <- exceeds_somewhere_spelled. apply kerncraft_compare_fails.
  - apply ecm_compare_status.
  - unfold kerncraft_compare.
    destruct (kerncraft_compare_loop reference results false) as [msgs []];
      [by right|by left].
  - intros Hs m. rewrite (ecm_compare_warnings reference results Hs m).
    by setoid_rewrite Hdiff.
  - intros key value c Hin Hg Hd. rewrite kerncraft_messages.
    destruct (exceeds_tolerance value (NFloat (to_float fl c))) eqn:Ex.
    + right. exists key, value, c. split_and!; [by left|done|exact Ex].
    + left. apply kerncraft_loop_messages. exists key, value, c.
      split_and!; try done. right. split_and!; try done. by apply Hdiff.
  - done.
  - done.
  - intros val Hexact.
    destruct (exceeds_somewhere_val val Hexact reference results) as [He Hk].
    split_and!.
    + by rewrite <- He, ecm_compare_fails.
    + by rewrite <- Hk, kerncraft_compare_fails.
    + intros key value c Hin Hg Hne Hin10. split.
      * intros Hs. apply (ecm_compare_warnings reference results Hs).
        exists key, value, c. split_and!; try done.
        by apply (difference_truthy_val val Hexact).
      * rewrite kerncraft_messages. apply kerncraft_loop_messages.
        exists key, value, c. split_and!; try done. right. split_and!; try done.
        -- apply not_true_iff_false. intros Ex.
           apply (exceeds_tolerance_val val Hexact) in Ex.
           unfold beyond_ten_percent in *.
           rewrite (float_val val Hexact) in Ex. done.
        -- apply (difference_truthy_val val Hexact).
           by rewrite (float_val val Hexact).
Qed.

(** On the results of DAXPY: against a reference of [10] cycles to memory,
    where [13] are computed, both drivers exit with status [1]; against a
    reference of [12.5] cycles both exit with status [0] and warn. *)
Lemma reference_comparison_witness :
  exact_floats QFloat (fun q => q) /\
  snd (driver_check ecm_compare (Some far_reference) (fst daxpy_run)) <> 0 /\
  snd (driver_check kerncraft_compare (Some far_reference) (fst daxpy_run)) <> 0 /\
  ~ some_key_beyond (fl := QFloat) (fun q => q) near_reference (fst daxpy_run) /\
  driver_check ecm_compare (Some near_reference) (fst daxpy_run)
    = ([SmallDifference "L3-MEM" (NFloat (Qmake 125 10 : F QFloat))
          (NFloat (inject_Z 13 : F QFloat))], 0) /\
  SmallDifference "L3-MEM" (NFloat (Qmake 125 10 : F QFloat))
    (NFloat (inject_Z 13 : F QFloat))
    ∈ fst (driver_check kerncraft_compare (Some near_reference) (fst daxpy_run)).
Proof.
  pose proof (reference_comparison far_reference (fst daxpy_run))
    as (_ & _ & _ & _ & _ & _ & _ & _ & Hfar).
  pose proof (reference_comparison near_reference (fst daxpy_run))
    as (_ & _ & _ & _ & _ & _ & _ & _ & Hnear).
  destruct (Hfar (fun q => q) QFloat_exact) as (Hfe & Hfk & _).
  destruct (Hnear (fun q => q) QFloat_exact) as (Hne & Hnk & Hnw).
  assert (Hbeyond : some_key_beyond (fl := QFloat) (fun q => q) far_reference
                      (fst daxpy_run)).
  { exists "L3-MEM", (NFloat (inject_Z 13 : F QFloat)), (NInt 10).
    split_and!; [|reflexivity|reflexivity].
    apply list_elem_of_In. vm_compute. auto. }
  split_and!.
  - exact QFloat_exact.
  - by apply Hfe.
  - by apply Hfk.
  - intros Hb. apply Hne in Hb. by apply Hb.
  - reflexivity.
  - apply (Hnw "L3-MEM" (NFloat (inject_Z 13 : F QFloat))
             (NFloat (Qmake 125 10 : F QFloat))).
    + apply list_elem_of_In. vm_compute. auto.
    + reflexivity.
    + by vm_compute.
    + by vm_compute.
Defined.

(** ** The tables of accesses *)

Lemma accesses_of_touch (t : dict string (list access)) (n name : string) :
  accesses_of (touch t n) name = accesses_of t name.
Proof.
  unfold touch, setdefault, dhas, accesses_of.
  destruct (dget String.eqb t n) as [l|] eqn:E; [done|].
  destruct (decide (n = name)) as [<-|Hne].
  - by rewrite (dget_dset_eq _ String.eqb_eq), E.
  - by rewrite (dget_dset_ne _ String.eqb_eq).
Qed.

Lemma accesses_of_record (t : dict string (list access)) (n name : string)
    (a : access) :
  accesses_of (record_access t n a) name
  = accesses_of t name ++ (if String.eqb n name then [a] else []).
Proof.
  unfold record_access, setdefault, dhas, accesses_of.
  destruct (dget String.eqb t n) as [l|] eqn:E.
  - rewrite E. destruct (decide (n = name)) as [<-|Hne].
    + by rewrite (dget_dset_eq _ String.eqb_eq), E, String.eqb_refl.
    + rewrite (dget_dset_ne _ String.eqb_eq) by done.
      apply String.eqb_neq in Hne. rewrite Hne. by rewrite app_nil_r.
  - rewrite (dget_dset_eq _ String.eqb_eq).
    destruct (decide (n = name)) as [<-|Hne].
    + by rewrite (dget_dset_eq _ String.eqb_eq), E, String.eqb_refl.
    + rewrite !(dget_dset_ne _ String.eqb_eq) by done.
      apply String.eqb_neq in Hne. rewrite Hne. by rewrite app_nil_r.
Qed.

Lemma subscript_offset_loops (k k1 : Kernel) (s : node) :
  loop_names k1 = loop_names k -> subscript_offset k1 s = subscript_offset k s.
Proof.
  intros H. destruct s as [n|v|op l r| | | | | | | |]; simpl; try done.
  - by rewrite H.
  - destruct l, r; simpl; try done. by rewrite H.
Qed.

Lemma get_offsets_loops (k k1 : Kernel) (aref : node) :
  loop_names k1 = loop_names k -> _get_offsets k1 aref = _get_offsets k aref.
Proof.
  intros H. unfold _get_offsets. f_equal.
  induction aref as [| | | |name IH sub _| | | | | |]; try done.
  cbn [_get_offsets_rec]. by rewrite (subscript_offset_loops k k1 sub H), IH.
Qed.

(** ** Unsupported subscripts (C6) *)

Lemma plus_or_minus (op : string) :
  str_in op binary_operators = true -> substring_of op "+-" = true ->
  String.eqb op "+" || String.eqb op "-" = true.
Proof.
  intros H Hs. apply existsb_exists in H as (x & Hin & Heq).
  apply String.eqb_eq in Heq. subst x.
  unfold binary_operators in Hin. simpl in Hin.
  repeat (destruct Hin as [<-|Hin]; [by vm_compute in Hs|]). done.
Qed.

Lemma py_assert_ok (b : bool) (msg : string) (u : unit) :
  py_assert b msg = Ok u -> b = true.
Proof. by destruct b. Qed.

Ltac assert_step H :=
  match type of H with
  | bind (py_assert ?b ?msg) _ = Ok _ =>
      let E := fresh "Ha" in
      destruct b eqn:E; [simpl in H|discriminate H]
  | bind ?m _ = Ok _ =>
      let E := fresh "Hb" in
      let x := fresh "x" in
      destruct m as [x|] eqn:E; [simpl in H|discriminate H]
  end.

Lemma subscript_offset_good (k : Kernel) (sub : node) (o : offset_info) :
  subscript_offset k sub = Ok o -> ops_parsed sub = true ->
  good_subscript (loop_names k) sub = true.
Proof.
  intros H Hp. destruct sub as [n|v|op l r| | | | | | | |]; simpl in H; try done.
  - by assert_step H.
  - destruct v; [done|by simpl in H].
  - do 2 assert_step H.
    destruct l as [ln| | | | | | | | | |]; try done.
    destruct r as [|rv| | | | | | | | |]; try done.
    do 2 assert_step H. simpl. destruct rv; [|done].
    simpl in Hp. apply andb_true_iff in Hp as [Hp _].
    apply andb_true_iff in Hp as [Hp _].
    apply andb_true_iff. split; [by apply plus_or_minus|assumption].
Qed.

Lemma get_offsets_rec_ok (k : Kernel) (aref : node) (l : list offset_info) :
  _get_offsets_rec k aref = Ok l -> ops_parsed aref = true ->
  subscripts_ok (loop_names k) aref = true.
Proof.
  revert l. induction aref as [| | | |name IHn sub _| | | | | |];
    intros l H Hp; try done.
  simpl in H, Hp. apply andb_true_iff in Hp as [Hpn Hps].
  do 3 assert_step H. simpl. apply andb_true_iff. split.
  - by eapply subscript_offset_good.
  - destruct name; try done. simpl in H. assert_step H. by eapply IHn.
Qed.

Lemma get_offsets_ok (k : Kernel) (aref : node) (l : access) :
  _get_offsets k aref = Ok l -> ops_parsed aref = true ->
  subscripts_ok (loop_names k) aref = true.
Proof.
  unfold _get_offsets. intros H Hp. assert_step H. by eapply get_offsets_rec_ok.
Qed.

Lemma p_sources_ok (stmt : node) :
  ops_parsed stmt = true ->
  keeps_loops (_p_sources stmt) (fun names => subscripts_ok names stmt).
Proof.
  induction stmt as [n|v|op l IHl r IHr| |name _ sub _| | | | | |];
    intros Hp k k' H; try done.
  - simpl in H. unfold kmodify in H. by injection H as <-.
  - simpl in H. unfold kret in H. by injection H as <-.
  - simpl in Hp. apply andb_true_iff in Hp as [Hp Hr].
    apply andb_true_iff in Hp as [_ Hl].
    simpl in H. unfold kbind in H.
    destruct (_p_sources l k) as [[[]|] k1] eqn:E1; [|done].
    destruct (IHl Hl k k1 E1) as [Hs1 Hok1].
    destruct (IHr Hr k1 k' H) as [Hs2 Hok2].
    unfold loop_names in *. rewrite Hs1 in Hs2, Hok2.
    split; [done|]. simpl. by rewrite Hok1, Hok2.
  - cbn -[_get_basename _get_offsets] in H. unfold kbind, kread, kmodify in H.
    destruct (_get_basename (ArrayRef name sub)) as [bname|]; [|done].
    destruct (_get_offsets _ (ArrayRef name sub)) as [offs|] eqn:Eo; [|done].
    injection H as <-. split; [done|].
    by apply get_offsets_ok in Eo.
Qed.

Lemma p_assignment_ok (stmt : node) :
  ops_parsed stmt = true ->
  keeps_loops (_p_assignment stmt) (fun names => subscripts_ok names stmt).
Proof.
  intros Hp k k' H. destruct stmt as [| | | | |op lv rv| | | | |]; try done.
  simpl in Hp. apply andb_true_iff in Hp as [Hl Hr].
  destruct lv as [n| | | |name sub| | | | | |]; try done.
  - cbn -[_p_sources] in H. unfold kbind, kmodify in H.
    destruct (p_sources_ok rv Hr _ _ H) as [Hs Hok]. split; [done|].
    simpl. exact Hok.
  - cbn -[_get_basename _get_offsets _p_sources] in H.
    unfold kbind, kread, kmodify in H.
    destruct (_get_basename (ArrayRef name sub)) as [bname|]; [|done].
    destruct (_get_offsets _ (ArrayRef name sub)) as [offs|] eqn:Eo; [|done].
    destruct (p_sources_ok rv Hr _ _ H) as [Hs Hok]. split; [done|].
    apply get_offsets_ok in Eo; [|done].
    change (subscripts_ok (loop_names k) (ArrayRef name sub) &&
            subscripts_ok (loop_names k) rv = true).
    apply andb_true_iff. split; [exact Eo|exact Hok].
Qed.

Lemma kiter_assignments_ok (items : list node) :
  forallb ops_parsed items = true ->
  keeps_loops (kiter _p_assignment items)
              (fun names => forallb (subscripts_ok names) items).
Proof.
  induction items as [|a items IH]; intros Hp k k' H.
  - simpl in H. unfold kret in H. by injection H as <-.
  - simpl in Hp. apply andb_true_iff in Hp as [Ha Hi].
    simpl in H. unfold kbind in H.
    destruct (_p_assignment a k) as [[[]|] k1] eqn:E1; [|done].
    destruct (p_assignment_ok a Ha k k1 E1) as [Hs1 Hok1].
    destruct (IH Hi k1 k' H) as [Hs2 Hok2].
    unfold loop_names in *. rewrite Hs1 in Hs2, Hok2.
    split; [done|]. simpl. by rewrite Hok1, Hok2.
Qed.

Lemma for_header_shape (k : Kernel) (init cond next stmt : node)
    (entry : offset_info_loop) :
  for_header k init cond next stmt = Ok entry ->
  (exists op n v, init = Assignment op (ID n) (Constant v) /\
                  fst (fst (fst entry)) = n) /\
  (forall names, subscripts_ok names cond = true /\
                 subscripts_ok names next = true).
Proof.
  unfold for_header. intros H.
  assert_step H. destruct init as [| | | | |iop il ir| | | | |]; try done.
  assert_step H. assert_step H.
  destruct cond as [| |cop cl cr| | | | | | | |]; try done.
  simpl in H. assert_step H. destruct cl as [cn| | | | | | | | | |]; try done.
  do 4 assert_step H.
  assert_step H.
  destruct (match cr with ID _ => _ | _ => _ end) as [iter_max|] eqn:Hmax;
    [simpl in H|done].
  destruct (match next with UnaryOp _ _ => _ | _ => _ end) as [step|] eqn:Hstep;
    [simpl in H|done].
  do 3 assert_step H. injection H as <-. split.
  - destruct il; simplify_eq/=. destruct ir; simplify_eq/=.
    by eexists _, _, _.
  - intros names. split.
    + simpl. destruct cr as [| |bop bl br| | | | | | | |]; try done.
      do 2 assert_step Hmax. by destruct bl, br.
    + destruct next as [| | |uop e| |nop nl nr| | | | |]; try done.
      * assert_step Hstep. by destruct e.
      * do 2 assert_step Hstep. by destruct nl, nr.
Qed.

Lemma loop_names_push (k : Kernel) (entry : offset_info_loop) :
  loop_names (set_loop_stack k (_loop_stack k ++ [entry]))
  = loop_names k ++ [fst (fst (fst entry))].
Proof. unfold loop_names. simpl. by rewrite map_app. Qed.

Lemma p_for_ok (n : nat) :
  forall floop, (for_depth floop <= n)%nat -> ops_parsed floop = true ->
  forall k k', _p_for floop k = (Ok tt, k') ->
    loop_names k' = loop_names k ++ nest_indices floop /\
    subscripts_ok (loop_names k') floop = true.
Proof.
  induction n as [|n IH]; intros floop Hd Hp k k' H;
    destruct floop as [| | | | | |init cond next stmt| | | |]; try done.
  - simpl in Hd. lia.
  - cbn -[for_header _p_assignment] in H. unfold kbind, kread, kmodify in H.
    destruct (for_header k init cond next stmt) as [entry|] eqn:Eh; [|done].
    apply for_header_shape in Eh as [(op & idx & v & -> & Hidx) Hcn].
    pose proof (loop_names_push k entry) as Hpush. rewrite Hidx in Hpush.
    set (k1 := set_loop_stack k (_loop_stack k ++ [entry])) in *.
    simpl in Hp. apply andb_true_iff in Hp as [Hp Hps].
    assert (Hhead : forall names,
              subscripts_ok names (Assignment op (ID idx) (Constant v)) &&
              subscripts_ok names cond && subscripts_ok names next = true).
    { intros names. destruct (Hcn names) as [-> ->]. done. }
    assert (Hfin : forall rest,
              loop_names k' = loop_names k1 ++ rest ->
              subscripts_ok (loop_names k') stmt = true ->
              loop_names k' = loop_names k ++ [idx] ++ rest /\
              subscripts_ok (loop_names k') (Assignment op (ID idx) (Constant v)) &&
              subscripts_ok (loop_names k') cond &&
              subscripts_ok (loop_names k') next &&
              subscripts_ok (loop_names k') stmt = true).
    { intros rest Hn Hok. rewrite Hhead, Hok. split; [|done].
      by rewrite Hn, Hpush, <- app_assoc. }
    assert (Hsame : forall (m : kst unit) ok,
              keeps_loops m ok -> m k1 = (Ok tt, k') ->
              loop_names k' = loop_names k1 ++ [] /\ ok (loop_names k') = true).
    { intros m ok Hk Hm. destruct (Hk k1 k' Hm) as [Hs Hok].
      unfold loop_names in *. rewrite Hs. by rewrite app_nil_r. }
    cbn [nest_indices subscripts_ok].
    destruct stmt as [| | | | |aop al ar|i2 c2 n2 s2|items| | |]; try done.
    + destruct (Hsame _ _ (p_assignment_ok _ Hps) H). by apply Hfin.
    + change (S (for_depth (For i2 c2 n2 s2)) <= S n)%nat in Hd.
      destruct (IH (For i2 c2 n2 s2)) with (k := k1) (k' := k')
        as [Hn Hok]; [lia|done|done|]. by apply Hfin.
    + destruct items as [[|item [|item2 rest]]|]; [| | |done].
      * destruct (Hsame _ _ (kiter_assignments_ok [] Hps) H). by apply Hfin.
      * simpl in Hps. rewrite andb_true_r in Hps.
        assert (Hone : forall names,
                  subscripts_ok names (Compound (Some [item]))
                  = subscripts_ok names item).
        { intros names. simpl. by rewrite andb_true_r. }
        destruct item as [| | | | | |i2 c2 n2 s2| | | |];
          try (destruct (Hsame _ _ (p_assignment_ok _ Hps) H);
               apply Hfin; [done|by rewrite Hone]).
        change (S (for_depth (For i2 c2 n2 s2)) <= S n)%nat in Hd.
        destruct (IH (For i2 c2 n2 s2)) with (k := k1) (k' := k')
          as [Hn Hok]; [lia|done|done|]. apply Hfin; [done|by rewrite Hone].
      * destruct (Hsame _ _ (kiter_assignments_ok _ Hps) H). by apply Hfin.
Qed.

Lemma process_decl_loops {sp : SymPy} (item : node) (k k' : Kernel) (r : res unit) :
  process_decl item k = (r, k') -> _loop_stack k' = _loop_stack k.
Proof.
  unfold process_decl, kbind, kread. intros H.
  destruct item as [| | | | | | | |name type| |]; try by injection H as _ <-.
  destruct type as [t dim|names|]; try by injection H as _ <-.
  - destruct (decl_dims _ _) as [dn|]; [|by injection H as _ <-].
    destruct (py_assert _ _); [|by injection H as _ <-].
    unfold set_variable in H. destruct (py_assert _ _); by injection H as _ <-.
  - destruct (py_assert _ _); [|by injection H as _ <-].
    unfold set_variable in H. destruct (py_assert _ _); by injection H as _ <-.
Qed.

Lemma kiter_decl_loops {sp : SymPy} (items : list node) (k k' : Kernel) (r : res unit) :
  kiter process_decl items k = (r, k') -> _loop_stack k' = _loop_stack k.
Proof.
  revert k. induction items as [|a items IH]; intros k H; simpl in H.
  - unfold kret in H. by injection H as _ <-.
  - unfold kbind in H. destruct (process_decl a k) as [[u|e] k1] eqn:E.
    + apply process_decl_loops in E. rewrite <- E. by eapply IH.
    + apply process_decl_loops in E. by injection H as _ <-.
Qed.

(** *** The error of [_get_offsets] *)

Lemma subscript_offset_error (k : Kernel) (sub : node) :
  ops_parsed sub = true -> good_subscript (loop_names k) sub = false ->
  is_ID sub || is_Constant sub || is_BinaryOp sub = true ->
  exists e, subscript_offset k sub = Raise e /\ subscript_error e = true.
Proof.
  intros Hp Hbad Hshape.
  destruct sub as [n|v|op l r| | | | | | | |]; try done;
    cbn [subscript_offset]; cbn [good_subscript] in Hbad.
  - rewrite Hbad. simpl. by eexists.
  - destruct v; [done|]. by eexists.
  - simpl in Hp.
    apply andb_true_iff in Hp as [Hp _]. apply andb_true_iff in Hp as [Hop _].
    destruct (substring_of op "+-") eqn:Es; [|by eexists]. cbn [py_assert bind].
    destruct l as [ln| | | | | | | | | |]; try by eexists.
    destruct r as [|rv| | | | | | | | |]; try by eexists.
    cbn [is_ID is_Constant andb py_assert bind]. destruct rv as [z|t].
    + rewrite (plus_or_minus op Hop Es) in Hbad. simpl in Hbad. rewrite Hbad.
      simpl. by eexists.
    + destruct (str_in ln (loop_names k)); simpl; by eexists.
Qed.

Lemma good_subscript_offset (k : Kernel) (sub : node) :
  good_subscript (loop_names k) sub = true ->
  exists o, subscript_offset k sub = Ok o.
Proof.
  intros Hg. destruct sub as [n|v|op l r| | | | | | | |]; try done;
    cbn [subscript_offset]; cbn [good_subscript] in Hg.
  - rewrite Hg. by eexists.
  - destruct v; [|done]. by eexists.
  - destruct l as [ln| | | | | | | | | |]; try done.
    destruct r as [|rv| | | | | | | | |]; try done.
    destruct rv; [|done]. apply andb_true_iff in Hg as [Eop Hg].
    assert (substring_of op "+-" = true) as ->.
    { apply orb_true_iff in Eop as [E|E]; apply String.eqb_eq in E; by subst. }
    cbn [is_ID is_Constant andb py_assert bind]. rewrite Hg. by eexists.
Qed.

Lemma get_offsets_rec_error (k : Kernel) (aref : node) :
  ops_parsed aref = true -> is_ArrayRef aref = true ->
  subscripts_ok (loop_names k) aref = false ->
  exists e, _get_offsets_rec k aref = Raise e /\ subscript_error e = true.
Proof.
  induction aref as [| | | |name IHn sub _| | | | | |]; intros Hp Ha Hbad; try done.
  simpl in Hp, Hbad. apply andb_true_iff in Hp as [Hpn Hps].
  cbn [_get_offsets_rec].
  destruct (is_ArrayRef name || is_ID name) eqn:En; [|by eexists].
  destruct (is_ID sub || is_Constant sub || is_BinaryOp sub) eqn:Es; [|by eexists].
  cbn [py_assert bind].
  destruct (good_subscript (loop_names k) sub) eqn:Eg.
  - simpl in Hbad. destruct (subscript_offset k sub) as [idx|e] eqn:Ei.
    + cbn [bind]. destruct (is_ArrayRef name) eqn:Ear.
      * destruct (IHn Hpn eq_refl Hbad) as (e & -> & He). by exists e.
      * destruct name; try done.
    + destruct (good_subscript_offset k sub Eg) as [o Ho]. congruence.
  - destruct (subscript_offset_error k sub Hps Eg Es) as (e & -> & He).
    by exists e.
Qed.

(** *** What a failure leaves in the tables *)

Lemma table_grows_refl (t : dict string (list access)) : table_grows t t.
Proof. intros name. exists []. by rewrite app_nil_r. Qed.

Lemma table_grows_trans (t1 t2 t3 : dict string (list access)) :
  table_grows t1 t2 -> table_grows t2 t3 -> table_grows t1 t3.
Proof.
  intros H1 H2 name. destruct (H1 name) as [m1 E1], (H2 name) as [m2 E2].
  exists (m1 ++ m2). by rewrite E2, E1, app_assoc.
Qed.

Lemma table_grows_touch (t : dict string (list access)) (n : string) :
  table_grows t (touch t n).
Proof. intros name. exists []. by rewrite accesses_of_touch, app_nil_r. Qed.

Lemma table_grows_record (t : dict string (list access)) (n : string) (a : access) :
  table_grows t (record_access t n a).
Proof. intros name. eexists. apply accesses_of_record. Qed.

Lemma keeps_accesses_refl (k : Kernel) : keeps_accesses k k.
Proof. split; apply table_grows_refl. Qed.

Lemma keeps_accesses_trans (k1 k2 k3 : Kernel) :
  keeps_accesses k1 k2 -> keeps_accesses k2 k3 -> keeps_accesses k1 k3.
Proof. intros [? ?] [? ?]. split; by eapply table_grows_trans. Qed.

Lemma grows_kret {A : Type} (a : A) : grows (kret a).
Proof. intros k r k' H. injection H as _ <-. apply keeps_accesses_refl. Qed.

Lemma grows_kread {A : Type} (f : Kernel -> res A) : grows (kread f).
Proof. intros k r k' H. injection H as _ <-. apply keeps_accesses_refl. Qed.

Lemma grows_kmodify (f : Kernel -> Kernel) :
  (forall k, keeps_accesses k (f k)) -> grows (kmodify f).
Proof. intros Hf k r k' H. injection H as _ <-. apply Hf. Qed.

Lemma grows_kbind {A B : Type} (m : kst A) (f : A -> kst B) :
  grows m -> (forall a, grows (f a)) -> grows (kbind m f).
Proof.
  intros Hm Hf k r k' H. unfold kbind in H.
  destruct (m k) as [[a|e] k1] eqn:E.
  - eapply keeps_accesses_trans; [by eapply Hm|by eapply Hf].
  - injection H as _ <-. by eapply Hm.
Qed.

Lemma grows_kiter {A : Type} (f : A -> kst unit) (l : list A) :
  (forall a, grows (f a)) -> grows (kiter f l).
Proof.
  intros Hf. induction l as [|a l IH]; simpl; [apply grows_kret|].
  apply grows_kbind; [apply Hf|done].
Qed.

Lemma grows_sources_touch (n : string) :
  grows (kmodify (fun k => set_sources k (touch (_sources k) n))).
Proof.
  apply grows_kmodify. intros k. split; [apply table_grows_touch|apply table_grows_refl].
Qed.

Lemma grows_sources_record (n : string) (a : access) :
  grows (kmodify (fun k => set_sources k (record_access (_sources k) n a))).
Proof.
  apply grows_kmodify. intros k. split; [apply table_grows_record|apply table_grows_refl].
Qed.

Lemma grows_destinations_touch (n : string) :
  grows (kmodify (fun k => set_destinations k (touch (_destinations k) n))).
Proof.
  apply grows_kmodify. intros k. split; [apply table_grows_refl|apply table_grows_touch].
Qed.

Lemma grows_destinations_record (n : string) (a : access) :
  grows (kmodify (fun k =>
           set_destinations k (record_access (_destinations k) n a))).
Proof.
  apply grows_kmodify. intros k. split; [apply table_grows_refl|apply table_grows_record].
Qed.

Lemma grows_p_sources (stmt : node) : grows (_p_sources stmt).
Proof.
  induction stmt as [n|v|op l IHl r IHr| |name _ sub _| | | | | |];
    try apply grows_kret; try apply grows_kread.
  - apply grows_sources_record.
  - simpl. by apply grows_kbind.
  - cbn -[_get_basename _get_offsets].
    apply grows_kbind; [apply grows_kread|intros bname].
    apply grows_kbind; [apply grows_sources_touch|intros _].
    apply grows_kbind; [apply grows_kread|intros offs].
    apply grows_sources_record.
Qed.

Lemma grows_p_assignment (stmt : node) : grows (_p_assignment stmt).
Proof.
  destruct stmt as [| | | | |op lv rv| | | | |]; try apply grows_kread.
  destruct lv as [n| | | |name sub| | | | | |]; try apply grows_kread.
  - cbn -[_p_sources].
    apply grows_kbind; [apply grows_destinations_record|intros _].
    apply grows_p_sources.
  - cbn -[_get_basename _get_offsets _p_sources].
    apply grows_kbind; [apply grows_kread|intros bname].
    apply grows_kbind; [apply grows_destinations_touch|intros _].
    apply grows_kbind; [apply grows_kread|intros _].
    apply grows_kbind; [apply grows_kread|intros offs].
    apply grows_kbind; [apply grows_destinations_record|intros _].
    apply grows_p_sources.
Qed.

Lemma grows_p_for (n : nat) :
  forall floop, (for_depth floop <= n)%nat -> grows (_p_for floop).
Proof.
  induction n as [|n IH]; intros floop Hd;
    destruct floop as [| | | | | |init cond next stmt| | | |];
    try apply grows_kread.
  - simpl in Hd. lia.
  - cbn -[for_header _p_assignment].
    apply grows_kbind; [apply grows_kread|intros entry].
    apply grows_kbind.
    { apply grows_kmodify. intros k. split; apply table_grows_refl. }
    intros _.
    destruct stmt as [| | | | |aop al ar|i2 c2 n2 s2|items| | |];
      try apply grows_kread.
    + apply grows_p_assignment.
    + apply IH. change (S (for_depth (For i2 c2 n2 s2)) <= S n)%nat in Hd. lia.
    + destruct items as [[|item [|item2 rest]]|]; [| | |apply grows_kread].
      * apply grows_kret.
      * destruct item as [| | | | | |i2 c2 n2 s2| | | |];
          try apply grows_p_assignment.
        apply IH. change (S (for_depth (For i2 c2 n2 s2)) <= S n)%nat in Hd. lia.
      * apply (grows_kiter _p_assignment). apply grows_p_assignment.
Qed.

Lemma grows_process_decl {sp : SymPy} (item : node) : grows (process_decl item).
Proof.
  intros k r k' H. unfold process_decl, kbind, kread in H.
  assert (Hset : forall name t size r0 k0,
            match set_variable k name t size with
            | Ok k1 => (Ok tt, k1)
            | Raise e => (Raise e, k)
            end = (r0, k0) -> keeps_accesses k k0).
  { intros name t size r0 k0 H0. unfold set_variable in H0.
    destruct (py_assert _ _); injection H0 as _ <-; split; apply table_grows_refl. }
  destruct item as [| | | | | | | |name type| |];
    try (injection H as _ <-; apply keeps_accesses_refl).
  destruct type as [t dim|names|];
    try (injection H as _ <-; apply keeps_accesses_refl).
  - destruct (decl_dims _ _) as [dn|];
      [|injection H as _ <-; apply keeps_accesses_refl].
    destruct (py_assert _ _); [|injection H as _ <-; apply keeps_accesses_refl].
    by eapply Hset.
  - destruct (py_assert _ _); [|injection H as _ <-; apply keeps_accesses_refl].
    by eapply Hset.
Qed.

Lemma grows_process {sp : SymPy} (kernel_ast : node) : grows (process kernel_ast).
Proof.
  destruct kernel_ast as [| | | | | | |items| | |]; try apply grows_kread.
  destruct items as [items|]; [|apply grows_kread].
  unfold process. apply grows_kbind; [apply grows_kread|intros _].
  destruct items as [|x xs]; [apply grows_kread|].
  apply grows_kbind; [apply grows_kread|intros _].
  apply grows_kbind; [apply grows_kiter, grows_process_decl|intros _].
  apply (grows_p_for _ _ (le_n _)).
Qed.

Lemma p_sources_destinations (stmt : node) (k k' : Kernel) (r : res unit) :
  _p_sources stmt k = (r, k') -> _destinations k' = _destinations k.
Proof.
  revert k k' r.
  induction stmt as [n|v|op l IHl r0 IHr| |name _ sub _| | | | | |];
    intros k k' r H; try by injection H as _ <-.
  - simpl in H. unfold kbind in H.
    destruct (_p_sources l k) as [[[]|e] k1] eqn:E1.
    + rewrite (IHr _ _ _ H). by eapply IHl.
    + injection H as _ <-. by eapply IHl.
  - cbn -[_get_basename _get_offsets] in H. unfold kbind, kread, kmodify in H.
    destruct (_get_basename (ArrayRef name sub)) as [bname|];
      [|by injection H as _ <-].
    destruct (_get_offsets _ (ArrayRef name sub)) as [offs|];
      by injection H as _ <-.
Qed.

(** C6, as stated, fails on [b[i] = a[i] + a[i*i]]: the subscript [i*i] has
    no supported shape and [process] raises on it, but the accesses recorded
    before it stay in the tables of the kernel object. *)
Lemma partial_tables_counterexample :
  subscripts_ok ["i"] (ArrayRef (ID "a") (BinaryOp "*" (ID "i") (ID "i"))) = false /\
  _sources (kernel_N 50) = [] /\ _destinations (kernel_N 50) = [] /\
  exists k',
    process (sp := sympy_strict) square_ast (kernel_N 50)
      = (Raise (AssertionError "binary operations in array subscript must by + or -"),
         k') /\
    _sources k' = [("a", [[Rel "i" 0]])] /\
    _destinations k' = [("b", [[Rel "i" 0]])].
Proof.
  split_and!; [reflexivity..|]. eexists. split_and!; vm_compute; reflexivity.
Qed.

(** C6 (amended): [process] raises an error, and so returns no result, on
    every kernel whose loop nest contains an array reference with a subscript
    that is not a loop index alone, a loop index plus or minus an integer
    constant, or an integer constant.  On an array reference with such a
    subscript, [_get_offsets] raises an [AssertionError], or the [ValueError]
    of [int] on a constant that is not an integer literal.  The failure
    withdraws nothing: after [process], and after every call of
    [_p_assignment], whatever the outcome, the tables of sources and of
    destinations list the accesses that they listed before the call, in the
    same order; and when [_p_assignment] has computed the offsets of the array
    reference on its left-hand side, this access has been appended to the
    destinations, also when the call then fails. *)
Theorem unsupported_subscript_fails {sp : SymPy} (decls : list node) (floop : node)
    (k : Kernel) :
  ops_parsed floop = true ->
  subscripts_ok (loop_names k ++ nest_indices floop) floop = false ->
  (exists e k',
     process (Compound (Some (decls ++ [floop]))) k = (Raise e, k') /\
     keeps_accesses k k') /\
  (forall k0 aref,
     ops_parsed aref = true -> is_ArrayRef aref = true ->
     subscripts_ok (loop_names k0) aref = false ->
     exists e, _get_offsets k0 aref = Raise e /\ subscript_error e = true) /\
  (forall stmt k0 r k1,
     _p_assignment stmt k0 = (r, k1) ->
     keeps_accesses k0 k1 /\
     forall op lvalue rvalue b offs,
       stmt = Assignment op lvalue rvalue ->
       _get_basename lvalue = Ok b -> _get_offsets k0 lvalue = Ok offs ->
       accesses_of (_destinations k1) b
       = accesses_of (_destinations k0) b ++ [offs]).
Proof.
  intros Hp Hbad. split_and!.
  - assert (exists e k', process (Compound (Some (decls ++ [floop]))) k
                         = (Raise e, k')) as (e & k' & He).
    { unfold process, kbind, kread.
      rewrite removelast_last, last_last.
      destruct (py_assert (forallb is_Decl decls) _) as [u|e]; [|by eexists _, _].
      destruct (decls ++ [floop]) as [|x xs] eqn:E;
        [by apply app_eq_nil in E as [_ ?]|].
      destruct (py_assert (is_For floop) _) as [u'|e]; [|by eexists _, _].
      destruct (kiter process_decl decls k) as [[u''|e] k1] eqn:Ed;
        [|by eexists _, _].
      apply kiter_decl_loops in Ed.
      destruct (_p_for floop k1) as [[[]|e] k'] eqn:Ef; [|by eexists _, _].
      exfalso.
      apply (p_for_ok (for_depth floop) floop (le_n _) Hp) in Ef as [Hn Hok].
      unfold loop_names in *. rewrite Ed in Hn. rewrite Hn in Hok. congruence. }
    exists e, k'. split; [done|]. by eapply grows_process.
  - intros k0 aref Hpa Ha Hb. unfold _get_offsets.
    destruct (get_offsets_rec_error k0 aref Hpa Ha Hb) as (e & -> & He).
    by exists e.
  - intros stmt k0 r k1 H. split; [by eapply grows_p_assignment|].
    intros op lvalue rvalue b offs -> Hb Ho.
    destruct lvalue as [| | | |name sub| | | | | |]; try done.
    cbn -[_get_basename _get_offsets _p_sources] in H.
    unfold kbind, kread, kmodify in H. rewrite Hb in H.
    rewrite (get_offsets_loops k0 _ (ArrayRef name sub)) in H by done.
    rewrite Ho in H. apply p_sources_destinations in H. rewrite H.
    cbn [_destinations set_destinations].
    by rewrite accesses_of_record, accesses_of_touch, String.eqb_refl.
Qed.

Lemma unsupported_subscript_fails_witness :
  (exists e k',
     process (sp := sympy_strict) square_ast (kernel_N 50) = (Raise e, k') /\
     keeps_accesses (kernel_N 50) k') /\
  (forall k0 aref,
     ops_parsed aref = true -> is_ArrayRef aref = true ->
     subscripts_ok (loop_names k0) aref = false ->
     exists e, _get_offsets k0 aref = Raise e /\ subscript_error e = true) /\
  (forall stmt k0 r k1,
     _p_assignment stmt k0 = (r, k1) ->
     keeps_accesses k0 k1 /\
     forall op lvalue rvalue b offs,
       stmt = Assignment op lvalue rvalue ->
       _get_basename lvalue = Ok b -> _get_offsets k0 lvalue = Ok offs ->
       accesses_of (_destinations k1) b
       = accesses_of (_destinations k0) b ++ [offs]).
Proof.
  apply (unsupported_subscript_fails (sp := sympy_strict)
           [arr_decl "a" [ID "N"]; arr_decl "b" [ID "N"]]
           (loop_head "i" 0 (ID "N")
              (Assignment "=" (ArrayRef (ID "b") (ID "i"))
                 (BinaryOp "+" (ArrayRef (ID "a") (ID "i"))
                    (ArrayRef (ID "a") (BinaryOp "*" (ID "i") (ID "i"))))))
           (kernel_N 50)).
  - vm_compute. reflexivity.
  - vm_compute. reflexivity.
Defined.

(** ** The size of the interval set *)

Lemma insert_wf (s : Intervals.t) (r : Z * Z) :
  fst r < snd r -> wf_ranges s -> wf_ranges (Intervals.insert r s).
Proof.
  unfold wf_ranges. revert r. induction s as [|c s IH]; intros r Hr Hs; simpl.
  - by constructor.
  - apply Forall_cons in Hs as [Hc Hs].
    destruct (snd r <? fst c); [by repeat constructor|].
    destruct (snd c <? fst r); [constructor; auto|].
    apply IH; [simpl; lia|done].
Qed.

Lemma merge_wf (ranges : list (Z * Z)) (s : Intervals.t) :
  wf_ranges s -> wf_ranges (Intervals.merge s ranges).
Proof.
  revert s. induction ranges as [|r rs IH]; intros s Hs; simpl; [done|].
  apply IH. unfold Intervals.add. destruct (fst r <? snd r) eqn:E; [|done].
  apply insert_wf; [lia|done].
Qed.

Lemma size_nonneg (s : Intervals.t) : wf_ranges s -> 0 <= Intervals.size s.
Proof.
  unfold Intervals.size. induction 1 as [|r s Hr _ IH]; simpl; lia.
Qed.

Lemma size_pos (s : Intervals.t) : wf_ranges s -> s <> [] -> 0 < Intervals.size s.
Proof.
  intros Hs Hne. destruct s as [|r s]; [done|].
  apply Forall_cons in Hs as [Hr Hs]. apply size_nonneg in Hs.
  unfold Intervals.size in *. simpl. lia.
Qed.

(** Distinct integers of a range are at most as many as the range is long. *)
Lemma range_points (a b : Z) (xs : list Z) :
  NoDup xs -> (forall x, x ∈ xs -> a <= x < b) -> zlen xs <= Z.max 0 (b - a).
Proof.
  intros Hnd Hin.
  assert (Hsub : xs ⊆ py_range a b).
  { intros x Hx. specialize (Hin x Hx). unfold py_range.
    apply list_elem_of_fmap. exists (Z.to_nat (x - a)). split; [lia|].
    apply elem_of_seq. lia. }
  apply (NoDup_submseteq _ _ Hnd), submseteq_length in Hsub.
  unfold zlen, py_range in *. rewrite length_fmap, length_seq in Hsub. lia.
Qed.

(** Distinct integers covered by a set of ranges are at most as many as its
    size. *)
Lemma size_covers (s : Intervals.t) (xs : list Z) :
  wf_ranges s -> NoDup xs ->
  (forall x, x ∈ xs -> Intervals.contains s x = true) ->
  zlen xs <= Intervals.size s.
Proof.
  intros Hs. revert xs. induction Hs as [|r s Hr Hs IH]; intros xs Hnd Hcov.
  - destruct xs as [|x xs]; [done|]. by specialize (Hcov x (list_elem_of_here _ _)).
  - set (p := fun x => in_range r x).
    assert (Hsplit : xs ≡ₚ filter (fun x => p x = true) xs ++
                           filter (fun x => ~ p x = true) xs)
      by (symmetry; apply filter_app_complement).
    assert (Hlen : zlen xs = zlen (filter (fun x => p x = true) xs)
                             + zlen (filter (fun x => ~ p x = true) xs)).
    { unfold zlen. rewrite Hsplit at 1. rewrite length_app. lia. }
    assert (H1 : zlen (filter (fun x => p x = true) xs) <= Z.max 0 (snd r - fst r)).
    { apply range_points; [by apply NoDup_filter|].
      intros x Hx. apply list_elem_of_filter in Hx as [Hx _].
      unfold p, in_range in Hx. lia. }
    assert (H2 : zlen (filter (fun x => ~ p x = true) xs) <= Intervals.size s).
    { apply IH; [by apply NoDup_filter|].
      intros x Hx. apply list_elem_of_filter in Hx as [Hx Hin].
      specialize (Hcov x Hin). rewrite contains_cons in Hcov.
      apply orb_true_iff in Hcov as [Hc|Hc]; [by destruct Hx|done]. }
    unfold Intervals.size in *. simpl. lia.
Qed.


(** ** The cached ranges grow with the trace length *)

Lemma mapM_ok_map {A B : Type} (f : A -> res B) (g : A -> B) (l : list A) :
  (forall x, f x = Ok (g x)) -> mapM f l = Ok (map g l).
Proof.
  intros H. induction l as [|x l IH]; simpl; [done|]. by rewrite H, IH.
Qed.

Section CachedRanges.
Context {fl : FloatOps} (machine : MachineModel fl).
Abbreviation epc := (elements_per_cacheline machine).

Lemma expand_ok (first last : Z) :
  epc <> 0 ->
  _expand_to_cacheline_blocks machine first last
  = Ok (first - first mod epc, last - last mod epc + epc - 1).
Proof.
  intros H. unfold _expand_to_cacheline_blocks, py_mod.
  destruct (epc =? 0) eqn:E; [lia|done].
Qed.

Lemma block_start_lt (x y : Z) :
  1 <= epc -> x + epc <= y -> x - x mod epc < y - y mod epc.
Proof.
  intros epc_1 H.
  assert (x / epc < y / epc).
  { apply Z.lt_le_trans with ((x + 1 * epc) / epc).
    - rewrite Z.div_add by lia. lia.
    - apply Z.div_le_mono; lia. }
  rewrite !Zmod_eq_full by lia. nia.
Qed.

(** The ranges added for one offset hold [trace_length + 1] elements, when
    the iterations overlap in a cache line of at least one element, or do not
    overlap and a cache line has at least two elements. *)
Lemma cached_ranges_covers (iter_offset trace_length offset : Z)
    (rs : list (Z * Z)) :
  1 <= epc -> (epc < iter_offset -> 2 <= epc) ->
  1 <= iter_offset -> 0 <= trace_length ->
  cached_ranges machine iter_offset trace_length offset = Ok rs ->
  exists xs, NoDup xs /\ zlen xs = trace_length + 1 /\
    forall x, x ∈ xs -> exists r, r ∈ rs /\ in_range r x = true.
Proof.
  intros epc_1 epc_2 Hio Htl. unfold cached_ranges.
  set (a := offset - iter_offset * trace_length).
  destruct (iter_offset <=? epc) eqn:Ebranch.
  - rewrite expand_ok by lia. simpl. intros [= <-].
    exists (py_range a (a + trace_length + 1)). split_and!.
    + unfold py_range. apply NoDup_fmap_2; [|apply NoDup_seq].
      intros i j Hij. lia.
    + unfold zlen, py_range. rewrite length_fmap, length_seq. lia.
    + intros x Hx. eexists. split; [by left|].
      unfold py_range in Hx. apply list_elem_of_fmap in Hx as (i & -> & Hi).
      apply elem_of_seq in Hi. unfold in_range. simpl.
      pose proof (Z.mod_pos_bound a epc ltac:(lia)).
      pose proof (Z.mod_pos_bound (offset + 1) epc ltac:(lia)).
      assert (trace_length <= iter_offset * trace_length) by nia.
      unfold a in *. lia.
  - unfold py_range_step.
    destruct (iter_offset =? 0) eqn:E0; [lia|].
    destruct (0 <? iter_offset) eqn:Epos; [|lia]. simpl.
    set (n := Z.to_nat ((offset + 1 - a + iter_offset - 1) / iter_offset)).
    assert (Hn : Z.of_nat n = trace_length + 1).
    { unfold n, a.
      replace (offset + 1 - (offset - iter_offset * trace_length) + iter_offset - 1)
        with ((trace_length + 1) * iter_offset) by lia.
      rewrite Z.div_mul by lia. lia. }
    set (g := fun o => (o - o mod epc, o - o mod epc + epc - 1)).
    rewrite (mapM_ok_map _ g) by (intros o; apply expand_ok; lia).
    intros [= <-].
    set (q := fun i : nat => (a + Z.of_nat i * iter_offset)
                             - (a + Z.of_nat i * iter_offset) mod epc).
    exists (map q (seq 0 n)). split_and!.
    + apply NoDup_fmap_2_strong; [|apply NoDup_seq].
      intros i j _ _ Hq. unfold q in Hq.
      destruct (decide (i = j)) as [|Hne]; [done|]. exfalso.
      assert (Hcase : (i < j)%nat \/ (j < i)%nat) by lia.
      destruct Hcase as [Hlt|Hlt].
      * pose proof (block_start_lt (a + Z.of_nat i * iter_offset)
                      (a + Z.of_nat j * iter_offset) epc_1 ltac:(nia)). lia.
      * pose proof (block_start_lt (a + Z.of_nat j * iter_offset)
                      (a + Z.of_nat i * iter_offset) epc_1 ltac:(nia)). lia.
    + unfold zlen. rewrite length_fmap, length_seq. lia.
    + intros x Hx. apply list_elem_of_fmap in Hx as (i & -> & Hi).
      exists (g (a + Z.of_nat i * iter_offset)). split.
      * apply list_elem_of_fmap. eexists. split; [reflexivity|].
        apply list_elem_of_fmap. by exists i.
      * unfold in_range, g, q. simpl. lia.
Qed.

(** When the iterations do not overlap and a cache line has at most one
    element, every range added for an offset is empty: the code passes
    [(first, last)] of [_expand_to_cacheline_blocks(o, o)] as a half-open
    range. *)
Lemma cached_ranges_hollow (iter_offset trace_length offset : Z)
    (rs : list (Z * Z)) :
  epc <= 1 -> epc < iter_offset ->
  cached_ranges machine iter_offset trace_length offset = Ok rs ->
  Forall (fun r => snd r <= fst r) rs.
Proof.
  intros epc_1 Hio. unfold cached_ranges.
  destruct (iter_offset <=? epc) eqn:Ebranch; [lia|].
  destruct (py_range_step _ _ _) as [os|]; [|done]. simpl.
  revert rs. induction os as [|o os IH]; intros rs H; simpl in H.
  - injection H as <-. constructor.
  - destruct (_expand_to_cacheline_blocks machine o o) as [r|] eqn:Er; [|done].
    simpl in H. destruct (mapM _ os) as [rs'|]; [|done]. simpl in H.
    injection H as <-. constructor; [|by apply IH].
    unfold _expand_to_cacheline_blocks, py_mod in Er.
    destruct (epc =? 0); [done|]. simpl in Er. injection Er as <-. simpl. lia.
Qed.
End CachedRanges.

Lemma merge_hollow (s : Intervals.t) (rs : list (Z * Z)) :
  Forall (fun r => snd r <= fst r) rs -> Intervals.merge s rs = s.
Proof.
  unfold Intervals.merge. induction 1 as [|r rs Hr _ IH]; simpl; [done|].
  unfold Intervals.add at 2. destruct (fst r <? snd r) eqn:E; [lia|done].
Qed.

Section TraceSize.
Context {fl : FloatOps} (machine : MachineModel fl).
Context (iter_offset trace_length : Z).
Hypothesis stride_pos : 1 <= iter_offset.
Hypothesis length_nonneg : 0 <= trace_length.

Lemma trace_fold_cache (rest : list Z) (st st' : trace_state) :
  foldM (trace_step machine iter_offset trace_length) rest st = Ok st' ->
  wf_ranges (snd st) ->
  wf_ranges (snd st') /\
  forall x, Intervals.contains (snd st) x = true ->
            Intervals.contains (snd st') x = true.
Proof.
  revert st. induction rest as [|o rest IH]; intros st H Hwf; simpl in H.
  - by injection H as <-.
  - destruct (trace_step machine iter_offset trace_length st o) as [st1|] eqn:Es;
      [|done]. simpl in H.
    assert (Hst1 : wf_ranges (snd st1) /\
                   forall x, Intervals.contains (snd st) x = true ->
                             Intervals.contains (snd st1) x = true).
    { destruct st as [[m h] c].
      apply trace_step_ok in Es as (rs & _ & [(_ & _ & ->)|(_ & ->)]);
        (split; [by apply merge_wf|]; intros x; apply contains_merge_mono). }
    destruct Hst1 as [Hwf1 Hmono1].
    destruct (IH st1 H Hwf1) as [Hwf' Hmono']. split; [done|]. auto.
Qed.

(** No range enters the cache when every range added is empty. *)
Lemma trace_fold_hollow (rest : list Z) (st st' : trace_state) :
  elements_per_cacheline machine <= 1 ->
  elements_per_cacheline machine < iter_offset ->
  foldM (trace_step machine iter_offset trace_length) rest st = Ok st' ->
  snd st' = snd st.
Proof.
  intros epc_1 Hio. revert st. induction rest as [|o rest IH]; intros st H;
    simpl in H.
  - by injection H as <-.
  - destruct (trace_step machine iter_offset trace_length st o) as [st1|] eqn:Es;
      [|done]. simpl in H. rewrite (IH st1 H).
    destruct st as [[m h] c].
    apply trace_step_ok in Es as (rs & Er & [(_ & _ & ->)|(_ & ->)]); simpl;
      by apply merge_hollow, (cached_ranges_hollow machine _ _ _ _ epc_1 Hio Er).
Qed.

Lemma trace_offsets_size (cands m h : list Z) (c : Intervals.t) :
  trace_offsets machine iter_offset trace_length cands = Ok (m, h, c) ->
  wf_ranges c /\ (cands = [] -> c = []) /\
  (cands <> [] -> c = [] \/ trace_length + 1 <= Intervals.size c).
Proof.
  unfold trace_offsets. destruct cands as [|o rest]; intros H.
  - simpl in H. injection H as <- <- <-. split_and!; try done.
    apply Forall_nil_2.
  - destruct (decide (elements_per_cacheline machine <= 1 /\
                      elements_per_cacheline machine < iter_offset))
      as [[epc_1 Hio]|Hcase].
    { apply trace_fold_hollow in H; [|done..]. simpl in H. subst c.
      split_and!; try done; [apply Forall_nil_2|by left]. }
    cbn [foldM] in H.
    destruct (trace_step machine iter_offset trace_length
                (o :: rest, [], Intervals.empty) o) as [st1|] eqn:Es; [|done].
    cbn [bind] in H.
    apply trace_step_ok in Es as (rs & Er & [(? & _)|(_ & ->)]); [done|].
    apply trace_fold_cache in H as [Hwf Hmono];
      [|apply merge_wf, Forall_nil_2].
    simpl in *. split_and!; try done. intros _.
    right.
    assert (H1 : 1 <= elements_per_cacheline machine) by lia.
    assert (H2 : elements_per_cacheline machine < iter_offset ->
                 2 <= elements_per_cacheline machine) by lia.
    destruct (cached_ranges_covers machine _ _ _ rs H1 H2
                stride_pos length_nonneg Er) as (xs & Hnd & Hlen & Hcov).
    rewrite <- Hlen. apply size_covers; try done.
    intros x Hx. apply Hmono. destruct (Hcov x Hx) as (r & Hr & Hin).
    by eapply contains_merge_new.
Qed.
End TraceSize.

(** ** The fixed point of the trace length (C3) *)

Section FixedPoint.
Context {fl : FloatOps} (kernel : Kernel) (machine : MachineModel fl).
Context (misses : dict Z offsets_table) (cache_level cache_size : Z).
Context (read_offsets write_offsets : offsets_table).
Hypothesis strides :
  level_strides_positive kernel misses cache_level read_offsets write_offsets = true.

Lemma trace_pair_size (var_name idx_order : string) (trace_length : Z)
    (cands m h : list Z) (c : Intervals.t) :
  0 <= trace_length ->
  pair_stride_positive kernel var_name idx_order = true ->
  trace_pair kernel machine var_name idx_order trace_length cands = Ok (m, h, c) ->
  0 <= Intervals.count c /\ 0 <= Intervals.size c /\
  (Intervals.count c = 0 /\ Intervals.size c = 0 \/
   trace_length + 1 <= Intervals.size c).
Proof.
  intros Htl Hpos. unfold trace_pair, pair_stride_positive in *.
  destruct (last_char (loop_order kernel)) as [inner|]; [|done]. simpl.
  destruct (_calculate_iteration_offset kernel var_name idx_order inner)
    as [io|]; [|done]. simpl. intros H.
  apply trace_offsets_size in H as (Hwf & Hnil & Hsize); [|lia|done].
  pose proof (size_nonneg c Hwf). unfold Intervals.count, zlen.
  split_and!; [lia|done|].
  destruct cands as [|o rest].
  - left. by rewrite Hnil.
  - destruct Hsize as [->|Hsize]; [done|by left|by right].
Qed.

Lemma level_pass_used (trace_length : Z) (p : pass_result) :
  0 <= trace_length ->
  level_pass kernel machine misses cache_level read_offsets write_offsets
             trace_length = Ok p ->
  pass_used trace_length p.
Proof.
  intros Htl. unfold level_pass. unfold level_strides_positive in strides.
  destruct (init_misses misses cache_level read_offsets write_offsets)
    as [init|]; [|done]. simpl.
  rewrite forallb_forall in strides.
  apply (foldM_inv (pass_used trace_length)).
  - intros [var d] acc acc' Hin Hacc. unfold trace_variable. simpl.
    apply list_elem_of_In, strides in Hin. simpl in Hin.
    rewrite forallb_forall in Hin.
    apply (foldM_inv (pass_used trace_length)); [|done].
    intros [idx cands] y y' Hpair Hy Hs. simpl in Hs.
    apply list_elem_of_In, Hin in Hpair. simpl in Hpair.
    destruct (trace_pair _ _ _ _ _ _) as [[[m h] c]|] eqn:Et; [|done].
    simpl in Hs.
    destruct (table_set (p_misses y) var idx m) as [ms|]; [|done]. simpl in Hs.
    destruct (table_set (p_hits y) var idx h) as [hs|]; [|done]. simpl in Hs.
    injection Hs as <-.
    apply trace_pair_size in Et as (Hc & Hs & Hcase); [|done..].
    destruct Hy as (Htc & Hu & Hy). unfold pass_used, element_size in *. simpl.
    split_and!; [lia|lia|]. destruct Hcase as [[-> ->]|Hbig], Hy as [Hz|Hbig'];
      [left|right|right|right]; lia.
  - unfold pass_used, element_size. simpl. lia.
Qed.

Lemma history_cons (t n final : Z) (history : list Z) :
  t < n -> history_from n final history -> history_from t final (t :: history).
Proof.
  intros Hlt (Hh & Hl & Hs). destruct history as [|x history]; [done|].
  injection Hh as ->. split_and!; [done|done|].
  constructor; [done|]. constructor; [done|].
  apply StronglySorted_inv in Hs as [_ Hall].
  eapply Forall_impl; [exact Hall|]. intros y Hy. simpl in Hy. lia.
Qed.

Lemma level_loop_bounded (fuel : nat) (trace_length : Z) :
  0 <= trace_length -> (1 <= fuel)%nat ->
  cache_size / 16 - trace_length <= Z.of_nat fuel ->
  exists r,
    level_loop kernel machine fuel misses cache_level cache_size read_offsets
               write_offsets trace_length = Some r /\
    forall p t history, r = Ok (p, t, history) ->
      history_from trace_length t history /\
      zlen history <= Z.max 1 (cache_size / 16 - trace_length) /\
      exists n, new_trace_length cache_size t p = Ok n /\ n <= t.
Proof.
  revert trace_length. induction fuel as [|fuel IH]; intros t Ht Hf Hm; [lia|].
  cbn [level_loop].
  destruct (level_pass kernel machine misses cache_level read_offsets
              write_offsets t) as [p|e] eqn:Ep; [|eexists; split; [reflexivity|by intros ? ? ? [=]]].
  destruct (new_trace_length cache_size t p) as [n|e] eqn:En; [|eexists; split; [reflexivity|by intros ? ? ? [=]]].
  destruct (t <? n) eqn:Egrow.
  - (* the trace length grows *)
    apply level_pass_used in Ep as (Htc & Hu & Hcase); [|done].
    unfold new_trace_length, py_div in En.
    destruct (p_trace_count p =? 0) eqn:Ez; [done|]. simpl in En.
    injection En as <-. destruct Hcase as [?|Hbig]; [lia|].
    unfold element_size in *.
    set (x := cache_size / 2 - p_cache_used_size p) in *.
    assert (Hq : 8 <= x / p_trace_count p).
    { assert (1 <= x / p_trace_count p / 8) by lia.
      assert (0 <= x / p_trace_count p / 8 * 8 <= x / p_trace_count p).
      { pose proof (Z.mul_div_le (x / p_trace_count p) 8 ltac:(lia)). lia. }
      lia. }
    assert (Hx : 8 * p_trace_count p <= x).
    { pose proof (Z.mul_div_le x (p_trace_count p) ltac:(lia)). nia. }
    assert (Hcs : t + 2 <= cache_size / 16).
    { apply Z.div_le_lower_bound; [lia|].
      pose proof (Z.mul_div_le cache_size 2 ltac:(lia)). unfold x in Hx. lia. }
    set (n := t + x / p_trace_count p / 8) in *.
    destruct (IH n) as (r & Hr & Hprops); [lia|lia|lia|].
    rewrite Hr. destruct r as [[[p' t'] h']|e]; [|eexists; split; [reflexivity|by intros ? ? ? [=]]].
    eexists. split; [reflexivity|].
    intros p0 t0 history [= <- <- <-].
    destruct (Hprops p' t' h' eq_refl) as (Hh & Hlen & Hexit).
    split_and!; [apply (history_cons t n); [lia|done]| |done].
    unfold zlen in *. simpl. lia.
  - (* the growth is not positive *)
    eexists. split; [reflexivity|].
    intros p0 t0 history [= <- <- <-]. split_and!.
    + split_and!; try done. repeat constructor.
    + unfold zlen. simpl. lia.
    + exists n. split; [done|lia].
Qed.
End FixedPoint.


(** The kernel with an array of empty rows: every pass of level 1 finds room
    for [2040] more iterations, whatever the trace length, and the loop over
    the trace length never ends. *)
Lemma empty_rows_offsets :
  compile_offsets empty_rows_kernel snb
  = Ok ([("a", [])], [("a", [("ij", [0])])]).
Proof. vm_compute. reflexivity. Qed.

Lemma empty_rows_pass (t : Z) :
  exists p,
    level_pass empty_rows_kernel snb [] 1 [("a", [])] [("a", [("ij", [0])])] t
      = Ok p /\
    new_trace_length (32 * 1024) t p = Ok (t + 2040).
Proof. eexists. split; vm_compute; reflexivity. Qed.

Lemma empty_rows_loop (fuel : nat) (t : Z) :
  level_loop empty_rows_kernel snb fuel [] 1 (32 * 1024)
             [("a", [])] [("a", [("ij", [0])])] t = None.
Proof.
  revert t. induction fuel as [|fuel IH]; intros t; [done|].
  cbn [level_loop]. destruct (empty_rows_pass t) as (p & -> & ->).
  assert ((t <? t + 2040) = true) as -> by (apply Z.ltb_lt; lia).
  by rewrite IH.
Qed.

Lemma empty_rows_never_returns (fuel : nat) :
  calculate_cache_access empty_rows_kernel snb fuel = None.
Proof.
  unfold calculate_cache_access, calculate_cache_access_stats.
  rewrite empty_rows_offsets.
  cbn [cache_stack snb levels_loop]. unfold level_step.
  by rewrite empty_rows_loop.
Qed.



(** The passes of level 1 on DAXPY: the trace length goes from 0 to 1008. *)
Example daxpy_level1_history :
  exists p,
    level_loop daxpy_kernel snb (Z.to_nat (32768 / element_size)) [] 1 32768
               daxpy_reads daxpy_writes 0 = Some (Ok (p, 1008, [0; 1008])).
Proof. eexists. vm_compute. reflexivity. Qed.

(** ** The run ends *)

Section RunEnds.
Context {fl : FloatOps} (kernel : Kernel) (machine : MachineModel fl).
Context (read_offsets write_offsets : offsets_table).

Lemma init_misses_keys (misses : dict Z offsets_table) (cache_level : Z)
    (init : offsets_table) (n i : string) (d : dict string (list Z)) :
  init_misses misses cache_level read_offsets write_offsets = Ok init ->
  dget String.eqb init n = Some d -> i ∈ dkeys d ->
  exists d', (n, d') ∈ read_offsets ++ write_offsets /\ i ∈ dkeys d'.
Proof.
  unfold init_misses. intros H. revert n i d.
  set (P := fun t : offsets_table => forall n i d,
    dget String.eqb t n = Some d -> i ∈ dkeys d ->
    exists d', (n, d') ∈ read_offsets ++ write_offsets /\ i ∈ dkeys d').
  revert H. apply (foldM_inv P); [|done].
  intros name t t' _ Ht Hstep.
  destruct (dindex String.eqb read_offsets name) as [r|] eqn:Er; [|done].
  destruct (dindex String.eqb write_offsets name) as [w|] eqn:Ew; [|done].
  simpl in Hstep. unfold dindex in Er, Ew.
  destruct (dget String.eqb read_offsets name) as [r0|] eqn:Er0; [|done].
  destruct (dget String.eqb write_offsets name) as [w0|] eqn:Ew0; [|done].
  injection Er as ->. injection Ew as ->.
  apply dget_str_elem in Er0, Ew0.
  revert Hstep. apply (foldM_inv P).
  - intros idx y y' Hidx Hy Hs.
    destruct (candidates _ _ _ _ _ _) as [c|]; [|done]. simpl in Hs.
    unfold table_set, dindex in Hs.
    destruct (dget String.eqb y name) as [d0|] eqn:Ed; [|done].
    simpl in Hs. injection Hs as <-. intros n i d Hn Hi.
    destruct (decide (name = n)) as [<-|Hne].
    + rewrite (dget_dset_eq _ String.eqb_eq) in Hn. injection Hn as <-.
      apply (dkeys_dset _ String.eqb_eq) in Hi as [->|Hi]; [|by eapply Hy].
      apply elem_of_app in Hidx as [Hidx|Hidx].
      * exists r. split; [apply elem_of_app; by left|done].
      * exists w. split; [apply elem_of_app; by right|done].
    + rewrite (dget_dset_ne _ String.eqb_eq) in Hn by done. by eapply Hy.
  - intros n i d Hn Hi. destruct (decide (name = n)) as [<-|Hne].
    + rewrite (dget_dset_eq _ String.eqb_eq) in Hn. injection Hn as <-.
      by apply elem_of_nil in Hi.
    + rewrite (dget_dset_ne _ String.eqb_eq) in Hn by done. by eapply Ht.
Qed.

Lemma strides_of_level (misses : dict Z offsets_table) (cache_level : Z) :
  strides_positive kernel read_offsets write_offsets = true ->
  level_strides_positive kernel misses cache_level read_offsets write_offsets
    = true.
Proof.
  unfold strides_positive, level_strides_positive. intros H.
  destruct (init_misses misses cache_level read_offsets write_offsets)
    as [init|] eqn:Ei; [|done].
  pose proof (init_misses_wf _ _ _ _ _ Ei) as [Hk Hd].
  rewrite forallb_forall in H. apply forallb_forall. intros [n d] Hin.
  apply forallb_forall. intros [i l] Hil. simpl.
  apply list_elem_of_In in Hin, Hil.
  destruct (init_misses_keys _ _ _ n i d Ei) as (d' & Hd' & Hi).
  - by apply (dget_of_elem _ String.eqb_eq).
  - apply elem_of_dkeys. by exists l.
  - apply elem_of_dkeys in Hi as [l' Hl'].
    apply list_elem_of_In, H in Hd'. simpl in Hd'.
    rewrite forallb_forall in Hd'. by apply list_elem_of_In, Hd' in Hl'.
Qed.

Lemma levels_loop_ends (fuel : nat) (stack : list (cache_level_info fl))
    (st : dict Z offsets_table * dict string (num fl)) :
  strides_positive kernel read_offsets write_offsets = true ->
  (1 <= fuel)%nat ->
  (forall lv, lv ∈ stack -> lv_size lv / 16 <= Z.of_nat fuel) ->
  exists r, levels_loop kernel machine fuel read_offsets write_offsets st stack
            = Some r.
Proof.
  intros Hstr Hfuel. revert st.
  induction stack as [|lv stack IH]; intros [misses results] Hsize.
  - by eexists.
  - rewrite levels_loop_cons. unfold level_step.
    destruct (level_loop_bounded kernel machine misses (lv_level lv) (lv_size lv)
                read_offsets write_offsets (strides_of_level _ _ Hstr)
                fuel 0) as (r & -> & _); [lia|done| |].
    { specialize (Hsize lv (list_elem_of_here _ _)). lia. }
    destruct r as [[[p t] h]|e]; [|by eexists].
    destruct (level_finish kernel machine write_offsets p t) as [stats|e];
      [|by eexists]. simpl.
    destruct (level_cost machine (lv_level lv) (lv_cycles lv) _ _) as [kv|e];
      [|by eexists]. simpl.
    destruct (IH (dset Z.eqb misses (lv_level lv) (p_misses p),
                  dset String.eqb results (fst kv) (snd kv))) as [r ->].
    { intros lv' Hin. apply Hsize. by right. }
    destruct r as [[r ss]|e]; by eexists.
Qed.
End RunEnds.

Lemma run_ends {fl : FloatOps} (kernel : Kernel) (machine : MachineModel fl)
    (fuel : nat) :
  kernel_strides_positive kernel machine = true ->
  (1 <= fuel)%nat ->
  (forall lv, lv ∈ cache_stack machine -> lv_size lv / 16 <= Z.of_nat fuel) ->
  exists r, calculate_cache_access_stats kernel machine fuel = Some r.
Proof.
  intros Hstr Hfuel Hsize.
  unfold calculate_cache_access_stats, kernel_strides_positive in *.
  destruct (compile_offsets kernel machine) as [[r w]|e]; [|by eexists].
  by apply levels_loop_ends.
Qed.

(** ** The cost of each level in the results (C5, C10) *)

Lemma enough_fuel_spec {fl : FloatOps} (machine : MachineModel fl) (fuel : nat) :
  enough_fuel machine fuel = true ->
  (1 <= fuel)%nat /\
  forall lv, lv ∈ cache_stack machine -> lv_size lv / 16 <= Z.of_nat fuel.
Proof.
  unfold enough_fuel. intros H. apply andb_true_iff in H as [H1 H2].
  split; [lia|]. intros lv Hin. rewrite forallb_forall in H2.
  apply list_elem_of_In, H2 in Hin. lia.
Qed.

(** C5, as stated, fails for a level that carries the transfer cost [0]: the
    result of the level is stored under ['L1-MEM'], and there is no key
    ['L1-L2'].  It also fails where no result is returned at all: the run of
    the kernel [s = s + a[j]] raises [ZeroDivisionError], and the run of the
    kernel with an array of empty rows does not end, however many passes are
    allowed. *)
Lemma transfer_cost_label_counterexample :
  (exists lv, cache_stack zero_cost_machine = [lv] /\
     lv_level lv = 1 /\ lv_cycles lv = Some (NInt 0) /\
     calculate_cache_access daxpy_kernel zero_cost_machine driver_fuel
       = Some (Ok (fst zero_cost_run)) /\
     dkeys (fst zero_cost_run) = ["L1-MEM"] /\
     dget String.eqb (fst zero_cost_run) (label_next 1) = None) /\
  calculate_cache_access rowsum_kernel snb driver_fuel
    = Some (Raise ZeroDivisionError) /\
  kernel_strides_positive empty_rows_kernel snb = false /\
  (forall fuel, calculate_cache_access empty_rows_kernel snb fuel = None).
Proof.
  split_and!.
  - eexists. split; [reflexivity|]. split_and!; try reflexivity.
    all: vm_compute; reflexivity.
  - vm_compute. reflexivity.
  - vm_compute. reflexivity.
  - apply empty_rows_never_returns.
Qed.

(** C5 (amended): for a kernel every (variable, index order) pair of which
    advances by at least one element per iteration of the innermost loop, and
    with enough passes allowed to the trace length of every level,
    [calculate_cache_access] ends: it raises an error or it returns results.
    The results it returns hold, for every level [k] of the stack with a
    non-zero transfer cost [c], under ['L{k}-L{k+1}'],
    [round((line misses + line evicts) * c, 1)]; for every level with no
    transfer cost or with a transfer cost equal to zero, under ['L{k}-MEM'],
    [round((line misses + line evicts) * elements_per_cacheline
    * element_size / mem_bw * clock, 1)] (of the last level with the number
    [k], should the stack have several); and they have no other keys. *)
Theorem level_costs_in_results {fl : FloatOps} (kernel : Kernel)
    (machine : MachineModel fl) (fuel : nat) :
  kernel_strides_positive kernel machine = true ->
  enough_fuel machine fuel = true ->
  exists r,
    calculate_cache_access_stats kernel machine fuel = Some r /\
    match r with
    | Raise e => calculate_cache_access kernel machine fuel = Some (Raise e)
    | Ok (results, stats) =>
        calculate_cache_access kernel machine fuel = Some (Ok results) /\
        List.length stats = List.length (cache_stack machine) /\
        (forall (i : nat) lv,
           cache_stack machine !! i = Some lv ->
           exists st cycles,
             stats !! i = Some st /\
             total_lines machine (s_misses st) = Ok (s_lines_misses st) /\
             total_lines machine (s_evicts st) = Ok (s_lines_evicts st) /\
             match lv_cycles lv with
             | Some c =>
                 if num_truthy fl c then
                   cost_label lv = label_next (lv_level lv) /\
                   cycles = py_round1 fl (num_mul fl
                              (NInt (s_lines_misses st + s_lines_evicts st)) c)
                 else
                   cost_label lv = label_mem (lv_level lv) /\
                   memory_cycles machine (s_lines_misses st + s_lines_evicts st)
                                 cycles
             | None =>
                 cost_label lv = label_mem (lv_level lv) /\
                 memory_cycles machine (s_lines_misses st + s_lines_evicts st)
                               cycles
             end /\
             (last_numbered (cache_stack machine) i lv ->
              dget String.eqb results (cost_label lv) = Some cycles)) /\
        (forall key, key ∈ dkeys results ->
           exists lv, lv ∈ cache_stack machine /\ key = cost_label lv)
    end.
Proof.
  intros Hstr Hfuel. apply enough_fuel_spec in Hfuel as [Hf1 Hf2].
  destruct (run_ends kernel machine fuel Hstr Hf1 Hf2) as [r Hrun].
  exists r. split; [done|].
  destruct r as [[results stats]|e];
    [|unfold calculate_cache_access; by rewrite Hrun].
  split; [unfold calculate_cache_access; by rewrite Hrun|].
  unfold calculate_cache_access_stats in Hrun.
  destruct (compile_offsets kernel machine) as [[r w]|]; [|done].
  apply levels_loop_results in Hrun. split_and!.
  - by eapply results_chain_length.
  - intros i lv Hlv.
    destruct (results_chain_level machine _ _ _ _ i lv Hrun Hlv)
      as (st & cycles & Hst & Hlm & Hle & Hcy & Hget).
    exists st, cycles. split_and!; try done.
    unfold level_cycles in Hcy. unfold cost_label, opt_truthy.
    destruct (lv_cycles lv) as [c|]; [destruct (num_truthy fl c)|]; done.
  - intros key Hkey.
    destruct (results_chain_keys machine _ _ _ _ key Hrun Hkey) as [Hin|?]; [|done].
    by apply elem_of_nil in Hin.
Qed.

Lemma level_costs_in_results_witness :
  exists results stats,
    calculate_cache_access_stats daxpy_kernel snb driver_fuel
      = Some (Ok (results, stats)) /\
    calculate_cache_access daxpy_kernel snb driver_fuel = Some (Ok results) /\
    List.length stats = List.length (cache_stack snb) /\
    (forall (i : nat) lv,
       cache_stack snb !! i = Some lv ->
       exists st cycles,
         stats !! i = Some st /\
         total_lines snb (s_misses st) = Ok (s_lines_misses st) /\
         total_lines snb (s_evicts st) = Ok (s_lines_evicts st) /\
         match lv_cycles lv with
         | Some c =>
             if num_truthy QFloat c then
               cost_label lv = label_next (lv_level lv) /\
               cycles = py_round1 QFloat (num_mul QFloat
                          (NInt (s_lines_misses st + s_lines_evicts st)) c)
             else
               cost_label lv = label_mem (lv_level lv) /\
               memory_cycles snb (s_lines_misses st + s_lines_evicts st) cycles
         | None =>
             cost_label lv = label_mem (lv_level lv) /\
             memory_cycles snb (s_lines_misses st + s_lines_evicts st) cycles
         end /\
         (last_numbered (cache_stack snb) i lv ->
          dget String.eqb results (cost_label lv) = Some cycles)) /\
    (forall key, key ∈ dkeys results ->
       exists lv, lv ∈ cache_stack snb /\ key = cost_label lv).
Proof.
  destruct (level_costs_in_results daxpy_kernel snb driver_fuel)
    as (r & Hr & H); [vm_compute; reflexivity..|].
  assert (Hrun : calculate_cache_access_stats daxpy_kernel snb driver_fuel
                 = Some (Ok daxpy_run)) by (vm_compute; reflexivity).
  rewrite Hrun in Hr. injection Hr as <-.
  exists (fst daxpy_run), (snd daxpy_run). split; [exact Hrun|exact H].
Defined.

(** The run of the witness returns the results the driver expects for DAXPY:
    6, 6 and 13 cycles. *)
Example daxpy_results :
  calculate_cache_access daxpy_kernel snb driver_fuel
  = Some (Ok [("L1-L2", NFloat (inject_Z 6 : F QFloat));
              ("L2-L3", NFloat (inject_Z 6 : F QFloat));
              ("L3-MEM", NFloat (inject_Z 13 : F QFloat))]).
Proof. vm_compute. reflexivity. Qed.

(** C10: a level whose transfer cost is present and equal to zero is treated
    as a level without transfer cost: the cost of the level is computed and
    labelled in the same way, and whenever [calculate_cache_access] returns,
    the level has its statistics and the results hold, under ['L{k}-MEM'],
    cycles computed from the memory bandwidth and the clock: those of the
    line misses and line evicts of this level, unless a later level of the
    stack has the same number. *)
Theorem zero_cost_is_memory_bound {fl : FloatOps} (kernel : Kernel)
    (machine : MachineModel fl)
    (i : nat) (lv : cache_level_info fl) (c : num fl) :
  cache_stack machine !! i = Some lv ->
  lv_cycles lv = Some c -> num_is_zero fl c = true ->
  (forall lm le,
     level_cost machine (lv_level lv) (Some c) lm le
     = level_cost machine (lv_level lv) None lm le) /\
  cost_label lv = label_mem (lv_level lv) /\
  forall fuel results stats,
    calculate_cache_access_stats kernel machine fuel = Some (Ok (results, stats)) ->
    calculate_cache_access kernel machine fuel = Some (Ok results) /\
    exists st,
      stats !! i = Some st /\
      (exists lines,
         memory_bound machine results (label_mem (lv_level lv)) lines) /\
      (last_numbered (cache_stack machine) i lv ->
       memory_bound machine results (label_mem (lv_level lv))
                    (s_lines_misses st + s_lines_evicts st)).
Proof.
  intros Hlv Hc Hz.
  assert (Hlabel : cost_label lv = label_mem (lv_level lv)).
  { unfold cost_label, opt_truthy, num_truthy. by rewrite Hc, Hz. }
  split_and!; [|done|].
  { intros lm le. unfold level_cost, num_truthy. by rewrite Hz. }
  intros fuel results stats Hrun.
  split; [unfold calculate_cache_access; by rewrite Hrun|].
  unfold calculate_cache_access_stats in Hrun.
  destruct (compile_offsets kernel machine) as [[r w]|]; [|done].
  apply levels_loop_results in Hrun.
  destruct (results_chain_level machine _ _ _ _ i lv Hrun Hlv)
    as (st & cycles & Hst & _ & _ & Hcy & Hget).
  exists st. split_and!; [done| |].
  - apply (results_chain_memory machine _ _ _ _ (lv_level lv) Hrun).
    right. exists lv. split; [by eapply list_elem_of_lookup_2|done].
  - intros Hlast. exists cycles. split; [rewrite <- Hlabel; by apply Hget|].
    unfold level_cycles in Hcy. rewrite Hc in Hcy. unfold num_truthy in Hcy.
    by rewrite Hz in Hcy.
Qed.

Lemma zero_cost_is_memory_bound_witness :
  (forall lm le,
     level_cost zero_cost_machine 1 (Some (NInt 0)) lm le
     = level_cost zero_cost_machine 1 None lm le) /\
  cost_label (mkLevel 1 1024 "per core" (Some (NInt 0 : num QFloat)))
    = label_mem 1 /\
  calculate_cache_access daxpy_kernel zero_cost_machine driver_fuel
    = Some (Ok (fst zero_cost_run)) /\
  exists st,
    snd zero_cost_run !! 0%nat = Some st /\
    memory_bound zero_cost_machine (fst zero_cost_run) (label_mem 1)
                 (s_lines_misses st + s_lines_evicts st).
Proof.
  destruct (zero_cost_is_memory_bound daxpy_kernel zero_cost_machine 0
              (mkLevel 1 1024 "per core" (Some (NInt 0))) (NInt 0))
    as (H1 & H2 & H3); [reflexivity..|].
  destruct (H3 driver_fuel (fst zero_cost_run) (snd zero_cost_run))
    as (H4 & st & H5 & _ & H6); [vm_compute; reflexivity|].
  split_and!; [exact H1|exact H2|exact H4|].
  exists st. split; [exact H5|]. apply H6.
  intros [|[|j]] lv' Hj Hlv'; [lia|done|done].
Defined.

(** The run of the witness returns a result. *)
Example zero_cost_results :
  calculate_cache_access daxpy_kernel zero_cost_machine driver_fuel
  = Some (Ok [("L1-MEM", NFloat (inject_Z 13 : F QFloat))]).
Proof. vm_compute. reflexivity. Qed.

(** ** The levels of [ECMData] *)

Lemma imap_levels {fl : FloatOps} (l : list (hierarchy_entry fl)) (start : nat) :
  map lv_level
      (imap (fun i e => mkLevel (Z.of_nat (start + i)) (h_size e) "" (h_cycles e)) l)
  = map (fun i => Z.of_nat start + Z.of_nat i) (seq 0 (List.length l)).
Proof.
  revert start. induction l as [|e l IH]; intros start; [done|].
  simpl. f_equal; [lia|].
  rewrite <- seq_shift, map_map.
  rewrite <- (map_ext (fun i => Z.of_nat (S start) + Z.of_nat i)) by (intros; lia).
  rewrite <- IH. f_equal. apply imap_ext. intros i x _. simpl.
  by rewrite Nat.add_succ_r.
Qed.

(** The levels that [ECMData] simulates are numbered consecutively from [0],
    in the order of the hierarchy. *)
Lemma ecmdata_levels {fl : FloatOps} (clock_ : num fl) (cacheline_size : Z)
    (hierarchy : list (hierarchy_entry fl)) :
  let machine := ecmdata_machine clock_ cacheline_size hierarchy in
  map lv_level (cache_stack machine)
  = py_range 0 (0 + zlen (cache_stack machine)).
Proof.
  simpl. unfold ecmdata_stack, py_range, zlen.
  rewrite length_imap.
  replace (Z.to_nat (0 + Z.of_nat (List.length (List.removelast hierarchy)) - 0))
    with (List.length (List.removelast hierarchy)) by lia.
  apply (imap_levels (List.removelast hierarchy) 0).
Qed.

(** * Further properties of the code *)

(** ** [find] *)

(** X1: [find] returns the first item on which the test is true: the test is
    false on every item before it, and is not evaluated on any item after
    it; when the test is false on every item it returns [None].  So a result
    of [None] means that no item matched or that the first item that matched
    is [None] itself.  It raises exactly when the test raises on an item
    before which the test is false. *)
Theorem find_first_match {A : Type} (none : A) (f : A -> res bool) (seq : list A) :
  (forall x, find none f seq = Ok x <->
     (exists before after,
        seq = before ++ x :: after /\ f x = Ok true /\
        Forall (fun y => f y = Ok false) before) \/
     (x = none /\ Forall (fun y => f y = Ok false) seq)) /\
  (forall e, find none f seq = Raise e <->
     exists before x after,
       seq = before ++ x :: after /\ f x = Raise e /\
       Forall (fun y => f y = Ok false) before).
Proof.
  induction seq as [|item rest [IHs IHr]]; simpl.
  - split.
    + intros x. split.
      * intros [= <-]. right. by split.
      * intros [(before & after & H & _)|[-> _]]; [by destruct before|done].
    + intros e. split; [done|]. intros (before & x & after & H & _).
      by destruct before.
  - destruct (f item) as [[|]|e0] eqn:E; simpl.
    + split.
      * intros x. split.
        -- intros [= <-]. left. exists [], rest. by split_and!.
        -- intros [(before & after & Hs & Hx & Hb)|[_ Hall]].
           ++ destruct before as [|y before]; simpl in Hs.
              ** by injection Hs as -> _.
              ** injection Hs as -> _. apply Forall_cons in Hb as [Hy _].
                 congruence.
           ++ apply Forall_cons in Hall as [Hy _]. congruence.
      * intros e. split; [done|]. intros (before & x & after & Hs & Hx & Hb).
        destruct before as [|y before]; simpl in Hs.
        -- injection Hs as -> _. congruence.
        -- injection Hs as -> _. apply Forall_cons in Hb as [Hy _]. congruence.
    + split.
      * intros x. rewrite IHs. split.
        -- intros [(before & after & -> & Hx & Hb)|[-> Hall]].
           ++ left. exists (item :: before), after. split_and!; try done.
              by constructor.
           ++ right. split; [done|]. by constructor.
        -- intros [(before & after & Hs & Hx & Hb)|[-> Hall]].
           ++ destruct before as [|y before]; simpl in Hs.
              ** injection Hs as -> _. congruence.
              ** injection Hs as -> ->. apply Forall_cons in Hb as [_ Hb].
                 left. by exists before, after.
           ++ right. split; [done|]. by apply Forall_cons in Hall as [_ Hall].
      * intros e. rewrite IHr. split.
        -- intros (before & x & after & -> & Hx & Hb).
           exists (item :: before), x, after. split_and!; try done.
           by constructor.
        -- intros (before & x & after & Hs & Hx & Hb).
           destruct before as [|y before]; simpl in Hs.
           ++ injection Hs as -> _. congruence.
           ++ injection Hs as -> ->. apply Forall_cons in Hb as [_ Hb].
              by exists before, x, after.
    + split.
      * intros x. split; [done|].
        intros [(before & after & Hs & Hx & Hb)|[_ Hall]].
        -- destruct before as [|y before]; simpl in Hs.
           ++ injection Hs as -> _. congruence.
           ++ injection Hs as -> _. apply Forall_cons in Hb as [Hy _].
              congruence.
        -- apply Forall_cons in Hall as [Hy _]. congruence.
      * intros e. split.
        -- intros [= <-]. exists [], item, rest. by split_and!.
        -- intros (before & x & after & Hs & Hx & Hb).
           destruct before as [|y before]; simpl in Hs.
           ++ injection Hs as -> _. congruence.
           ++ injection Hs as -> _. apply Forall_cons in Hb as [Hy _].
              congruence.
Qed.

(** ** [flatten_dict] *)

Section FlattenDict.
Context {K L V : Type} (keq : K -> K -> bool) (leq : L -> L -> bool).
Hypothesis keq_spec : forall a b, keq a b = true <-> a = b.
Hypothesis leq_spec : forall a b, leq a b = true <-> a = b.

Lemma pair_eqb_spec (a b : K * L) : pair_eqb keq leq a b = true <-> a = b.
Proof.
  unfold pair_eqb. destruct a as [a1 a2], b as [b1 b2]. simpl.
  rewrite andb_true_iff, keq_spec, leq_spec. split.
  - by intros [-> ->].
  - by intros [= -> ->].
Qed.

Lemma dget_key {W : Type} (d : dict K W) (k : K) :
  k ∈ dkeys d -> exists v, dget keq d k = Some v.
Proof.
  unfold dkeys. induction d as [|[k0 v0] d IH]; simpl; intros Hin.
  - by apply elem_of_nil in Hin.
  - destruct (keq k k0) eqn:E; [by eexists|].
    apply elem_of_cons in Hin as [->|Hin]; [|by apply IH].
    by rewrite (keq_refl keq keq_spec) in E.
Qed.

Lemma flatten_inner (f : dict (K * L) V -> L -> res (dict (K * L) V)) (k : K)
    (dk : dict L V) (ls : list L) (e : dict (K * L) V) :
  (forall e l, l ∈ ls ->
     exists v, dget leq dk l = Some v /\
               f e l = Ok (dset (pair_eqb keq leq) e (k, l) v)) ->
  exists e',
    foldM f ls e = Ok e' /\
    forall k' l',
      dget (pair_eqb keq leq) e' (k', l')
      = if keq k' k && existsb (leq l') ls then dget leq dk l'
        else dget (pair_eqb keq leq) e (k', l').
Proof.
  revert e. induction ls as [|l ls IH]; intros e Hls; simpl.
  - exists e. split; [done|]. intros k' l'. by rewrite andb_false_r.
  - destruct (Hls e l) as (v & Hv & ->); [by left|]. simpl.
    destruct (IH (dset (pair_eqb keq leq) e (k, l) v)) as (e' & -> & He').
    { intros e0 l0 Hl0. apply Hls. by right. }
    exists e'. split; [done|]. intros k' l'. rewrite He'.
    destruct (keq k' k) eqn:Ek; simpl.
    + apply keq_spec in Ek. subst k'.
      destruct (existsb (leq l') ls); [by rewrite orb_true_r|].
      rewrite orb_false_r. destruct (leq l' l) eqn:El.
      * apply leq_spec in El. subst l'.
        by rewrite (dget_dset_eq _ pair_eqb_spec).
      * rewrite (dget_dset_ne _ pair_eqb_spec); [done|].
        intros [= <-]. by rewrite (keq_refl leq leq_spec) in El.
    + rewrite (dget_dset_ne _ pair_eqb_spec); [done|].
      intros [= <- _]. by rewrite (keq_refl keq keq_spec) in Ek.
Qed.

Lemma flatten_outer (f : dict (K * L) V -> K -> res (dict (K * L) V))
    (d : dict K (dict L V)) (ks : list K) (e : dict (K * L) V) :
  (forall e k, k ∈ ks ->
     exists dk e1, dget keq d k = Some dk /\ f e k = Ok e1 /\
       forall k' l',
         dget (pair_eqb keq leq) e1 (k', l')
         = if keq k' k && existsb (leq l') (dkeys dk) then dget leq dk l'
           else dget (pair_eqb keq leq) e (k', l')) ->
  exists e',
    foldM f ks e = Ok e' /\
    forall k' l',
      dget (pair_eqb keq leq) e' (k', l')
      = if existsb (keq k') ks then
          match match dget keq d k' with
                | Some dk => dget leq dk l'
                | None => None
                end with
          | Some v => Some v
          | None => dget (pair_eqb keq leq) e (k', l')
          end
        else dget (pair_eqb keq leq) e (k', l').
Proof.
  revert e. induction ks as [|k ks IH]; intros e Hks; simpl.
  - by exists e.
  - destruct (Hks e k) as (dk & e1 & Hdk & -> & He1); [by left|]. simpl.
    destruct (IH e1) as (e' & -> & He').
    { intros e0 k0 Hk0. apply Hks. by right. }
    exists e'. split; [done|]. intros k' l'. rewrite He', He1.
    destruct (keq k' k) eqn:Ek; simpl; [|done].
    apply keq_spec in Ek. subst k'. rewrite Hdk.
    rewrite (existsb_dkeys leq dk l').
    destruct (dget leq dk l'); by destruct (existsb (keq k) ks).
Qed.
End FlattenDict.

(** X2: [flatten_dict] never raises, and the entry of [(k, l)] in its result is
    [d[k][l]]: a pair is a key of the result exactly when [k] is a key of [d]
    and [l] a key of [d[k]]. *)
Theorem flatten_dict_lookup {K L V : Type} (keq : K -> K -> bool)
    (leq : L -> L -> bool) (d : dict K (dict L V)) :
  (forall a b, keq a b = true <-> a = b) ->
  (forall a b, leq a b = true <-> a = b) ->
  exists e,
    flatten_dict keq leq d = Ok e /\
    forall k l,
      dget (pair_eqb keq leq) e (k, l)
      = match dget keq d k with Some dk => dget leq dk l | None => None end.
Proof.
  intros Hk Hl. unfold flatten_dict.
  destruct (flatten_outer keq leq Hk
              (fun e k =>
                 let* dk := dindex keq d k in
                 foldM (fun e l =>
                          let* dk' := dindex keq d k in
                          let* v := dindex leq dk' l in
                          Ok (dset (pair_eqb keq leq) e (k, l) v))
                       (dkeys dk) e)
              d (dkeys d) []) as (e & -> & He).
  { intros e k Hin. destruct (dget_key keq Hk d k Hin) as [dk Hdk].
    unfold dindex at 1. rewrite Hdk. simpl.
    destruct (flatten_inner keq leq Hk Hl
                (fun e l =>
                   let* dk' := dindex keq d k in
                   let* v := dindex leq dk' l in
                   Ok (dset (pair_eqb keq leq) e (k, l) v))
                k dk (dkeys dk) e) as (e1 & He1 & Hget).
    - intros e0 l Hl0. destruct (dget_key leq Hl dk l Hl0) as [v Hv].
      exists v. split; [done|]. unfold dindex. by rewrite Hdk; simpl; rewrite Hv.
    - by exists dk, e1. }
  exists e. split; [done|]. intros k l. rewrite He. simpl.
  rewrite (existsb_dkeys keq d k).
  by destruct (dget keq d k) as [dk|]; [destruct (dget leq dk l)|].
Qed.

Lemma flatten_dict_lookup_witness :
  exists e,
    flatten_dict Z.eqb String.eqb
      [(1, [("i", [7; 6]); ("j", [5])]); (2, [("i", [0])])] = Ok e /\
    forall k l,
      dget (pair_eqb Z.eqb String.eqb) e (k, l)
      = match dget Z.eqb [(1, [("i", [7; 6]); ("j", [5])]); (2, [("i", [0])])] k with
        | Some dk => dget String.eqb dk l
        | None => None
        end.
Proof.
  apply (flatten_dict_lookup Z.eqb String.eqb
           [(1, [("i", [7; 6]); ("j", [5])]); (2, [("i", [0])])]).
  - apply Z.eqb_eq.
  - apply String.eqb_eq.
Defined.

(** ** The outcome and the size of [blocking] *)

Lemma dedup_fold_length (l acc : list Z) :
  (List.length (fold_left dedup_append l acc) <= List.length acc + List.length l)%nat.
Proof.
  revert acc. induction l as [|x l IH]; intros acc; simpl; [lia|].
  specialize (IH (dedup_append acc x)). unfold dedup_append in *.
  destruct (zmem x acc); [lia|]. rewrite length_app in IH. simpl in IH. lia.
Qed.

Lemma blocking_length (indices blocks : list Z) (block_size initial_boundary : Z) :
  blocking indices block_size initial_boundary = Ok blocks ->
  (List.length blocks <= List.length indices)%nat.
Proof.
  destruct (decide (block_size = 0)) as [->|Hne].
  - destruct indices; [|done]. by intros [= <-].
  - rewrite blocking_value by done. intros [= <-].
    unfold py_sorted. rewrite merge_sort_Permutation.
    pose proof (dedup_fold_length
                  (map (fun idx => (idx - initial_boundary) / block_size) indices) [])
      as H.
    rewrite length_map in H. simpl in H. lia.
Qed.

(** X3: [blocking] raises, with [ZeroDivisionError], exactly when the block size
    is [0] and there is an index to divide; otherwise it returns a list
    without repetition, in ascending order, that has no more entries than
    the list of indices, and is empty only when that list is. *)
Theorem blocking_outcome (indices : list Z) (block_size initial_boundary : Z) :
  (forall e, blocking indices block_size initial_boundary = Raise e <->
     e = ZeroDivisionError /\ block_size = 0 /\ indices <> []) /\
  (forall blocks, blocking indices block_size initial_boundary = Ok blocks ->
     (List.length blocks <= List.length indices)%nat /\
     (indices <> [] -> blocks <> []) /\
     NoDup blocks /\ Sorted Z.le blocks).
Proof.
  destruct (decide (block_size = 0)) as [->|Hne].
  - destruct indices as [|i l]; simpl.
    + split.
      * intros e. split; [done|]. by intros (_ & _ & ?).
      * intros blocks [= <-]. split_and!; try done; constructor.
    + split; [|done]. intros e. split.
      * by intros [= <-].
      * by intros (-> & _).
  - rewrite blocking_value by done. split.
    + intros e. split; [done|]. by intros (_ & ? & _).
    + intros blocks [= <-].
      set (bl := map (fun idx => (idx - initial_boundary) / block_size) indices).
      assert (Hperm : py_sorted (fold_left dedup_append bl []) ≡ₚ
                      fold_left dedup_append bl []).
      { unfold py_sorted. apply merge_sort_Permutation. }
      split_and!.
      * apply (blocking_length indices _ block_size initial_boundary).
        by apply blocking_value.
      * intros Hi Hb. destruct indices as [|i l]; [done|].
        assert (Hin : (i - initial_boundary) / block_size
                      ∈ py_sorted (fold_left dedup_append bl [])).
        { rewrite py_sorted_elem_of, dedup_fold_elem_of. right. by left. }
        rewrite Hb in Hin. by apply elem_of_nil in Hin.
      * rewrite Hperm. apply dedup_fold_NoDup, NoDup_nil_2.
      * unfold py_sorted. apply Sorted_merge_sort. apply _.
Qed.

Lemma sorted_lt_span (l : list Z) (a b : Z) :
  StronglySorted Z.lt l -> (forall x, x ∈ l -> a <= x <= b) -> l <> [] ->
  zlen l <= b - a + 1.
Proof.
  unfold zlen. intros Hs. revert a. induction Hs as [|x l Hs IH Hall];
    intros a Hb Hne; [done|].
  destruct l as [|y l]; simpl.
  - specialize (Hb x (list_elem_of_here _ _)). lia.
  - specialize (IH (x + 1)). simpl in IH.
    assert (a <= x <= b) by (apply Hb; by left).
    assert (zl : Z.of_nat (S (List.length l)) <= b - (x + 1) + 1); [|lia].
    apply IH; [|done]. intros z Hz.
    rewrite Forall_forall in Hall. specialize (Hall z Hz).
    assert (a <= z <= b) by (apply Hb; by right). lia.
Qed.

(** X4: With a positive block size, indices between [lo] and [hi] fall into
    the blocks of [lo] to [hi]: [blocking] returns at most
    [(hi - b)/s - (lo - b)/s + 1] block indices for them. *)
Theorem blocking_span (indices blocks : list Z)
    (block_size initial_boundary lo hi : Z) :
  0 < block_size ->
  (forall idx, idx ∈ indices -> lo <= idx <= hi) ->
  blocking indices block_size initial_boundary = Ok blocks ->
  (forall b, b ∈ blocks ->
     (lo - initial_boundary) / block_size <= b <= (hi - initial_boundary) / block_size) /\
  (indices <> [] ->
   zlen blocks <= (hi - initial_boundary) / block_size
                  - (lo - initial_boundary) / block_size + 1).
Proof.
  intros Hpos Hrange. rewrite blocking_value by lia. intros [= <-].
  assert (Hin : forall b,
            b ∈ py_sorted (fold_left dedup_append
                    (map (fun idx => (idx - initial_boundary) / block_size) indices) []) ->
            (lo - initial_boundary) / block_size <= b
            <= (hi - initial_boundary) / block_size).
  { intros b. rewrite py_sorted_elem_of, dedup_fold_elem_of, elem_of_nil,
      list_elem_of_fmap.
    intros [[]|(idx & -> & Hidx)]. specialize (Hrange idx Hidx).
    split; apply Z.div_le_mono; lia. }
  split; [exact Hin|]. intros Hne. apply sorted_lt_span; [|exact Hin|].
  - apply py_sorted_distinct, dedup_fold_NoDup, NoDup_nil_2.
  - destruct indices as [|i l]; [done|]. intros Hb.
    assert (Hi : (i - initial_boundary) / block_size
                 ∈ py_sorted (fold_left dedup_append
                     (map (fun idx => (idx - initial_boundary) / block_size) (i :: l)) [])).
    { rewrite py_sorted_elem_of, dedup_fold_elem_of. right. by left. }
    rewrite Hb in Hi. by apply elem_of_nil in Hi.
Qed.

Lemma blocking_span_witness :
  (forall b, b ∈ [-2; -1; 0] -> (-9 - 0) / 8 <= b <= (0 - 0) / 8) /\
  ([0; -1; -2; -3; -4; -5; -6; -7; -8; -9] <> [] ->
   zlen [-2; -1; 0] <= (0 - 0) / 8 - (-9 - 0) / 8 + 1).
Proof.
  apply (blocking_span [0; -1; -2; -3; -4; -5; -6; -7; -8; -9] [-2; -1; 0] 8 0 (-9) 0).
  - lia.
  - intros idx Hidx. repeat (apply elem_of_cons in Hidx as [->|Hidx]; [lia|]).
    by apply elem_of_nil in Hidx.
  - vm_compute. reflexivity.
Defined.

(** ** [_expand_to_cacheline_blocks] *)

(** X5: When a cache line holds at least one element, the expanded range starts
    at the first element of the cache line of [first] and ends at the last
    element of the cache line of [last]: it contains the given range, both
    ends are aligned, and neither end moves by a cache line or more. *)
Theorem expand_to_cacheline_blocks_aligned {fl : FloatOps}
    (machine : MachineModel fl) (first last : Z) :
  0 < elements_per_cacheline machine ->
  exists f l,
    _expand_to_cacheline_blocks machine first last = Ok (f, l) /\
    f <= first < f + elements_per_cacheline machine /\
    f mod elements_per_cacheline machine = 0 /\
    last <= l < last + elements_per_cacheline machine /\
    (l + 1) mod elements_per_cacheline machine = 0.
Proof.
  intros Hpos. set (n := elements_per_cacheline machine) in *.
  unfold _expand_to_cacheline_blocks, py_mod. fold n.
  destruct (n =? 0) eqn:E; [lia|]. simpl.
  eexists _, _. split; [reflexivity|].
  pose proof (Z.mod_pos_bound first n Hpos).
  pose proof (Z.mod_pos_bound last n Hpos).
  split_and!; try lia.
  - rewrite Zminus_mod_idemp_r. by rewrite Z.sub_diag.
  - replace (last - last mod n + n - 1 + 1) with (last - last mod n + 1 * n) by lia.
    rewrite Z.mod_add by lia. rewrite Zminus_mod_idemp_r. by rewrite Z.sub_diag.
Qed.

Lemma expand_to_cacheline_blocks_aligned_witness :
  exists f l,
    _expand_to_cacheline_blocks snb (-3) 9 = Ok (f, l) /\
    f <= -3 < f + elements_per_cacheline snb /\
    f mod elements_per_cacheline snb = 0 /\
    9 <= l < 9 + elements_per_cacheline snb /\
    (l + 1) mod elements_per_cacheline snb = 0.
Proof.
  apply (expand_to_cacheline_blocks_aligned snb (-3) 9). vm_compute. reflexivity.
Defined.

(** ** [Kernel._get_offsets] and [Kernel._get_basename] *)

Lemma mapM_snoc {A B : Type} (f : A -> res B) (l : list A) (x : A) (r : list B) :
  mapM f (l ++ [x]) = Ok r <->
  exists r1 y, mapM f l = Ok r1 /\ f x = Ok y /\ r = r1 ++ [y].
Proof.
  revert r. induction l as [|a l IH]; intros r; simpl.
  - destruct (f x) as [y|e]; simpl.
    + split.
      * intros [= <-]. by exists [], y.
      * intros (r1 & y' & [= <-] & [= <-] & ->). done.
    + split; [done|]. by intros (r1 & y' & _ & ? & _).
  - destruct (f a) as [b|e]; simpl.
    + destruct (mapM f (l ++ [x])) as [r0|e] eqn:E; simpl.
      * destruct (proj1 (IH r0) eq_refl) as (r1 & y & -> & Hy & ->). simpl.
        split.
        -- intros [= <-]. by exists (b :: r1), y.
        -- intros (r1' & y' & [= <-] & Hy' & ->). rewrite Hy in Hy'.
           by injection Hy' as ->.
      * split; [done|]. intros (r1' & y' & Hr1 & Hy' & ->).
        destruct (mapM f l) as [r1|]; [|done]. simpl in Hr1.
        assert (@Raise (list B) e = Ok (r1 ++ [y'])); [|done].
        apply IH. by exists r1, y'.
    + split; [done|]. by intros (r1 & y & ? & _).
Qed.

Lemma array_ref_snoc (name : string) (subscripts : list node) (s : node) :
  array_ref name (subscripts ++ [s]) = ArrayRef (array_ref name subscripts) s.
Proof. unfold array_ref. by rewrite fold_left_app. Qed.

Lemma array_ref_kind (name : string) (subscripts : list node) :
  match subscripts with
  | [] => array_ref name subscripts = ID name
  | _ => exists a s, array_ref name subscripts = ArrayRef a s
  end.
Proof.
  destruct subscripts as [|s0 l] using rev_ind; [done|].
  rewrite array_ref_snoc. destruct (l ++ [s0]) eqn:E.
  - by apply app_eq_nil in E as [_ ?].
  - by eexists _, _.
Qed.

Lemma subscript_offset_kind (k : Kernel) (s : node) (o : offset_info) :
  subscript_offset k s = Ok o ->
  is_ID s || is_Constant s || is_BinaryOp s = true.
Proof. by destruct s. Qed.

Lemma get_offsets_rec_array_ref (k : Kernel) (name : string)
    (subscripts : list node) (s : node) (l : list offset_info) :
  _get_offsets_rec k (array_ref name (subscripts ++ [s])) = Ok l <->
  mapM (subscript_offset k) (subscripts ++ [s]) = Ok (rev l).
Proof.
  revert s l. induction subscripts as [|s0 subs IH] using rev_ind; intros s l.
  - rewrite array_ref_snoc. change (array_ref name []) with (ID name).
    cbn [_get_offsets_rec is_ArrayRef is_ID orb py_assert bind mapM app].
    destruct (subscript_offset k s) as [o|e] eqn:Eo; cbn [bind].
    + rewrite (subscript_offset_kind _ _ _ Eo). cbn [py_assert bind].
      split.
      * by intros [= <-].
      * intros [= H]. destruct l as [|x [|y l]]; simpl in H; try done.
        -- by injection H as ->.
        -- apply (f_equal (@List.length _)) in H. rewrite !length_app in H.
           simpl in H. lia.
    + split; [|done].
      by destruct (is_ID s || is_Constant s || is_BinaryOp s).
  - rewrite array_ref_snoc. rewrite mapM_snoc.
    pose proof (array_ref_snoc name subs s0) as Ha.
    cbn [_get_offsets_rec]. rewrite Ha. cbn [is_ArrayRef orb py_assert bind].
    rewrite <- Ha.
    destruct (subscript_offset k s) as [o|e] eqn:Eo.
    + rewrite (subscript_offset_kind _ _ _ Eo). cbn [py_assert bind].
      destruct (_get_offsets_rec k (array_ref name (subs ++ [s0]))) as [more|e]
        eqn:Em; cbn [bind].
      * apply IH in Em. split.
        -- intros [= <-]. exists (rev more), o. by split_and!.
        -- intros (r1 & y & Hr1 & [= <-] & Hl). rewrite Em in Hr1.
           injection Hr1 as <-. f_equal.
           apply (f_equal (@rev _)) in Hl. rewrite rev_involutive in Hl.
           by rewrite rev_app_distr, rev_involutive in Hl.
      * split; [done|]. intros (r1 & y & Hr1 & _ & Hl).
        assert (_get_offsets_rec k (array_ref name (subs ++ [s0])) = Ok (rev r1)).
        { apply IH. by rewrite rev_involutive. }
        congruence.
    + split.
      * destruct (is_ID s || is_Constant s || is_BinaryOp s); by cbn [py_assert bind].
      * by intros (r1 & y & _ & ? & _).
Qed.

(** X6: For a reference [name[s1]...[sn]] with at least one subscript,
    [_get_basename] returns [name], and [_get_offsets] returns, when it
    returns, one entry per subscript in the order of the source text: the
    entry of [s1] first. *)
Theorem get_offsets_source_order (k : Kernel) (name : string)
    (subscripts : list node) :
  subscripts <> [] ->
  _get_basename (array_ref name subscripts) = Ok name /\
  forall l,
    _get_offsets k (array_ref name subscripts) = Ok l <->
    mapM (subscript_offset k) subscripts = Ok l.
Proof.
  intros Hne. split.
  - induction subscripts as [|s subs IH] using rev_ind; [done|].
    rewrite array_ref_snoc. cbn [_get_basename].
    pose proof (array_ref_kind name subs) as Hk.
    destruct subs as [|s0 subs'].
    + by rewrite Hk.
    + destruct Hk as (a & s1 & Ha). rewrite Ha, <- Ha. by apply IH.
  - intros l. destruct subscripts as [|s subs _] using rev_ind; [done|].
    unfold _get_offsets.
    destruct (_get_offsets_rec k (array_ref name (subs ++ [s]))) as [idxs|e] eqn:E;
      simpl.
    + apply get_offsets_rec_array_ref in E. split.
      * by intros [= <-].
      * intros H. rewrite H in E. by injection E as ->.
    + split; [done|]. intros H.
      assert (_get_offsets_rec k (array_ref name (subs ++ [s])) = Ok (rev l)).
      { apply get_offsets_rec_array_ref. by rewrite rev_involutive. }
      congruence.
Qed.

(** In a nest of loops over [j] and [i], the entries of [c[i+1][j-2]] are
    that of [i+1] and then that of [j-2]. *)
Lemma get_offsets_source_order_witness :
  _get_basename (array_ref "c" [BinaryOp "+" (ID "i") (Constant (IntLit 1));
                                BinaryOp "-" (ID "j") (Constant (IntLit 2))])
    = Ok "c" /\
  _get_offsets empty_rows_kernel
    (array_ref "c" [BinaryOp "+" (ID "i") (Constant (IntLit 1));
                    BinaryOp "-" (ID "j") (Constant (IntLit 2))])
    = Ok [Rel "i" 1; Rel "j" (-2)] /\
  forall l,
    _get_offsets empty_rows_kernel
      (array_ref "c" [BinaryOp "+" (ID "i") (Constant (IntLit 1));
                      BinaryOp "-" (ID "j") (Constant (IntLit 2))]) = Ok l <->
    mapM (subscript_offset empty_rows_kernel)
      [BinaryOp "+" (ID "i") (Constant (IntLit 1));
       BinaryOp "-" (ID "j") (Constant (IntLit 2))] = Ok l.
Proof.
  destruct (get_offsets_source_order empty_rows_kernel "c"
              [BinaryOp "+" (ID "i") (Constant (IntLit 1));
               BinaryOp "-" (ID "j") (Constant (IntLit 2))]) as [H1 H2];
    [discriminate|].
  split_and!; [exact H1| |exact H2].
  apply H2. vm_compute. reflexivity.
Defined.

(** ** The offsets added by the unrolling *)

Lemma chars_cons (c : ascii) (s : string) :
  chars (String c s) = String c EmptyString :: chars s.
Proof. reflexivity. Qed.

Lemma shifted_offset_from (dims : option (list Z)) (loop_index : string) (i : Z)
    (acs : access) :
  single_char_indices acs = true ->
  forall (dim : nat) (o1 o2 r io : Z) (idx_order : string),
    relative_offset_from dims dim acs o1 = Ok r ->
    _get_index_order acs = Ok idx_order ->
    iteration_offset_from dims dim (chars idx_order) loop_index o2 = Ok io ->
    relative_offset_from dims dim (shift_access loop_index i acs) (o1 + i * o2)
    = Ok (r + i * io).
Proof.
  unfold _get_index_order.
  induction acs as [|a acs IH]; intros Hs dim o1 o2 r io idx_order Hr Ho Hi.
  - simpl in *. injection Hr as <-. injection Ho as <-. simpl in Hi.
    by injection Hi as <-.
  - simpl in Hs. apply andb_true_iff in Hs as [Ha Hs].
    destruct a as [idx off| |]; try done.
    destruct idx as [|c [|c' idx]]; try done.
    cbn [mapM offset_item1 bind] in Ho.
    destruct (mapM offset_item1 acs) as [items|] eqn:Em; [|done].
    cbn [bind join_items] in Ho.
    destruct (join_items items) as [rest|] eqn:Ej; [|done].
    cbn [bind] in Ho. injection Ho as <-.
    change (String c "" ++ rest)%string with (String c rest) in Hi.
    rewrite chars_cons in Hi. cbn [iteration_offset_from] in Hi.
    cbn [relative_offset_from] in Hr.
    destruct (stride dims dim) as [s|] eqn:Es; [|done]. cbn [bind] in Hr, Hi.
    cbn [shift_access map]. fold (shift_access loop_index i acs).
    destruct (String.eqb loop_index (String c "")) eqn:El;
      cbn [relative_offset_from]; rewrite Es; cbn [bind].
    + replace (o1 + i * o2 + (off + i) * s) with (o1 + off * s + i * (o2 + s)) by lia.
      apply (IH Hs (S dim) _ _ r io rest); first [done | by rewrite Ej].
    + replace (o1 + i * o2 + off * s) with (o1 + off * s + i * o2) by lia.
      apply (IH Hs (S dim) _ _ r io rest); first [done | by rewrite Ej].
Qed.

(** X7: The unrolling appends, for the iteration [i] of a cache line, the
    relative offset of an access plus [i] times its iteration offset.  When
    the indices of the access have names of one character, that sum is the
    relative offset of the access with every subscript on [loop_index]
    advanced by [i]. *)
Theorem unrolled_offset_is_shifted_access (kernel : Kernel) (name : string)
    (acs : access) (loop_index idx_order : string) (i offset io : Z) :
  single_char_indices acs = true ->
  _calculate_relative_offset kernel name acs = Ok offset ->
  _get_index_order acs = Ok idx_order ->
  _calculate_iteration_offset kernel name idx_order loop_index = Ok io ->
  _calculate_relative_offset kernel name (shift_access loop_index i acs)
  = Ok (offset + i * io).
Proof.
  unfold _calculate_relative_offset, _calculate_iteration_offset.
  intros Hs Hr Ho Hi.
  destruct (base_dims kernel name) as [dims|]; [|done]. cbn [bind] in *.
  replace 0 with (0 + i * 0) at 1 by lia.
  by eapply shifted_offset_from.
Qed.

Lemma unrolled_offset_is_shifted_access_witness :
  _calculate_relative_offset row5_declared_kernel "a"
    (shift_access "i" 3 [Rel "j" (-1); Rel "i" 2])
  = Ok (-48 + 3 * 1).
Proof.
  apply (unrolled_offset_is_shifted_access row5_declared_kernel "a"
           [Rel "j" (-1); Rel "i" 2] "i" "ji" 3 (-48) 1);
    vm_compute; reflexivity.
Defined.

(** ** The declarations and the constants of a kernel *)

Lemma foldM_snoc {A B : Type} (f : B -> A -> res B) (l : list A) (x : A) (b : B) :
  foldM f (l ++ [x]) b = let* b' := foldM f l b in f b' x.
Proof.
  revert b. induction l as [|y l IH]; intros b; simpl.
  - by destruct (f b x).
  - destruct (f b y) as [b'|e]; simpl; [apply IH|done].
Qed.

(** X8: The loop of the driver over the constants of a test case succeeds
    exactly when every name is a [str] and every value an [int]; otherwise it
    raises [AssertionError].  After a loop that succeeds, the value of a
    constant is the one of the last pair with its name, and the value it had
    before when no pair has its name; the other tables of the kernel are as
    before. *)
Theorem set_constants_last_wins (k : Kernel) :
  (forall pairs, exists k',
     set_constants k (constant_args pairs) = Ok k' /\
     (forall name,
        dget String.eqb (_constants k') name
        = match dget String.eqb (rev pairs) name with
          | Some v => Some v
          | None => dget String.eqb (_constants k) name
          end) /\
     _variables k' = _variables k /\ _loop_stack k' = _loop_stack k /\
     _sources k' = _sources k /\ _destinations k' = _destinations k) /\
  (forall constants,
     (exists k', set_constants k constants = Ok k') <->
     exists pairs, constants = constant_args pairs) /\
  (forall constants e,
     set_constants k constants = Raise e -> exists msg, e = AssertionError msg).
Proof.
  split_and!.
  - intros pairs. unfold set_constants, constant_args.
    induction pairs as [|[n v] cs IH] using rev_ind; [by exists k|].
    destruct IH as (k1 & Hk1 & Hc & Hv & Hl & Hs & Hd).
    rewrite map_app. cbn [map]. rewrite foldM_snoc, Hk1, rev_app_distr. simpl.
    eexists. split; [reflexivity|]. simpl. split_and!; try done.
    intros name. destruct (name =? n)%string eqn:E.
    + apply String.eqb_eq in E. subst n. by rewrite (dget_dset_eq _ String.eqb_eq).
    + rewrite (dget_dset_ne _ String.eqb_eq); [apply Hc|].
      intros ->. by rewrite String.eqb_refl in E.
  - intros constants. unfold set_constants, constant_args. revert k.
    induction constants as [|[name value] cs IH]; intros k0; simpl.
    + split; [by exists []|by exists k0].
    + destruct name as [n| | |], value as [|v| |]; simpl;
        try (split; [by intros [? ?]|by intros [[|[? ?] ?] ?]]).
      rewrite IH. split.
      * intros [pairs ->]. by exists ((n, v) :: pairs).
      * intros [[|[n' v'] pairs] H]; [done|]. simpl in H.
        injection H as -> -> ->. by exists pairs.
  - intros constants. unfold set_constants. revert k.
    induction constants as [|[name value] cs IH]; intros k0 e; simpl; [done|].
    destruct name as [n| | |], value as [|v| |]; simpl;
      try (intros [= <-]; by eexists).
    apply IH.
Qed.

Lemma decl_dims_literal {sp : SymPy} (constants : dict string Z) (t : ctype) :
  has_literal_dim t = true -> exists e, decl_dims constants t = Raise e.
Proof.
  induction t as [t IH dim| |]; simpl; [|done..]. intros H.
  apply orb_true_iff in H as [H|H].
  - destruct dim as [|v| | | | | | | | |]; try done.
    unfold eval_dim. simpl. destruct (py_int v); simpl; by eexists.
  - destruct (eval_dim constants dim); simpl; [|by eexists].
    destruct (IH H) as [e ->]. by exists e.
Qed.

Lemma kiter_raises {A : Type} (f : A -> kst unit) (l : list A) (x : A) :
  x ∈ l -> (forall k, exists e k', f x k = (Raise e, k')) ->
  forall k, exists e k', kiter f l k = (Raise e, k').
Proof.
  intros Hin Hx. induction l as [|y l IH]; intros k.
  - by apply elem_of_nil in Hin.
  - simpl. unfold kbind. apply elem_of_cons in Hin as [<-|Hin].
    + destruct (Hx k) as (e & k' & ->). by exists e, k'.
    + destruct (f y k) as [[u|e] k1]; [by apply IH|by exists e, k1].
Qed.

(** X9: [process] evaluates the dimensions of an array with
    [conv_ast_to_sympy(t.dim).subs(...)], and the conversion of a literal is a
    Python [int], which has no [subs]: a kernel that declares an array with a
    literal dimension, as in [double a[100]], is rejected with an error, whatever
    its loop nest. *)
Theorem literal_dimension_rejected {sp : SymPy} (decls : list node) (floop : node)
    (k : Kernel) (name : string) (type : ctype) :
  Decl name type ∈ decls -> has_literal_dim type = true ->
  exists e k', process (Compound (Some (decls ++ [floop]))) k = (Raise e, k').
Proof.
  intros Hin Hlit. unfold process, kbind, kread.
  rewrite removelast_last, last_last.
  destruct (py_assert (forallb is_Decl decls) _) as [u|e]; [|by eexists _, _].
  destruct (decls ++ [floop]) as [|x xs] eqn:E;
    [by apply app_eq_nil in E as [_ ?]|].
  destruct (py_assert (is_For floop) _) as [u'|e]; [|by eexists _, _].
  destruct (kiter_raises process_decl decls (Decl name type) Hin) with (k := k)
    as (e & k' & ->); [|by exists e, k'].
  intros k0. unfold process_decl.
  destruct type as [t dim| |]; [|done..]. unfold kbind, kread.
  destruct (decl_dims_literal (_constants k0) (ArrayDecl t dim) Hlit) as [e ->].
  by exists e, k0.
Qed.

Lemma literal_dimension_rejected_witness :
  exists e k',
    process (sp := sympy_strict) (Compound (Some ([arr_decl "a" [Constant (IntLit 100)]] ++
                             [loop_head "i" 0 (Constant (IntLit 100))
                                (Assignment "=" (ArrayRef (ID "a") (ID "i"))
                                   (Constant (IntLit 0)))])))
            new_kernel = (Raise e, k').
Proof.
  apply (literal_dimension_rejected (sp := sympy_strict) [arr_decl "a" [Constant (IntLit 100)]]
           (loop_head "i" 0 (Constant (IntLit 100))
              (Assignment "=" (ArrayRef (ID "a") (ID "i")) (Constant (IntLit 0))))
           new_kernel "a" (ArrayDecl (TypeDecl ["double"]) (Constant (IntLit 100)))).
  - by left.
  - reflexivity.
Defined.

(** [double a[100]; for(i=0; i<100; ++i) a[i] = 0;] fails with
    [AttributeError], and [double a[N]; ...] with [N = 100] is accepted. *)
Example literal_dimension_attribute_error :
  process (sp := sympy_strict) (Compound (Some [arr_decl "a" [Constant (IntLit 100)];
                           loop_head "i" 0 (Constant (IntLit 100))
                             (Assignment "=" (ArrayRef (ID "a") (ID "i"))
                                (Constant (IntLit 0)))]))
          new_kernel = (Raise AttributeError, new_kernel) /\
  fst (process (sp := sympy_strict) (Compound (Some [arr_decl "a" [ID "N"];
                                loop_head "i" 0 (Constant (IntLit 100))
                                  (Assignment "=" (ArrayRef (ID "a") (ID "i"))
                                     (Constant (IntLit 0)))]))
               (kernel_N 100)) = Ok tt.
Proof. split; vm_compute; reflexivity. Qed.

(** ** What a successful [process] leaves in the kernel *)

Lemma keeps_kret {A : Type} (a : A) : keeps_declarations (kret a).
Proof. intros k r k' [= _ <-]. done. Qed.

Lemma keeps_kread {A : Type} (f : Kernel -> res A) : keeps_declarations (kread f).
Proof. intros k r k' [= _ <-]. done. Qed.

Lemma keeps_kmodify (f : Kernel -> Kernel) :
  (forall k, _constants (f k) = _constants k /\ _variables (f k) = _variables k) ->
  keeps_declarations (kmodify f).
Proof. intros Hf k r k' [= _ <-]. apply Hf. Qed.

Lemma keeps_kbind {A B : Type} (m : kst A) (f : A -> kst B) :
  keeps_declarations m -> (forall a, keeps_declarations (f a)) ->
  keeps_declarations (kbind m f).
Proof.
  intros Hm Hf k r k' H. unfold kbind in H.
  destruct (m k) as [[a|e] k1] eqn:E.
  - destruct (Hm _ _ _ E) as [<- <-]. by eapply Hf.
  - injection H as _ <-. by eapply Hm.
Qed.

Lemma keeps_kiter {A : Type} (f : A -> kst unit) (l : list A) :
  (forall x, keeps_declarations (f x)) -> keeps_declarations (kiter f l).
Proof.
  intros Hf. induction l as [|x l IH]; simpl.
  - apply keeps_kret.
  - apply keeps_kbind; [apply Hf|]. intros _. apply IH.
Qed.

Ltac keeps_step :=
  first [ apply keeps_kret | apply keeps_kread
        | apply keeps_kmodify; intros ?; by split
        | apply keeps_kbind; [|intros ?] ].

Lemma keeps_p_sources (stmt : node) : keeps_declarations (_p_sources stmt).
Proof.
  induction stmt as [n|v|op l IHl r IHr| |name _ sub _| | | | | |];
    cbn -[_get_basename _get_offsets]; repeat keeps_step; try done.
Qed.

Lemma keeps_p_assignment (stmt : node) : keeps_declarations (_p_assignment stmt).
Proof.
  destruct stmt as [| | | | |op lv rv| | | | |]; try apply keeps_kread.
  destruct lv as [n| | | |name sub| | | | | |]; try apply keeps_kread;
    cbn -[_get_basename _get_offsets _p_sources];
    repeat first [apply keeps_p_sources | keeps_step].
Qed.

Lemma keeps_p_for (n : nat) :
  forall floop, (for_depth floop <= n)%nat -> keeps_declarations (_p_for floop).
Proof.
  induction n as [|n IH]; intros floop Hd;
    destruct floop as [| | | | | |init cond next stmt| | | |];
    try apply keeps_kread.
  - simpl in Hd. lia.
  - cbn -[for_header _p_assignment].
    apply keeps_kbind; [apply keeps_kread|]. intros entry.
    apply keeps_kbind; [apply keeps_kmodify; intros ?; by split|]. intros _.
    destruct stmt as [| | | | |aop al ar|i2 c2 n2 s2|items| | |];
      try apply keeps_kread.
    + apply keeps_p_assignment.
    + change (S (for_depth (For i2 c2 n2 s2)) <= S n)%nat in Hd.
      apply IH. lia.
    + destruct items as [[|item [|item2 rest]]|]; try apply keeps_kread.
      * destruct item as [| | | | | |i2 c2 n2 s2| | | |];
          try apply keeps_p_assignment.
        change (S (for_depth (For i2 c2 n2 s2)) <= S n)%nat in Hd.
        apply IH. lia.
      * apply (keeps_kiter _p_assignment), keeps_p_assignment.
Qed.

Lemma declared_type (t : string) :
  str_in t ["double"; "float"] = true -> t = "double" \/ t = "float".
Proof.
  unfold str_in. simpl. rewrite orb_false_r, orb_true_iff, !String.eqb_eq. tauto.
Qed.

Lemma process_decl_ok {sp : SymPy} (item : node) (k k1 : Kernel) :
  process_decl item k = (Ok tt, k1) ->
  exists name ty t size,
    item = Decl name ty /\ (t = "double" \/ t = "float") /\
    k1 = mkKernel (_loop_stack k) (_sources k) (_destinations k) (_constants k)
                  (dset String.eqb (_variables k) name (t, size)).
Proof.
  unfold process_decl, kbind, kread. intros H.
  destruct item as [| | | | | | | |name type| |]; try done.
  destruct type as [t dim|names|]; try done.
  - destruct (decl_dims _ _) as [dn|]; [|done].
    destruct (py_assert _ _); [|done].
    unfold set_variable in H.
    destruct (str_in (hd "" (snd dn)) ["double"; "float"]) eqn:Et; [|done].
    simpl in H. injection H as <-.
    exists name, (ArrayDecl t dim), (hd "" (snd dn)), (Some (fst dn)).
    split_and!; [done|by apply declared_type|done].
  - destruct (py_assert _ _); [|done].
    unfold set_variable in H.
    destruct (str_in (hd "" names) ["double"; "float"]) eqn:Et; [|done].
    simpl in H. injection H as <-.
    exists name, (TypeDecl names), (hd "" names), None.
    split_and!; [done|by apply declared_type|done].
Qed.

Lemma decl_in_dec (name : string) (items : list node) :
  (exists ty, Decl name ty ∈ items) \/ (forall ty, Decl name ty ∉ items).
Proof.
  induction items as [|a items [[ty IH]|IH]].
  - right. intros ty H. by apply elem_of_nil in H.
  - left. exists ty. by right.
  - destruct a as [| | | | | | | |n t| |];
      try (right; intros ty H; apply elem_of_cons in H as [H|H];
           [done|by apply (IH ty)]).
    destruct (String.eqb name n) eqn:E.
    + apply String.eqb_eq in E. subst n. left. exists t. by left.
    + right. intros ty H. apply elem_of_cons in H as [H|H]; [|by apply (IH ty)].
      injection H as -> _. by rewrite String.eqb_refl in E.
Qed.

Lemma kiter_decl_ok {sp : SymPy} (items : list node) (k k1 : Kernel) :
  kiter process_decl items k = (Ok tt, k1) ->
  _constants k1 = _constants k /\
  (forall name ty, Decl name ty ∈ items ->
     exists t size, dget String.eqb (_variables k1) name = Some (t, size) /\
                    (t = "double" \/ t = "float")) /\
  (forall name, (forall ty, Decl name ty ∉ items) ->
     dget String.eqb (_variables k1) name = dget String.eqb (_variables k) name).
Proof.
  revert k. induction items as [|a items IH]; intros k H; simpl in H.
  - injection H as <-. split_and!; try done.
    intros name ty Hin. by apply elem_of_nil in Hin.
  - unfold kbind in H. destruct (process_decl a k) as [[[]|e] k0] eqn:E; [|done].
    apply process_decl_ok in E as (n & ty & t & size & -> & Ht & ->).
    destruct (IH _ H) as (Hc & Hin & Hout). simpl in *. split_and!; [done| |].
    + intros name ty' Hd. apply elem_of_cons in Hd as [Heq|Hd]; [|by eapply Hin].
      injection Heq as -> ->.
      destruct (decl_in_dec n items) as [[ty2 H2]|Hno].
      * by eapply Hin.
      * rewrite (Hout n Hno), (dget_dset_eq _ String.eqb_eq). by exists t, size.
    + intros name Hno. rewrite Hout.
      * rewrite (dget_dset_ne _ String.eqb_eq); [done|].
        intros ->. apply (Hno ty). by left.
      * intros ty' Hd. apply (Hno ty'). by right.
Qed.

(** X10: When [process] accepts a kernel, the constants are as before, the loop
    stack has grown by the indices of the loop nest, outermost first, every
    declared variable has an entry with the type [double] or [float], and the
    entries of the other variables are as before. *)
Theorem process_success {sp : SymPy} (decls : list node) (floop : node) (k k' : Kernel) :
  ops_parsed floop = true ->
  process (Compound (Some (decls ++ [floop]))) k = (Ok tt, k') ->
  _constants k' = _constants k /\
  loop_names k' = loop_names k ++ nest_indices floop /\
  (forall name ty, Decl name ty ∈ decls ->
     exists t size, dget String.eqb (_variables k') name = Some (t, size) /\
                    (t = "double" \/ t = "float")) /\
  (forall name, (forall ty, Decl name ty ∉ decls) ->
     dget String.eqb (_variables k') name = dget String.eqb (_variables k) name).
Proof.
  intros Hp. unfold process, kbind, kread.
  rewrite removelast_last, last_last.
  destruct (py_assert (forallb is_Decl decls) _) as [u|e]; [|done].
  destruct (decls ++ [floop]) as [|x xs] eqn:E;
    [by apply app_eq_nil in E as [_ ?]|].
  destruct (py_assert (is_For floop) _) as [u'|e]; [|done].
  destruct (kiter process_decl decls k) as [[[]|e] k1] eqn:Ed; [|done].
  intros Ef.
  pose proof (kiter_decl_loops _ _ _ _ Ed) as Hl.
  apply kiter_decl_ok in Ed as (Hc & Hin & Hout).
  destruct (keeps_p_for (for_depth floop) floop (le_n _) _ _ _ Ef) as [Hc' Hv'].
  apply (p_for_ok (for_depth floop) floop (le_n _) Hp) in Ef as [Hn _].
  rewrite Hc', Hv'. split_and!; try done.
  rewrite Hn. unfold loop_names. by rewrite Hl.
Qed.

Lemma process_success_witness :
  _constants daxpy_kernel = _constants (kernel_N 50) /\
  loop_names daxpy_kernel
  = loop_names (kernel_N 50) ++
    nest_indices
      (loop_head "i" 0 (ID "N")
         (Assignment "=" (ArrayRef (ID "a") (ID "i"))
            (BinaryOp "+" (ArrayRef (ID "a") (ID "i"))
               (BinaryOp "*" (ID "s") (ArrayRef (ID "b") (ID "i")))))) /\
  (forall name ty,
     Decl name ty ∈ [arr_decl "a" [BinaryOp "*" (ID "N") (Constant (IntLit 1))];
                     arr_decl "b" [ID "N"]; Decl "s" (TypeDecl ["double"])] ->
     exists t size, dget String.eqb (_variables daxpy_kernel) name = Some (t, size) /\
                    (t = "double" \/ t = "float")) /\
  (forall name,
     (forall ty,
        Decl name ty ∉ [arr_decl "a" [BinaryOp "*" (ID "N") (Constant (IntLit 1))];
                        arr_decl "b" [ID "N"]; Decl "s" (TypeDecl ["double"])]) ->
     dget String.eqb (_variables daxpy_kernel) name
     = dget String.eqb (_variables (kernel_N 50)) name).
Proof.
  apply (process_success (sp := sympy_strict)
           [arr_decl "a" [BinaryOp "*" (ID "N") (Constant (IntLit 1))];
            arr_decl "b" [ID "N"]; Decl "s" (TypeDecl ["double"])]
           (loop_head "i" 0 (ID "N")
              (Assignment "=" (ArrayRef (ID "a") (ID "i"))
                 (BinaryOp "+" (ArrayRef (ID "a") (ID "i"))
                    (BinaryOp "*" (ID "s") (ArrayRef (ID "b") (ID "i"))))))
           (kernel_N 50) daxpy_kernel).
  - vm_compute. reflexivity.
  - vm_compute. reflexivity.
Defined.

(** ** A kernel without an access on the innermost index *)

Lemma foldM_total {A B : Type} (P : B -> Prop) (f : B -> A -> res B) (l : list A)
    (b : B) :
  (forall x y, x ∈ l -> P y -> exists y', f y x = Ok y' /\ P y') ->
  P b -> exists b', foldM f l b = Ok b' /\ P b'.
Proof.
  revert b. induction l as [|x l IH]; intros b Hstep Hb; simpl.
  - by exists b.
  - destruct (Hstep x b) as (b1 & -> & Hb1); [by left|done|]. simpl.
    apply IH; [|done]. intros x' y Hx'. apply Hstep. by right.
Qed.

Lemma filterM_none {A : Type} (f : A -> res bool) (l : list A) :
  (forall x, x ∈ l -> f x = Ok false) -> filterM f l = Ok [].
Proof.
  induction l as [|x l IH]; intros H; simpl; [done|].
  rewrite (H x) by (by left). simpl. rewrite IH; [done|].
  intros y Hy. apply H. by right.
Qed.

Lemma no_pairs_dset (t : offsets_table) (name : string) :
  no_pairs t -> no_pairs (dset String.eqb t name []).
Proof.
  unfold no_pairs. induction t as [|[n0 d0] t IH]; intros H n d Hin; simpl in Hin.
  - apply list_elem_of_singleton in Hin. by injection Hin as _ ->.
  - destruct (name =? n0)%string.
    + apply elem_of_cons in Hin as [Hin|Hin]; [by injection Hin as _ ->|].
      apply (H n). by right.
    + apply elem_of_cons in Hin as [Hin|Hin].
      * apply (H n). rewrite Hin. by left.
      * apply IH with (n := n); [|done]. intros n' d' H'. apply (H n'). by right.
Qed.

Lemma no_pairs_empty_table (kernel : Kernel) : no_pairs (empty_table kernel).
Proof.
  unfold empty_table.
  assert (H : forall names t, no_pairs t ->
            no_pairs (fold_left (fun t name => dset String.eqb t name []) names t)).
  { induction names as [|n names IH]; intros t Ht; simpl; [done|].
    by apply IH, no_pairs_dset. }
  apply H. intros n d Hin. by apply elem_of_nil in Hin.
Qed.

Lemma no_pairs_index (t : offsets_table) (name : string) :
  no_pairs t -> name ∈ dkeys t -> dindex String.eqb t name = Ok [].
Proof.
  intros Ht Hin. unfold dindex.
  destruct (dget_key String.eqb String.eqb_eq t name Hin) as [d Hd].
  rewrite Hd. apply dget_str_elem, Ht in Hd. by subst.
Qed.

Lemma no_inner_access_offsets {fl : FloatOps} (kernel : Kernel)
    (machine : MachineModel fl) :
  no_inner_access kernel = true ->
  compile_offsets kernel machine = Ok (empty_table kernel, empty_table kernel).
Proof.
  unfold no_inner_access, compile_offsets. rewrite forallb_forall. intros H.
  assert (Hfold : forall vars rw,
            (forall x, x ∈ vars -> x ∈ _variables kernel) ->
            foldM (compile_variable kernel machine) vars rw = Ok rw);
    [|by apply Hfold].
  induction vars as [|var vars IH]; intros rw Hin; simpl; [done|].
  assert (Hstep : compile_variable kernel machine rw var = Ok rw).
  { assert (Hvar : var ∈ _variables kernel) by (apply Hin; by left).
    specialize (H var (proj1 (list_elem_of_In _ _) Hvar)).
    unfold compile_variable, dindex.
    destruct (dget_key String.eqb String.eqb_eq (_variables kernel) (fst var))
      as [[ty dims] Hd].
    { apply elem_of_dkeys. exists (snd var). by destruct var. }
    rewrite Hd in *. simpl. destruct dims as [ds|]; [|done].
    rewrite forallb_forall in H.
    rewrite !filterM_none; simpl.
    - destruct rw as [r w]. simpl.
      induction (py_range 1 (elements_per_cacheline machine)) as [|i l IHl];
        simpl; done.
    - intros acs Hacs. specialize (H acs). rewrite in_app_iff in H.
      apply list_elem_of_In in Hacs.
      destruct (uses_inner_index kernel acs) as [[|]|]; try done;
        (assert (false = true) by (apply H; by right)); done.
    - intros acs Hacs. specialize (H acs). rewrite in_app_iff in H.
      apply list_elem_of_In in Hacs.
      destruct (uses_inner_index kernel acs) as [[|]|]; try done;
        (assert (false = true) by (apply H; by left)); done. }
  rewrite Hstep. simpl. apply IH. intros x Hx. apply Hin. by right.
Qed.

Lemma no_pairs_pass {fl : FloatOps} (kernel : Kernel) (machine : MachineModel fl)
    (misses : dict Z offsets_table) (cache_level trace_length : Z)
    (r w : offsets_table) :
  no_pairs r -> no_pairs w -> dkeys r = dkeys w ->
  exists p, level_pass kernel machine misses cache_level r w trace_length = Ok p /\
            p_trace_count p = 0.
Proof.
  intros Hr Hw Hk. unfold level_pass.
  assert (Hi : exists init,
            init_misses misses cache_level r w = Ok init /\ no_pairs init).
  { unfold init_misses. apply (foldM_total no_pairs).
    - intros name t Hin Ht.
      assert (Hinr : name ∈ dkeys r).
      { apply elem_of_app in Hin as [?|?]; [done|by rewrite Hk]. }
      rewrite (no_pairs_index r name Hr Hinr).
      rewrite (no_pairs_index w name Hw) by (by rewrite <- Hk). simpl.
      eexists. split; [done|]. by apply no_pairs_dset.
    - intros n d Hin. by apply elem_of_nil in Hin. }
  destruct Hi as (init & -> & Hinit).
  simpl.
  assert (H : forall l acc, (forall n d, (n, d) ∈ l -> d = []) ->
            foldM (trace_variable kernel machine trace_length) l acc = Ok acc).
  { induction l as [|[n d] l IH]; intros acc Hl; simpl; [done|].
    rewrite (Hl n d) by (by left). unfold trace_variable. simpl.
    apply IH. intros n' d' H'. apply (Hl n'). by right. }
  rewrite H by done. by eexists.
Qed.

(** X11: When no access of a declared array depends on the innermost index (the
    kernel has only scalars, or its arrays are indexed by outer loops only),
    the read and write offsets have no pair, the trace of the first cache
    level counts no range, and [calculate_cache_access] raises
    [ZeroDivisionError] on every machine with at least one cache level, however
    many passes are allowed. *)
Theorem no_inner_access_division_by_zero {fl : FloatOps} (kernel : Kernel)
    (machine : MachineModel fl) (fuel : nat) :
  no_inner_access kernel = true ->
  cache_stack machine <> [] ->
  compile_offsets kernel machine = Ok (empty_table kernel, empty_table kernel) /\
  calculate_cache_access kernel machine (S fuel) = Some (Raise ZeroDivisionError).
Proof.
  intros Hno Hstack. pose proof (no_inner_access_offsets kernel machine Hno) as Hc.
  split; [done|].
  unfold calculate_cache_access, calculate_cache_access_stats. rewrite Hc.
  destruct (cache_stack machine) as [|lv rest]; [done|].
  rewrite levels_loop_cons. unfold level_step. cbn [level_loop].
  destruct (no_pairs_pass kernel machine [] (lv_level lv) 0
              (empty_table kernel) (empty_table kernel))
    as (p & -> & Hp); try apply no_pairs_empty_table; [done|].
  by rewrite (zero_trace_count_raises _ _ _ Hp).
Qed.

Lemma no_inner_access_division_by_zero_witness :
  compile_offsets rowsum_kernel snb
    = Ok (empty_table rowsum_kernel, empty_table rowsum_kernel) /\
  calculate_cache_access rowsum_kernel snb 1 = Some (Raise ZeroDivisionError).
Proof.
  apply (no_inner_access_division_by_zero rowsum_kernel snb 0).
  - vm_compute. reflexivity.
  - discriminate.
Defined.

(** ** The misses along the cache levels *)

Lemma levels_loop_pairs {fl : FloatOps} (kernel : Kernel)
    (machine : MachineModel fl) (read_offsets write_offsets : offsets_table)
    (fuel : nat) (stack : list (cache_level_info fl))
    (misses : dict Z offsets_table) (results res : dict string (num fl))
    (stats : list level_stats) :
  levels_loop kernel machine fuel read_offsets write_offsets (misses, results)
              stack = Some (Ok (res, stats)) ->
  forall st, st ∈ stats ->
    wf_table (s_candidates st) /\
    forall name idx,
      pair_ok (table_get (s_candidates st) name idx)
              (table_get (s_misses st) name idx)
              (table_get (s_hits st) name idx).
Proof.
  revert misses results stats. induction stack as [|lv stack IH];
    intros misses results stats H st Hst.
  - simpl in H. injection H as <- <-. by apply elem_of_nil in Hst.
  - rewrite levels_loop_cons in H.
    destruct (level_step _ _ _ _ _ _ lv) as [[[[m1 r1] st0]|]|] eqn:Es; try done.
    destruct (levels_loop _ _ _ _ _ _ stack) as [[[r2 ss]|]|] eqn:El; try done.
    injection H as <- <-.
    apply elem_of_cons in Hst as [->|Hst]; [|by eapply IH].
    apply level_step_ok in Es as (p & t & h & kv & Hl & Hf & _).
    apply level_loop_pass, level_pass_pairs in Hl as [Hi Hp].
    apply level_finish_fields in Hf as (-> & -> & -> & _).
    split; [by eapply init_misses_wf|done].
Qed.

(** X12: When the cache levels are numbered consecutively in the order of the
    cache stack, every miss and every hit of a level, for every (variable,
    index order) pair, is a miss of the level before it, and the level has
    no more misses and hits together than the level before it has misses:
    what a level has found in its cache never reaches the next one. *)
Theorem misses_shrink_along_levels {fl : FloatOps} (kernel : Kernel)
    (machine : MachineModel fl) (fuel : nat) (first : Z)
    (results : dict string (num fl)) (stats : list level_stats) :
  calculate_cache_access_stats kernel machine fuel = Some (Ok (results, stats)) ->
  map lv_level (cache_stack machine)
    = py_range first (first + zlen (cache_stack machine)) ->
  forall (i : nat) prev st name idx,
    stats !! i = Some prev -> stats !! S i = Some st ->
    let before := table_get (s_misses prev) name idx in
    let m := table_get (s_misses st) name idx in
    let h := table_get (s_hits st) name idx in
    (List.length m + List.length h <= List.length before)%nat /\
    (forall x, x ∈ m -> x ∈ before) /\
    (forall x, x ∈ h -> x ∈ before) /\
    NoDup h.
Proof.
  intros Hrun Hlv i prev st name idx Hprev Hst.
  unfold calculate_cache_access_stats in Hrun.
  destruct (compile_offsets kernel machine) as [[r w]|] eqn:Hc; [|done].
  pose proof (levels_loop_pairs _ _ _ _ _ _ _ _ _ _ Hrun st
                (list_elem_of_lookup_2 _ _ _ Hst)) as [Hwf Hp].
  specialize (Hp name idx). apply levels_loop_chain in Hrun.
  assert (Hlv' : forall (j : nat) lv,
            cache_stack machine !! j = Some lv -> lv_level lv = first + Z.of_nat j).
  { intros j lv Hj. apply (py_range_lookup first (first + zlen (cache_stack machine))).
    rewrite <- Hlv, list_lookup_fmap, Hj. done. }
  assert (Hcand : table_get (s_candidates st) name idx
                  = table_get (s_misses prev) name idx \/
                  table_get (s_candidates st) name idx = []).
  { destruct (dget String.eqb (s_candidates st) name) as [d|] eqn:Ed;
      [destruct (dget String.eqb d idx) as [l|] eqn:Ei|].
    - left. apply dget_str_elem in Ed, Ei.
      pose proof (chain_next r w first _ _ _ Hrun Hlv' i prev st name d idx l
                    Hprev Hst Ed Ei) as Hn.
      apply table_index_get in Hn. rewrite Hn.
      by apply (table_get_elem _ name idx d l Hwf).
    - right. unfold table_get. by rewrite Ed, Ei.
    - right. unfold table_get. by rewrite Ed. }
  destruct Hp as (Hle & _ & Hh & Hm & Hnd). simpl.
  destruct Hcand as [E|E]; rewrite E in Hle, Hh, Hm; [done|].
  simpl in Hle.
  destruct (table_get (s_misses st) name idx), (table_get (s_hits st) name idx);
    simpl in *; try lia.
  split_and!; [lia|intros x Hx; by apply elem_of_nil in Hx..|done].
Qed.

Lemma misses_shrink_along_levels_witness :
  calculate_cache_access_stats daxpy_kernel snb driver_fuel = Some (Ok daxpy_run) /\
  forall (i : nat) prev st name idx,
    snd daxpy_run !! i = Some prev -> snd daxpy_run !! S i = Some st ->
    let before := table_get (s_misses prev) name idx in
    let m := table_get (s_misses st) name idx in
    let h := table_get (s_hits st) name idx in
    (List.length m + List.length h <= List.length before)%nat /\
    (forall x, x ∈ m -> x ∈ before) /\
    (forall x, x ∈ h -> x ∈ before) /\
    NoDup h.
Proof.
  split; [vm_compute; reflexivity|].
  apply (misses_shrink_along_levels daxpy_kernel snb driver_fuel 1
           (fst daxpy_run) (snd daxpy_run)).
  - vm_compute. reflexivity.
  - vm_compute. reflexivity.
Defined.

(** ** The read and write offsets *)

Lemma sorted_ge_NoDup_gt (l : list Z) :
  StronglySorted Z.ge l -> NoDup l -> StronglySorted Z.gt l.
Proof.
  induction 1 as [|x l Hs IH Hall]; intros Hnd; constructor.
  - apply IH. by apply NoDup_cons in Hnd as [_ ?].
  - apply NoDup_cons in Hnd as [Hx _].
    rewrite Forall_forall in *. intros y Hy.
    assert (x <> y) by (intros ->; done).
    specialize (Hall y Hy). lia.
Qed.

Lemma set_sorted_rev_descending (l : list Z) :
  StronglySorted Z.gt (set_sorted_rev l).
Proof.
  unfold set_sorted_rev, py_sorted_rev. apply sorted_ge_NoDup_gt.
  - apply StronglySorted_merge_sort; [intros x y z; lia|intros x y; lia].
  - rewrite merge_sort_Permutation. apply dedup_fold_NoDup, NoDup_nil_2.
Qed.

Lemma descending_but_nil (v0 v : string) (pending : list access)
    (t : offsets_table) :
  descending_but v0 [] t -> descending_but v pending t.
Proof.
  intros Ht n i. destruct (Ht n i) as [?|(_ & acs & H & _)]; [by left|].
  by apply elem_of_nil in H.
Qed.

Section CompileOffsets.
Context {fl : FloatOps} (kernel : Kernel) (machine : MachineModel fl).

Lemma compile_access_table_set (v : string) (t t' : offsets_table) (acs : access) :
  compile_access kernel v t acs = Ok t' ->
  exists idx offset,
    _get_index_order acs = Ok idx /\
    table_set t v idx (table_get t v idx ++ [offset]) = Ok t'.
Proof.
  unfold compile_access, table_set, table_get, dindex. intros H.
  destruct (_calculate_relative_offset kernel v acs) as [o|]; [|done].
  simpl in H. destruct (_get_index_order acs) as [idx|]; [|done]. simpl in H.
  destruct (dget String.eqb t v) as [d|]; [|done]. simpl in H.
  exists idx, o. by split.
Qed.

Lemma unroll_access_table_set (v : string) (i : Z) (t t' : offsets_table)
    (acs : access) :
  unroll_access kernel v i t acs = Ok t' ->
  exists idx l,
    _get_index_order acs = Ok idx /\ table_set t v idx (set_sorted_rev l) = Ok t'.
Proof.
  unfold unroll_access. intros H.
  destruct (_get_index_order acs) as [idx|]; [|done]. simpl in H.
  destruct (_calculate_relative_offset kernel v acs) as [o|]; [|done].
  simpl in H. destruct (last_char _) as [inner|]; [|done]. simpl in H.
  destruct (_calculate_iteration_offset kernel v idx inner) as [io|]; [|done].
  simpl in H. destruct (table_index t v idx) as [l|]; [|done]. simpl in H.
  by eexists idx, _.
Qed.

Lemma compile_access_pending (v : string) (pending : list access)
    (t t' : offsets_table) (acs : access) :
  acs ∈ pending -> descending_but v pending t ->
  compile_access kernel v t acs = Ok t' -> descending_but v pending t'.
Proof.
  intros Hin Ht H n i.
  apply compile_access_table_set in H as (idx & o & Ho & Hs).
  rewrite (table_get_set _ _ _ _ n i _ Hs).
  destruct (decide _) as [[<- <-]|_]; [|apply Ht].
  right. split; [done|]. by exists acs.
Qed.

Lemma unroll_accesses_descending (v : string) (i : Z) (l : list access)
    (t t' : offsets_table) :
  descending_but v l t ->
  foldM (unroll_access kernel v i) l t = Ok t' ->
  descending_but v [] t'.
Proof.
  revert t. induction l as [|acs l IH]; intros t Ht H; simpl in H.
  - by injection H as <-.
  - destruct (unroll_access kernel v i t acs) as [t1|] eqn:E; [|done].
    simpl in H. apply (IH t1); [|done].
    apply unroll_access_table_set in E as (idx & l0 & Ho & Hs).
    intros n j. rewrite (table_get_set _ _ _ _ n j _ Hs).
    destruct (decide _) as [[<- <-]|Hne].
    + left. apply set_sorted_rev_descending.
    + destruct (Ht n j) as [?|(-> & acs' & Hin & Ho')]; [by left|].
      apply elem_of_cons in Hin as [->|Hin].
      * exfalso. apply Hne. rewrite Ho in Ho'. by injection Ho' as ->.
      * right. split; [done|]. by exists acs'.
Qed.

Lemma compile_variable_descending (rw rw' : offsets_table * offsets_table)
    (var : string * (string * option (list Z))) :
  2 <= elements_per_cacheline machine ->
  descending_but "" [] (fst rw) /\ descending_but "" [] (snd rw) ->
  compile_variable kernel machine rw var = Ok rw' ->
  descending_but "" [] (fst rw') /\ descending_but "" [] (snd rw').
Proof.
  intros Hepc [Hr Hw]. unfold compile_variable.
  destruct (dindex String.eqb (_variables kernel) (fst var)) as [info|]; [|done].
  simpl. destruct (snd info) as [ds|]; [|by intros [= <-]].
  destruct (filterM _ _) as [writes|]; [|done]. simpl.
  destruct (filterM _ _) as [reads|]; [|done]. simpl.
  set (v := fst var).
  destruct (foldM (compile_access kernel v) reads (fst rw)) as [r1|] eqn:Er;
    [|done]. simpl.
  destruct (foldM (compile_access kernel v) writes (snd rw)) as [w1|] eqn:Ew;
    [|done]. simpl.
  assert (Hr1 : descending_but v reads r1).
  { revert Er. apply (foldM_inv (descending_but v reads)).
    - intros acs y y' Hin Hy. by apply compile_access_pending.
    - by apply (descending_but_nil ""). }
  assert (Hw1 : descending_but v writes w1).
  { revert Ew. apply (foldM_inv (descending_but v writes)).
    - intros acs y y' Hin Hy. by apply compile_access_pending.
    - by apply (descending_but_nil ""). }
  assert (Hrange : exists l, py_range 1 (elements_per_cacheline machine) = 1 :: l).
  { unfold py_range.
    destruct (Z.to_nat (elements_per_cacheline machine - 1)) as [|n] eqn:E; [lia|].
    simpl. by eexists. }
  destruct Hrange as [l ->]. cbn [foldM fst snd].
  destruct (foldM (unroll_access kernel v 1) reads r1) as [r2|] eqn:Er2;
    cbn [bind fst snd]; [|done].
  destruct (foldM (unroll_access kernel v 1) writes w1) as [w2|] eqn:Ew2;
    cbn [bind]; [|done].
  apply unroll_accesses_descending in Er2; [|done].
  apply unroll_accesses_descending in Ew2; [|done].
  assert (Hall : forall t, descending_but v [] t -> descending_but "" [] t)
    by (intros t; apply descending_but_nil).
  apply (foldM_inv (fun rw => descending_but "" [] (fst rw) /\
                              descending_but "" [] (snd rw))); [|auto].
  intros i [r3 w3] y' _ [Hr3 Hw3] Hs. simpl in *.
  destruct (foldM (unroll_access kernel v i) reads r3) as [r4|] eqn:Er4;
    [|done]. simpl in Hs.
  destruct (foldM (unroll_access kernel v i) writes w3) as [w4|] eqn:Ew4;
    [|done]. simpl in Hs. injection Hs as <-. simpl.
  split; apply Hall.
  - apply (unroll_accesses_descending v i reads r3); [|done].
    by apply (descending_but_nil "").
  - apply (unroll_accesses_descending v i writes w3); [|done].
    by apply (descending_but_nil "").
Qed.
End CompileOffsets.

Lemma table_get_no_pairs (t : offsets_table) (n i : string) :
  no_pairs t -> table_get t n i = [].
Proof.
  intros Ht. unfold table_get.
  destruct (dget String.eqb t n) as [d|] eqn:E; [|done].
  apply dget_str_elem, Ht in E. by subst.
Qed.

(** X13: When a cache line holds at least two elements, every list of read
    offsets and of write offsets that the first part of
    [calculate_cache_access] compiles is in strictly descending order: each
    offset is listed once, the latest access first. *)
Theorem compiled_offsets_descending {fl : FloatOps} (kernel : Kernel)
    (machine : MachineModel fl) (read_offsets write_offsets : offsets_table) :
  2 <= elements_per_cacheline machine ->
  compile_offsets kernel machine = Ok (read_offsets, write_offsets) ->
  forall name idx,
    StronglySorted Z.gt (table_get read_offsets name idx) /\
    StronglySorted Z.gt (table_get write_offsets name idx).
Proof.
  intros Hepc H.
  assert (Hd : descending_but "" [] (fst (read_offsets, write_offsets)) /\
               descending_but "" [] (snd (read_offsets, write_offsets))).
  { revert H. unfold compile_offsets.
    apply (foldM_inv (fun rw => descending_but "" [] (fst rw) /\
                                descending_but "" [] (snd rw))).
    - intros var y y' _ Hy Hs. by eapply compile_variable_descending.
    - simpl. split; intros n i; left;
        rewrite table_get_no_pairs by apply no_pairs_empty_table; constructor. }
  destruct Hd as [Hr Hw]. intros name idx. split.
  - destruct (Hr name idx) as [?|(_ & acs & Hin & _)]; [done|].
    by apply elem_of_nil in Hin.
  - destruct (Hw name idx) as [?|(_ & acs & Hin & _)]; [done|].
    by apply elem_of_nil in Hin.
Qed.

Lemma compiled_offsets_descending_witness :
  compile_offsets daxpy_kernel snb = Ok (daxpy_reads, daxpy_writes) /\
  forall name idx,
    StronglySorted Z.gt (table_get daxpy_reads name idx) /\
    StronglySorted Z.gt (table_get daxpy_writes name idx).
Proof.
  split; [vm_compute; reflexivity|].
  apply (compiled_offsets_descending daxpy_kernel snb daxpy_reads daxpy_writes).
  - vm_compute. discriminate.
  - vm_compute. reflexivity.
Defined.

Lemma empty_table_wf (kernel : Kernel) : wf_table (empty_table kernel).
Proof.
  unfold empty_table.
  assert (H : forall names t, wf_table t ->
            wf_table (fold_left (fun t name => dset String.eqb t name []) names t)).
  { induction names as [|n names IH]; intros t Ht; simpl; [done|].
    apply IH, dset_wf; [done|apply NoDup_nil_2]. }
  apply H, wf_table_nil.
Qed.

Lemma compile_offsets_wf {fl : FloatOps} (kernel : Kernel)
    (machine : MachineModel fl) (r w : offsets_table) :
  compile_offsets kernel machine = Ok (r, w) -> wf_table r /\ wf_table w.
Proof.
  unfold compile_offsets. intros H.
  enough (wf_table (fst (r, w)) /\ wf_table (snd (r, w))) by done.
  revert H.
  apply (foldM_inv (fun rw => wf_table (fst rw) /\ wf_table (snd rw)));
    [|split; apply empty_table_wf].
  intros var rw rw' _ [Hr Hw]. unfold compile_variable.
  destruct (dindex String.eqb (_variables kernel) (fst var)) as [info|]; [|done].
  simpl. destruct (snd info) as [ds|]; [|by intros [= <-]].
  destruct (filterM _ _) as [writes|]; [|done]. simpl.
  destruct (filterM _ _) as [reads|]; [|done]. simpl.
  assert (Hacc : forall l t t', wf_table t ->
            foldM (compile_access kernel (fst var)) l t = Ok t' -> wf_table t').
  { intros l t t' Ht. apply (foldM_inv wf_table); [|done].
    intros acs y y' _ Hy Hs.
    apply compile_access_table_set in Hs as (idx & o & _ & Hs).
    by eapply table_set_wf. }
  assert (Hun : forall i l t t', wf_table t ->
            foldM (unroll_access kernel (fst var) i) l t = Ok t' -> wf_table t').
  { intros i l t t' Ht. apply (foldM_inv wf_table); [|done].
    intros acs y y' _ Hy Hs.
    apply unroll_access_table_set in Hs as (idx & l0 & _ & Hs).
    by eapply table_set_wf. }
  destruct (foldM (compile_access kernel (fst var)) reads (fst rw)) as [r1|] eqn:Er;
    [|done]. simpl.
  destruct (foldM (compile_access kernel (fst var)) writes (snd rw)) as [w1|] eqn:Ew;
    [|done]. simpl.
  apply (foldM_inv (fun rw => wf_table (fst rw) /\ wf_table (snd rw)));
    [|split; eauto].
  intros i [r3 w3] y' _ [Hr3 Hw3] Hs. simpl in *.
  destruct (foldM (unroll_access kernel (fst var) i) reads r3) as [r4|] eqn:Er4;
    [|done]. simpl in Hs.
  destruct (foldM (unroll_access kernel (fst var) i) writes w3) as [w4|] eqn:Ew4;
    [|done]. simpl in Hs. injection Hs as <-. simpl. split; eauto.
Qed.

(** ** The evicts of a level *)

Lemma foldM_inv_prefix {A B : Type} (P : list A -> B -> Prop)
    (f : B -> A -> res B) (l : list A) (b b' : B) :
  (forall pre x post y y',
     l = pre ++ x :: post -> P pre y -> f y x = Ok y' -> P (pre ++ [x]) y') ->
  P [] b -> foldM f l b = Ok b' -> P l b'.
Proof.
  intros Hstep.
  enough (H : forall rest pre y, l = pre ++ rest -> P pre y ->
              foldM f rest y = Ok b' -> P l b') by (by apply (H l [] b)).
  induction rest as [|x rest IH]; intros pre y Hl Hy Hf; simpl in Hf.
  - injection Hf as <-. by rewrite Hl, app_nil_r.
  - destruct (f y x) as [y1|] eqn:E; [|done]. simpl in Hf.
    apply (IH (pre ++ [x]) y1); [by rewrite <- app_assoc| |done].
    by apply (Hstep pre x rest y).
Qed.

Lemma dget_app {K V : Type} (keq : K -> K -> bool) (a b : dict K V) (k : K) :
  dget keq (a ++ b) k
  = match dget keq a k with Some v => Some v | None => dget keq b k end.
Proof.
  induction a as [|[k0 v0] a IH]; simpl; [done|]. by destruct (keq k k0).
Qed.

Lemma NoDup_keys_prefix {V : Type} (pre post : dict string V) (k : string) (v : V) :
  NoDup (dkeys (pre ++ (k, v) :: post)) -> k ∉ dkeys pre.
Proof.
  unfold dkeys. rewrite map_app. simpl. intros H Hin.
  apply NoDup_app in H as (_ & H & _). apply (H k Hin). by left.
Qed.

Lemma level_evicts_get (kernel : Kernel) (write_offsets ev : offsets_table) :
  wf_table write_offsets ->
  level_evicts kernel write_offsets = Ok ev ->
  forall n i, table_get ev n i = table_get write_offsets n i.
Proof.
  intros [Hk Hd]. unfold level_evicts.
  apply (foldM_inv_prefix (fun pre t => forall n i, table_get t n i = table_get pre n i)).
  - intros pre [n0 d0] post t t' Hw Ht. simpl.
    assert (Hn0 : n0 ∉ dkeys pre).
    { apply (NoDup_keys_prefix pre post n0 d0). by rewrite <- Hw. }
    assert (Hd0 : NoDup (dkeys d0)).
    { apply (Hd n0). rewrite Hw. apply elem_of_app. right. by left. }
    apply (foldM_inv_prefix
             (fun dpre t => forall n i,
                table_get t n i = table_get (pre ++ [(n0, dpre)]) n i)).
    + intros dpre [i0 l0] dpost y y' Hd0' Hy Hs n i. simpl in Hs.
      rewrite (table_get_set _ _ _ _ n i _ Hs), Hy.
      assert (Hi0 : i0 ∉ dkeys dpre).
      { apply (NoDup_keys_prefix dpre dpost i0 l0). by rewrite <- Hd0'. }
      unfold table_get. rewrite !dget_app. simpl.
      destruct (decide (n0 = n /\ i0 = i)) as [[<- <-]|Hne].
      * rewrite (dget_not_key pre n0 Hn0), String.eqb_refl.
        by rewrite dget_app, (dget_not_key dpre i0 Hi0); simpl;
          rewrite String.eqb_refl.
      * destruct (dget String.eqb pre n); [done|].
        destruct (n =? n0)%string eqn:En; [|done].
        apply String.eqb_eq in En. subst n. rewrite dget_app. simpl.
        destruct (dget String.eqb dpre i); [done|].
        destruct (i =? i0)%string eqn:Ei; [|done].
        apply String.eqb_eq in Ei. subst i. by destruct Hne.
    + intros n i. rewrite Ht. unfold table_get. rewrite dget_app. simpl.
      destruct (dget String.eqb pre n); [done|]. by destruct (n =? n0)%string.
  - intros n i. by rewrite table_get_no_pairs by apply no_pairs_empty_table.
Qed.

Lemma levels_loop_evicts {fl : FloatOps} (kernel : Kernel)
    (machine : MachineModel fl) (read_offsets write_offsets : offsets_table)
    (fuel : nat) (stack : list (cache_level_info fl))
    (misses : dict Z offsets_table) (results res : dict string (num fl))
    (stats : list level_stats) :
  levels_loop kernel machine fuel read_offsets write_offsets (misses, results)
              stack = Some (Ok (res, stats)) ->
  forall st, st ∈ stats ->
    level_evicts kernel write_offsets = Ok (s_evicts st) /\
    total_lines machine (s_misses st) = Ok (s_lines_misses st) /\
    total_lines machine (s_evicts st) = Ok (s_lines_evicts st).
Proof.
  revert misses results stats. induction stack as [|lv stack IH];
    intros misses results stats H st Hst.
  - simpl in H. injection H as <- <-. by apply elem_of_nil in Hst.
  - rewrite levels_loop_cons in H.
    destruct (level_step _ _ _ _ _ _ lv) as [[[[m1 r1] st0]|]|] eqn:Es; try done.
    destruct (levels_loop _ _ _ _ _ _ stack) as [[[r2 ss]|]|] eqn:El; try done.
    injection H as <- <-.
    apply elem_of_cons in Hst as [->|Hst]; [|by eapply IH].
    apply level_step_ok in Es as (p & t & h & kv & Hl & Hf & _).
    apply level_finish_fields in Hf as (_ & -> & _ & _ & Hm & ev & He & -> & Hle).
    done.
Qed.

(** X14: At every cache level the evicts are the write offsets: for every
    (variable, index order) pair, the list of evicted offsets of the level is
    the list of write offsets of the pair, whatever the size of the cache. *)
Theorem evicts_are_write_offsets {fl : FloatOps} (kernel : Kernel)
    (machine : MachineModel fl) (fuel : nat)
    (read_offsets write_offsets : offsets_table)
    (results : dict string (num fl)) (stats : list level_stats) :
  compile_offsets kernel machine = Ok (read_offsets, write_offsets) ->
  calculate_cache_access_stats kernel machine fuel = Some (Ok (results, stats)) ->
  forall st, st ∈ stats ->
    forall name idx,
      table_get (s_evicts st) name idx = table_get write_offsets name idx.
Proof.
  intros Hc Hrun st Hst. unfold calculate_cache_access_stats in Hrun.
  rewrite Hc in Hrun.
  destruct (levels_loop_evicts _ _ _ _ _ _ _ _ _ _ Hrun st Hst) as (He & _).
  apply compile_offsets_wf in Hc as [_ Hw]. by apply (level_evicts_get kernel).
Qed.

Lemma evicts_are_write_offsets_witness :
  compile_offsets daxpy_kernel snb = Ok (daxpy_reads, daxpy_writes) /\
  forall st, st ∈ snd daxpy_run ->
    forall name idx,
      table_get (s_evicts st) name idx = table_get daxpy_writes name idx.
Proof.
  split; [vm_compute; reflexivity|].
  apply (evicts_are_write_offsets daxpy_kernel snb driver_fuel daxpy_reads
           daxpy_writes (fst daxpy_run)).
  - vm_compute. reflexivity.
  - vm_compute. reflexivity.
Defined.

(** ** Cache lines and offsets *)

Lemma mapM_sum_le {A : Type} (f : A -> res Z) (g : A -> Z) (l : list A)
    (ys : list Z) :
  (forall x y, x ∈ l -> f x = Ok y -> 0 <= y <= g x) ->
  mapM f l = Ok ys -> 0 <= zsum ys <= zsum (map g l).
Proof.
  revert ys. induction l as [|x l IH]; intros ys Hf H; simpl in H.
  - injection H as <-. simpl. lia.
  - destruct (f x) as [y|] eqn:E; [|done]. simpl in H.
    destruct (mapM f l) as [ys'|]; [|done]. simpl in H. injection H as <-.
    simpl. specialize (Hf x y (list_elem_of_here _ _) E) as Hy.
    specialize (IH ys' (fun x' y' Hx' => Hf x' y' (list_elem_of_further _ _ _ Hx'))
                   eq_refl). lia.
Qed.

(** X15: The number of cache lines that [calculate_cache_access] counts for the
    misses, the hits or the evicts of a level lies between [0] and the number
    of offsets of the same table. *)
Theorem lines_at_most_offsets {fl : FloatOps} (machine : MachineModel fl)
    (t : offsets_table) (lines : Z) :
  total_lines machine t = Ok lines -> 0 <= lines <= total_count t.
Proof.
  unfold total_lines, total_count. intros H.
  destruct (mapM _ t) as [per_var|] eqn:E; [|done]. simpl in H.
  injection H as <-. revert E. apply mapM_sum_le.
  intros [n d] y _ Hy. simpl in Hy.
  destruct (mapM _ d) as [ls|] eqn:El; [|done]. simpl in Hy. injection Hy as <-.
  revert El. apply mapM_sum_le.
  intros [i l] y _ Hy. simpl in Hy.
  destruct (blocking l (elements_per_cacheline machine) 0) as [b|] eqn:Eb; [|done].
  simpl in Hy. injection Hy as <-. apply blocking_length in Eb.
  unfold zlen. simpl. lia.
Qed.

Lemma lines_at_most_offsets_witness :
  0 <= 2 <= total_count daxpy_level1_misses.
Proof.
  apply (lines_at_most_offsets snb daxpy_level1_misses 2).
  vm_compute. reflexivity.
Defined.

(** ** The first candidate of a pair *)

Lemma count_list_remove_eq (x : Z) (l : list Z) :
  x ∈ l ->
  S (count_occ Z.eq_dec (list_remove x l) x) = count_occ Z.eq_dec l x.
Proof.
  induction l as [|y l IH]; intros Hin; [by apply elem_of_nil in Hin|].
  simpl. destruct (Z.eqb_spec x y) as [->|Hne].
  - by destruct (Z.eq_dec y y).
  - simpl. destruct (Z.eq_dec y x) as [->|_]; [done|].
    apply IH. by apply elem_of_cons in Hin as [?|?].
Qed.

Lemma count_list_remove_ne (x y : Z) (l : list Z) :
  x <> y -> count_occ Z.eq_dec (list_remove x l) y = count_occ Z.eq_dec l y.
Proof.
  intros Hne. induction l as [|z l IH]; [done|].
  simpl. destruct (Z.eqb_spec x z) as [->|Hxz].
  - by destruct (Z.eq_dec z y).
  - simpl. by rewrite IH.
Qed.

Section FirstCandidate.
Context {fl : FloatOps} (machine : MachineModel fl).
Context (iter_offset trace_length : Z).

Lemma trace_fold_keeps (first : Z) (rest : list Z) (st st' : trace_state) :
  foldM (trace_step machine iter_offset trace_length) rest st = Ok st' ->
  (count_occ Z.eq_dec rest first < count_occ Z.eq_dec (fst (fst st)) first)%nat ->
  (0 < count_occ Z.eq_dec (fst (fst st')) first)%nat.
Proof.
  revert st. induction rest as [|o rest IH]; intros st H Hc; simpl in H.
  - injection H as <-. lia.
  - destruct (trace_step machine iter_offset trace_length st o) as [st1|] eqn:Es;
      [|done]. simpl in H. apply (IH st1 H).
    destruct st as [[m h] c].
    apply trace_step_ok in Es as (rs & _ & [(_ & Hin & ->)|(_ & ->)]);
      simpl in *.
    + destruct (Z.eq_dec o first) as [->|Hne].
      * pose proof (count_list_remove_eq first m Hin). lia.
      * rewrite count_list_remove_ne by done. lia.
    + destruct (Z.eq_dec o first); lia.
Qed.

Lemma trace_offsets_first (first : Z) (rest m h : list Z) (c : Intervals.t) :
  trace_offsets machine iter_offset trace_length (first :: rest) = Ok (m, h, c) ->
  first ∈ m.
Proof.
  unfold trace_offsets. cbn [foldM]. intros H.
  destruct (trace_step machine iter_offset trace_length
              (first :: rest, [], Intervals.empty) first) as [st1|] eqn:Es; [|done].
  cbn [bind] in H.
  apply trace_step_ok in Es as (rs & _ & [(? & _)|(_ & ->)]); [done|].
  apply (trace_fold_keeps first) in H.
  - simpl in H. apply (count_occ_In Z.eq_dec) in H. by apply list_elem_of_In.
  - simpl. destruct (Z.eq_dec first first); [lia|done].
Qed.
End FirstCandidate.

Lemma level_pass_rel {fl : FloatOps} (kernel : Kernel) (machine : MachineModel fl)
    (Q : list Z -> list Z -> list Z -> Prop)
    (misses : dict Z offsets_table) (cache_level : Z)
    (read_offsets write_offsets : offsets_table) (trace_length : Z)
    (p : pass_result) :
  (forall c, Q c c []) ->
  (forall var idx cands m h c,
     trace_pair kernel machine var idx trace_length cands = Ok (m, h, c) ->
     Q cands m h) ->
  level_pass kernel machine misses cache_level read_offsets write_offsets
             trace_length = Ok p ->
  forall name idx,
    Q (table_get (p_candidates p) name idx)
      (table_get (p_misses p) name idx)
      (table_get (p_hits p) name idx).
Proof.
  intros Hinit Hpair. unfold level_pass. intros H.
  destruct (init_misses _ _ _ _) as [init|] eqn:Ei; [|done]. simpl in H.
  pose proof (init_misses_wf _ _ _ _ init Ei) as Hwf.
  set (P := fun acc : pass_result =>
              init = p_candidates acc /\
              forall name idx,
                Q (table_get (p_candidates acc) name idx)
                  (table_get (p_misses acc) name idx)
                  (table_get (p_hits acc) name idx)).
  enough (P p) as [_ ?] by done.
  revert H. apply (foldM_inv P).
  - intros [var d] acc acc' Hin Hacc. unfold trace_variable. simpl.
    apply (foldM_inv P); [|done].
    intros [idx cands] y y' Hp [Hc Hy] Hs. simpl in Hs.
    destruct (trace_pair _ _ _ _ _ _) as [[[m h] c]|] eqn:Et; [|done].
    simpl in Hs.
    destruct (table_set (p_misses y) var idx m) as [ms|] eqn:Ems; [|done].
    simpl in Hs.
    destruct (table_set (p_hits y) var idx h) as [hs|] eqn:Ehs; [|done].
    simpl in Hs. injection Hs as <-. unfold P. simpl. split; [done|].
    intros name i.
    rewrite (table_get_set _ _ _ _ name i _ Ems).
    rewrite (table_get_set _ _ _ _ name i _ Ehs).
    destruct (decide _) as [[<- <-]|_]; [|apply Hy].
    rewrite <- Hc.
    rewrite (table_get_elem init var idx d cands) by done.
    by eapply Hpair.
  - unfold P. simpl. split; [done|].
    intros name idx. rewrite table_get_init_hits. apply Hinit.
Qed.

(** X16: The first candidate of a pair, the highest offset, is never found in
    the cache: after the backward trace of a level, for every trace length,
    it is among the misses of the pair.  Every pair that enters a cache level
    with a candidate leaves it with at least one miss. *)
Theorem first_candidate_misses {fl : FloatOps} (kernel : Kernel)
    (machine : MachineModel fl) (misses : dict Z offsets_table) (cache_level : Z)
    (read_offsets write_offsets : offsets_table) (trace_length : Z)
    (p : pass_result) :
  level_pass kernel machine misses cache_level read_offsets write_offsets
             trace_length = Ok p ->
  forall name idx first,
    head (table_get (p_candidates p) name idx) = Some first ->
    first ∈ table_get (p_misses p) name idx.
Proof.
  intros H name idx.
  apply (level_pass_rel kernel machine
           (fun c m h => forall first, head c = Some first -> first ∈ m)
           misses cache_level read_offsets write_offsets trace_length p);
    [| |done].
  - intros [|c0 c] first; [done|]. intros [= ->]. by left.
  - intros var i cands m h c Ht first Hf. unfold trace_pair in Ht.
    destruct (last_char _) as [inner|]; [|done]. simpl in Ht.
    destruct (_calculate_iteration_offset _ _ _ _) as [io|]; [|done].
    simpl in Ht. destruct cands as [|c0 rest]; [done|]. injection Hf as ->.
    by eapply trace_offsets_first.
Qed.

Lemma first_candidate_misses_witness :
  level_pass daxpy_kernel snb [] 1 daxpy_reads daxpy_writes 0
  = Ok (mkPass daxpy_level1_candidates daxpy_level1_misses daxpy_level1_hits
               2 256) /\
  forall name idx first,
    head (table_get daxpy_level1_candidates name idx) = Some first ->
    first ∈ table_get daxpy_level1_misses name idx.
Proof.
  split; [vm_compute; reflexivity|].
  apply (first_candidate_misses daxpy_kernel snb [] 1 daxpy_reads daxpy_writes 0
           (mkPass daxpy_level1_candidates daxpy_level1_misses daxpy_level1_hits
                   2 256)).
  vm_compute. reflexivity.
Defined.

(** ** A stream within the reach of its first offset *)

Section Stream.
Context {fl : FloatOps} (machine : MachineModel fl).
Context (iter_offset trace_length first : Z).
Hypothesis epc_pos : 0 < elements_per_cacheline machine.
Hypothesis overlap : iter_offset <= elements_per_cacheline machine.

Lemma overlapping_ranges (offset : Z) :
  cached_ranges machine iter_offset trace_length offset
  = Ok [((offset - iter_offset * trace_length)
         - (offset - iter_offset * trace_length) mod elements_per_cacheline machine,
         offset + 1 - (offset + 1) mod elements_per_cacheline machine
         + elements_per_cacheline machine - 1 + 1)].
Proof.
  unfold cached_ranges, _expand_to_cacheline_blocks, py_mod.
  destruct (iter_offset <=? elements_per_cacheline machine) eqn:E; [|lia].
  destruct (elements_per_cacheline machine =? 0) eqn:E0; [lia|]. done.
Qed.

Lemma stream_fold (todo done_ : list Z) (c : Intervals.t) (low : Z) :
  NoDup (first :: done_ ++ todo) ->
  (forall x, x ∈ todo -> low <= x <= first) ->
  (forall x, low <= x <= first -> Intervals.contains c x = true) ->
  exists c',
    foldM (trace_step machine iter_offset trace_length) todo
          (first :: todo, done_, c) = Ok ([first], done_ ++ todo, c').
Proof.
  revert done_ c. induction todo as [|o todo IH]; intros done_ c Hnd Hr Hc.
  - exists c. by rewrite app_nil_r.
  - cbn [foldM]. unfold trace_step at 1.
    rewrite (Hc o) by (apply Hr; by left).
    apply NoDup_cons in Hnd as [Hfirst Hnd].
    assert (Hof : o <> first).
    { intros ->. apply Hfirst. apply elem_of_app. right. by left. }
    assert (Hod : o ∉ done_).
    { apply NoDup_app in Hnd as (_ & Hnd & _). intros Hin.
      apply (Hnd o Hin). by left. }
    unfold py_remove.
    assert (zmem o (first :: o :: todo) = true) as ->
      by (apply zmem_elem_of; right; by left).
    cbn [bind list_remove].
    destruct (Z.eqb_spec o first) as [?|_]; [done|]. rewrite Z.eqb_refl.
    apply zmem_false in Hod. rewrite Hod, overlapping_ranges. cbn [bind fst snd].
    destruct (IH (done_ ++ [o])
                 (Intervals.merge c
                    [((o - iter_offset * trace_length)
                      - (o - iter_offset * trace_length)
                        mod elements_per_cacheline machine,
                      o + 1 - (o + 1) mod elements_per_cacheline machine
                      + elements_per_cacheline machine - 1 + 1)]))
      as [c' Hc'].
    + rewrite <- app_assoc. simpl. by apply NoDup_cons.
    + intros x Hx. apply Hr. by right.
    + intros x Hx. by apply contains_merge_mono, Hc.
    + exists c'. rewrite Hc'. by rewrite <- app_assoc.
Qed.
End Stream.

(** X17: When the iterations overlap ([iter_offset] is at most the number of
    elements of a cache line) and the candidates of a pair are distinct and
    lie between the start of the cache line of
    [first - iter_offset * trace_length] and the first candidate, the trace
    of the pair returns, its first candidate is its only miss, and all the
    other candidates are hits, in their order.  This is the case of a
    stream with unit stride such as the arrays of DAXPY. *)
Theorem stream_in_reach_has_one_miss {fl : FloatOps} (machine : MachineModel fl)
    (iter_offset trace_length first : Z) (rest : list Z) :
  0 < elements_per_cacheline machine ->
  iter_offset <= elements_per_cacheline machine ->
  NoDup (first :: rest) ->
  (forall x, x ∈ rest ->
     (first - iter_offset * trace_length)
     - (first - iter_offset * trace_length) mod elements_per_cacheline machine
     <= x <= first) ->
  exists c,
    trace_offsets machine iter_offset trace_length (first :: rest)
    = Ok ([first], rest, c).
Proof.
  intros Hepc Hov Hnd Hr. unfold trace_offsets. cbn [foldM].
  unfold trace_step at 1. cbn [Intervals.contains Intervals.empty existsb bind].
  rewrite overlapping_ranges by done. cbn [bind fst snd].
  apply (stream_fold machine iter_offset trace_length first Hepc Hov rest []
           _ _ Hnd Hr).
  intros x Hx. eapply contains_merge_new; [by left|].
  unfold in_range. simpl.
  pose proof (Z.mod_pos_bound (first + 1) (elements_per_cacheline machine) Hepc).
  lia.
Qed.

Lemma stream_in_reach_has_one_miss_witness :
  exists c,
    trace_offsets snb 1 0 [7; 6; 5; 4; 3; 2; 1; 0]
    = Ok ([7], [6; 5; 4; 3; 2; 1; 0], c).
Proof.
  apply (stream_in_reach_has_one_miss snb 1 0 7 [6; 5; 4; 3; 2; 1; 0]).
  - vm_compute. reflexivity.
  - vm_compute. discriminate.
  - apply (bool_decide_unpack _). vm_compute. reflexivity.
  - intros x Hx. repeat (apply elem_of_cons in Hx as [->|Hx]; [vm_compute; split; discriminate|]).
    by apply elem_of_nil in Hx.
Defined.

(** ** The results of [ECMData] *)

Lemma removelast_lookup {A : Type} (l : list A) (i : nat) (x : A) :
  List.removelast l !! i = Some x -> l !! i = Some x /\ (S i < List.length l)%nat.
Proof.
  revert i. induction l as [|a l IH]; intros i H; [done|].
  destruct l as [|b l]; [done|]. change (List.removelast (a :: b :: l))
    with (a :: List.removelast (b :: l)) in H.
  destruct i as [|i]; simpl in *.
  - split; [done|lia].
  - destruct (IH i H) as [? ?]. split; [done|lia].
Qed.

(** X18: [ECMData.calculate_cache_access] numbers the levels by their index in
    the memory hierarchy, from [0], and never simulates the last entry: every
    key of its results is ['L{i}-L{i+1}'], for an entry [i] before the last
    whose transfer cost is non-zero, or ['L{i}-MEM'], for an entry [i]
    before the last without a transfer cost or with the cost zero. *)
Theorem ecmdata_result_keys {fl : FloatOps} (kernel : Kernel) (clock_ : num fl)
    (cacheline_size : Z) (hierarchy : list (hierarchy_entry fl)) (fuel : nat)
    (results : dict string (num fl)) :
  calculate_cache_access kernel (ecmdata_machine clock_ cacheline_size hierarchy)
                         fuel = Some (Ok results) ->
  forall key, key ∈ dkeys results ->
    exists (i : nat) e,
      hierarchy !! i = Some e /\ (S i < List.length hierarchy)%nat /\
      key = if opt_truthy fl (h_cycles e) then label_next (Z.of_nat i)
            else label_mem (Z.of_nat i).
Proof.
  unfold calculate_cache_access, calculate_cache_access_stats. intros H key Hkey.
  destruct (compile_offsets _ _) as [[r w]|]; [|done].
  destruct (levels_loop _ _ _ _ _ _ _) as [[[res stats]|]|] eqn:El; try done.
  injection H as ->. apply levels_loop_results in El.
  destruct (results_chain_keys _ _ _ _ _ key El Hkey) as [Hin|(lv & Hin & ->)].
  { by apply elem_of_nil in Hin. }
  simpl in Hin. unfold ecmdata_stack in Hin.
  apply elem_of_lookup_imap in Hin as (i & e & -> & Hi).
  apply removelast_lookup in Hi as [Hi Hlen].
  exists i, e. by split_and!.
Qed.

Lemma ecmdata_result_keys_witness :
  calculate_cache_access daxpy_kernel
    (ecmdata_machine (NFloat (inject_Z 2700000000 : F QFloat)) 64
       [mkEntry (32 * 1024) (Some (NInt 2)) (NInt 0);
        mkEntry (256 * 1024) None (NFloat (inject_Z 40000000000 : F QFloat));
        mkEntry 0 None (NInt 0)]) driver_fuel
  = Some (Ok [("L0-L1", NFloat (inject_Z 6 : F QFloat));
              ("L1-MEM", NFloat (inject_Z 13 : F QFloat))]) /\
  forall key,
    key ∈ dkeys [("L0-L1", NFloat (inject_Z 6 : F QFloat));
                 ("L1-MEM", NFloat (inject_Z 13 : F QFloat))] ->
    exists (i : nat) e,
      [mkEntry (32 * 1024) (Some (NInt 2)) (NInt 0);
       mkEntry (256 * 1024) None (NFloat (inject_Z 40000000000 : F QFloat));
       mkEntry 0 None (NInt 0)] !! i = Some e /\
      (S i < 3)%nat /\
      key = if opt_truthy QFloat (h_cycles e) then label_next (Z.of_nat i)
            else label_mem (Z.of_nat i).
Proof.
  split; [vm_compute; reflexivity|].
  apply (ecmdata_result_keys daxpy_kernel (NFloat (inject_Z 2700000000 : F QFloat)) 64
           [mkEntry (32 * 1024) (Some (NInt 2)) (NInt 0);
            mkEntry (256 * 1024) None (NFloat (inject_Z 40000000000 : F QFloat));
            mkEntry 0 None (NInt 0)]
           driver_fuel).
  vm_compute. reflexivity.
Defined.

(** ** Scalars *)

Lemma empty_table_get (kernel : Kernel) (name : string) :
  name ∈ dkeys (_variables kernel) ->
  dget String.eqb (empty_table kernel) name = Some [].
Proof.
  unfold empty_table.
  assert (H : forall names (t : offsets_table),
            name ∈ names \/ dget String.eqb t name = Some [] ->
            dget String.eqb
              (fold_left (fun t n => dset String.eqb t n []) names t) name = Some []).
  { induction names as [|n names IH]; intros t Hn; simpl.
    - destruct Hn as [Hn|?]; [by apply elem_of_nil in Hn|done].
    - apply IH. destruct (decide (n = name)) as [->|Hne].
      + right. apply (dget_dset_eq _ String.eqb_eq).
      + destruct Hn as [Hn|Hn].
        * left. by apply elem_of_cons in Hn as [?|?].
        * right. by rewrite (dget_dset_ne _ String.eqb_eq). }
  intros Hin. apply H. by left.
Qed.

Lemma table_set_other (t t' : offsets_table) (n i name : string) (l : list Z) :
  table_set t n i l = Ok t' -> n <> name ->
  dget String.eqb t' name = dget String.eqb t name.
Proof.
  unfold table_set. destruct (dindex String.eqb t n) as [d|]; [|done].
  simpl. intros [= <-] Hne. by apply (dget_dset_ne _ String.eqb_eq).
Qed.

(** X19: A variable declared without a shape, a scalar, is skipped by
    [calculate_cache_access]: it has no read offset and no write offset,
    whatever the accesses to it in the kernel. *)
Theorem scalars_have_no_offsets {fl : FloatOps} (kernel : Kernel)
    (machine : MachineModel fl) (read_offsets write_offsets : offsets_table)
    (name ty : string) :
  compile_offsets kernel machine = Ok (read_offsets, write_offsets) ->
  dget String.eqb (_variables kernel) name = Some (ty, None) ->
  dget String.eqb read_offsets name = Some [] /\
  dget String.eqb write_offsets name = Some [].
Proof.
  intros H Hv. unfold compile_offsets in H.
  set (P := fun rw : offsets_table * offsets_table =>
              dget String.eqb (fst rw) name = Some [] /\
              dget String.eqb (snd rw) name = Some []).
  enough (P (read_offsets, write_offsets)) by done.
  revert H. apply (foldM_inv P).
  - intros var rw rw' _ [Hr Hw]. unfold compile_variable.
    destruct (dindex String.eqb (_variables kernel) (fst var)) as [info|] eqn:Ei;
      [|done].
    simpl. destruct (snd info) as [ds|] eqn:Eds; [|by intros [= <-]].
    assert (Hne : fst var <> name).
    { intros Heq. unfold dindex in Ei. rewrite Heq, Hv in Ei.
      injection Ei as <-. done. }
    destruct (filterM _ _) as [writes|]; [|done]. simpl.
    destruct (filterM _ _) as [reads|]; [|done]. simpl.
    assert (Hacc : forall l t t',
              foldM (compile_access kernel (fst var)) l t = Ok t' ->
              dget String.eqb t name = Some [] -> dget String.eqb t' name = Some []).
    { intros l t t' Hf Ht. revert Hf.
      apply (foldM_inv (fun t => dget String.eqb t name = Some [])); [|done].
      intros acs y y' _ Hy Hs.
      apply compile_access_table_set in Hs as (idx & o & _ & Hs).
      cbv beta in *. by etrans; [apply (table_set_other _ _ _ _ name _ Hs Hne)|]. }
    assert (Hun : forall i l t t',
              foldM (unroll_access kernel (fst var) i) l t = Ok t' ->
              dget String.eqb t name = Some [] -> dget String.eqb t' name = Some []).
    { intros i l t t' Hf Ht. revert Hf.
      apply (foldM_inv (fun t => dget String.eqb t name = Some [])); [|done].
      intros acs y y' _ Hy Hs.
      apply unroll_access_table_set in Hs as (idx & l0 & _ & Hs).
      cbv beta in *. by etrans; [apply (table_set_other _ _ _ _ name _ Hs Hne)|]. }
    destruct (foldM (compile_access kernel (fst var)) reads (fst rw)) as [r1|] eqn:Er;
      [|done]. simpl.
    destruct (foldM (compile_access kernel (fst var)) writes (snd rw)) as [w1|] eqn:Ew;
      [|done]. simpl.
    apply (foldM_inv P); [|split; eauto].
    intros i [r3 w3] y' _ [Hr3 Hw3] Hs. simpl in *.
    destruct (foldM (unroll_access kernel (fst var) i) reads r3) as [r4|] eqn:Er4;
      [|done]. simpl in Hs.
    destruct (foldM (unroll_access kernel (fst var) i) writes w3) as [w4|] eqn:Ew4;
      [|done]. simpl in Hs. injection Hs as <-. split; simpl; eauto.
  - assert (Hin : name ∈ dkeys (_variables kernel)).
    { apply elem_of_dkeys. exists (ty, None). by apply dget_str_elem. }
    split; by apply empty_table_get.
Qed.

Lemma scalars_have_no_offsets_witness :
  dget String.eqb daxpy_reads "s" = Some [] /\
  dget String.eqb daxpy_writes "s" = Some [].
Proof.
  apply (scalars_have_no_offsets daxpy_kernel snb daxpy_reads daxpy_writes "s" "double");
    vm_compute; reflexivity.
Defined.

(** ** [MachineModel.parse_dict] *)

(** X20: [parse_dict] never builds a machine model: the description it reads has
    the key ['caheline'], the lookup of ['cacheline'] raises [KeyError], for
    every argument. *)
Theorem parse_dict_raises (input : dict string machine_value) :
  parse_dict input = Raise KeyError /\
  dget String.eqb parse_dict_input "cacheline" = None /\
  dget String.eqb parse_dict_input "caheline" = Some (MText "64 B").
Proof. by split_and!. Qed.

(** ** [AppendStringInteger] *)

(** X21: The action of [-D KEY VALUE] raises [ArgumentError] exactly when it is
    not given two values or the second is not an integer; otherwise the pair,
    with the second value converted, is appended to the list of [dest] (a
    new list when the namespace has none), and the other attributes of the
    namespace are as before. *)
Theorem append_string_integer_outcome (dest : string)
    (namespace : dict string (list (list arg_value))) (values : list literal) :
  match values with
  | [key; IntLit z] =>
      exists namespace',
        append_string_integer dest namespace values = ArgOk namespace' /\
        dget String.eqb namespace' dest
        = Some (match dget String.eqb namespace dest with
                | Some l => l
                | None => []
                end ++ [[ArgText key; ArgInt z]]) /\
        forall other, other <> dest ->
          dget String.eqb namespace' other = dget String.eqb namespace other
  | [_; OtherLit _] =>
      append_string_integer dest namespace values
      = ArgumentError "second argument requires an integer"
  | _ =>
      append_string_integer dest namespace values
      = ArgumentError "requires 2 arguments"
  end.
Proof.
  destruct values as [|key [|value [|third rest]]]; try done;
    destruct value as [z|text]; try done.
  unfold append_string_integer. simpl.
  destruct (dget String.eqb namespace dest) as [l|] eqn:E.
  - eexists. split; [done|]. split.
    + apply (dget_dset_eq _ String.eqb_eq).
    + intros other Hne. apply (dget_dset_ne _ String.eqb_eq). by intros ->.
  - eexists. split; [done|]. split.
    + apply (dget_dset_eq _ String.eqb_eq).
    + intros other Hne. apply (dget_dset_ne _ String.eqb_eq). by intros ->.
Qed.

(** ** [prefix_indent] *)

Lemma string_app_cons (x : ascii) (a b : string) :
  (String x a ++ b)%string = String x (a ++ b).
Proof. reflexivity. Qed.

Lemma string_app_assoc (a b c : string) :
  ((a ++ b) ++ c = a ++ b ++ c)%string.
Proof.
  induction a as [|x a IH]; [done|]. rewrite !string_app_cons. by rewrite IH.
Qed.

Lemma no_newline_app (a b : string) :
  no_newline (a ++ b) = no_newline a && no_newline b.
Proof.
  induction a as [|x a IH]; [done|]. rewrite string_app_cons. simpl.
  rewrite IH. by rewrite andb_assoc.
Qed.

Lemma no_newline_spaces (n : nat) : no_newline (spaces n) = true.
Proof. induction n as [|n IH]; simpl; [done|]. by rewrite IH. Qed.

Lemma split_lines_cons (s : string) :
  exists first rest, split_lines s = first :: rest.
Proof.
  induction s as [|c s (first & rest & IH)]; simpl; [by eexists _, _|].
  rewrite IH. destruct (Ascii.eqb c newline); by eexists _, _.
Qed.

Lemma split_lines_no_newline (s : string) :
  Forall (fun l => no_newline l = true) (split_lines s).
Proof.
  induction s as [|c s IH]; simpl; [by repeat constructor|].
  destruct (Ascii.eqb c newline) eqn:E; [by constructor|].
  destruct (split_lines s) as [|l ls]; [by repeat constructor; simpl; rewrite E|].
  apply Forall_cons in IH as [Hl Hls]. constructor; [|done].
  simpl. by rewrite E, Hl.
Qed.

Lemma split_lines_app_nl (x y : string) :
  no_newline x = true ->
  split_lines (x ++ String newline y) = x :: split_lines y.
Proof.
  induction x as [|c x IH]; intros H.
  - change ("" ++ String newline y)%string with (String newline y).
    done.
  - simpl in H. apply andb_true_iff in H as [Hc Hx]. apply negb_true_iff in Hc.
    rewrite string_app_cons. simpl. by rewrite Hc, IH.
Qed.

Lemma split_lines_line (x : string) :
  no_newline x = true -> split_lines x = [x].
Proof.
  induction x as [|c x IH]; simpl; intros H; [done|].
  apply andb_true_iff in H as [Hc Hx]. apply negb_true_iff in Hc.
  by rewrite Hc, IH.
Qed.

Lemma split_lines_snoc_nl (s : string) :
  split_lines (s ++ nl) = split_lines s ++ [EmptyString].
Proof.
  induction s as [|c s IH].
  - done.
  - rewrite string_app_cons. simpl. rewrite IH.
    destruct (Ascii.eqb c newline); [done|].
    destruct (split_lines_cons s) as (first & rest & ->). done.
Qed.

Lemma split_join_lines (l : list string) :
  l <> [] -> Forall (fun x => no_newline x = true) l ->
  split_lines (join_lines l) = l.
Proof.
  induction l as [|x l IH]; intros Hne Hl; [done|].
  apply Forall_cons in Hl as [Hx Hl]. destruct l as [|y l].
  - simpl. by apply split_lines_line.
  - change (join_lines (x :: y :: l))
      with (x ++ String newline (join_lines (y :: l)))%string.
    rewrite split_lines_app_nl by done. by rewrite IH.
Qed.

Lemma last_char_body (s l : string) :
  last_char s = Ok l -> exists body, s = (body ++ l)%string.
Proof.
  induction s as [|c s IH]; [done|]. cbn [last_char].
  destruct s as [|c' s'].
  - intros [= <-]. by exists EmptyString.
  - intros H. destruct (IH H) as [body Hb]. exists (String c body).
    by rewrite string_app_cons, <- Hb.
Qed.

Lemma last_char_cons (c : ascii) (s : string) :
  exists l, last_char (String c s) = Ok l.
Proof.
  revert c. induction s as [|c' s IH]; intros c; [by eexists|].
  cbn [last_char]. apply IH.
Qed.

(** X22: [prefix_indent] never raises and its result ends with a line break,
    whatever its arguments.  When the prefixes have no line break, the lines
    of the result are the lines of the text block, the first one after
    [prefix] and each later one after the later prefix, where a later prefix
    of one character is replaced by as many spaces as [prefix] has characters;
    an empty line follows them unless the last of these lines is empty. *)
Theorem prefix_indent_lines (prefix textblock later_prefix : string) :
  exists out first rest,
    prefix_indent prefix textblock later_prefix = Ok out /\
    split_lines textblock = first :: rest /\
    (exists body, out = (body ++ nl)%string) /\
    (no_newline prefix = true -> no_newline later_prefix = true ->
     let lp := if Nat.eqb (String.length later_prefix) 1
               then spaces (String.length prefix) else later_prefix in
     let lines := (prefix ++ first)%string :: map (fun x => lp ++ x)%string rest in
     split_lines out = lines ++ [EmptyString] \/
     (rest <> [] /\ last lines = Some EmptyString /\ split_lines out = lines)).
Proof.
  unfold prefix_indent.
  pose proof (split_lines_no_newline textblock) as Hlines.
  destruct (split_lines textblock) as [|first rest] eqn:Et.
  { destruct (split_lines_cons textblock) as (? & ? & ?). congruence. }
  apply Forall_cons in Hlines as [Hfirst Hrest].
  set (lp := if Nat.eqb (String.length later_prefix) 1
             then spaces (String.length prefix) else later_prefix).
  set (J := join_lines (map (fun x => lp ++ x)%string rest)).
  assert (Hs : ((prefix ++ first ++ nl) ++ J
                = (prefix ++ first) ++ String newline J)%string).
  { unfold nl. by rewrite !string_app_assoc. }
  rewrite Hs.
  destruct (last_char_cons newline J) as [l Hl].
  assert (Hend : last_char ((prefix ++ first) ++ String newline J) = Ok l)
    by by rewrite last_char_app.
  rewrite Hend. cbn [bind].
  assert (Hlater : no_newline prefix = true -> no_newline later_prefix = true ->
            split_lines ((prefix ++ first) ++ String newline J)
            = (prefix ++ first)%string :: split_lines J /\
            (rest <> [] -> split_lines J = map (fun x => lp ++ x)%string rest)).
  { intros Hp Hlp.
    assert (Hlp' : no_newline lp = true).
    { unfold lp. destruct (Nat.eqb _ 1); [apply no_newline_spaces|done]. }
    split.
    - apply split_lines_app_nl. by rewrite no_newline_app, Hp, Hfirst.
    - intros Hne. apply split_join_lines; [by destruct rest|].
      apply Forall_fmap. eapply Forall_impl; [exact Hrest|]. intros x Hx. simpl.
      by rewrite no_newline_app, Hlp', Hx. }
  destruct (String.eqb l nl) eqn:El; cbn [negb].
  - apply String.eqb_eq in El. subst l.
    eexists _, first, rest. split_and!; [done|done|by apply last_char_body in Hend|].
    intros Hp Hlp. destruct (Hlater Hp Hlp) as [Hsplit HJ].
    destruct rest as [|r rest].
    + left. by rewrite Hsplit.
    + right. rewrite Hsplit, HJ by done. split_and!; [done| |done].
      rewrite <- HJ, <- Hsplit by done.
      apply last_char_body in Hend as [body ->].
      rewrite split_lines_snoc_nl. by rewrite last_snoc.
  - eexists _, first, rest. split_and!; [done|done|by eexists|].
    intros Hp Hlp. destruct (Hlater Hp Hlp) as [Hsplit HJ].
    destruct rest as [|r rest].
    + simpl in J. subst J. simpl in Hl. injection Hl as <-.
      by rewrite String.eqb_refl in El.
    + left. by rewrite split_lines_snoc_nl, Hsplit, HJ.
Qed.

(** The heading of a table of variables, and a text block with prefixes
    that hold a line break. *)
Lemma prefix_indent_lines_witness :
  (exists out first rest,
     prefix_indent "variables: " "    name |   type size" " " = Ok out /\
     split_lines "    name |   type size" = first :: rest /\
     (exists body, out = (body ++ nl)%string) /\
     let lp := if Nat.eqb (String.length " ") 1
               then spaces (String.length "variables: ") else " " in
     let lines := ("variables: " ++ first)%string
                  :: map (fun x => lp ++ x)%string rest in
     split_lines out = lines ++ [EmptyString] \/
     (rest <> [] /\ last lines = Some EmptyString /\ split_lines out = lines)) /\
  (exists out,
     prefix_indent ("a" ++ nl ++ "b") ("x" ++ nl ++ "y") ("  " ++ nl) = Ok out /\
     exists body, out = (body ++ nl)%string).
Proof.
  split.
  - destruct (prefix_indent_lines "variables: " "    name |   type size" " ")
      as (out & first & rest & H1 & H2 & H3 & H4).
    exists out, first, rest. split_and!; [exact H1|exact H2|exact H3|].
    apply H4; vm_compute; reflexivity.
  - destruct (prefix_indent_lines ("a" ++ nl ++ "b") ("x" ++ nl ++ "y") ("  " ++ nl))
      as (out & first & rest & H1 & _ & H3 & _).
    exists out. split; [exact H1|exact H3].
Defined.

(** ** The order of the candidates, the misses and the hits *)

Lemma list_remove_sorted (R : Z -> Z -> Prop) (x : Z) (l : list Z) :
  StronglySorted R l -> StronglySorted R (list_remove x l).
Proof.
  induction 1 as [|y l Hs IH Hall]; simpl; [constructor|].
  destruct (x =? y); [done|]. constructor; [done|].
  rewrite Forall_forall in *. intros z Hz. apply Hall.
  by eapply list_remove_subset.
Qed.

Lemma sorted_gt_snoc (h : list Z) (o : Z) :
  StronglySorted Z.gt h -> (forall x, x ∈ h -> x > o) ->
  StronglySorted Z.gt (h ++ [o]).
Proof.
  induction 1 as [|y l Hs IH Hall]; intros Ho; simpl.
  - repeat constructor.
  - constructor.
    + apply IH. intros x Hx. apply Ho. by right.
    + rewrite Forall_forall in *. intros z Hz.
      apply elem_of_app in Hz as [Hz|Hz]; [by apply Hall|].
      apply list_elem_of_singleton in Hz. subst z. apply Ho. by left.
Qed.

Lemma py_sorted_rev_sorted (l : list Z) : StronglySorted Z.ge (py_sorted_rev l).
Proof.
  unfold py_sorted_rev.
  apply StronglySorted_merge_sort; [intros x y z; lia|intros x y; lia].
Qed.

Section SortedTrace.
Context {fl : FloatOps} (machine : MachineModel fl).
Context (iter_offset trace_length : Z).

Lemma trace_fold_sorted (rest : list Z) (st st' : trace_state) :
  StronglySorted Z.ge rest ->
  StronglySorted Z.ge (fst (fst st)) ->
  StronglySorted Z.gt (snd (fst st)) ->
  (forall x y, x ∈ snd (fst st) -> y ∈ rest -> x >= y) ->
  foldM (trace_step machine iter_offset trace_length) rest st = Ok st' ->
  StronglySorted Z.ge (fst (fst st')) /\ StronglySorted Z.gt (snd (fst st')).
Proof.
  revert st. induction rest as [|o rest IH]; intros st Hrest Hm Hh Hge H;
    simpl in H.
  - by injection H as <-.
  - destruct (trace_step machine iter_offset trace_length st o) as [st1|] eqn:Es;
      [|done]. simpl in H.
    apply StronglySorted_inv in Hrest as [Hrest Ho].
    rewrite Forall_forall in Ho.
    destruct st as [[m h] c]. simpl in *.
    apply trace_step_ok in Es as (rs & _ & [(_ & _ & ->)|(_ & ->)]).
    + eapply (IH _ Hrest); [| | |exact H]; simpl.
      * by apply list_remove_sorted.
      * destruct (zmem o h) eqn:Eo; [done|]. apply zmem_false in Eo.
        apply sorted_gt_snoc; [done|]. intros x Hx.
        assert (x >= o) by (apply Hge; [done|by left]).
        assert (x <> o) by (by intros ->). lia.
      * intros x y Hx Hy.
        assert (Hx' : x ∈ h \/ x = o).
        { destruct (zmem o h); [by left|].
          apply elem_of_app in Hx as [?|Hx]; [by left|].
          right. by apply list_elem_of_singleton in Hx. }
        destruct Hx' as [Hx'| ->]; [apply Hge; [done|by right]|by apply Ho].
    + eapply (IH _ Hrest); [| | |exact H]; simpl; try done.
      intros x y Hx Hy. apply Hge; [done|by right].
Qed.

Lemma trace_offsets_sorted (cands m h : list Z) (c : Intervals.t) :
  StronglySorted Z.ge cands ->
  trace_offsets machine iter_offset trace_length cands = Ok (m, h, c) ->
  StronglySorted Z.ge m /\ StronglySorted Z.gt h.
Proof.
  intros Hc H. unfold trace_offsets in H.
  apply trace_fold_sorted in H; simpl; try done; [constructor|].
  intros x y Hx. by apply elem_of_nil in Hx.
Qed.
End SortedTrace.

Lemma levels_loop_sorted {fl : FloatOps} (kernel : Kernel)
    (machine : MachineModel fl) (read_offsets write_offsets : offsets_table)
    (fuel : nat) (stack : list (cache_level_info fl))
    (misses : dict Z offsets_table) (results res : dict string (num fl))
    (stats : list level_stats) :
  (forall lvl t, dget Z.eqb misses lvl = Some t ->
     forall n i, StronglySorted Z.ge (table_get t n i)) ->
  levels_loop kernel machine fuel read_offsets write_offsets (misses, results)
              stack = Some (Ok (res, stats)) ->
  forall st, st ∈ stats ->
    forall n i,
      StronglySorted Z.ge (table_get (s_candidates st) n i) /\
      StronglySorted Z.ge (table_get (s_misses st) n i) /\
      StronglySorted Z.gt (table_get (s_hits st) n i).
Proof.
  revert misses results stats. induction stack as [|lv stack IH];
    intros misses results stats Hmiss H st Hst.
  - simpl in H. injection H as <- <-. by apply elem_of_nil in Hst.
  - rewrite levels_loop_cons in H.
    destruct (level_step _ _ _ _ _ _ lv) as [[[[m1 r1] st0]|]|] eqn:Es; try done.
    destruct (levels_loop _ _ _ _ _ _ stack) as [[[r2 ss]|]|] eqn:El; try done.
    injection H as <- <-.
    apply level_step_ok in Es as (p & t & h & kv & Hl & Hf & _ & -> & _).
    apply level_loop_pass in Hl.
    pose proof (level_pass_pairs _ _ _ _ _ _ _ _ Hl) as [Hi _].
    apply level_finish_fields in Hf as (Hc & Hm & Hh & _).
    assert (Hcand : forall n i, StronglySorted Z.ge (table_get (p_candidates p) n i)).
    { intros n i. unfold table_get.
      destruct (dget String.eqb (p_candidates p) n) as [d|] eqn:Ed; [|constructor].
      destruct (dget String.eqb d i) as [l|] eqn:Ei; [|constructor].
      pose proof (init_misses_candidates _ _ _ _ _ Hi n d i l Ed Ei) as Hcd.
      unfold candidates in Hcd.
      destruct (dget Z.eqb misses (lv_level lv - 1)) as [prev|] eqn:Ep.
      - apply table_index_get in Hcd. rewrite <- Hcd. by eapply Hmiss.
      - injection Hcd as <-. apply py_sorted_rev_sorted. }
    assert (Hsorted : forall n i,
              StronglySorted Z.ge (table_get (p_misses p) n i) /\
              StronglySorted Z.gt (table_get (p_hits p) n i)).
    { intros n i.
      apply (level_pass_rel kernel machine
               (fun c m h => StronglySorted Z.ge c ->
                             StronglySorted Z.ge m /\ StronglySorted Z.gt h)
               misses (lv_level lv) read_offsets write_offsets t p);
        [| |exact Hl|apply Hcand].
      - intros c Hc0. split; [done|constructor].
      - intros var idx cands m0 h0 c0 Ht Hc0. unfold trace_pair in Ht.
        destruct (last_char _) as [inner|]; [|done]. simpl in Ht.
        destruct (_calculate_iteration_offset _ _ _ _) as [io|]; [|done].
        simpl in Ht. by eapply trace_offsets_sorted. }
    apply elem_of_cons in Hst as [->|Hst].
    + intros n i. rewrite Hc, Hm, Hh. destruct (Hsorted n i). by split_and!.
    + eapply IH; [|exact El|exact Hst].
      intros lvl t0 Hget. destruct (decide (lv_level lv = lvl)) as [<-|Hne].
      * rewrite (dget_dset_eq _ Z.eqb_eq) in Hget. injection Hget as <-.
        rewrite Hm. intros n i. apply Hsorted.
      * rewrite (dget_dset_ne _ Z.eqb_eq) in Hget by done. by eapply Hmiss.
Qed.

(** X23: At every cache level and for every (variable, index order) pair, the
    candidates and the remaining misses are in descending order and the hits
    in strictly descending order: the list that a level hands to the next one
    is sorted in reverse order of access, as the trace assumes. *)
Theorem levels_keep_descending_order {fl : FloatOps} (kernel : Kernel)
    (machine : MachineModel fl) (fuel : nat)
    (results : dict string (num fl)) (stats : list level_stats) :
  calculate_cache_access_stats kernel machine fuel = Some (Ok (results, stats)) ->
  forall st, st ∈ stats ->
    forall name idx,
      StronglySorted Z.ge (table_get (s_candidates st) name idx) /\
      StronglySorted Z.ge (table_get (s_misses st) name idx) /\
      StronglySorted Z.gt (table_get (s_hits st) name idx).
Proof.
  unfold calculate_cache_access_stats. intros H.
  destruct (compile_offsets kernel machine) as [[r w]|]; [|done].
  eapply levels_loop_sorted; [|exact H]. done.
Qed.

Lemma levels_keep_descending_order_witness :
  calculate_cache_access_stats daxpy_kernel snb driver_fuel = Some (Ok daxpy_run) /\
  forall st, st ∈ snd daxpy_run ->
    forall name idx,
      StronglySorted Z.ge (table_get (s_candidates st) name idx) /\
      StronglySorted Z.ge (table_get (s_misses st) name idx) /\
      StronglySorted Z.gt (table_get (s_hits st) name idx).
Proof.
  split; [vm_compute; reflexivity|].
  apply (levels_keep_descending_order daxpy_kernel snb driver_fuel (fst daxpy_run)).
  vm_compute. reflexivity.
Defined.

(** ** The accesses that [process] records *)

Lemma reference_access_loops (k k1 : Kernel) (name : string) (ref : node) :
  loop_names k1 = loop_names k ->
  reference_access k1 name ref = reference_access k name ref.
Proof.
  intros H. destruct ref; try done. unfold reference_access.
  by rewrite (get_offsets_loops k k1 _ H).
Qed.

Lemma p_sources_records (stmt : node) (k k' : Kernel) :
  _p_sources stmt k = (Ok tt, k') ->
  _loop_stack k' = _loop_stack k /\ _destinations k' = _destinations k /\
  forall name,
    accesses_of (_sources k') name
    = accesses_of (_sources k) name ++
      flat_map (reference_access k name) (references stmt).
Proof.
  revert k k'.
  induction stmt as [n|v|op l IHl r IHr| |aname _ sub _| | | | | |];
    intros k k' H; try done.
  - simpl in H. unfold kmodify in H. injection H as <-. simpl.
    split_and!; try done. intros name.
    by rewrite accesses_of_record, app_nil_r.
  - simpl in H. unfold kret in H. injection H as <-.
    split_and!; try done. intros name. by rewrite app_nil_r.
  - simpl in H. unfold kbind in H.
    destruct (_p_sources l k) as [[[]|] k1] eqn:E1; [|done].
    destruct (IHl _ _ E1) as (Hl1 & Hd1 & Hs1).
    destruct (IHr _ _ H) as (Hl2 & Hd2 & Hs2).
    split_and!; [congruence..|]. intros name.
    rewrite Hs2, Hs1. simpl. rewrite flat_map_app, <- app_assoc. do 2 f_equal.
    apply flat_map_ext. intros ref. apply reference_access_loops.
    unfold loop_names. by rewrite Hl1.
  - cbn -[_get_basename _get_offsets] in H. unfold kbind, kread, kmodify in H.
    destruct (_get_basename (ArrayRef aname sub)) as [bname|] eqn:Eb; [|done].
    destruct (_get_offsets _ (ArrayRef aname sub)) as [offs|] eqn:Eo; [|done].
    injection H as <-. cbn [_loop_stack _destinations _sources set_sources].
    split_and!; try done. intros name.
    rewrite accesses_of_record, accesses_of_touch.
    cbn [references flat_map]. rewrite app_nil_r. f_equal.
    unfold reference_access. rewrite Eb.
    rewrite (get_offsets_loops k _ (ArrayRef aname sub)) in Eo by done.
    by rewrite Eo.
Qed.

(** X24: When [_p_assignment] accepts a statement, the access of its left-hand
    side has been appended to the destinations of its base name, and the
    accesses of the references of its right-hand side have been appended to
    the sources of their base names, once each and in the order of the source
    text; nothing else of the kernel has changed. *)
Theorem assignment_records_accesses (op : string) (lvalue rvalue : node)
    (k k' : Kernel) :
  _p_assignment (Assignment op lvalue rvalue) k = (Ok tt, k') ->
  _loop_stack k' = _loop_stack k /\ _constants k' = _constants k /\
  _variables k' = _variables k /\
  forall name,
    accesses_of (_destinations k') name
    = accesses_of (_destinations k) name ++ reference_access k name lvalue /\
    accesses_of (_sources k') name
    = accesses_of (_sources k) name ++
      flat_map (reference_access k name) (references rvalue).
Proof.
  intros H.
  destruct (keeps_p_assignment _ _ _ _ H) as [Hc Hv].
  destruct lvalue as [n| | | |aname sub| | | | | |]; try done.
  - cbn -[_p_sources] in H. unfold kbind, kmodify in H.
    apply p_sources_records in H as (Hl & Hd & Hs). simpl in *.
    split_and!; try done. intros name. split.
    + rewrite Hd. by rewrite accesses_of_record.
    + rewrite Hs. f_equal. apply flat_map_ext. intros ref.
      by apply reference_access_loops.
  - cbn -[_get_basename _get_offsets _p_sources] in H.
    unfold kbind, kread, kmodify in H.
    destruct (_get_basename (ArrayRef aname sub)) as [bname|] eqn:Eb; [|done].
    destruct (_get_offsets _ (ArrayRef aname sub)) as [offs|] eqn:Eo; [|done].
    apply p_sources_records in H as (Hl & Hd & Hs).
    cbn [_loop_stack _destinations _sources set_destinations] in *.
    split_and!; try done. intros name. split.
    + rewrite Hd, accesses_of_record, accesses_of_touch. f_equal.
      unfold reference_access. rewrite Eb.
      rewrite (get_offsets_loops k _ (ArrayRef aname sub)) in Eo by done.
      by rewrite Eo.
    + rewrite Hs. f_equal. apply flat_map_ext. intros ref.
      by apply reference_access_loops.
Qed.

Lemma assignment_records_accesses_witness :
  _loop_stack (snd (_p_assignment daxpy_statement daxpy_loop_kernel))
    = _loop_stack daxpy_loop_kernel /\
  _constants (snd (_p_assignment daxpy_statement daxpy_loop_kernel))
    = _constants daxpy_loop_kernel /\
  _variables (snd (_p_assignment daxpy_statement daxpy_loop_kernel))
    = _variables daxpy_loop_kernel /\
  forall name,
    accesses_of (_destinations (snd (_p_assignment daxpy_statement daxpy_loop_kernel)))
                name
    = accesses_of (_destinations daxpy_loop_kernel) name ++
      reference_access daxpy_loop_kernel name (ArrayRef (ID "a") (ID "i")) /\
    accesses_of (_sources (snd (_p_assignment daxpy_statement daxpy_loop_kernel)))
                name
    = accesses_of (_sources daxpy_loop_kernel) name ++
      flat_map (reference_access daxpy_loop_kernel name)
        (references (BinaryOp "+" (ArrayRef (ID "a") (ID "i"))
                       (BinaryOp "*" (ID "s") (ArrayRef (ID "b") (ID "i"))))).
Proof.
  apply (assignment_records_accesses "=" (ArrayRef (ID "a") (ID "i"))
           (BinaryOp "+" (ArrayRef (ID "a") (ID "i"))
              (BinaryOp "*" (ID "s") (ArrayRef (ID "b") (ID "i"))))
           daxpy_loop_kernel).
  vm_compute. reflexivity.
Defined.

(** The accesses of DAXPY: [a] is written, and [a], [s] and [b] are read,
    in this order. *)
Example daxpy_accesses :
  _destinations daxpy_kernel = [("a", [[Rel "i" 0]])] /\
  _sources daxpy_kernel
  = [("a", [[Rel "i" 0]]); ("s", [[Dir]]); ("b", [[Rel "i" 0]])].
Proof. split; vm_compute; reflexivity. Qed.

(** ** The iteration offset *)

Lemma iteration_offset_absent (dims : option (list Z)) (l : list string)
    (loop_index : string) (dim : nat) (offset : Z) :
  (forall j, l !! j <> Some loop_index) ->
  iteration_offset_from dims dim l loop_index offset = Ok offset.
Proof.
  revert dim. induction l as [|x l IH]; intros dim H; simpl; [done|].
  destruct (String.eqb_spec loop_index x) as [->|_].
  - by destruct (H 0%nat).
  - apply IH. intros j. apply (H (S j)).
Qed.

Lemma iteration_offset_at (ds : list Z) (l : list string) (loop_index : string)
    (d dim : nat) (offset : Z) :
  l !! d = Some loop_index ->
  (forall j, j <> d -> l !! j <> Some loop_index) ->
  iteration_offset_from (Some ds) dim l loop_index offset
  = Ok (offset + zprod (drop (S (dim + d)) ds)).
Proof.
  revert d dim. induction l as [|x l IH]; intros d dim Hd Hu; [done|].
  destruct d as [|d]; simpl in Hd.
  - injection Hd as ->. simpl. rewrite String.eqb_refl. simpl.
    rewrite Nat.add_0_r. apply iteration_offset_absent.
    intros j. apply (Hu (S j)). lia.
  - simpl. destruct (String.eqb_spec loop_index x) as [->|_].
    + by destruct (Hu 0%nat ltac:(lia)).
    + rewrite (IH d (S dim) Hd).
      * by replace (dim + S d)%nat with (S dim + d)%nat by lia.
      * intros j Hj. apply (Hu (S j)). lia.
Qed.

(** X25: For a variable with a shape and an index order in which [loop_index]
    is the index of dimension [d] only, the iteration offset is the number of
    elements between two neighbours in that dimension: the product of the
    sizes of the dimensions after [d]. *)
Theorem iteration_offset_is_stride (kernel : Kernel)
    (name index_order loop_index ty : string) (dims : list Z) (d : nat) :
  dget String.eqb (_variables kernel) name = Some (ty, Some dims) ->
  chars index_order !! d = Some loop_index ->
  (forall j, j <> d -> chars index_order !! j <> Some loop_index) ->
  _calculate_iteration_offset kernel name index_order loop_index
  = Ok (zprod (drop (S d) dims)).
Proof.
  intros Hv Hd Hu. unfold _calculate_iteration_offset, base_dims, dindex.
  rewrite Hv. simpl. by rewrite (iteration_offset_at dims _ _ d 0%nat 0 Hd Hu).
Qed.

Lemma iteration_offset_is_stride_witness :
  _calculate_iteration_offset row5_declared_kernel "a" "ji" "j"
  = Ok (zprod (drop 1 [50; 50])).
Proof.
  apply (iteration_offset_is_stride row5_declared_kernel "a" "ji" "j" "double"
           [50; 50] 0).
  - vm_compute. reflexivity.
  - reflexivity.
  - intros [|[|j]] Hj; [done|discriminate|discriminate].
Defined.
